(** * The parser core of oniguruma-to-es, embedded in Rocq

    The source is [src/parse.js]: a recursive-descent walker that turns the
    tokenizer's flat token list into an AST whose nodes are JavaScript
    objects linked both ways (child containers and [parent] back-links),
    mutated in place while the tree is built.

    The embedding keeps that shape.  Nodes live in a store (a list indexed
    by address, grown at its end by every object creation); a node's fields
    are the object's properties; the parser functions thread the store and
    the walker's [context] explicitly and return [Ok], a thrown [Error], or
    [OutOfFuel] when a loop bound of the model is exhausted.

    Conventions of the model:
    - JavaScript numbers are exact integers ([Z]); [Infinity] is explicit in
      [Num] (a quantifier's [max]).
    - Strings are sequences of code units ([string]).
    - A property that an object does not have is [None] (scalars) or the
      empty list (the containers [elements], [alternatives], [classes]; the
      source never reads a container of a node that lacks it).
    - [CharacterClassRange.min]/[.max] hold nodes while [Quantifier.min]/
      [.max] hold numbers; the record names the former [rangeMin]/[rangeMax].
      Likewise [RegExp.flags] holds the [Flags] node and is named
      [flagsNode], while [Group.flags]/[Directive.flags] hold flag
      modifiers. *)

From Stdlib Require Import ZArith String Ascii Bool Lia.
From stdpp Require Import base option list gmap strings.

Local Open Scope Z_scope.
Local Open Scope nat_scope.

(** ** Enumerations *)

Module AstTypes.
Inductive t :=
| Alternative | Assertion | Backreference | CapturingGroup | Character
| CharacterClass | CharacterClassIntersection | CharacterClassRange
| CharacterSet | Directive | Flags | Group | Pattern | Quantifier | RegExp
| Subroutine | VariableLengthCharacterSet.

#[global] Instance eq_dec : EqDecision t.
Proof. solve_decision. Defined.
End AstTypes.

Module AstAssertionKinds.
Definition line_end : string := "line_end".
Definition line_start : string := "line_start".
Definition lookahead : string := "lookahead".
Definition lookbehind : string := "lookbehind".
Definition search_start : string := "search_start".
Definition string_end : string := "string_end".
Definition string_end_newline : string := "string_end_newline".
Definition string_start : string := "string_start".
Definition word_boundary : string := "word_boundary".
End AstAssertionKinds.

Module AstVariableLengthCharacterSetKinds.
Definition newline : string := "newline".
Definition grapheme : string := "grapheme".
End AstVariableLengthCharacterSetKinds.

(** Modelled from the spec: the tokenizer ([tokenizer.js]) is not part of
    the sources at hand.  The token types are the names the parser
    dispatches on ([TokenTypes.X]); the three closing/intersecting types are
    only ever compared against, never dispatched. *)
Module TokenTypes.
Inductive t :=
| Alternator | Assertion | Backreference | Character | CharacterClassClose
| CharacterClassHyphen | CharacterClassIntersector | CharacterClassOpen
| CharacterSet | Directive | GroupClose | GroupOpen | Quantifier
| Subroutine | VariableLengthCharacterSet.

#[global] Instance eq_dec : EqDecision t.
Proof. solve_decision. Defined.
End TokenTypes.

(** Modelled from the spec: the values of the tokenizer's kind enumerations
    (section 4.6 for groups, 3.1 and 4.5 for character sets, 3.1 for
    directives); each key is taken to be its own value, as in the parser's
    own enumerations. *)
Module TokenGroupKinds.
Definition atomic : string := "atomic".
Definition capturing : string := "capturing".
Definition group : string := "group".
Definition lookahead : string := "lookahead".
Definition lookbehind : string := "lookbehind".
End TokenGroupKinds.

Module TokenCharacterSetKinds.
Definition any : string := "any".
Definition digit : string := "digit".
Definition hex : string := "hex".
Definition posix : string := "posix".
Definition property : string := "property".
Definition space : string := "space".
Definition word : string := "word".
Definition all : list string := [any; digit; hex; posix; property; space; word].
End TokenCharacterSetKinds.

Module TokenDirectiveKinds.
Definition flags : string := "flags".
Definition keep : string := "keep".
Definition all : list string := [flags; keep].
End TokenDirectiveKinds.

(** ** Values carried by tokens and nodes *)

(** A JavaScript number as a quantifier bound: an integer or [Infinity]. *)
Inductive Num := Fin (z : Z) | Infinity.

#[global] Instance Num_eq_dec : EqDecision Num.
Proof. solve_decision. Defined.

(** [a < b] on numbers. *)
Definition Num_ltb (a b : Num) : bool :=
  match a, b with
  | Fin x, Fin y => (x <? y)%Z
  | Fin _, Infinity => true
  | Infinity, _ => false
  end.

(** The pattern-level flags handed to [parse], and a scoped flag modifier
    [{enable, disable}] of a group or directive; both are carried verbatim. *)
Record FlagValues := { ignoreCase : bool; dotAll : bool; extended : bool }.
Record FlagMods := { enable : option FlagValues; disable : option FlagValues }.

(** The [ref] of a backreference or subroutine: a number or a name; [RNaN]
    is what unary plus gives on text that is not a number. *)
Inductive Ref := RNum (z : Z) | RName (s : string) | RNaN.

(** Addresses in the object store. *)
Abbreviation addr := nat (only parsing).

Module Token.
Record t := mk {
  type : TokenTypes.t;
  raw : string;
  value : Z;
  kind : string;
  negate : option bool;
  min : Num;
  max : Num;
  greedy : bool;
  possessive : bool;
  number : Z;
  name : option string;
  property : string;
  flags : option FlagMods
}.
End Token.

Module Node.
Record t := mk {
  type : AstTypes.t;
  parent : option addr;
  elements : list addr;
  alternatives : list addr;
  classes : list addr;
  element : option addr;
  rangeMin : option addr;
  rangeMax : option addr;
  pattern : option addr;
  flagsNode : option addr;
  kind : option string;
  negate : option bool;
  atomic : option bool;
  flags : option FlagMods;
  ref : option Ref;
  value : option Z;
  number : option Z;
  name : option string;
  min : option Num;
  max : option Num;
  greedy : option bool;
  possessive : option bool;
  property : option string;
  ignoreCase : option bool;
  dotAll : option bool;
  extended : option bool
}.

Definition set_parent (v : option addr) (n : t) : t :=
  mk (type n) v (elements n) (alternatives n) (classes n) (element n) (rangeMin n)
    (rangeMax n) (pattern n) (flagsNode n) (kind n) (negate n) (atomic n) (flags n)
    (ref n) (value n) (number n) (name n) (min n) (max n) (greedy n) (possessive n)
    (property n) (ignoreCase n) (dotAll n) (extended n).
Definition set_elements (v : list addr) (n : t) : t :=
  mk (type n) (parent n) v (alternatives n) (classes n) (element n) (rangeMin n)
    (rangeMax n) (pattern n) (flagsNode n) (kind n) (negate n) (atomic n) (flags n)
    (ref n) (value n) (number n) (name n) (min n) (max n) (greedy n) (possessive n)
    (property n) (ignoreCase n) (dotAll n) (extended n).
Definition set_alternatives (v : list addr) (n : t) : t :=
  mk (type n) (parent n) (elements n) v (classes n) (element n) (rangeMin n) (rangeMax n)
    (pattern n) (flagsNode n) (kind n) (negate n) (atomic n) (flags n) (ref n) (value n)
    (number n) (name n) (min n) (max n) (greedy n) (possessive n) (property n)
    (ignoreCase n) (dotAll n) (extended n).
Definition set_classes (v : list addr) (n : t) : t :=
  mk (type n) (parent n) (elements n) (alternatives n) v (element n) (rangeMin n)
    (rangeMax n) (pattern n) (flagsNode n) (kind n) (negate n) (atomic n) (flags n)
    (ref n) (value n) (number n) (name n) (min n) (max n) (greedy n) (possessive n)
    (property n) (ignoreCase n) (dotAll n) (extended n).
Definition set_element (v : option addr) (n : t) : t :=
  mk (type n) (parent n) (elements n) (alternatives n) (classes n) v (rangeMin n)
    (rangeMax n) (pattern n) (flagsNode n) (kind n) (negate n) (atomic n) (flags n)
    (ref n) (value n) (number n) (name n) (min n) (max n) (greedy n) (possessive n)
    (property n) (ignoreCase n) (dotAll n) (extended n).
Definition set_rangeMin (v : option addr) (n : t) : t :=
  mk (type n) (parent n) (elements n) (alternatives n) (classes n) (element n) v
    (rangeMax n) (pattern n) (flagsNode n) (kind n) (negate n) (atomic n) (flags n)
    (ref n) (value n) (number n) (name n) (min n) (max n) (greedy n) (possessive n)
    (property n) (ignoreCase n) (dotAll n) (extended n).
Definition set_rangeMax (v : option addr) (n : t) : t :=
  mk (type n) (parent n) (elements n) (alternatives n) (classes n) (element n)
    (rangeMin n) v (pattern n) (flagsNode n) (kind n) (negate n) (atomic n) (flags n)
    (ref n) (value n) (number n) (name n) (min n) (max n) (greedy n) (possessive n)
    (property n) (ignoreCase n) (dotAll n) (extended n).
Definition set_pattern (v : option addr) (n : t) : t :=
  mk (type n) (parent n) (elements n) (alternatives n) (classes n) (element n)
    (rangeMin n) (rangeMax n) v (flagsNode n) (kind n) (negate n) (atomic n) (flags n)
    (ref n) (value n) (number n) (name n) (min n) (max n) (greedy n) (possessive n)
    (property n) (ignoreCase n) (dotAll n) (extended n).
Definition set_flagsNode (v : option addr) (n : t) : t :=
  mk (type n) (parent n) (elements n) (alternatives n) (classes n) (element n)
    (rangeMin n) (rangeMax n) (pattern n) v (kind n) (negate n) (atomic n) (flags n)
    (ref n) (value n) (number n) (name n) (min n) (max n) (greedy n) (possessive n)
    (property n) (ignoreCase n) (dotAll n) (extended n).
Definition set_kind (v : option string) (n : t) : t :=
  mk (type n) (parent n) (elements n) (alternatives n) (classes n) (element n)
    (rangeMin n) (rangeMax n) (pattern n) (flagsNode n) v (negate n) (atomic n) (flags n)
    (ref n) (value n) (number n) (name n) (min n) (max n) (greedy n) (possessive n)
    (property n) (ignoreCase n) (dotAll n) (extended n).
Definition set_negate (v : option bool) (n : t) : t :=
  mk (type n) (parent n) (elements n) (alternatives n) (classes n) (element n)
    (rangeMin n) (rangeMax n) (pattern n) (flagsNode n) (kind n) v (atomic n) (flags n)
    (ref n) (value n) (number n) (name n) (min n) (max n) (greedy n) (possessive n)
    (property n) (ignoreCase n) (dotAll n) (extended n).
Definition set_atomic (v : option bool) (n : t) : t :=
  mk (type n) (parent n) (elements n) (alternatives n) (classes n) (element n)
    (rangeMin n) (rangeMax n) (pattern n) (flagsNode n) (kind n) (negate n) v (flags n)
    (ref n) (value n) (number n) (name n) (min n) (max n) (greedy n) (possessive n)
    (property n) (ignoreCase n) (dotAll n) (extended n).
Definition set_flags (v : option FlagMods) (n : t) : t :=
  mk (type n) (parent n) (elements n) (alternatives n) (classes n) (element n)
    (rangeMin n) (rangeMax n) (pattern n) (flagsNode n) (kind n) (negate n) (atomic n) v
    (ref n) (value n) (number n) (name n) (min n) (max n) (greedy n) (possessive n)
    (property n) (ignoreCase n) (dotAll n) (extended n).
Definition set_ref (v : option Ref) (n : t) : t :=
  mk (type n) (parent n) (elements n) (alternatives n) (classes n) (element n)
    (rangeMin n) (rangeMax n) (pattern n) (flagsNode n) (kind n) (negate n) (atomic n)
    (flags n) v (value n) (number n) (name n) (min n) (max n) (greedy n) (possessive n)
    (property n) (ignoreCase n) (dotAll n) (extended n).
Definition set_value (v : option Z) (n : t) : t :=
  mk (type n) (parent n) (elements n) (alternatives n) (classes n) (element n)
    (rangeMin n) (rangeMax n) (pattern n) (flagsNode n) (kind n) (negate n) (atomic n)
    (flags n) (ref n) v (number n) (name n) (min n) (max n) (greedy n) (possessive n)
    (property n) (ignoreCase n) (dotAll n) (extended n).
Definition set_number (v : option Z) (n : t) : t :=
  mk (type n) (parent n) (elements n) (alternatives n) (classes n) (element n)
    (rangeMin n) (rangeMax n) (pattern n) (flagsNode n) (kind n) (negate n) (atomic n)
    (flags n) (ref n) (value n) v (name n) (min n) (max n) (greedy n) (possessive n)
    (property n) (ignoreCase n) (dotAll n) (extended n).
Definition set_name (v : option string) (n : t) : t :=
  mk (type n) (parent n) (elements n) (alternatives n) (classes n) (element n)
    (rangeMin n) (rangeMax n) (pattern n) (flagsNode n) (kind n) (negate n) (atomic n)
    (flags n) (ref n) (value n) (number n) v (min n) (max n) (greedy n) (possessive n)
    (property n) (ignoreCase n) (dotAll n) (extended n).
Definition set_min (v : option Num) (n : t) : t :=
  mk (type n) (parent n) (elements n) (alternatives n) (classes n) (element n)
    (rangeMin n) (rangeMax n) (pattern n) (flagsNode n) (kind n) (negate n) (atomic n)
    (flags n) (ref n) (value n) (number n) (name n) v (max n) (greedy n) (possessive n)
    (property n) (ignoreCase n) (dotAll n) (extended n).
Definition set_max (v : option Num) (n : t) : t :=
  mk (type n) (parent n) (elements n) (alternatives n) (classes n) (element n)
    (rangeMin n) (rangeMax n) (pattern n) (flagsNode n) (kind n) (negate n) (atomic n)
    (flags n) (ref n) (value n) (number n) (name n) (min n) v (greedy n) (possessive n)
    (property n) (ignoreCase n) (dotAll n) (extended n).
Definition set_greedy (v : option bool) (n : t) : t :=
  mk (type n) (parent n) (elements n) (alternatives n) (classes n) (element n)
    (rangeMin n) (rangeMax n) (pattern n) (flagsNode n) (kind n) (negate n) (atomic n)
    (flags n) (ref n) (value n) (number n) (name n) (min n) (max n) v (possessive n)
    (property n) (ignoreCase n) (dotAll n) (extended n).
Definition set_possessive (v : option bool) (n : t) : t :=
  mk (type n) (parent n) (elements n) (alternatives n) (classes n) (element n)
    (rangeMin n) (rangeMax n) (pattern n) (flagsNode n) (kind n) (negate n) (atomic n)
    (flags n) (ref n) (value n) (number n) (name n) (min n) (max n) (greedy n) v
    (property n) (ignoreCase n) (dotAll n) (extended n).
Definition set_property (v : option string) (n : t) : t :=
  mk (type n) (parent n) (elements n) (alternatives n) (classes n) (element n)
    (rangeMin n) (rangeMax n) (pattern n) (flagsNode n) (kind n) (negate n) (atomic n)
    (flags n) (ref n) (value n) (number n) (name n) (min n) (max n) (greedy n)
    (possessive n) v (ignoreCase n) (dotAll n) (extended n).
Definition set_ignoreCase (v : option bool) (n : t) : t :=
  mk (type n) (parent n) (elements n) (alternatives n) (classes n) (element n)
    (rangeMin n) (rangeMax n) (pattern n) (flagsNode n) (kind n) (negate n) (atomic n)
    (flags n) (ref n) (value n) (number n) (name n) (min n) (max n) (greedy n)
    (possessive n) (property n) v (dotAll n) (extended n).
Definition set_dotAll (v : option bool) (n : t) : t :=
  mk (type n) (parent n) (elements n) (alternatives n) (classes n) (element n)
    (rangeMin n) (rangeMax n) (pattern n) (flagsNode n) (kind n) (negate n) (atomic n)
    (flags n) (ref n) (value n) (number n) (name n) (min n) (max n) (greedy n)
    (possessive n) (property n) (ignoreCase n) v (extended n).
Definition set_extended (v : option bool) (n : t) : t :=
  mk (type n) (parent n) (elements n) (alternatives n) (classes n) (element n)
    (rangeMin n) (rangeMax n) (pattern n) (flagsNode n) (kind n) (negate n) (atomic n)
    (flags n) (ref n) (value n) (number n) (name n) (min n) (max n) (greedy n)
    (possessive n) (property n) (ignoreCase n) (dotAll n) v.
End Node.

(** ** Errors and results *)

(** The failures of the parser, named as the specification names them; each
    stands for one [throw new Error(...)] of the source:
    - [UnexpectedToken]: "Unexpected token type"
    - [UnclosedGroup]: "Unclosed group"; [UnclosedClass]: "Unclosed character class"
    - [InvalidRange]: "Invalid character class range"
    - [ClassRangeOutOfOrder]: "Character class range out of order"
    - [RangeOutOfOrder]: "Quantifier range out of order"
    - [NothingToRepeat]: "Nothing to repeat"
    - [VariableLookbehind]: "Unsupported variable repetition within lookbehind"
    - [InsufficientGroups]: "Not enough capturing groups defined to the left"
    - [UndefinedGroupName]: "Group name not defined to the left"
    - [InvalidBackrefName]: "Invalid backref name"
    - [SubroutineGroupUndefined]: "Subroutine uses a group number that is not defined"
    - [SubroutineNameUndefined]: "Subroutine uses a group name that is not defined"
    - [SubroutineNameAmbiguous]: "Subroutine uses a non-unique group name"
    - [NumericRefWithNamedCapture]: "Numbered backref/subroutine not allowed when using named capture"
    - [InvalidGroupName]: "Invalid group name"
    - [UnknownKind]: "Unexpected assertion/character set/directive/varchar set/group kind"
    - [TypeError]: a property read through [undefined] (a token past the
      end of the list, a missing array element). *)
Inductive Error :=
| UnexpectedToken | UnclosedGroup | UnclosedClass | InvalidRange
| ClassRangeOutOfOrder | RangeOutOfOrder | NothingToRepeat | VariableLookbehind
| InsufficientGroups | UndefinedGroupName | InvalidBackrefName
| SubroutineGroupUndefined | SubroutineNameUndefined | SubroutineNameAmbiguous
| NumericRefWithNamedCapture | InvalidGroupName | UnknownKind | TypeError.

#[global] Instance Error_eq_dec : EqDecision Error.
Proof. solve_decision. Defined.

(** What a call gives: a value, a thrown error, or [OutOfFuel] when the
    model's bound on a loop is used up. *)
Inductive Result (A : Type) :=
| Ok (a : A)
| Throw (e : Error)
| OutOfFuel.
Arguments Ok {A} a.
Arguments Throw {A} e.
Arguments OutOfFuel {A}.

#[global] Instance Result_bind : MBind Result := λ A B f m,
  match m with
  | Ok a => f a
  | Throw e => Throw e
  | OutOfFuel => OutOfFuel
  end.

(** ** String primitives *)

Definition is_digit (c : ascii) : bool :=
  let n := nat_of_ascii c in (48 <=? n) && (n <=? 57).

Definition is_nonzero_digit (c : ascii) : bool :=
  let n := nat_of_ascii c in (49 <=? n) && (n <=? 57).

Fixpoint all_digits (s : string) : bool :=
  match s with
  | EmptyString => true
  | String c r => is_digit c && all_digits r
  end.

Fixpoint strip_zeros (s : string) : string :=
  match s with
  | String c r => if (c =? "0")%char then strip_zeros r else s
  | EmptyString => s
  end.

Definition digit_val (c : ascii) : Z := (Z.of_nat (nat_of_ascii c) - 48)%Z.

Fixpoint decimal_acc (acc : Z) (s : string) : Z :=
  match s with
  | EmptyString => acc
  | String c r => decimal_acc (10 * acc + digit_val c)%Z r
  end.

(** Unary plus on a string of decimal digits; [None] is [NaN].  (The parser
    applies it only to digit strings; other numeric literal syntaxes are
    not modelled.) *)
Definition toNumber (s : string) : option Z :=
  if all_digits s then Some (decimal_acc 0 s) else None.

(** [s.slice(3, -1)] *)
Definition slice_3_m1 (s : string) : string :=
  substring 3 (String.length s - 4) s.

(** [s.slice(1)] *)
Definition slice_1 (s : string) : string :=
  match s with
  | String _ r => r
  | EmptyString => EmptyString
  end.

(** [/^\\k[<']/.test(raw)] *)
Definition hasKWrapper (raw : string) : bool :=
  match raw with
  | String "\" (String "k" (String c _)) => (c =? "<")%char || (c =? "'")%char
  | _ => false
  end.

(** [/[-+]/.test(ref)] *)
Fixpoint has_sign_char (s : string) : bool :=
  match s with
  | EmptyString => false
  | String c r => (c =? "-")%char || (c =? "+")%char || has_sign_char r
  end.

(** The two numbered-reference patterns of the source, matched against the
    whole of [ref]: an optional sign (only a minus when [plus] is false, a
    minus or a plus when it is true; named group [sign]), any number of
    zeros, then a digit from 1 to 9 followed by any number of digits (named
    group [num]).  The result is the pair of the two named groups of the
    match, if there is one.  The sign is taken when present (without it the
    rest cannot match), then the zeros. *)
Definition exec_numberedRef (plus : bool) (ref : string) : option (string * string) :=
  let '(sign, rest) :=
    match ref with
    | String c r =>
        if (c =? "-")%char then ("-"%string, r)
        else if plus && (c =? "+")%char then ("+"%string, r)
        else (EmptyString, ref)
    | EmptyString => (EmptyString, ref)
    end in
  match strip_zeros rest with
  | String d ds =>
      if is_nonzero_digit d && all_digits ds then Some (sign, String d ds) else None
  | EmptyString => None
  end.

(** ** The walker's context and the object store *)

Record State := mkState {
  current : nat;
  namedGroups : gmap string (list addr);
  capturingGroups : list addr;
  subroutines : list addr;
  hasNumberedGroupRef : bool;
  heap : list Node.t
}.

Definition set_current (v : nat) (s : State) : State :=
  mkState v (namedGroups s) (capturingGroups s) (subroutines s) (hasNumberedGroupRef s) (heap s).
Definition set_namedGroups (v : gmap string (list addr)) (s : State) : State :=
  mkState (current s) v (capturingGroups s) (subroutines s) (hasNumberedGroupRef s) (heap s).
Definition set_capturingGroups (v : list addr) (s : State) : State :=
  mkState (current s) (namedGroups s) v (subroutines s) (hasNumberedGroupRef s) (heap s).
Definition set_subroutines (v : list addr) (s : State) : State :=
  mkState (current s) (namedGroups s) (capturingGroups s) v (hasNumberedGroupRef s) (heap s).
Definition set_hasNumberedGroupRef (v : bool) (s : State) : State :=
  mkState (current s) (namedGroups s) (capturingGroups s) (subroutines s) v (heap s).
Definition set_heap (v : list Node.t) (s : State) : State :=
  mkState (current s) (namedGroups s) (capturingGroups s) (subroutines s)
    (hasNumberedGroupRef s) v.

(** [context.current++] *)
Definition advance (s : State) : State := set_current (S (current s)) s.

(** Object creation: the new object gets the next address. *)
Definition alloc (n : Node.t) (s : State) : addr * State :=
  (length (heap s), set_heap (heap s ++ [n]) s).

(** In-place mutation of the object at [a]. *)
Definition update (a : addr) (f : Node.t → Node.t) (s : State) : State :=
  set_heap (alter f a (heap s)) s.

(** Reading an object; an address that was never allocated has no
    counterpart in the source and is reported like a read through
    [undefined]. *)
Definition load (a : addr) (s : State) : Result Node.t :=
  match heap s !! a with
  | Some n => Ok n
  | None => Throw TypeError
  end.

(** [arr.at(-1)], [arr.pop()] (its effect on the array) and [arr.push(x)] *)
Definition at_last (l : list addr) : option addr := last l.
Definition pop (l : list addr) : list addr := removelast l.
Definition push (x : addr) (l : list addr) : list addr := l ++ [x].

(** [n.elements.pop()], [n.elements.push(x)], [n.alternatives.push(x)] and
    [n.classes.push(x)] as changes of the object [n]. *)
Definition pop_elements (n : Node.t) : Node.t :=
  Node.set_elements (pop (Node.elements n)) n.
Definition push_element (x : addr) (n : Node.t) : Node.t :=
  Node.set_elements (push x (Node.elements n)) n.
Definition push_alternative (x : addr) (n : Node.t) : Node.t :=
  Node.set_alternatives (push x (Node.alternatives n)) n.
Definition push_class (x : addr) (n : Node.t) : Node.t :=
  Node.set_classes (push x (Node.classes n)) n.

(** Strict equality of two possibly-undefined booleans. *)
Definition strict_eqb (a b : option bool) : bool :=
  match a, b with
  | Some x, Some y => eqb x y
  | None, None => true
  | _, _ => false
  end.

(** JavaScript truthiness of an optional flag and of an optional object. *)
Definition truthy (b : option bool) : bool := default false b.
Definition defined {A} (o : option A) : bool := bool_decide (is_Some o).

(** ** Node constructors *)

Section Parser.

(** The collaborators of the parser that are not part of its source: the
    identifier test of [isValidJsGroupName] (a Unicode-property pattern),
    and, from [unicode.js], [normalize], the membership test of
    [PosixProperties], the lookup of [JsUnicodePropertiesMap] and the
    reformatting of a script name done with string replacements.  A
    character set's [property] is all that depends on the last four. *)
Variable isValidJsGroupName : string → bool.
Variable normalize : string → string.
Variable PosixProperties_has : string → bool.
Variable JsUnicodePropertiesMap_get : string → option string.
Variable reformatScriptName : string → string.

Definition getNodeBase (parent : option addr) (type : AstTypes.t) : Node.t :=
  Node.mk type parent [] [] [] None None None None None None None None None None None
    None None None None None None None None None None.

Definition createAlternative (parent : option addr) (s : State) : addr * State :=
  alloc (Node.set_elements [] (getNodeBase parent AstTypes.Alternative)) s.

Definition withInitialAlternative (node : addr) (s : State) : State :=
  let '(alt, s) := createAlternative (Some node) s in
  update node (Node.set_alternatives [alt]) s.

Definition assertionKind (kind : string) : option string :=
  if (kind =? "^")%string then Some AstAssertionKinds.line_start
  else if (kind =? "$")%string then Some AstAssertionKinds.line_end
  else if (kind =? "\A")%string then Some AstAssertionKinds.string_start
  else if (kind =? "\b")%string then Some AstAssertionKinds.word_boundary
  else if (kind =? "\B")%string then Some AstAssertionKinds.word_boundary
  else if (kind =? "\G")%string then Some AstAssertionKinds.search_start
  else if (kind =? "\z")%string then Some AstAssertionKinds.string_end
  else if (kind =? "\Z")%string then Some AstAssertionKinds.string_end_newline
  else None.

Definition createAssertionFromToken (parent : option addr) (token : Token.t) (s : State)
  : Result (addr * State) :=
  let base := getNodeBase parent AstTypes.Assertion in
  if decide (Token.type token = TokenTypes.GroupOpen) then
    let kind :=
      if (Token.kind token =? TokenGroupKinds.lookbehind)%string
      then AstAssertionKinds.lookbehind else AstAssertionKinds.lookahead in
    let '(node, s) :=
      alloc (Node.set_negate (Token.negate token) (Node.set_kind (Some kind) base)) s in
    Ok (node, withInitialAlternative node s)
  else
    match assertionKind (Token.kind token) with
    | None => Throw UnknownKind
    | Some kind =>
        let node := Node.set_kind (Some kind) base in
        let node :=
          if (kind =? AstAssertionKinds.word_boundary)%string
          then Node.set_negate (Some (Token.kind token =? "\B")%string) node
          else node in
        Ok (alloc node s)
    end.

Definition createBackreference (parent : option addr) (ref : Ref) (s : State)
  : addr * State :=
  alloc (Node.set_ref (Some ref) (getNodeBase parent AstTypes.Backreference)) s.

Definition createCapturingGroup (parent : option addr) (number : Z) (name : option string)
    (s : State) : Result (addr * State) :=
  let node := Node.set_number (Some number) (getNodeBase parent AstTypes.CapturingGroup) in
  match name with
  | Some nm =>
      if isValidJsGroupName nm then
        let '(a, s) := alloc (Node.set_name (Some nm) node) s in
        Ok (a, withInitialAlternative a s)
      else Throw InvalidGroupName
  | None =>
      let '(a, s) := alloc node s in
      Ok (a, withInitialAlternative a s)
  end.

Definition createCharacter (parent : option addr) (charCode : Z) (s : State)
  : addr * State :=
  alloc (Node.set_value (Some charCode) (getNodeBase parent AstTypes.Character)) s.

(** The [negate] parameter defaults to [false] when it is [undefined]. *)
Definition createCharacterClassBase (parent : option addr) (negate : option bool)
  : Node.t :=
  Node.set_elements []
    (Node.set_negate (Some (default false negate))
       (getNodeBase parent AstTypes.CharacterClass)).

Definition createCharacterClassIntersection (parent : option addr) (s : State)
  : addr * State :=
  let '(node, s) := alloc (getNodeBase parent AstTypes.CharacterClassIntersection) s in
  let '(cc, s) := alloc (createCharacterClassBase (Some node) None) s in
  (node, update node (Node.set_classes [cc]) s).

Definition withInitialIntersection (node : addr) (s : State) : State :=
  let '(intersection, s) := createCharacterClassIntersection (Some node) s in
  update node (Node.set_elements [intersection]) s.

Definition createCharacterClass (parent : option addr) (negate : option bool) (s : State)
  : addr * State :=
  let '(node, s) := alloc (createCharacterClassBase parent negate) s in
  (node, withInitialIntersection node s).

(** [max.value < min.value], false when a value is missing. *)
Definition value_ltb (a b : option Z) : bool :=
  match a, b with
  | Some x, Some y => (x <? y)%Z
  | _, _ => false
  end.

Definition createCharacterClassRange (parent : option addr) (min max : addr) (s : State)
  : Result (addr * State) :=
  nmin ← load min s;
  nmax ← load max s;
  if value_ltb (Node.value nmax) (Node.value nmin) then Throw ClassRangeOutOfOrder
  else
    Ok (alloc (Node.set_rangeMax (Some max)
                 (Node.set_rangeMin (Some min)
                    (getNodeBase parent AstTypes.CharacterClassRange))) s).

Definition getJsUnicodePropertyName (property : string) : string :=
  match JsUnicodePropertiesMap_get (normalize property) with
  | Some jsName =>
      if (jsName =? EmptyString)%string then reformatScriptName property else jsName
  | None => reformatScriptName property
  end.

Definition in_table (k : string) (table : list string) : bool :=
  existsb (String.eqb k) table.

Definition createCharacterSetFromToken (parent : option addr) (token : Token.t)
    (s : State) : Result (addr * State) :=
  let kind := Token.kind token in
  let property := Token.property token in
  let normalized := normalize property in
  let isPosix :=
    (kind =? TokenCharacterSetKinds.property)%string && PosixProperties_has normalized in
  let kind := if isPosix then TokenCharacterSetKinds.posix else kind in
  let property := if isPosix then normalized else property in
  if in_table kind TokenCharacterSetKinds.all then
    let node := Node.set_kind (Some kind) (getNodeBase parent AstTypes.CharacterSet) in
    let node :=
      if in_table kind
           [TokenCharacterSetKinds.digit; TokenCharacterSetKinds.hex;
            TokenCharacterSetKinds.posix; TokenCharacterSetKinds.property;
            TokenCharacterSetKinds.space; TokenCharacterSetKinds.word]
      then
        let node := Node.set_negate (Token.negate token) node in
        if (kind =? TokenCharacterSetKinds.posix)%string
        then Node.set_property (Some property) node
        else if (kind =? TokenCharacterSetKinds.property)%string
        then Node.set_property (Some (getJsUnicodePropertyName property)) node
        else node
      else node in
    Ok (alloc node s)
  else Throw UnknownKind.

Definition createDirectiveFromToken (parent : option addr) (token : Token.t) (s : State)
  : Result (addr * State) :=
  let kind := Token.kind token in
  if in_table kind TokenDirectiveKinds.all then
    let node := Node.set_kind (Some kind) (getNodeBase parent AstTypes.Directive) in
    let node :=
      if (kind =? TokenDirectiveKinds.flags)%string
      then Node.set_flags (Token.flags token) node else node in
    Ok (alloc node s)
  else Throw UnknownKind.

Definition createFlags (parent : option addr) (flags : FlagValues) (s : State)
  : addr * State :=
  alloc (Node.set_extended (Some (extended flags))
           (Node.set_dotAll (Some (dotAll flags))
              (Node.set_ignoreCase (Some (ignoreCase flags))
                 (getNodeBase parent AstTypes.Flags)))) s.

Definition createGroup (parent : option addr) (atomic : option bool)
    (flags : option FlagMods) (s : State) : addr * State :=
  let node := getNodeBase parent AstTypes.Group in
  let node :=
    if truthy atomic then Node.set_atomic (Some true) node
    else if defined flags then Node.set_flags flags node
    else node in
  let '(a, s) := alloc node s in
  (a, withInitialAlternative a s).

Definition createByGroupKind (parent : option addr) (token : Token.t) (s : State)
  : Result (addr * State) :=
  let kind := Token.kind token in
  if (kind =? TokenGroupKinds.atomic)%string then
    Ok (createGroup parent (Some true) None s)
  else if (kind =? TokenGroupKinds.capturing)%string then
    createCapturingGroup parent (Token.number token) (Token.name token) s
  else if (kind =? TokenGroupKinds.group)%string then
    Ok (createGroup parent None (Token.flags token) s)
  else if (kind =? TokenGroupKinds.lookahead)%string
          || (kind =? TokenGroupKinds.lookbehind)%string then
    createAssertionFromToken parent token s
  else Throw UnknownKind.

Definition createPattern (parent : option addr) (s : State) : addr * State :=
  let '(a, s) := alloc (getNodeBase parent AstTypes.Pattern) s in
  (a, withInitialAlternative a s).

(** [node.type === type && (!kind || node.kind === kind)] for the object
    at [a]. *)
Definition matchesTypeKind (h : list Node.t) (a : addr) (type : AstTypes.t)
    (kind : option string) : bool :=
  match h !! a with
  | Some n =>
      bool_decide (Node.type n = type)
      && match kind with
         | None => true
         | Some k => (k =? EmptyString)%string || bool_decide (Node.kind n = Some k)
         end
  | None => false
  end.

(** The [parent] property of the object at [a] ([None] is [null]). *)
Definition parentOf (h : list Node.t) (a : addr) : option addr :=
  h !! a ≫= Node.parent.

(** [isWithin]: the loop [while (node = node.parent)], one iteration per
    unit of fuel. *)
Fixpoint isWithin (fuel : nat) (h : list Node.t) (node : addr) (type : AstTypes.t)
    (kind : option string) : Result bool :=
  match fuel with
  | O => OutOfFuel
  | S fuel' =>
      match parentOf h node with
      | None => Ok false
      | Some p =>
          if matchesTypeKind h p type kind then Ok true
          else isWithin fuel' h p type kind
      end
  end.

(** The parent chain of an object in a store of [n] objects is followed
    for at most [n] steps unless it runs in a circle. *)
Definition isWithin_fuel (h : list Node.t) : nat := S (length h).

Definition createQuantifier (parent : option addr) (element : option addr)
    (min max : Num) (greedy possessive : bool) (s : State) : Result (addr * State) :=
  if Num_ltb max min then Throw RangeOutOfOrder
  else
    let '(node, s) :=
      alloc (Node.set_element element
               (Node.set_possessive (Some possessive)
                  (Node.set_greedy (Some greedy)
                     (Node.set_max (Some max)
                        (Node.set_min (Some min)
                           (getNodeBase parent AstTypes.Quantifier)))))) s in
    if decide (min = max) then Ok (node, s)
    else
      within ← isWithin (isWithin_fuel (heap s)) (heap s) node AstTypes.Assertion
                 (Some AstAssertionKinds.lookbehind);
      if within : bool then Throw VariableLookbehind else Ok (node, s).

Definition createRegExp (parent : option addr) (flags : FlagValues) (s : State)
  : addr * State :=
  let '(node, s) := alloc (getNodeBase parent AstTypes.RegExp) s in
  let '(pattern, s) := createPattern (Some node) s in
  let s := update node (Node.set_pattern (Some pattern)) s in
  let '(fl, s) := createFlags (Some node) flags s in
  (node, update node (Node.set_flagsNode (Some fl)) s).

Definition createSubroutine (parent : option addr) (ref : Ref) (s : State)
  : addr * State :=
  alloc (Node.set_ref (Some ref) (getNodeBase parent AstTypes.Subroutine)) s.

Definition createVariableLengthCharacterSet (parent : option addr) (kind : string)
    (s : State) : Result (addr * State) :=
  let k :=
    if (kind =? "\R")%string then Some AstVariableLengthCharacterSetKinds.newline
    else if (kind =? "\X")%string then Some AstVariableLengthCharacterSetKinds.grapheme
    else None in
  match k with
  | Some k =>
      Ok (alloc (Node.set_kind (Some k)
                   (getNodeBase parent AstTypes.VariableLengthCharacterSet)) s)
  | None => Throw UnknownKind
  end.

(** ** The walker *)

Section Walker.

Variable tokens : list Token.t.
Variable optimize : bool.

(** [context.walk]: given the parent under which the next token is
    parsed, the node it yields. *)
Definition Walk := addr → State → Result (addr * State).

Definition parseBackreference (parent : addr) (token : Token.t) (s : State)
  : Result (addr * State) :=
  let raw := Token.raw token in
  let hasK := hasKWrapper raw in
  let ref := if hasK then slice_3_m1 raw else slice_1 raw in
  let fromNum (num : option Z) (isRelative : bool) : Result (addr * State) :=
    let numCapsToLeft := Z.of_nat (length (capturingGroups s)) in
    match num with
    | Some n =>
        if (numCapsToLeft <? n)%Z then Throw InsufficientGroups
        else
          Ok (createBackreference (Some parent)
                (RNum (if isRelative then numCapsToLeft + 1 - n else n)%Z)
                (set_hasNumberedGroupRef true s))
    | None =>
        Ok (createBackreference (Some parent) RNaN (set_hasNumberedGroupRef true s))
    end in
  if hasK then
    match exec_numberedRef false ref with
    | Some (sign, num) =>
        fromNum (toNumber num) (negb (sign =? EmptyString)%string)
    | None =>
        if has_sign_char ref then Throw InvalidBackrefName
        else if bool_decide (is_Some (namedGroups s !! ref)) then
          Ok (createBackreference (Some parent) (RName ref) s)
        else Throw UndefinedGroupName
    end
  else fromNum (toNumber ref) false.

Definition isRangeBoundary (t : TokenTypes.t) : bool :=
  bool_decide (t = TokenTypes.CharacterClassOpen)
  || bool_decide (t = TokenTypes.CharacterClassClose)
  || bool_decide (t = TokenTypes.CharacterClassIntersector).

Definition parseCharacterClassHyphen (walk : Walk) (parent : addr)
    (nextToken : option Token.t) (s : State) : Result (addr * State) :=
  np ← load parent s;
  let literal := Ok (createCharacter (Some parent) 45 s) in
  match at_last (Node.elements np), nextToken with
  | Some prevNode, Some next =>
      nprev ← load prevNode s;
      if negb (bool_decide (Node.type nprev = AstTypes.CharacterClass))
         && negb (isRangeBoundary (Token.type next))
      then
        '(nextNode, s) ← walk parent s;
        nprev ← load prevNode s;
        nnext ← load nextNode s;
        if bool_decide (Node.type nprev = AstTypes.Character)
           && bool_decide (Node.type nnext = AstTypes.Character)
        then
          let s := update parent pop_elements s in
          '(node, s) ← createCharacterClassRange (Some parent) prevNode nextNode s;
          let s := update prevNode (Node.set_parent (Some node)) s in
          let s := update nextNode (Node.set_parent (Some node)) s in
          Ok (node, s)
        else Throw InvalidRange
      else literal
  | _, _ => literal
  end.

(** One pass of [optimizeCharacterClassIntersection]'s loop, at index [i]. *)
Definition optimizeClassAt (intersection : addr) (i : nat) (s : State) : State :=
  match heap s !! intersection ≫= (λ ni, Node.classes ni !! i) with
  | Some cc =>
      match heap s !! cc with
      | Some ncc =>
          match Node.elements ncc with
          | [firstChild] =>
              match heap s !! firstChild with
              | Some nfirst =>
                  if bool_decide (Node.type nfirst = AstTypes.CharacterClass) then
                    let s :=
                      update intersection
                        (λ n, Node.set_classes (<[i := firstChild]> (Node.classes n)) n) s in
                    let s := update firstChild (Node.set_parent (Some intersection)) s in
                    update firstChild
                      (Node.set_negate
                         (Some (negb (strict_eqb (Node.negate ncc) (Node.negate nfirst))))) s
                  else s
              | None => s
              end
          | _ => s
          end
      | None => s
      end
  | None => s
  end.

Definition optimizeCharacterClassIntersection (intersection : addr) (s : State) : State :=
  let n := default 0 (length ∘ Node.classes <$> heap s !! intersection) in
  foldl (λ s i, optimizeClassAt intersection i s) s (seq 0 n).

(** The [while] loop of [parseCharacterClassOpen], one iteration per
    unit of fuel. *)
Fixpoint classLoop (walk : Walk) (fuel : nat) (intersection : addr) (s : State)
  : Result State :=
  match fuel with
  | O => OutOfFuel
  | S fuel' =>
      match tokens !! current s with
      | None => Throw UnclosedClass
      | Some nextToken =>
          if bool_decide (Token.type nextToken = TokenTypes.CharacterClassClose) then Ok s
          else if bool_decide (Token.type nextToken = TokenTypes.CharacterClassIntersector)
          then
            let '(cc, s) := alloc (createCharacterClassBase (Some intersection) None) s in
            let s :=
              update intersection (push_class cc) s in
            classLoop walk fuel' intersection (advance s)
          else
            ni ← load intersection s;
            match at_last (Node.classes ni) with
            | None => Throw TypeError
            | Some cc =>
                '(r, s) ← walk cc s;
                let s := update cc (push_element r) s in
                classLoop walk fuel' intersection s
            end
      end
  end.

Definition parseCharacterClassOpen (walk : Walk) (fuel : nat) (parent : addr)
    (negate : option bool) (s : State) : Result (addr * State) :=
  let '(node, s) := createCharacterClass (Some parent) negate s in
  nn ← load node s;
  match head (Node.elements nn) with
  | None => Throw TypeError
  | Some intersection =>
      s ← classLoop walk fuel intersection s;
      let s := if optimize then optimizeCharacterClassIntersection intersection s else s in
      ni ← load intersection s;
      match Node.classes ni with
      | [cc] =>
          (* Simplify tree if we don't need the intersection wrapper *)
          ncc ← load cc s;
          nn ← load node s;
          let s := update cc (Node.set_parent (Some parent)) s in
          let s :=
            update cc
              (Node.set_negate
                 (Some (negb (strict_eqb (Node.negate nn) (Node.negate ncc))))) s in
          Ok (cc, advance s)
      | _ => Ok (node, advance s)
      end
  end.

(** If a direct child group is needlessly nested, return it instead
    (after modifying it). *)
Definition getOptimizedGroup (node : addr) (s : State) : Result (addr * State) :=
  n ← load node s;
  match head (Node.alternatives n) with
  | None => Throw TypeError
  | Some firstAlt =>
      nalt ← load firstAlt s;
      match head (Node.elements nalt) with
      | None => Ok (node, s)
      | Some firstAltFirstEl =>
          nel ← load firstAltFirstEl s;
          if bool_decide (Node.type n = AstTypes.Group)
             && bool_decide (length (Node.alternatives n) = 1)
             && bool_decide (length (Node.elements nalt) = 1)
             && bool_decide (Node.type nel = AstTypes.Group)
             && negb (truthy (Node.atomic n) && defined (Node.flags nel))
             && negb (defined (Node.flags n)
                      && (truthy (Node.atomic nel) || defined (Node.flags nel)))
          then
            let s := update firstAltFirstEl (Node.set_parent (Node.parent n)) s in
            let s :=
              if truthy (Node.atomic n) then
                update firstAltFirstEl (Node.set_atomic (Some true)) s
              else if defined (Node.flags n) then
                update firstAltFirstEl (Node.set_flags (Node.flags n)) s
              else s in
            Ok (firstAltFirstEl, s)
          else Ok (node, s)
      end
  end.

(** The [while] loop of [parseGroupOpen], one iteration per unit of fuel. *)
Fixpoint groupLoop (walk : Walk) (fuel : nat) (node : addr) (s : State) : Result State :=
  match fuel with
  | O => OutOfFuel
  | S fuel' =>
      match tokens !! current s with
      | None => Throw UnclosedGroup
      | Some nextToken =>
          if bool_decide (Token.type nextToken = TokenTypes.GroupClose) then Ok s
          else if bool_decide (Token.type nextToken = TokenTypes.Alternator) then
            let '(alt, s) := createAlternative (Some node) s in
            let s :=
              update node (push_alternative alt) s in
            groupLoop walk fuel' node (advance s)
          else
            nn ← load node s;
            match at_last (Node.alternatives nn) with
            | None => Throw TypeError
            | Some alt =>
                '(r, s) ← walk alt s;
                let s := update alt (push_element r) s in
                groupLoop walk fuel' node s
            end
      end
  end.

(** Track capturing group details for backrefs and subroutines. *)
Definition registerGroup (node : addr) (nn : Node.t) (s : State) : State :=
  if bool_decide (Node.type nn = AstTypes.CapturingGroup) then
    let s := set_capturingGroups (push node (capturingGroups s)) s in
    match Node.name nn with
    | Some nm =>
        if (nm =? EmptyString)%string then s
        else
          let m := namedGroups s in
          let m := if bool_decide (is_Some (m !! nm)) then m else <[nm := []]> m in
          set_namedGroups (alter (push node) nm m) s
    | None => s
    end
  else s.

Definition parseGroupOpen (walk : Walk) (fuel : nat) (parent : addr) (token : Token.t)
    (s : State) : Result (addr * State) :=
  '(node, s) ← createByGroupKind (Some parent) token s;
  nn ← load node s;
  let s := registerGroup node nn s in
  s ← groupLoop walk fuel node s;
  '(node, s) ← (if optimize then getOptimizedGroup node s else Ok (node, s));
  Ok (node, advance s).

Definition parseQuantifier (parent : addr) (token : Token.t) (s : State)
  : Result (addr * State) :=
  np ← load parent s;
  if bool_decide (length (Node.elements np) = 0) then Throw NothingToRepeat
  else
    '(node, s) ← createQuantifier (Some parent) (at_last (Node.elements np))
                   (Token.min token) (Token.max token)
                   (Token.greedy token) (Token.possessive token) s;
    nn ← load node s;
    match Node.element nn with
    | None => Throw TypeError
    | Some el =>
        let s := update el (Node.set_parent (Some node)) s in
        let s := update parent pop_elements s in
        Ok (node, s)
    end.

Definition parseSubroutine (parent : addr) (token : Token.t) (s : State) : addr * State :=
  let ref := slice_3_m1 (Token.raw token) in
  let '(ref, s) :=
    match exec_numberedRef true ref with
    | Some (sign, num) =>
        let numCapsToLeft := Z.of_nat (length (capturingGroups s)) in
        let s := set_hasNumberedGroupRef true s in
        match toNumber num with
        | Some num =>
            ((if (sign =? "+")%string then RNum (numCapsToLeft + num)%Z
              else if (sign =? "-")%string then RNum (numCapsToLeft + 1 - num)%Z
              else RNum num), s)
        | None => (RNaN, s)
        end
    | None => (RName ref, s)
    end in
  let '(node, s) := createSubroutine (Some parent) ref s in
  (node, set_subroutines (push node (subroutines s)) s).

(** [context.walk]: read the token at the cursor, advance, dispatch.
    The nested parsers call back into the walker with one unit of fuel
    less. *)
Fixpoint walk (fuel : nat) (parent : addr) (s : State) : Result (addr * State) :=
  match fuel with
  | O => OutOfFuel
  | S fuel' =>
      match tokens !! current s with
      | None => Throw TypeError
      | Some token =>
          let s := advance s in
          match Token.type token with
          | TokenTypes.Alternator =>
              (* Only handles top-level alternation; groups handle their own alternators *)
              np ← load parent s;
              Ok (createAlternative (Node.parent np) s)
          | TokenTypes.Assertion => createAssertionFromToken (Some parent) token s
          | TokenTypes.Backreference => parseBackreference parent token s
          | TokenTypes.Character => Ok (createCharacter (Some parent) (Token.value token) s)
          | TokenTypes.CharacterClassHyphen =>
              parseCharacterClassHyphen (walk fuel') parent (tokens !! current s) s
          | TokenTypes.CharacterClassOpen =>
              parseCharacterClassOpen (walk fuel') fuel' parent (Token.negate token) s
          | TokenTypes.CharacterSet => createCharacterSetFromToken (Some parent) token s
          | TokenTypes.Directive => createDirectiveFromToken (Some parent) token s
          | TokenTypes.GroupOpen => parseGroupOpen (walk fuel') fuel' parent token s
          | TokenTypes.Quantifier => parseQuantifier parent token s
          | TokenTypes.Subroutine => Ok (parseSubroutine parent token s)
          | TokenTypes.VariableLengthCharacterSet =>
              createVariableLengthCharacterSet (Some parent) (Token.kind token) s
          | _ => Throw UnexpectedToken
          end
      end
  end.

(** The main loop of [parse]: [while (context.current < tokens.length)]. *)
Fixpoint parseLoop (walk : Walk) (fuel : nat) (ast top : addr) (s : State)
  : Result State :=
  match fuel with
  | O => OutOfFuel
  | S fuel' =>
      if current s <? length tokens then
        '(node, s) ← walk top s;
        nn ← load node s;
        if bool_decide (Node.type nn = AstTypes.Alternative) then
          nast ← load ast s;
          match Node.pattern nast with
          | None => Throw TypeError
          | Some pattern =>
              let s :=
                update pattern
                  (push_alternative node) s in
              parseLoop walk fuel' ast node s
          end
        else
          let s := update top (push_element node) s in
          parseLoop walk fuel' ast top s
      else Ok s
  end.

(** The checks made once the walk is complete. *)
Definition checkSubroutine (s : State) (sub : addr) : Result unit :=
  n ← load sub s;
  match Node.ref n with
  | Some (RNum ref) =>
      if (ref <? 1)%Z || (Z.of_nat (length (capturingGroups s)) <? ref)%Z
      then Throw SubroutineGroupUndefined else Ok tt
  | Some RNaN => Ok tt
  | Some (RName ref) =>
      match namedGroups s !! ref with
      | None => Throw SubroutineNameUndefined
      | Some groups =>
          if 1 <? length groups then Throw SubroutineNameAmbiguous else Ok tt
      end
  | None => Throw SubroutineNameUndefined
  end.

Fixpoint checkSubroutines (s : State) (subs : list addr) : Result unit :=
  match subs with
  | [] => Ok tt
  | sub :: rest => _ ← checkSubroutine s sub; checkSubroutines s rest
  end.

Definition postPass (s : State) : Result unit :=
  if hasNumberedGroupRef s && negb (bool_decide (size (namedGroups s) = 0))
  then Throw NumericRefWithNamedCapture
  else checkSubroutines s (subroutines s).

(** Every call of the walker consumes a token, so no chain of nested
    calls and no loop runs longer than the token list. *)
Definition parse_fuel : nat := S (length tokens).

Definition initialState : State := mkState 0 ∅ [] [] false [].

(** [parse] up to the end of its main loop: the root and the state the
    walk leaves. *)
Definition walkTokens (flags : FlagValues) : Result (addr * State) :=
  let '(ast, s) := createRegExp None flags initialState in
  nast ← load ast s;
  match Node.pattern nast with
  | None => Throw TypeError
  | Some pattern =>
      npat ← load pattern s;
      match head (Node.alternatives npat) with
      | None => Throw TypeError
      | Some top =>
          s ← parseLoop (walk parse_fuel) parse_fuel ast top s;
          Ok (ast, s)
      end
  end.

(** [parse({tokens, flags}, {optimize})]: the address of the [RegExp]
    root and the final state (its store holds the tree). *)
Definition parse (flags : FlagValues) : Result (addr * State) :=
  '(ast, s) ← walkTokens flags;
  _ ← postPass s;
  Ok (ast, s).

End Walker.

End Parser.

(** * Specification-level notions

    What the claims speak about, stated independently of the parser's code:
    the language of numbered references, the tree relations on the store,
    and the token lists of the concrete scenarios. *)

(** ** Numbered references *)

Fixpoint repeat_zero (k : nat) : string :=
  match k with
  | O => EmptyString
  | S k' => String "0" (repeat_zero k')
  end.

(** [NumberedRef plus ref sign num]: [ref] is a sign ([-] or nothing, or also
    [+] when [plus] holds), then zeros, then the digits [num], which start
    with a digit from 1 to 9. *)
Inductive NumberedRef (plus : bool) : string → string → string → Prop :=
| NumberedRef_intro (sign : string) (k : nat) (d : ascii) (ds : string) :
    sign = EmptyString ∨ sign = "-"%string ∨ (plus = true ∧ sign = "+"%string) →
    is_nonzero_digit d = true →
    all_digits ds = true →
    NumberedRef plus (sign +:+ repeat_zero k +:+ String d ds) sign (String d ds).

(** The number a string of decimal digits denotes, by positional weight. *)
Fixpoint decimal_value (s : string) : Z :=
  match s with
  | EmptyString => 0%Z
  | String c r => (digit_val c * 10 ^ Z.of_nat (String.length r) + decimal_value r)%Z
  end.

(** [ref] contains a [-] or a [+]. *)
Definition contains_sign (ref : string) : Prop :=
  ∃ pre c post, ref = pre +:+ String c post ∧ (c = "-"%char ∨ c = "+"%char).

(** ** Token lists of the concrete scenarios *)

(** Modelled from the spec: the tokenizer is not part of the sources at
    hand, so the tokens of a pattern are written out after section 6.1 of
    the specification (a token has [type] and [raw] and the fields of its
    kind). *)
Module Tokens.
Definition plain (type : TokenTypes.t) (raw : string) : Token.t :=
  Token.mk type raw 0 EmptyString None (Fin 0) (Fin 0) false false 0 None EmptyString None.

Definition char (raw : string) (value : Z) : Token.t :=
  Token.mk TokenTypes.Character raw value EmptyString None (Fin 0) (Fin 0) false false 0
    None EmptyString None.

Definition groupOpen (raw kind : string) (number : Z) (name : option string)
    (flags : option FlagMods) : Token.t :=
  Token.mk TokenTypes.GroupOpen raw 0 kind None (Fin 0) (Fin 0) false false number name
    EmptyString flags.

Definition lookaround (raw kind : string) (negate : bool) : Token.t :=
  Token.mk TokenTypes.GroupOpen raw 0 kind (Some negate) (Fin 0) (Fin 0) false false 0 None
    EmptyString None.

Definition quantifier (raw : string) (min max : Num) (greedy possessive : bool) : Token.t :=
  Token.mk TokenTypes.Quantifier raw 0 EmptyString None min max greedy possessive 0 None
    EmptyString None.

Definition classOpen (raw : string) (negate : bool) : Token.t :=
  Token.mk TokenTypes.CharacterClassOpen raw 0 EmptyString (Some negate) (Fin 0) (Fin 0)
    false false 0 None EmptyString None.

Definition groupClose : Token.t := plain TokenTypes.GroupClose ")".
Definition classClose : Token.t := plain TokenTypes.CharacterClassClose "]".
Definition capturing (number : Z) : Token.t :=
  groupOpen "(" TokenGroupKinds.capturing number None None.
Definition noncapturing : Token.t := groupOpen "(?:" TokenGroupKinds.group 0 None None.
Definition atomic : Token.t := groupOpen "(?>" TokenGroupKinds.atomic 0 None None.
Definition ignoreCaseOn : FlagMods :=
  {| enable := Some {| ignoreCase := true; dotAll := false; extended := false |};
     disable := None |}.
Definition flagGroup : Token.t :=
  groupOpen "(?i:" TokenGroupKinds.group 0 None (Some ignoreCaseOn).

(** [(?:(a))] *)
Definition nested_capture : list Token.t :=
  [noncapturing; capturing 1; char "a" 97; groupClose; groupClose].

(** [(a)\g<-1>] *)
Definition capture_then_relative_subroutine : list Token.t :=
  [capturing 1; char "a" 97; groupClose; plain TokenTypes.Subroutine "\g<-1>"].

(** [(?>(?i:a))] *)
Definition atomic_around_flags : list Token.t :=
  [atomic; flagGroup; char "a" 97; groupClose; groupClose].

(** [[a]] *)
Definition single_class : list Token.t :=
  [classOpen "[" false; char "a" 97; classClose].

(** A class whose body holds an alternator token: the tokenizer reads a
    vertical bar inside a class as a literal character and never emits
    this, but the parser accepts any token list. *)
Definition alternator_in_class : list Token.t :=
  [classOpen "[" false; plain TokenTypes.Alternator "|"; classClose].

(** [\g<1>(?<a>)]: a numbered subroutine, then a named capturing group. *)
Definition numbered_then_named : list Token.t :=
  [plain TokenTypes.Subroutine "\g<1>";
   groupOpen "(?<a>" TokenGroupKinds.capturing 1 (Some "a"%string) None;
   groupClose].
End Tokens.

(** The concrete scenarios use neither group names nor character sets, so
    the collaborators of the parser play no part in them; [parse_plain] fixes
    them to the simplest ones. *)
Abbreviation parse_plain :=
  (parse (λ _, true) (λ p, p) (λ _, false) (λ _, None) (λ p, p)).

Definition noFlags : FlagValues :=
  {| ignoreCase := false; dotAll := false; extended := false |}.

(** ** Group mergers *)

Definition is_atomic (n : Node.t) : Prop := Node.atomic n = Some true.
Definition has_flags (n : Node.t) : Prop := is_Some (Node.flags n).

(** The mergers of an outer group with its sole inner group that the
    optimizer performs: every combination except an atomic outer group
    around an inner group with flags, and an outer group with flags around
    an inner group that is atomic or has flags. *)
Definition mergeable (outer inner : Node.t) : Prop :=
  ¬ (is_atomic outer ∧ has_flags inner) ∧
  ¬ (has_flags outer ∧ (is_atomic inner ∨ has_flags inner)).

(** [c] sits directly under [p]: it is one of [p]'s elements and its
    [parent] is [p]. *)
Definition sits_under (h : list Node.t) (c p : addr) : Prop :=
  (∃ np, h !! p = Some np ∧ c ∈ Node.elements np) ∧
  (∃ nc, h !! c = Some nc ∧ Node.parent nc = Some p).

(** Some capturing group with number 1 sits directly under [p]. *)
Definition capture1_under (h : list Node.t) (p : addr) : Prop :=
  ∃ c nc, h !! c = Some nc ∧ Node.type nc = AstTypes.CapturingGroup ∧
          Node.number nc = Some 1%Z ∧ sits_under h c p.

(** Some group that is atomic and has flags sits directly under [p]. *)
Definition atomic_flag_group_under (h : list Node.t) (p : addr) : Prop :=
  ∃ c nc, h !! c = Some nc ∧ Node.type nc = AstTypes.Group ∧
          is_atomic nc ∧ has_flags nc ∧ sits_under h c p.

(** A store holding an atomic group (address 0) whose single alternative
    (address 1) holds a plain group (address 2), under a parent at
    address 7. *)
Definition atomic_nest_outer : Node.t :=
  Node.set_alternatives [1]
    (Node.set_atomic (Some true) (getNodeBase (Some 7) AstTypes.Group)).
Definition atomic_nest_alt : Node.t :=
  Node.set_elements [2] (getNodeBase (Some 0) AstTypes.Alternative).
Definition atomic_nest_inner : Node.t :=
  Node.set_alternatives [3] (getNodeBase (Some 1) AstTypes.Group).
Definition atomic_nest : State :=
  mkState 0 ∅ [] [] false [atomic_nest_outer; atomic_nest_alt; atomic_nest_inner].

Abbreviation walkTokens_plain :=
  (walkTokens (λ _, true) (λ p, p) (λ _, false) (λ _, None) (λ p, p)).

(** ** The checks after the walk *)

(** A recorded subroutine fails the checks: its numeric [ref] lies outside
    the capturing groups, or its name is absent from the named-groups map,
    or registered for more than one group. *)
Inductive subroutine_fails (s : State) (sub : addr) : Error → Prop :=
| fails_group_undefined (n : Node.t) (ref : Z) :
    heap s !! sub = Some n → Node.ref n = Some (RNum ref) →
    (ref < 1 ∨ Z.of_nat (length (capturingGroups s)) < ref)%Z →
    subroutine_fails s sub SubroutineGroupUndefined
| fails_name_undefined (n : Node.t) (name : string) :
    heap s !! sub = Some n → Node.ref n = Some (RName name) →
    namedGroups s !! name = None →
    subroutine_fails s sub SubroutineNameUndefined
| fails_name_ambiguous (n : Node.t) (name : string) (groups : list addr) :
    heap s !! sub = Some n → Node.ref n = Some (RName name) →
    namedGroups s !! name = Some groups → 1 < length groups →
    subroutine_fails s sub SubroutineNameAmbiguous.

(** A recorded subroutine passes the checks. *)
Definition subroutine_passes (s : State) (sub : addr) : Prop :=
  ∃ n ref, heap s !! sub = Some n ∧ Node.ref n = Some ref ∧
    match ref with
    | RNum r => (1 ≤ r ≤ Z.of_nat (length (capturingGroups s)))%Z
    | RName name => ∃ groups, namedGroups s !! name = Some groups ∧ length groups ≤ 1
    | RNaN => True
    end.

(** The state the walk over [(a)\g<-1>] leaves. *)
Definition state_after_capture_subroutine : State :=
  Eval vm_compute in
    match walkTokens_plain Tokens.capture_then_relative_subroutine false noFlags with
    | Ok (_, s) => s
    | _ => initialState
    end.

(** ** Ancestors *)

(** [ancestor h a q]: [q] is reached from [a] by following [parent] one or
    more times. *)
Inductive ancestor (h : list Node.t) : addr → addr → Prop :=
| ancestor_parent (a p : addr) : parentOf h a = Some p → ancestor h a p
| ancestor_up (a p q : addr) : parentOf h a = Some p → ancestor h p q → ancestor h a q.

(** [parent_chain h a l]: [l] lists the ancestors of the object at [a],
    nearest first, up to an object whose [parent] is [null]. *)
Inductive parent_chain (h : list Node.t) : addr → list addr → Prop :=
| parent_chain_top (a : addr) (n : Node.t) :
    h !! a = Some n → Node.parent n = None → parent_chain h a []
| parent_chain_up (a p : addr) (n : Node.t) (l : list addr) :
    h !! a = Some n → Node.parent n = Some p → parent_chain h p l →
    parent_chain h a (p :: l).

(** The object at [a] is an [Assertion] of kind [lookbehind]. *)
Definition is_lookbehind (h : list Node.t) (a : addr) : Prop :=
  ∃ n, h !! a = Some n ∧ Node.type n = AstTypes.Assertion ∧
       Node.kind n = Some AstAssertionKinds.lookbehind.

(** The state the walk over [a] leaves: the top alternative (address 2)
    holds the character (address 4). *)
Definition state_after_char : State :=
  Eval vm_compute in
    match walkTokens_plain [Tokens.char "a" 97] false noFlags with
    | Ok (_, s) => s
    | _ => initialState
    end.



(** ** Ranges in character classes *)


(** ** The tree in the store *)

(** The nodes an object holds in its child containers: [elements],
    [alternatives], [classes], a quantifier's [element], a range's two
    ends, and the root's [pattern] and [flags]. *)
Definition children (n : Node.t) : list addr :=
  Node.elements n ++ Node.alternatives n ++ Node.classes n
  ++ option_list (Node.element n)
  ++ option_list (Node.rangeMin n) ++ option_list (Node.rangeMax n)
  ++ option_list (Node.pattern n) ++ option_list (Node.flagsNode n).

(** [holds h p c]: a child container of the object at [p] holds [c]. *)
Definition holds (h : list Node.t) (p c : addr) : Prop :=
  ∃ np, h !! p = Some np ∧ c ∈ children np.

(** The nodes of the tree under [root]: what the child containers lead to. *)
Inductive reachable (h : list Node.t) (root : addr) : addr → Prop :=
| reachable_root : reachable h root root
| reachable_child (p c : addr) : reachable h root p → holds h p c → reachable h root c.

Definition is_intersection (h : list Node.t) (a : addr) : Prop :=
  ∃ n, h !! a = Some n ∧ Node.type n = AstTypes.CharacterClassIntersection.

Definition not_intersection (h : list Node.t) (a : addr) : Prop :=
  ∃ n, h !! a = Some n ∧ Node.type n ≠ AstTypes.CharacterClassIntersection.

(** The elements of [n] are nodes other than intersections. *)
Definition plain (h : list Node.t) (n : Node.t) : Prop :=
  Forall (not_intersection h) (Node.elements n).

(** The two shapes of a class: a wrapper around exactly one intersection,
    or a class holding its elements directly. *)
Definition class_shape (h : list Node.t) (n : Node.t) : Prop :=
  (∃ i, Node.elements n = [i] ∧ is_intersection h i) ∨ plain h n.

(** The [parent] of the object [nc] is a [CharacterClassIntersection]. *)
Definition under_intersection (h : list Node.t) (nc : Node.t) : Prop :=
  ∃ i ni, Node.parent nc = Some i ∧ h !! i = Some ni ∧
          Node.type ni = AstTypes.CharacterClassIntersection.

(** The back-link of a held node: [c], held by the object [np] at [p], has
    [p] as its [parent], unless [c] is an [Alternative] among the elements
    of a [CharacterClass] (an alternator token consumed in a class body,
    which the walker treats as top-level alternation); the [parent] of such
    an [Alternative] is a [CharacterClassIntersection] (the one the class
    was under when the token was read). *)
Definition parent_ok (h : list Node.t) (p : addr) (np : Node.t) (c : addr) : Prop :=
  ∃ nc, h !! c = Some nc ∧
    (Node.parent nc = Some p ∨
     (Node.type nc = AstTypes.Alternative ∧ Node.type np = AstTypes.CharacterClass ∧
      c ∈ Node.elements np ∧ under_intersection h nc)).

(** Objects the parser has dropped stay in the store; the proofs keep them
    in a set [G].  [detached h G c]: no object outside [G] holds [c]. *)
Definition detached (h : list Node.t) (G : gset nat) (c : addr) : Prop :=
  ∀ p np, h !! p = Some np → p ∉ G → c ∉ children np.

(** The invariant of the store: outside the dropped objects, child
    containers and back-links agree, no node is held twice, and every
    object has one of the two class shapes. *)
Record Inv (h : list Node.t) (G : gset nat) : Prop := {
  inv_garbage : ∀ x, x ∈ G → x < length h;
  inv_valid : ∀ p np c, h !! p = Some np → p ∉ G → c ∈ children np →
                        c < length h ∧ c ∉ G;
  inv_parent : ∀ p np c, h !! p = Some np → p ∉ G → c ∈ children np →
                         parent_ok h p np c;
  inv_nodup : ∀ p np, h !! p = Some np → p ∉ G → NoDup (children np);
  inv_unique : ∀ p1 p2 n1 n2 c,
                 h !! p1 = Some n1 → h !! p2 = Some n2 → p1 ∉ G → p2 ∉ G →
                 c ∈ children n1 → c ∈ children n2 → p1 = p2;
  inv_shape : ∀ a n, h !! a = Some n → class_shape h n
}.

(** [h'] keeps every object of [h], with its type. *)
Definition keeps_types (h h' : list Node.t) : Prop :=
  ∀ a n, h !! a = Some n → ∃ n', h' !! a = Some n' ∧ Node.type n' = Node.type n.

(** The children of an object, split at its [elements]. *)
Definition other_children (n : Node.t) : list addr :=
  Node.alternatives n ++ Node.classes n
  ++ option_list (Node.element n)
  ++ option_list (Node.rangeMin n) ++ option_list (Node.rangeMax n)
  ++ option_list (Node.pattern n) ++ option_list (Node.flagsNode n).


(** ** The contract of the walker *)

(** The token at the cursor is an alternator. *)
Definition next_is_alternator (tokens : list Token.t) (s : State) : Prop :=
  ∃ tok, tokens !! current s = Some tok ∧ Token.type tok = TokenTypes.Alternator.

(** What holds when the walker is called on the parent [p], the object
    [np]: the store invariant; [p] is live, holds its elements directly,
    was created before them, and its parent chain ends, through objects
    created before it. *)
Record Pre (s : State) (G : gset nat) (p : addr) (np : Node.t) : Prop := {
  pre_inv : Inv (heap s) G;
  pre_node : heap s !! p = Some np;
  pre_live : p ∉ G;
  pre_plain : plain (heap s) np;
  pre_above : Forall (λ e, p < e) (Node.elements np);
  pre_chain : ∃ l, parent_chain (heap s) p l ∧ Forall (λ a, a < p) l
}.

(** What holds when the walker returns the node [r]: the store invariant;
    [r] is new, live and held by nothing, and its [parent] is [p] (or it is
    the [Alternative] made for an alternator token, under [p]'s parent);
    of the objects that existed, only [p] and its last element can have
    changed, and then the last element was taken out of [p] and put under
    [r], a quantifier or a range; nothing that was loose got attached; the
    cursor has advanced. *)
Record Post (tokens : list Token.t) (s : State) (G : gset nat) (p : addr) (np : Node.t)
    (r : addr) (s' : State) (G' : gset nat) : Prop := {
  post_inv : Inv (heap s') G';
  post_types : keeps_types (heap s) (heap s');
  post_garbage : G ⊆ G' ∧ ∀ x, x ∈ G' → x ∈ G ∨ length (heap s) ≤ x;
  post_fresh : length (heap s) ≤ r;
  post_live : r ∉ G';
  post_detached : detached (heap s') G' r;
  post_result :
    ∃ nr, heap s' !! r = Some nr ∧
      Node.type nr ≠ AstTypes.CharacterClassIntersection ∧
      ((Node.type nr ≠ AstTypes.Alternative ∧ Node.parent nr = Some p) ∨
       (Node.type nr = AstTypes.Alternative ∧ Node.parent nr = Node.parent np ∧
        next_is_alternator tokens s));
  post_frame :
    ∀ a, a < length (heap s) → a ≠ p → at_last (Node.elements np) ≠ Some a →
         heap s' !! a = heap s !! a;
  post_parent :
    (heap s' !! p = Some np ∧
     ∀ e, at_last (Node.elements np) = Some e → heap s' !! e = heap s !! e) ∨
    (∃ e ne nr,
       at_last (Node.elements np) = Some e ∧ heap s !! e = Some ne ∧
       heap s' !! e = Some (Node.set_parent (Some r) ne) ∧
       heap s' !! p = Some (Node.set_elements (pop (Node.elements np)) np) ∧
       heap s' !! r = Some nr ∧
       (Node.type nr = AstTypes.Quantifier ∨
        Node.type nr = AstTypes.CharacterClassRange));
  post_kept : ∀ x, x < length (heap s) → detached (heap s) G x → detached (heap s') G' x;
  post_current : current s < current s'
}.

(** [outcome res P]: the call fails, or returns a value that satisfies [P];
    it does not run out of fuel. *)
Definition outcome {A} (res : Result A) (P : A → Prop) : Prop :=
  match res with
  | Ok a => P a
  | Throw _ => True
  | OutOfFuel => False
  end.

(** The contract of a walker [w] on a token list, for the states that
    leave fewer than [fuel] tokens: it fails or returns as [Post] says, and
    does not run out of fuel. *)
Definition walk_spec (tokens : list Token.t) (w : Walk) (fuel : nat) : Prop :=
  ∀ s G p np, Pre s G p np → length tokens - current s < fuel →
    outcome (w p s) (λ '(r, s'), ∃ G', Post tokens s G p np r s' G').

(** [s'] is [s] after the creation of one object under [p] that holds no
    node. *)
Definition allocs_leaf (s : State) (p : addr) (r : addr) (s' : State) : Prop :=
  ∃ n, r = length (heap s) ∧ heap s' = heap s ++ [n] ∧ current s' = current s ∧
       children n = [] ∧ Node.parent n = Some p ∧
       Node.type n ≠ AstTypes.Alternative ∧
       Node.type n ≠ AstTypes.CharacterClassIntersection.

(** The types of the nodes a group token opens. *)
Definition is_group_type (t : AstTypes.t) : Prop :=
  t = AstTypes.Group ∨ t = AstTypes.CapturingGroup ∨ t = AstTypes.Assertion.

(** The first alternative of the group at [node]. *)
Definition initial_alternative (node : addr) : Node.t :=
  Node.set_elements [] (getNodeBase (Some node) AstTypes.Alternative).

(** [s'] is [s] after the creation under [p] of a group at [node] with its
    first alternative. *)
Definition allocs_group (s : State) (p : addr) (node : addr) (s' : State) : Prop :=
  ∃ n0, node = length (heap s) ∧
        heap s' = heap s ++ [Node.set_alternatives [S node] n0; initial_alternative node] ∧
        current s' = current s ∧
        children n0 = [] ∧ Node.parent n0 = Some p ∧ is_group_type (Node.type n0).

(** The three objects a class token creates at [node]: the class, its
    intersection and the first inner class. *)
Definition class_wrapper (p : addr) (negate : option bool) (node : addr) : Node.t :=
  Node.set_elements [S node] (createCharacterClassBase (Some p) negate).
Definition class_intersection (node : addr) : Node.t :=
  Node.set_classes [S (S node)]
    (getNodeBase (Some node) AstTypes.CharacterClassIntersection).
Definition class_base (intersection : addr) : Node.t :=
  createCharacterClassBase (Some intersection) None.

(** ** The loops that fill a node *)

(** A part of the node at [node] that is being filled: an alternative of a
    group or of the pattern, an inner class of an intersection.  It has the
    type [t], was created after [node], links back to it, and holds, directly,
    elements created after it. *)
Definition open_part (t : AstTypes.t) (h : list Node.t) (node part : addr) : Prop :=
  node < part ∧
  ∃ n, h !! part = Some n ∧ Node.type n = t ∧ Node.parent n = Some node ∧
       plain h n ∧ Forall (λ e, part < e) (Node.elements n).

(** A part that is complete: only its type and its links are known. *)
Definition closed_part (t : AstTypes.t) (h : list Node.t) (node part : addr) : Prop :=
  node < part ∧
  ∃ n, h !! part = Some n ∧ Node.type n = t ∧ Node.parent n = Some node.

(** What a loop keeps while it fills the parts (the list [parts] of the
    object at [node]) from the state [s0] on: the store invariant; only
    objects from [node] on change or get dropped; [node] is live, keeps its
    type and parent, and its parts satisfy [ok]. *)
Record Open (ok : list Node.t → addr → addr → Prop) (parts : Node.t → list addr)
    (s0 : State) (G0 : gset nat) (node : addr) (s : State) (G : gset nat) : Prop := {
  open_inv : Inv (heap s) G;
  open_types : keeps_types (heap s0) (heap s);
  open_garbage : G0 ⊆ G ∧ ∀ x, x ∈ G → x ∈ G0 ∨ node < x;
  open_frame : ∀ a, a < node → heap s !! a = heap s0 !! a;
  open_kept : ∀ x, x ≤ node → detached (heap s0) G0 x → detached (heap s) G x;
  open_live : node ∉ G;
  open_node :
    ∃ n0 nn, heap s0 !! node = Some n0 ∧ heap s !! node = Some nn ∧
             Node.type nn = Node.type n0 ∧ Node.parent nn = Node.parent n0 ∧
             Node.elements nn = Node.elements n0 ∧
             Forall (ok (heap s) node) (parts nn);
  open_current : current s0 ≤ current s
}.

(** The inner classes of the intersection at [i], from the index [k] on,
    are still as the loop left them. *)
Definition classes_open_from (h : list Node.t) (i : addr) (k : nat) : Prop :=
  ∀ n j c, h !! i = Some n → k ≤ j → Node.classes n !! j = Some c →
           open_part AstTypes.CharacterClass h i c.

(** ** The top level *)

(** The four objects [createRegExp] makes for the root: the [RegExp], its
    [Pattern], the first [Alternative] and the [Flags]. *)
Definition root_node : Node.t :=
  Node.set_flagsNode (Some 3) (Node.set_pattern (Some 1) (getNodeBase None AstTypes.RegExp)).
Definition pattern_node : Node.t :=
  Node.set_alternatives [2] (getNodeBase (Some 0) AstTypes.Pattern).
Definition flags_node (flags : FlagValues) : Node.t :=
  Node.set_extended (Some (extended flags))
    (Node.set_dotAll (Some (dotAll flags))
       (Node.set_ignoreCase (Some (ignoreCase flags))
          (getNodeBase (Some 0) AstTypes.Flags))).
Definition initial_heap (flags : FlagValues) : list Node.t :=
  [root_node; pattern_node; initial_alternative 1; flags_node flags].
Definition initial_state (flags : FlagValues) : State :=
  mkState 0 ∅ [] [] false (initial_heap flags).

(** What the main loop of [parse] keeps: the invariant of a loop that fills
    the alternatives of the pattern, the current top-level alternative is
    the last one, and the flags are as they were created. *)
Definition top_level (flags : FlagValues) (s : State) (G : gset nat) (top : addr) : Prop :=
  Open (open_part AstTypes.Alternative) Node.alternatives (initial_state flags) ∅ 1 s G ∧
  (∃ npat, heap s !! 1 = Some npat ∧ at_last (Node.alternatives npat) = Some top) ∧
  heap s !! 3 = Some (flags_node flags).

(** The state [parse] leaves for [[a]] (with [optimize]) and for
    [(a)\g<-1>] (without). *)
Definition state_after_single_class : State :=
  Eval vm_compute in
    match parse_plain Tokens.single_class true noFlags with
    | Ok (_, s) => s
    | _ => initialState
    end.
Definition state_after_parse_capture : State :=
  Eval vm_compute in
    match parse_plain Tokens.capture_then_relative_subroutine false noFlags with
    | Ok (_, s) => s
    | _ => initialState
    end.

(** ** The cursor *)

(** A walker that, when it returns, has moved the cursor forward and not
    beyond the end of the tokens. *)
Definition walker_advances (tokens : list Token.t) (w : Walk) : Prop :=
  ∀ p s r s', w p s = Ok (r, s') → current s < current s' ∧ current s' ≤ length tokens.

(** The token before the cursor has the type [t]. *)
Definition just_read (tokens : list Token.t) (t : TokenTypes.t) (s : State) : Prop :=
  ∃ tok, 0 < current s ∧ tokens !! (current s - 1) = Some tok ∧ Token.type tok = t.

(** ** Counting capturing groups *)

(** The token opens a capturing group. *)
Definition opens_capture (tok : Token.t) : bool :=
  bool_decide (Token.type tok = TokenTypes.GroupOpen)
  && (Token.kind tok =? TokenGroupKinds.capturing)%string.

Fixpoint count_captures (l : list Token.t) : nat :=
  match l with
  | [] => 0
  | tok :: rest => (if opens_capture tok then 1 else 0) + count_captures rest
  end.

(** The number of capturing groups opened by the first [i] tokens. *)
Definition captures_upto (tokens : list Token.t) (i : nat) : nat :=
  count_captures (take i tokens).

(** A walker that registers one capturing group for every token it reads
    that opens one. *)
Definition walker_counts (tokens : list Token.t) (w : Walk) : Prop :=
  ∀ p s r s', w p s = Ok (r, s') →
    length (capturingGroups s') + captures_upto tokens (current s)
    = length (capturingGroups s) + captures_upto tokens (current s').

(** ** What the walk has read *)

(** The token is a numbered reference: a backreference written without the
    [\k] wrapper, or whose name between the delimiters is a number
    (an optional minus, then digits); or a subroutine whose name is a
    number (an optional minus or plus, then digits). *)
Definition numbered_reference (tok : Token.t) : Prop :=
  (Token.type tok = TokenTypes.Backreference ∧
   (hasKWrapper (Token.raw tok) = false ∨
    ∃ sign num, NumberedRef false (slice_3_m1 (Token.raw tok)) sign num)) ∨
  (Token.type tok = TokenTypes.Subroutine ∧
   ∃ sign num, NumberedRef true (slice_3_m1 (Token.raw tok)) sign num).

(** The token opens a capturing group that has a name. *)
Definition named_capture (tok : Token.t) : Prop :=
  Token.type tok = TokenTypes.GroupOpen ∧
  Token.kind tok = TokenGroupKinds.capturing ∧
  ∃ nm, Token.name tok = Some nm ∧ nm ≠ EmptyString.

(** One of the tokens from the index [a] up to, not including, [b]
    satisfies [P]. *)
Definition read_between (tokens : list Token.t) (P : Token.t → Prop) (a b : nat) : Prop :=
  ∃ i tok, a ≤ i < b ∧ tokens !! i = Some tok ∧ P tok.

(** [s'] has the numbered-reference flag and the named groups of [s]. *)
Definition same_refs (s s' : State) : Prop :=
  hasNumberedGroupRef s' = hasNumberedGroupRef s ∧ namedGroups s' = namedGroups s.

(** From [s] to [s'] the cursor went forward, and the tokens it passed
    account for the flag and for the named groups: the flag is set in [s']
    exactly when it was set or a numbered reference was passed, and a group
    is named in [s'] exactly when one was or a named capturing group was
    passed. *)
Definition census (tokens : list Token.t) (s s' : State) : Prop :=
  current s ≤ current s' ∧
  (hasNumberedGroupRef s' = true ↔
     hasNumberedGroupRef s = true ∨
     read_between tokens numbered_reference (current s) (current s')) ∧
  (namedGroups s' ≠ ∅ ↔
     namedGroups s ≠ ∅ ∨
     read_between tokens named_capture (current s) (current s')).

Definition walker_census (tokens : list Token.t) (w : Walk) : Prop :=
  ∀ p s r s', w p s = Ok (r, s') → census tokens s s'.

(** The state the walk over [\g<1>(?<a>)] leaves. *)
Definition state_after_numbered_then_named : State :=
  Eval vm_compute in
    match walkTokens_plain Tokens.numbered_then_named false noFlags with
    | Ok (_, s) => s
    | _ => initialState
    end.

(** * Properties of the string primitives *)

Lemma append_empty_l (s : string) : EmptyString +:+ s = s.
Proof. reflexivity. Qed.

Lemma append_cons_l (c : ascii) (s1 s2 : string) :
  String c s1 +:+ s2 = String c (s1 +:+ s2).
Proof. reflexivity. Qed.

Lemma digit_not_sign (c : ascii) :
  is_digit c = true → (c =? "-")%char = false ∧ (c =? "+")%char = false.
Proof.
  intros Hd. split.
  - destruct (Ascii.eqb_spec c "-") as [->|]; [discriminate Hd | reflexivity].
  - destruct (Ascii.eqb_spec c "+") as [->|]; [discriminate Hd | reflexivity].
Qed.

Lemma nonzero_digit_is_digit (c : ascii) : is_nonzero_digit c = true → is_digit c = true.
Proof.
  unfold is_nonzero_digit, is_digit. cbv zeta.
  rewrite !andb_true_iff, !Nat.leb_le. lia.
Qed.

Lemma nonzero_digit_not_zero (c : ascii) : is_nonzero_digit c = true → (c =? "0")%char = false.
Proof.
  intros Hd. destruct (Ascii.eqb_spec c "0") as [->|]; [discriminate Hd | reflexivity].
Qed.

Lemma strip_zeros_repeat (k : nat) (d : ascii) (ds : string) :
  is_nonzero_digit d = true →
  strip_zeros (repeat_zero k +:+ String d ds) = String d ds.
Proof.
  intros Hd. induction k as [|k IH]; simpl.
  - by rewrite (nonzero_digit_not_zero d Hd).
  - exact IH.
Qed.


Lemma strip_zeros_decompose (s : string) : ∃ k, s = repeat_zero k +:+ strip_zeros s.
Proof.
  induction s as [|c r [k IH]].
  - by exists 0.
  - cbn [strip_zeros]. destruct (Ascii.eqb_spec c "0") as [->|Hne].
    + exists (S k). cbn [repeat_zero]. change (String "0" r = String "0" (repeat_zero k +:+ strip_zeros r)). by f_equal.
    + by exists 0.
Qed.

Lemma decimal_acc_value (s : string) (acc : Z) :
  decimal_acc acc s = (acc * 10 ^ Z.of_nat (String.length s) + decimal_value s)%Z.
Proof.
  revert acc. induction s as [|c r IH]; intros acc;
    cbn [decimal_acc decimal_value String.length].
  - change (Z.of_nat 0) with 0%Z. lia.
  - rewrite IH, Nat2Z.inj_succ, Z.pow_succ_r by lia. lia.
Qed.

Lemma toNumber_digits (s : string) :
  all_digits s = true → toNumber s = Some (decimal_value s).
Proof.
  intros Hd. unfold toNumber. rewrite Hd, decimal_acc_value. f_equal; lia.
Qed.

(** The matcher accepts exactly the language of numbered references, and
    returns its two groups. *)
Lemma exec_numberedRef_complete (plus : bool) (ref sign num : string) :
  NumberedRef plus ref sign num → exec_numberedRef plus ref = Some (sign, num).
Proof.
  intros [sg k d ds Hsign Hd Hds]. unfold exec_numberedRef.
  pose proof (nonzero_digit_is_digit d Hd) as Hdd.
  destruct Hsign as [-> | [-> | [-> ->]]]; simpl.
  - (* no sign: the text starts with a zero or with [d] *)
    destruct k as [|k]; simpl.
    + destruct (digit_not_sign d Hdd) as [-> ->]. rewrite andb_false_r.
      simpl. by rewrite (nonzero_digit_not_zero d Hd), Hd, Hds.
    + rewrite andb_false_r. simpl.
      by rewrite (strip_zeros_repeat k d ds Hd), Hd, Hds.
  - rewrite append_empty_l. by rewrite (strip_zeros_repeat k d ds Hd), Hd, Hds.
  - rewrite append_empty_l. by rewrite (strip_zeros_repeat k d ds Hd), Hd, Hds.
Qed.

Lemma exec_numberedRef_sound (plus : bool) (ref sign num : string) :
  exec_numberedRef plus ref = Some (sign, num) → NumberedRef plus ref sign num.
Proof.
  unfold exec_numberedRef.
  assert (Hcore : ∀ sg rest,
    (sg = EmptyString ∨ sg = "-"%string ∨ (plus = true ∧ sg = "+"%string)) →
    match strip_zeros rest with
    | String d ds =>
        if is_nonzero_digit d && all_digits ds then Some (sg, String d ds) else None
    | EmptyString => None
    end = Some (sign, num) → NumberedRef plus (sg +:+ rest) sign num).
  { intros sg rest Hsg Hm. destruct (strip_zeros_decompose rest) as [k Hk].
    destruct (strip_zeros rest) as [|d ds]; [discriminate|].
    destruct (is_nonzero_digit d && all_digits ds) eqn:Hc; [|discriminate].
    apply andb_true_iff in Hc as [Hd Hds]. injection Hm as <- <-.
    rewrite Hk. by constructor. }
  destruct ref as [|c r].
  - intros Hm. apply (Hcore EmptyString EmptyString); auto.
  - destruct (Ascii.eqb_spec c "-") as [->|Hm1].
    + intros Hm. apply (Hcore "-"%string r); auto.
    + destruct plus; simpl.
      * destruct (Ascii.eqb_spec c "+") as [->|Hp].
        -- intros Hm. apply (Hcore "+"%string r); auto.
        -- intros Hm. apply (Hcore EmptyString (String c r)); auto.
      * intros Hm. apply (Hcore EmptyString (String c r)); auto.
Qed.

Lemma exec_numberedRef_None (plus : bool) (ref : string) :
  (∀ sign num, ¬ NumberedRef plus ref sign num) → exec_numberedRef plus ref = None.
Proof.
  intros Hno. destruct (exec_numberedRef plus ref) as [[sign num]|] eqn:He; [|done].
  exfalso. eapply Hno, exec_numberedRef_sound, He.
Qed.

Lemma NumberedRef_digits (plus : bool) (ref sign num : string) :
  NumberedRef plus ref sign num → all_digits num = true.
Proof.
  intros [sg k d ds _ Hd Hds]. simpl.
  by rewrite (nonzero_digit_is_digit d Hd), Hds.
Qed.

Lemma has_sign_char_spec (ref : string) : has_sign_char ref = true ↔ contains_sign ref.
Proof.
  split.
  - induction ref as [|c r IH]; simpl; [discriminate|].
    rewrite !orb_true_iff. intros [[Hc | Hc] | Hr].
    + apply Ascii.eqb_eq in Hc. exists EmptyString, c, r. auto.
    + apply Ascii.eqb_eq in Hc. exists EmptyString, c, r. auto.
    + destruct (IH Hr) as (pre & c' & post & -> & Hc').
      exists (String c pre), c', post. auto.
  - intros (pre & c & post & -> & Hc). induction pre as [|a pre IH]; simpl.
    + destruct Hc as [-> | ->]; simpl; by rewrite ?orb_true_r.
    + rewrite IH. by rewrite orb_true_r.
Qed.

(** * The parent chain and [isWithin] *)

Lemma parent_chain_head_valid (h : list Node.t) (a : addr) (l : list addr) :
  parent_chain h a l → a < length h.
Proof. intros [? ? Hn _ | ? ? ? ? Hn _ _]; by eapply lookup_lt_Some. Qed.

Lemma parent_chain_valid (h : list Node.t) (a : addr) (l : list addr) :
  parent_chain h a l → Forall (λ x, x < length h) (a :: l).
Proof.
  induction 1 as [a n Hn Hp | a p n l Hn Hp Hchain IH].
  - constructor; [by eapply lookup_lt_Some | constructor].
  - constructor; [by eapply lookup_lt_Some | exact IH].
Qed.

Lemma parent_chain_det (h : list Node.t) (a : addr) (l1 l2 : list addr) :
  parent_chain h a l1 → parent_chain h a l2 → l1 = l2.
Proof.
  intros H1. revert l2. induction H1 as [a n Hn Hp | a p n l Hn Hp Hchain IH];
    intros l2 H2; destruct H2 as [a n' Hn' Hp' | a p' n' l' Hn' Hp' Hchain'];
    simplify_eq; try done.
  f_equal. by apply IH.
Qed.

Lemma parent_chain_suffix (h : list Node.t) (a x : addr) (l : list addr) :
  parent_chain h a l → x ∈ l →
  ∃ l', parent_chain h x l' ∧ length l' < length l.
Proof.
  induction 1 as [a n Hn Hp | a p n l Hn Hp Hchain IH]; intros Hin.
  - by apply elem_of_nil in Hin.
  - apply elem_of_cons in Hin as [-> | Hin].
    + exists l. split; [done | simpl; lia].
    + destruct (IH Hin) as (l' & Hl' & Hlen). exists l'. split; [done | simpl; lia].
Qed.

Lemma parent_chain_NoDup (h : list Node.t) (a : addr) (l : list addr) :
  parent_chain h a l → NoDup (a :: l).
Proof.
  induction 1 as [a n Hn Hp | a p n l Hn Hp Hchain IH].
  - apply NoDup_singleton.
  - apply NoDup_cons. split; [|exact IH].
    intros Hin.
    destruct (parent_chain_suffix h a a (p :: l)) as (l' & Hl' & Hlen);
      [by econstructor | done |].
    assert (l' = p :: l) as -> by (eapply parent_chain_det; [done | by econstructor]).
    lia.
Qed.

(** A parent chain that ends visits each object of the store at most once. *)
Lemma parent_chain_length (h : list Node.t) (a : addr) (l : list addr) :
  parent_chain h a l → S (length l) ≤ length h.
Proof.
  intros Hchain.
  pose proof (parent_chain_NoDup h a l Hchain) as Hnd.
  pose proof (parent_chain_valid h a l Hchain) as Hvalid.
  change (S (length l)) with (length (a :: l)).
  trans (length (seq 0 (length h))); [|by rewrite length_seq].
  apply submseteq_length, NoDup_submseteq; [done|].
  intros x Hx. apply elem_of_seq. rewrite Forall_forall in Hvalid.
  specialize (Hvalid x Hx). lia.
Qed.

Lemma parent_chain_extend (h : list Node.t) (n : Node.t) (a : addr) (l : list addr) :
  parent_chain h a l → parent_chain (h ++ [n]) a l.
Proof.
  induction 1 as [a na Hn Hp | a p na l Hn Hp Hchain IH].
  - eapply parent_chain_top; [|done]. by apply lookup_app_l_Some.
  - eapply parent_chain_up; [|done|done]. by apply lookup_app_l_Some.
Qed.

Lemma parent_chain_ancestor (h : list Node.t) (a q : addr) (l : list addr) :
  parent_chain h a l → (ancestor h a q ↔ q ∈ l).
Proof.
  intros Hchain. split.
  - intros Hanc. revert l Hchain.
    induction Hanc as [a p Hp | a p q Hp Hanc IH]; intros l Hchain;
      destruct Hchain as [a n Hn Hpn | a p' n l Hn Hpn Hchain];
      unfold parentOf in Hp; rewrite Hn in Hp; simpl in Hp; simplify_eq.
    + apply elem_of_cons. by left.
    + apply elem_of_cons. right. by apply IH.
  - induction Hchain as [a n Hn Hp | a p n l Hn Hp Hchain IH]; intros Hin.
    + by apply elem_of_nil in Hin.
    + assert (Hpa : parentOf h a = Some p) by (unfold parentOf; by rewrite Hn).
      apply elem_of_cons in Hin as [-> | Hin].
      * by apply ancestor_parent.
      * eapply ancestor_up; [done | by apply IH].
Qed.

Lemma matchesTypeKind_lookbehind (h : list Node.t) (a : addr) :
  matchesTypeKind h a AstTypes.Assertion (Some AstAssertionKinds.lookbehind) = true
  ↔ is_lookbehind h a.
Proof.
  unfold matchesTypeKind, is_lookbehind. destruct (h !! a) as [n|].
  - simpl. rewrite andb_true_iff, !bool_decide_eq_true. split.
    + intros [Hty Hk]. by exists n.
    + intros (n' & Hn' & Hty & Hk). by simplify_eq.
  - split; [done | by intros (n & Hn & _)].
Qed.

(** With fuel beyond the length of the chain, [isWithin] answers, and says
    whether some ancestor matches. *)
Lemma isWithin_chain (h : list Node.t) (a : addr) (l : list addr) (fuel : nat)
    (type : AstTypes.t) (kind : option string) :
  parent_chain h a l → length l < fuel →
  isWithin fuel h a type kind = Ok (existsb (λ p, matchesTypeKind h p type kind) l).
Proof.
  intros Hchain. revert fuel.
  induction Hchain as [a n Hn Hp | a p n l Hn Hp Hchain IH]; intros fuel Hfuel;
    (destruct fuel as [|fuel]; [simpl in Hfuel; lia|]); simpl;
    unfold parentOf; rewrite Hn; simpl; rewrite Hp.
  - reflexivity.
  - destruct (matchesTypeKind h p type kind); [done|].
    simpl. apply IH. simpl in Hfuel. lia.
Qed.

(** * Backreferences and subroutines (claims C7 and C4) *)

(** C7.  A backreference token of the form [\k<...>] or [\k'...'] is
    resolved from its inner text [ref].  If [ref] is a numbered reference
    (optional minus, zeros, digits), parsing fails with [InsufficientGroups]
    exactly when the parsed number exceeds the count of capturing groups
    opened so far (the comparison is on the parsed number, before any
    relative resolution), and otherwise a [Backreference] is emitted whose
    [ref] is [count + 1 - parsed] for the sign [-] and [parsed] otherwise,
    the numbered-reference flag being set.  If [ref] is not a numbered
    reference and contains [-] or [+], parsing fails with
    [InvalidBackrefName]; any other [ref] absent from the named-groups map
    fails with [UndefinedGroupName]. *)
Theorem parseBackreference_named_form (parent : addr) (token : Token.t) (s : State) :
  hasKWrapper (Token.raw token) = true →
  let ref := slice_3_m1 (Token.raw token) in
  let count := Z.of_nat (length (capturingGroups s)) in
  let res := parseBackreference parent token s in
  (∀ sign num, NumberedRef false ref sign num →
     let parsed := decimal_value num in
     (res = Throw InsufficientGroups ↔ (count < parsed)%Z) ∧
     ((parsed ≤ count)%Z →
        ∃ n s', res = Ok (length (heap s), s') ∧ heap s' = heap s ++ [n] ∧
          Node.type n = AstTypes.Backreference ∧ Node.parent n = Some parent ∧
          Node.ref n =
            Some (RNum (if decide (sign = "-"%string)
                        then (count + 1 - parsed)%Z else parsed)) ∧
          hasNumberedGroupRef s' = true))
  ∧ ((∀ sign num, ¬ NumberedRef false ref sign num) → contains_sign ref →
       res = Throw InvalidBackrefName)
  ∧ ((∀ sign num, ¬ NumberedRef false ref sign num) → ¬ contains_sign ref →
       namedGroups s !! ref = None → res = Throw UndefinedGroupName).
Proof.
  intros Hk ref count res. subst res. unfold parseBackreference. rewrite Hk.
  fold ref. repeat split.
  - (* fails with InsufficientGroups only if parsed > count *)
    rewrite (exec_numberedRef_complete _ _ _ _ H).
    rewrite (toNumber_digits num (NumberedRef_digits _ _ _ _ H)).
    fold count. destruct (count <? decimal_value num)%Z eqn:Hlt; [|discriminate].
    intros _. by apply Z.ltb_lt.
  - intros Hlt. rewrite (exec_numberedRef_complete _ _ _ _ H).
    rewrite (toNumber_digits num (NumberedRef_digits _ _ _ _ H)).
    fold count. by rewrite (proj2 (Z.ltb_lt _ _) Hlt).
  - intros Hle. rewrite (exec_numberedRef_complete _ _ _ _ H).
    rewrite (toNumber_digits num (NumberedRef_digits _ _ _ _ H)).
    fold count. rewrite (proj2 (Z.ltb_ge _ _) Hle).
    eexists _, _. split; [reflexivity|]. simpl. repeat split.
    do 2 f_equal. destruct H as [sg k d ds Hsign Hd Hds].
    destruct Hsign as [-> | [-> | [? _]]]; [done | done | discriminate].
  - intros Hno Hsign. rewrite (exec_numberedRef_None _ _ Hno).
    by rewrite (proj2 (has_sign_char_spec ref) Hsign).
  - intros Hno Hsign Hnone. rewrite (exec_numberedRef_None _ _ Hno).
    destruct (has_sign_char ref) eqn:Hs.
    + exfalso. by apply Hsign, has_sign_char_spec.
    + rewrite Hnone. rewrite bool_decide_eq_false_2; [done|].
      intros [x Hx]. discriminate.
Qed.

(** C7, at a concrete input: [\k<-1>] after two capturing groups refers to
    group 2. *)
Lemma parseBackreference_named_form_witness :
  ∃ n s',
    parseBackreference 2 (Tokens.plain TokenTypes.Backreference "\k<-1>")
      (mkState 5 ∅ [4; 7] [] false []) = Ok (0, s') ∧
    heap s' = [n] ∧ Node.ref n = Some (RNum 2).
Proof.
  destruct (parseBackreference_named_form 2
              (Tokens.plain TokenTypes.Backreference "\k<-1>")
              (mkState 5 ∅ [4; 7] [] false []) eq_refl) as [Hnum _].
  destruct (Hnum "-"%string "1"%string
              (NumberedRef_intro false "-" 0 "1" EmptyString
                 (or_intror (or_introl eq_refl)) eq_refl eq_refl)) as [_ Hok].
  destruct (Hok ltac:(vm_compute; discriminate)) as (n & s' & Hres & Hheap & _ & _ & Href & _).
  exists n, s'. repeat split; assumption.
Defined.

(** C4.  A subroutine token whose inner text is a numbered reference
    (optional sign, zeros, digits) is resolved to an absolute number when it
    is parsed: the parsed number itself without a sign, the count of
    capturing groups opened so far plus the parsed number for [+], and that
    count plus one minus the parsed number for [-]; the numbered-reference
    flag is set and the node is recorded for the checks after the walk.  In
    particular the tokens of [(a)\g<-1>] parse, whatever the flags and
    options, to a tree whose top alternative holds the capturing group and
    then [Subroutine(ref = 1)], and the checks after the walk pass. *)
Theorem parseSubroutine_numbered :
  (∀ (parent : addr) (token : Token.t) (s : State) (sign num : string),
     NumberedRef true (slice_3_m1 (Token.raw token)) sign num →
     let parsed := decimal_value num in
     let count := Z.of_nat (length (capturingGroups s)) in
     ∃ n s',
       parseSubroutine parent token s = (length (heap s), s') ∧
       heap s' = heap s ++ [n] ∧
       Node.type n = AstTypes.Subroutine ∧ Node.parent n = Some parent ∧
       Node.ref n =
         Some (RNum (if decide (sign = "+"%string) then (count + parsed)%Z
                     else if decide (sign = "-"%string) then (count + 1 - parsed)%Z
                     else parsed)) ∧
       hasNumberedGroupRef s' = true ∧
       subroutines s' = subroutines s ++ [length (heap s)])
  ∧ (∀ isValidJsGroupName normalize PosixProperties_has JsUnicodePropertiesMap_get
       reformatScriptName (optimize : bool) (flags : FlagValues),
     ∃ s root pattern top group sub nroot npattern ntop ngroup nsub,
       parse isValidJsGroupName normalize PosixProperties_has JsUnicodePropertiesMap_get
         reformatScriptName Tokens.capture_then_relative_subroutine optimize flags
       = Ok (root, s) ∧
       heap s !! root = Some nroot ∧ Node.pattern nroot = Some pattern ∧
       heap s !! pattern = Some npattern ∧ Node.alternatives npattern = [top] ∧
       heap s !! top = Some ntop ∧ Node.elements ntop = [group; sub] ∧
       heap s !! group = Some ngroup ∧ Node.type ngroup = AstTypes.CapturingGroup ∧
       Node.number ngroup = Some 1%Z ∧
       heap s !! sub = Some nsub ∧ Node.type nsub = AstTypes.Subroutine ∧
       Node.ref nsub = Some (RNum 1) ∧ Node.parent nsub = Some top).
Proof.
  split.
  - intros parent token s sign num HN parsed count. unfold parseSubroutine.
    rewrite (exec_numberedRef_complete _ _ _ _ HN).
    rewrite (toNumber_digits num (NumberedRef_digits _ _ _ _ HN)).
    fold parsed count. eexists _, _. split; [reflexivity|]. simpl. repeat split.
    do 2 f_equal. destruct HN as [sg k d ds Hsign Hd Hds].
    destruct Hsign as [-> | [-> | [_ ->]]]; reflexivity.
  - intros isValid norm posix jsmap reformat optimize flags.
    destruct optimize; vm_compute; do 11 eexists; repeat split.
Qed.

(** C4, at a concrete input: [\g<+2>] after one capturing group refers to
    group 3. *)
Lemma parseSubroutine_numbered_witness :
  ∃ n s',
    parseSubroutine 2 (Tokens.plain TokenTypes.Subroutine "\g<+2>")
      (mkState 3 ∅ [4] [] false []) = (0, s') ∧
    heap s' = [n] ∧ Node.ref n = Some (RNum 3) ∧ hasNumberedGroupRef s' = true.
Proof.
  destruct (proj1 parseSubroutine_numbered 2
              (Tokens.plain TokenTypes.Subroutine "\g<+2>")
              (mkState 3 ∅ [4] [] false []) "+"%string "2"%string
              (NumberedRef_intro true "+" 0 "2" EmptyString
                 (or_intror (or_intror (conj eq_refl eq_refl))) eq_refl eq_refl))
    as (n & s' & Hres & Hheap & _ & _ & Href & Hflag & _).
  exists n, s'. repeat split; assumption.
Defined.

(** * The empty token list and the group scenarios (claims C10, C3, C2) *)

(** C10.  Parsing the empty token list succeeds: the result is a [RegExp]
    root whose pattern has exactly one [Alternative], with no elements, and
    whose [Flags] node carries the given [ignoreCase], [dotAll] and
    [extended] unchanged. *)
Theorem parse_empty_tokens
    (isValidJsGroupName : string → bool) (normalize : string → string)
    (PosixProperties_has : string → bool)
    (JsUnicodePropertiesMap_get : string → option string)
    (reformatScriptName : string → string) (optimize : bool) (flags : FlagValues) :
  ∃ s root pattern alt fl nroot npattern nalt nfl,
    parse isValidJsGroupName normalize PosixProperties_has JsUnicodePropertiesMap_get
      reformatScriptName [] optimize flags = Ok (root, s) ∧
    heap s !! root = Some nroot ∧ Node.type nroot = AstTypes.RegExp ∧
    Node.parent nroot = None ∧
    Node.pattern nroot = Some pattern ∧ heap s !! pattern = Some npattern ∧
    Node.type npattern = AstTypes.Pattern ∧ Node.alternatives npattern = [alt] ∧
    heap s !! alt = Some nalt ∧ Node.type nalt = AstTypes.Alternative ∧
    Node.elements nalt = [] ∧
    Node.flagsNode nroot = Some fl ∧ heap s !! fl = Some nfl ∧
    Node.type nfl = AstTypes.Flags ∧
    Node.ignoreCase nfl = Some (ignoreCase flags) ∧
    Node.dotAll nfl = Some (dotAll flags) ∧
    Node.extended nfl = Some (extended flags).
Proof.
  vm_compute. do 9 eexists. repeat split.
Qed.

(** C3, as stated, fails: for the tokens of [(?:(a))] with [optimize] on,
    no capturing group sits directly under the top alternative (the parent
    of the outer non-capturing group, at address 2); the outer group is
    kept. *)
Lemma nested_capture_not_lifted :
  ∃ s npattern,
    parse_plain Tokens.nested_capture true noFlags = Ok (0, s) ∧
    heap s !! 1 = Some npattern ∧ Node.alternatives npattern = [2] ∧
    ¬ capture1_under (heap s) 2.
Proof.
  eexists _, _. split; [vm_compute; reflexivity|].
  split; [reflexivity|]. split; [reflexivity|].
  intros (c & nc & Hc & Hty & _ & (np & Hp & Hin) & _).
  cbn [heap] in *. injection Hp as <-. cbn in Hin.
  apply list_elem_of_singleton in Hin as ->.
  injection Hc as <-. discriminate Hty.
Qed.

(** C3, amended.  For the tokens of [(?:(a))] with [optimize] on, the outer
    non-capturing group is kept, because its sole element is a
    [CapturingGroup] and only a [Group] inside a [Group] is lifted: the top
    alternative holds the outer [Group], whose single alternative holds the
    [CapturingGroup] with number 1, each with its holder as [parent]. *)
Theorem nested_capture_kept
    (isValidJsGroupName : string → bool) (normalize : string → string)
    (PosixProperties_has : string → bool)
    (JsUnicodePropertiesMap_get : string → option string)
    (reformatScriptName : string → string) (flags : FlagValues) :
  ∃ s root pattern top outer alt cg nroot npattern ntop nouter nalt ncg,
    parse isValidJsGroupName normalize PosixProperties_has JsUnicodePropertiesMap_get
      reformatScriptName Tokens.nested_capture true flags = Ok (root, s) ∧
    heap s !! root = Some nroot ∧ Node.pattern nroot = Some pattern ∧
    heap s !! pattern = Some npattern ∧ Node.alternatives npattern = [top] ∧
    heap s !! top = Some ntop ∧ Node.elements ntop = [outer] ∧
    heap s !! outer = Some nouter ∧ Node.type nouter = AstTypes.Group ∧
    Node.parent nouter = Some top ∧ Node.atomic nouter = None ∧
    Node.flags nouter = None ∧ Node.alternatives nouter = [alt] ∧
    heap s !! alt = Some nalt ∧ Node.parent nalt = Some outer ∧
    Node.elements nalt = [cg] ∧
    heap s !! cg = Some ncg ∧ Node.type ncg = AstTypes.CapturingGroup ∧
    Node.number ncg = Some 1%Z ∧ Node.parent ncg = Some alt.
Proof.
  vm_compute. do 13 eexists. repeat split.
Qed.

Lemma truthy_atomic (n : Node.t) : truthy (Node.atomic n) = true ↔ is_atomic n.
Proof. unfold truthy, is_atomic. destruct (Node.atomic n) as [[]|]; simpl; split; congruence. Qed.

Lemma defined_flags (n : Node.t) : defined (Node.flags n) = true ↔ has_flags n.
Proof. unfold defined, has_flags. apply bool_decide_eq_true. Qed.

(** C2, as stated, fails: an atomic outer group around an inner group with
    flags is not merged.  For the tokens of [(?>(?i:a))] with [optimize] on,
    no group that is both atomic and flagged sits under the top alternative
    (address 2). *)
Lemma atomic_around_flags_not_merged :
  ∃ s npattern,
    parse_plain Tokens.atomic_around_flags true noFlags = Ok (0, s) ∧
    heap s !! 1 = Some npattern ∧ Node.alternatives npattern = [2] ∧
    ¬ atomic_flag_group_under (heap s) 2.
Proof.
  eexists _, _. split; [vm_compute; reflexivity|].
  split; [reflexivity|]. split; [reflexivity|].
  intros (c & nc & Hc & _ & _ & [fl Hfl] & (np & Hp & Hin) & _).
  cbn [heap] in *. injection Hp as <-. cbn in Hin.
  apply list_elem_of_singleton in Hin as ->.
  injection Hc as <-. discriminate Hfl.
Qed.

(** C2, amended.  When [optimize] is on, a [Group] [node] with exactly one
    alternative holding exactly one element [el] that is itself a [Group]
    is replaced by [el] exactly when the pair is [mergeable]: all
    combinations except an atomic outer group around an inner group with
    flags, and an outer group with flags around an inner group that is
    atomic or has flags; these three leave the nesting and the store as
    they are.  When the pair is mergeable, [el] is returned with the outer
    group's [parent], and it becomes atomic if the outer group is, or else
    takes the outer group's flags if it has any; no other object changes. *)
Theorem getOptimizedGroup_merges (node alt el : addr) (n nalt nel : Node.t) (s : State) :
  heap s !! node = Some n → Node.type n = AstTypes.Group →
  Node.alternatives n = [alt] →
  heap s !! alt = Some nalt → Node.elements nalt = [el] →
  heap s !! el = Some nel → Node.type nel = AstTypes.Group →
  (mergeable n nel →
     ∃ s' nel',
       getOptimizedGroup node s = Ok (el, s') ∧
       heap s' !! el = Some nel' ∧
       Node.parent nel' = Node.parent n ∧
       Node.atomic nel' = (if decide (is_atomic n) then Some true else Node.atomic nel) ∧
       Node.flags nel' =
         (if decide (is_atomic n) then Node.flags nel
          else if decide (has_flags n) then Node.flags n else Node.flags nel) ∧
       Node.alternatives nel' = Node.alternatives nel ∧
       (∀ a, a ≠ el → heap s' !! a = heap s !! a)) ∧
  (¬ mergeable n nel → getOptimizedGroup node s = Ok (node, s)) ∧
  (is_atomic n → has_flags nel → getOptimizedGroup node s = Ok (node, s)) ∧
  (has_flags n → is_atomic nel → getOptimizedGroup node s = Ok (node, s)) ∧
  (has_flags n → has_flags nel → getOptimizedGroup node s = Ok (node, s)).
Proof.
  intros Hn Hty Halts Halt Hels Hel Htyel.
  assert (Hcond :
    negb (truthy (Node.atomic n) && defined (Node.flags nel))
    && negb (defined (Node.flags n)
             && (truthy (Node.atomic nel) || defined (Node.flags nel))) = true
    ↔ mergeable n nel).
  { unfold mergeable.
    rewrite andb_true_iff, !negb_true_iff, <- !not_true_iff_false.
    rewrite !andb_true_iff, orb_true_iff, !truthy_atomic, !defined_flags.
    reflexivity. }
  assert (Hunfold : getOptimizedGroup node s =
    if negb (truthy (Node.atomic n) && defined (Node.flags nel))
       && negb (defined (Node.flags n)
                && (truthy (Node.atomic nel) || defined (Node.flags nel)))
    then
      let s1 := update el (Node.set_parent (Node.parent n)) s in
      let s2 :=
        if truthy (Node.atomic n) then update el (Node.set_atomic (Some true)) s1
        else if defined (Node.flags n) then update el (Node.set_flags (Node.flags n)) s1
        else s1 in
      Ok (el, s2)
    else Ok (node, s)).
  { unfold getOptimizedGroup, load. rewrite Hn. simpl. rewrite Halts. simpl.
    rewrite Halt. simpl. rewrite Hels. simpl. rewrite Hel. simpl.
    rewrite Hty, Htyel. simpl. reflexivity. }
  assert (Hnot : ¬ mergeable n nel → getOptimizedGroup node s = Ok (node, s)).
  { intros Hno. rewrite Hunfold.
    destruct (negb _ && negb _) eqn:Hc; [|done]. exfalso. by apply Hno, Hcond. }
  split; [|split; [exact Hnot|repeat split]].
  - intros Hm. rewrite Hunfold. rewrite (proj2 Hcond Hm). cbv zeta.
    assert (Hlen : el < length (heap s)) by (eapply lookup_lt_Some; eauto).
    destruct Hm as [Hm1 Hm2].
    destruct (decide (is_atomic n)) as [Ha | Ha].
    + unfold is_atomic in Ha. rewrite Ha. simpl.
      eexists _, _. split; [reflexivity|]. simpl.
      rewrite !list_lookup_alter_eq, Hel. simpl.
      split; [reflexivity|]. repeat split.
      intros a Hne. by rewrite !list_lookup_alter_ne.
    + assert (truthy (Node.atomic n) = false) as ->.
      { unfold is_atomic in Ha. by destruct (Node.atomic n) as [[]|]. }
      destruct (decide (has_flags n)) as [Hf | Hf].
      * unfold defined. rewrite bool_decide_eq_true_2 by exact Hf.
        eexists _, _. split; [reflexivity|]. simpl.
        rewrite !list_lookup_alter_eq, Hel. simpl.
        split; [reflexivity|]. repeat split.
        intros a Hne. by rewrite !list_lookup_alter_ne.
      * unfold defined. rewrite bool_decide_eq_false_2 by exact Hf.
        eexists _, _. split; [reflexivity|]. simpl.
        rewrite !list_lookup_alter_eq, Hel. simpl.
        split; [reflexivity|]. repeat split.
        intros a Hne. by rewrite !list_lookup_alter_ne.
  - intros Ha Hf. apply Hnot. intros [Hm _]. by apply Hm.
  - intros Hf Ha. apply Hnot. intros [_ Hm]. apply Hm. auto.
  - intros Hf Hf'. apply Hnot. intros [_ Hm]. apply Hm. auto.
Qed.

(** C2 amended, at a concrete input: an atomic group around a plain group
    is replaced by the inner group, which becomes atomic and takes the
    outer group's parent. *)
Lemma getOptimizedGroup_merges_witness :
  ∃ s' nel',
    getOptimizedGroup 0 atomic_nest = Ok (2, s') ∧
    heap s' !! 2 = Some nel' ∧ Node.parent nel' = Some 7 ∧
    Node.atomic nel' = Some true.
Proof.
  destruct (getOptimizedGroup_merges 0 1 2 atomic_nest_outer atomic_nest_alt
              atomic_nest_inner atomic_nest
              eq_refl eq_refl eq_refl eq_refl eq_refl eq_refl eq_refl) as [Hlegal _].
  destruct Hlegal as (s' & nel' & Hres & Hel & Hparent & Hatomic & _).
  - split.
    + intros [_ [fl Hfl]]. discriminate Hfl.
    + intros [[fl Hfl] _]. discriminate Hfl.
  - exists s', nel'. repeat split; assumption.
Defined.

(** * The checks after the walk *)

Lemma checkSubroutine_passes (s : State) (sub : addr) :
  subroutine_passes s sub → checkSubroutine s sub = Ok tt.
Proof.
  intros (n & ref & Hn & Href & Hok). unfold checkSubroutine, load.
  rewrite Hn. simpl. rewrite Href. destruct ref as [r | name |].
  - destruct (r <? 1)%Z eqn:H1; [apply Z.ltb_lt in H1; lia|].
    destruct (Z.of_nat (length (capturingGroups s)) <? r)%Z eqn:H2;
      [apply Z.ltb_lt in H2; lia|]. reflexivity.
  - destruct Hok as (groups & -> & Hlen).
    destruct (1 <? length groups) eqn:H1; [apply Nat.ltb_lt in H1; lia|]. reflexivity.
  - reflexivity.
Qed.

Lemma checkSubroutine_fails (s : State) (sub : addr) (e : Error) :
  subroutine_fails s sub e → checkSubroutine s sub = Throw e.
Proof.
  intros [n ref Hn Href Hout | n name Hn Href Hnone | n name groups Hn Href Hg Hlen];
    unfold checkSubroutine, load; rewrite Hn; simpl; rewrite Href.
  - destruct Hout as [Hlt | Hgt].
    + by rewrite (proj2 (Z.ltb_lt _ _) Hlt).
    + rewrite (proj2 (Z.ltb_lt _ _) Hgt). by rewrite orb_true_r.
  - by rewrite Hnone.
  - rewrite Hg. by rewrite (proj2 (Nat.ltb_lt _ _) Hlen).
Qed.

Lemma checkSubroutines_first_failure (s : State) (pre post : list addr) (sub : addr)
    (e : Error) :
  Forall (subroutine_passes s) pre → subroutine_fails s sub e →
  checkSubroutines s (pre ++ sub :: post) = Throw e.
Proof.
  intros Hpre Hfail. induction Hpre as [|x pre Hx _ IH]; simpl.
  - by rewrite (checkSubroutine_fails s sub e Hfail).
  - by rewrite (checkSubroutine_passes s x Hx).
Qed.

Lemma checkSubroutines_all_pass (s : State) (subs : list addr) :
  Forall (subroutine_passes s) subs → checkSubroutines s subs = Ok tt.
Proof.
  induction 1 as [|x subs Hx _ IH]; simpl; [done|].
  by rewrite (checkSubroutine_passes s x Hx).
Qed.

Lemma checkSubroutine_not_numeric_clash (s : State) (sub : addr) :
  checkSubroutine s sub ≠ Throw NumericRefWithNamedCapture.
Proof.
  unfold checkSubroutine, load. destruct (heap s !! sub) as [n|]; simpl; [|done].
  destruct (Node.ref n) as [[r | name |]|]; try done.
  - by destruct ((r <? 1)%Z || _).
  - destruct (namedGroups s !! name) as [groups|]; [|done].
    by destruct (1 <? length groups).
Qed.

Lemma checkSubroutines_not_numeric_clash (s : State) (subs : list addr) :
  checkSubroutines s subs ≠ Throw NumericRefWithNamedCapture.
Proof.
  induction subs as [|x subs IH]; simpl; [done|].
  pose proof (checkSubroutine_not_numeric_clash s x) as Hx.
  destruct (checkSubroutine s x) as [[]| e |]; simpl; congruence.
Qed.

Lemma capture_subroutine_all_pass :
  Forall (subroutine_passes state_after_capture_subroutine)
    (subroutines state_after_capture_subroutine).
Proof.
  constructor; [|constructor].
  eexists _, _. split; [reflexivity|]. split; [reflexivity|]. simpl. lia.
Defined.

Lemma capture_subroutine_walk :
  walkTokens_plain Tokens.capture_then_relative_subroutine false noFlags
  = Ok (0, state_after_capture_subroutine).
Proof. vm_compute. reflexivity. Defined.

(** * The quantifier parser (claim C8) *)

(** Whether the new quantifier node lies within a lookbehind: some ancestor
    of it, that is its parent or an ancestor of its parent, is a lookbehind
    assertion. *)
Lemma isWithin_new_node (h : list Node.t) (parent : addr) (nq : Node.t)
    (ancestors : list addr) :
  parent_chain h parent ancestors → Node.parent nq = Some parent →
  ∃ b : bool,
    isWithin (isWithin_fuel (h ++ [nq])) (h ++ [nq]) (length h) AstTypes.Assertion
      (Some AstAssertionKinds.lookbehind) = Ok b ∧
    (b = true ↔
     is_lookbehind h parent ∨ ∃ a, ancestor h parent a ∧ is_lookbehind h a).
Proof.
  intros Hchain Hparent.
  assert (Hq : parent_chain (h ++ [nq]) (length h) (parent :: ancestors)).
  { eapply parent_chain_up; [| exact Hparent | by apply parent_chain_extend].
    by rewrite lookup_app_r, Nat.sub_diag. }
  pose proof (parent_chain_length h parent ancestors Hchain) as Hlen.
  eexists. split.
  - apply isWithin_chain; [exact Hq|]. unfold isWithin_fuel.
    rewrite length_app. simpl. lia.
  - rewrite existsb_exists. split.
    + intros (a & Hin & Hm). apply matchesTypeKind_lookbehind in Hm.
      assert (Hla : is_lookbehind h a).
      { destruct Hm as (n & Hn & Hty & Hk). exists n. split; [|done].
        apply list_elem_of_In in Hin.
        pose proof (parent_chain_valid h parent ancestors Hchain) as Hvalid.
        rewrite Forall_forall in Hvalid. specialize (Hvalid a Hin).
        by rewrite lookup_app_l in Hn. }
      apply list_elem_of_In, elem_of_cons in Hin as [-> | Hin]; [by left|].
      right. exists a. split; [|done]. by apply (parent_chain_ancestor h parent a ancestors).
    + assert (Hext : ∀ a, is_lookbehind h a →
                matchesTypeKind (h ++ [nq]) a AstTypes.Assertion
                  (Some AstAssertionKinds.lookbehind) = true).
      { intros a (n & Hn & Hty & Hk). apply matchesTypeKind_lookbehind.
        exists n. split; [|done]. by apply lookup_app_l_Some. }
      intros [Hp | (a & Hanc & Ha)].
      * exists parent. split; [|by apply Hext]. apply list_elem_of_In, elem_of_cons. by left.
      * exists a. split; [|by apply Hext]. apply list_elem_of_In, elem_of_cons. right.
        by apply (parent_chain_ancestor h parent a ancestors).
Qed.

(** C8.  In a state where the current alternative [parent] holds the node
    [np] and its parent chain ends, the quantifier parser fails with
    [NothingToRepeat] if and only if the alternative has no elements;
    otherwise it fails with [RangeOutOfOrder] if and only if the token's
    [max] is less than its [min]; otherwise it fails with
    [VariableLookbehind] if and only if [min] differs from [max] and some
    ancestor of the new quantifier node (its parent [parent], or an
    ancestor of [parent]) is an [Assertion] of kind [lookbehind]; otherwise
    it returns a new [Quantifier] node under [parent] that carries the
    token's bounds and modes and whose [element] is the alternative's last
    element, which is removed from the alternative and gets the quantifier
    as its [parent]; nothing else changes. *)
Theorem parseQuantifier_spec (parent : addr) (token : Token.t) (s : State) (np : Node.t)
    (ancestors : list addr) :
  heap s !! parent = Some np →
  parent_chain (heap s) parent ancestors →
  let res := parseQuantifier parent token s in
  let q := length (heap s) in
  let min := Token.min token in
  let max := Token.max token in
  let within :=
    is_lookbehind (heap s) parent ∨
    ∃ a, ancestor (heap s) parent a ∧ is_lookbehind (heap s) a in
  (res = Throw NothingToRepeat ↔ Node.elements np = []) ∧
  (Node.elements np ≠ [] → (res = Throw RangeOutOfOrder ↔ Num_ltb max min = true)) ∧
  (Node.elements np ≠ [] → Num_ltb max min = false →
     (res = Throw VariableLookbehind ↔ min ≠ max ∧ within)) ∧
  (∀ rest el nel,
     Node.elements np = rest ++ [el] → heap s !! el = Some nel →
     Num_ltb max min = false → ¬ (min ≠ max ∧ within) →
     ∃ s' nq,
       res = Ok (q, s') ∧ heap s' !! q = Some nq ∧
       Node.type nq = AstTypes.Quantifier ∧ Node.parent nq = Some parent ∧
       Node.element nq = Some el ∧
       Node.min nq = Some min ∧ Node.max nq = Some max ∧
       Node.greedy nq = Some (Token.greedy token) ∧
       Node.possessive nq = Some (Token.possessive token) ∧
       (el ≠ parent → heap s' !! parent = Some (Node.set_elements rest np)) ∧
       (el ≠ parent → heap s' !! el = Some (Node.set_parent (Some q) nel)) ∧
       (∀ a, a ≠ parent → a ≠ el → a ≠ q → heap s' !! a = heap s !! a)).
Proof.
  intros Hnp Hchain res q min max within.
  set (nq0 := Node.set_element (at_last (Node.elements np))
                (Node.set_possessive (Some (Token.possessive token))
                   (Node.set_greedy (Some (Token.greedy token))
                      (Node.set_max (Some max)
                         (Node.set_min (Some min)
                            (getNodeBase (Some parent) AstTypes.Quantifier)))))).
  destruct (isWithin_new_node (heap s) parent nq0 ancestors Hchain eq_refl)
    as (b & Hwithin & Hb).
  fold within in Hb.
  assert (Hres : res =
    if bool_decide (length (Node.elements np) = 0) then Throw NothingToRepeat
    else if Num_ltb max min then Throw RangeOutOfOrder
    else if decide (min = max) then
      match at_last (Node.elements np) with
      | None => Throw TypeError
      | Some el =>
          Ok (q, update parent pop_elements
                   (update el (Node.set_parent (Some q)) (set_heap (heap s ++ [nq0]) s)))
      end
    else if b then Throw VariableLookbehind
    else
      match at_last (Node.elements np) with
      | None => Throw TypeError
      | Some el =>
          Ok (q, update parent pop_elements
                   (update el (Node.set_parent (Some q)) (set_heap (heap s ++ [nq0]) s)))
      end).
  { subst res. unfold parseQuantifier, load. rewrite Hnp. simpl.
    destruct (bool_decide (length (Node.elements np) = 0)); [done|].
    unfold createQuantifier. fold min max.
    destruct (Num_ltb max min); [done|]. unfold alloc. fold nq0. cbv zeta.
    destruct (decide (min = max)) as [Heq | Hne].
    - simpl. rewrite lookup_app_r, Nat.sub_diag by done. simpl.
      destruct (at_last (Node.elements np)); done.
    - cbn [heap set_heap]. rewrite Hwithin. simpl. destruct b; [done|].
      simpl. rewrite lookup_app_r, Nat.sub_diag by done. simpl.
      destruct (at_last (Node.elements np)); done. }
  assert (Hempty : bool_decide (length (Node.elements np) = 0) = true
                   ↔ Node.elements np = []).
  { rewrite bool_decide_eq_true. apply length_zero_iff_nil. }
  assert (Hnonempty : Node.elements np ≠ [] →
                      bool_decide (length (Node.elements np) = 0) = false).
  { intros Hne. apply not_true_iff_false. by rewrite Hempty. }
  repeat split.
  - intros Hthrow. apply Hempty. rewrite Hres in Hthrow.
    destruct (bool_decide (length (Node.elements np) = 0)); [done|].
    destruct (Num_ltb max min); [done|].
    destruct (decide (min = max)), b, (at_last (Node.elements np)); done.
  - intros Hnil. rewrite Hres. by rewrite (proj2 Hempty Hnil).
  - intros Hthrow. rewrite Hres, (Hnonempty H) in Hthrow.
    destruct (Num_ltb max min); [done|].
    destruct (decide (min = max)), b, (at_last (Node.elements np)); done.
  - intros Hlt. by rewrite Hres, (Hnonempty H), Hlt.
  - rewrite Hres, (Hnonempty H), H0 in H1.
    destruct (decide (min = max)); [|done].
    destruct (at_last (Node.elements np)); done.
  - rewrite Hres, (Hnonempty H), H0 in H1.
    destruct (decide (min = max)); [destruct (at_last (Node.elements np)); done|].
    destruct b; [by apply Hb|].
    destruct (at_last (Node.elements np)); done.
  - intros [Hne Hw]. rewrite Hres, (Hnonempty H), H0.
    destruct (decide (min = max)); [done|]. by rewrite (proj2 Hb Hw).
  - intros rest el nel Hels Hel Hlt Hno.
    assert (Hne : Node.elements np ≠ []) by (rewrite Hels; by destruct rest).
    assert (Hlast : at_last (Node.elements np) = Some el)
      by (rewrite Hels; apply last_snoc).
    assert (Hpop : pop (Node.elements np) = rest)
      by (rewrite Hels; apply removelast_last).
    assert (Hlp : parent < length (heap s)) by (by eapply lookup_lt_Some).
    assert (Hle : el < length (heap s)) by (by eapply lookup_lt_Some).
    eexists _, nq0.
    assert (Hok : res =
      Ok (q, update parent pop_elements
               (update el (Node.set_parent (Some q)) (set_heap (heap s ++ [nq0]) s)))).
    { rewrite Hres, (Hnonempty Hne), Hlt, Hlast.
      destruct (decide (min = max)) as [Heq | Hneq]; [done|].
      destruct b; [|done]. exfalso. apply Hno. split; [done | by apply Hb]. }
    split; [exact Hok|]. cbn [heap update set_heap].
    split.
    { rewrite !list_lookup_alter_ne by (unfold q; lia).
      by rewrite lookup_app_r, Nat.sub_diag. }
    split; [done|]. split; [done|]. split; [by rewrite <- Hlast|].
    split; [done|]. split; [done|]. split; [done|]. split; [done|].
    split; [|split].
    + intros Hdiff. rewrite list_lookup_alter_eq, list_lookup_alter_ne by done.
      rewrite lookup_app_l by done. rewrite Hnp. simpl. unfold pop_elements.
      by rewrite Hpop.
    + intros Hdiff. rewrite list_lookup_alter_ne, list_lookup_alter_eq by done.
      rewrite lookup_app_l by done. by rewrite Hel.
    + intros a Ha1 Ha2 Ha3. rewrite !list_lookup_alter_ne by done.
      destruct (decide (a < length (heap s))) as [Hlta | Hgea].
      * by rewrite lookup_app_l.
      * rewrite !lookup_ge_None_2; [done | lia |]. rewrite length_app. simpl.
        unfold q in Ha3. lia.
Qed.

(** C8, at a concrete input: the quantifier [{2,3}] after the character of
    the pattern [a] wraps that character. *)
Lemma parseQuantifier_spec_witness :
  ∃ s' nq,
    parseQuantifier 2 (Tokens.quantifier "{2,3}" (Fin 2) (Fin 3) true false)
      state_after_char = Ok (5, s') ∧
    heap s' !! 5 = Some nq ∧ Node.type nq = AstTypes.Quantifier ∧
    Node.parent nq = Some 2 ∧ Node.element nq = Some 4.
Proof.
  eassert (Hnp : heap state_after_char !! 2 = Some _) by reflexivity.
  eassert (Hnel : heap state_after_char !! 4 = Some _) by reflexivity.
  assert (Hchain : parent_chain (heap state_after_char) 2 [1; 0]).
  { eapply parent_chain_up; [reflexivity | reflexivity |].
    eapply parent_chain_up; [reflexivity | reflexivity |].
    eapply parent_chain_top; reflexivity. }
  destruct (parseQuantifier_spec 2
              (Tokens.quantifier "{2,3}" (Fin 2) (Fin 3) true false)
              state_after_char _ [1; 0] Hnp Hchain) as (_ & _ & _ & Hwrap).
  destruct (Hwrap [] 4 _ eq_refl Hnel eq_refl)
    as (s' & nq & Hres & Hq & Hty & Hparent & Helement & _).
  - intros [_ [(n & Hn & Hty & _) | (a & Hanc & (n & Hn & Hty & _))]].
    + injection Hn as <-. discriminate Hty.
    + apply (parent_chain_ancestor _ _ a _ Hchain) in Hanc.
      apply elem_of_cons in Hanc as [-> | Hanc].
      * injection Hn as <-. discriminate Hty.
      * apply list_elem_of_singleton in Hanc as ->.
        injection Hn as <-. discriminate Hty.
  - exists s', nq. repeat split; assumption.
Defined.

(** * The hyphen in a character class (claim C9) *)





(** * The store invariant under the parser's mutations *)

Lemma keeps_types_refl (h : list Node.t) : keeps_types h h.
Proof. intros a n Ha. by exists n. Qed.

Lemma keeps_types_trans (h1 h2 h3 : list Node.t) :
  keeps_types h1 h2 → keeps_types h2 h3 → keeps_types h1 h3.
Proof.
  intros H12 H23 a n Ha. destruct (H12 a n Ha) as (n2 & Hn2 & Hty2).
  destruct (H23 a n2 Hn2) as (n3 & Hn3 & Hty3). exists n3. split; [done | congruence].
Qed.

Lemma keeps_types_length (h h' : list Node.t) : keeps_types h h' → length h ≤ length h'.
Proof.
  intros Hk. destruct (decide (length h = 0)) as [-> | Hne]; [lia|].
  destruct (lookup_lt_is_Some_2 h (length h - 1)) as [n Hn]; [lia|].
  destruct (Hk _ _ Hn) as (n' & Hn' & _). apply lookup_lt_Some in Hn'. lia.
Qed.

Lemma keeps_types_app (h : list Node.t) (l : list Node.t) : keeps_types h (h ++ l).
Proof. intros a n Ha. exists n. split; [by apply lookup_app_l_Some | done]. Qed.

Lemma keeps_types_alter (h : list Node.t) (a : addr) (f : Node.t → Node.t) :
  (∀ n, Node.type (f n) = Node.type n) → keeps_types h (alter f a h).
Proof.
  intros Hf b n Hb. destruct (decide (a = b)) as [-> | Hne].
  - exists (f n). rewrite list_lookup_alter_eq, Hb. by split.
  - exists n. by rewrite list_lookup_alter_ne.
Qed.

Lemma not_intersection_keeps (h h' : list Node.t) (a : addr) :
  keeps_types h h' → not_intersection h a → not_intersection h' a.
Proof.
  intros Hk (n & Hn & Hty). destruct (Hk a n Hn) as (n' & Hn' & Hty').
  exists n'. split; [done | congruence].
Qed.

Lemma is_intersection_keeps (h h' : list Node.t) (a : addr) :
  keeps_types h h' → is_intersection h a → is_intersection h' a.
Proof.
  intros Hk (n & Hn & Hty). destruct (Hk a n Hn) as (n' & Hn' & Hty').
  exists n'. split; [done | congruence].
Qed.

Lemma under_intersection_keeps (h h' : list Node.t) (nc nc' : Node.t) :
  keeps_types h h' → Node.parent nc' = Node.parent nc →
  under_intersection h nc → under_intersection h' nc'.
Proof.
  intros Hk Hpar (i & ni & Hi & Hni & Hty). destruct (Hk i ni Hni) as (ni' & Hni' & Hty').
  exists i, ni'. split; [congruence|]. split; [done | congruence].
Qed.

Lemma plain_keeps (h h' : list Node.t) (n : Node.t) :
  keeps_types h h' → plain h n → plain h' n.
Proof.
  intros Hk Hp. unfold plain. eapply Forall_impl; [exact Hp|].
  intros a. by apply not_intersection_keeps.
Qed.

Lemma class_shape_keeps (h h' : list Node.t) (n : Node.t) :
  keeps_types h h' → class_shape h n → class_shape h' n.
Proof.
  intros Hk [(i & Hi & Hint) | Hplain].
  - left. exists i. split; [done | by eapply is_intersection_keeps].
  - right. by eapply plain_keeps.
Qed.

Lemma class_shape_elements (h : list Node.t) (n n' : Node.t) :
  Node.elements n' = Node.elements n → class_shape h n → class_shape h n'.
Proof. unfold class_shape, plain. by intros ->. Qed.

Lemma detached_fresh (h : list Node.t) (G : gset nat) (c : addr) :
  Inv h G → length h ≤ c → detached h G c.
Proof.
  intros HI Hc p np Hp HG Hin. destruct (inv_valid h G HI p np c Hp HG Hin). lia.
Qed.

Lemma detached_weaken (h : list Node.t) (G G' : gset nat) (c : addr) :
  G ⊆ G' → detached h G c → detached h G' c.
Proof. intros Hsub Hd p np Hp HG. apply (Hd p np Hp). set_solver. Qed.

Lemma lookup_alter_Some (h : list Node.t) (a b : addr) (f : Node.t → Node.t) (nb : Node.t) :
  alter f a h !! b = Some nb →
  (b = a ∧ ∃ n, h !! a = Some n ∧ nb = f n) ∨ (b ≠ a ∧ h !! b = Some nb).
Proof.
  destruct (decide (a = b)) as [-> | Hne].
  - rewrite list_lookup_alter_eq. destruct (h !! b) as [n|] eqn:Hn; [|done].
    intros [= <-]. left. split; [done | by exists n].
  - rewrite list_lookup_alter_ne by done. intros Hb. right. by split.
Qed.

(** Creating an object that holds no node. *)
Lemma Inv_alloc (h : list Node.t) (G : gset nat) (n : Node.t) :
  Inv h G → children n = [] → Inv (h ++ [n]) G.
Proof.
  intros HI Hleaf.
  assert (Hold : ∀ p np, (h ++ [n]) !! p = Some np →
            (h !! p = Some np) ∨ (p = length h ∧ np = n)).
  { intros p np Hp. apply lookup_snoc_Some in Hp as [[_ Hp] | [-> <-]]; auto. }
  assert (Helems : Node.elements n = []).
  { unfold children in Hleaf. by apply app_eq_nil in Hleaf as [? _]. }
  split.
  - intros x Hx. rewrite length_app. simpl.
    pose proof (inv_garbage h G HI x Hx). lia.
  - intros p np c Hp HG Hin. rewrite length_app. simpl.
    destruct (Hold p np Hp) as [Hp' | [-> ->]].
    + destruct (inv_valid h G HI p np c Hp' HG Hin). split; [lia | done].
    + rewrite Hleaf in Hin. by apply elem_of_nil in Hin.
  - intros p np c Hp HG Hin. destruct (Hold p np Hp) as [Hp' | [-> ->]].
    + destruct (inv_parent h G HI p np c Hp' HG Hin) as (nc & Hc & Hok).
      exists nc. split; [by apply lookup_app_l_Some|].
      destruct Hok as [Hok | (H1 & H2 & H3 & H4)]; [by left | right].
      split; [done|]. split; [done|]. split; [done|].
      eapply under_intersection_keeps; [apply keeps_types_app | done | done].
    + rewrite Hleaf in Hin. by apply elem_of_nil in Hin.
  - intros p np Hp HG. destruct (Hold p np Hp) as [Hp' | [-> ->]].
    + by apply (inv_nodup h G HI p).
    + rewrite Hleaf. apply NoDup_nil_2.
  - intros p1 p2 n1 n2 c Hp1 Hp2 HG1 HG2 Hin1 Hin2.
    destruct (Hold p1 n1 Hp1) as [Hp1' | [-> ->]];
      [|rewrite Hleaf in Hin1; by apply elem_of_nil in Hin1].
    destruct (Hold p2 n2 Hp2) as [Hp2' | [-> ->]];
      [|rewrite Hleaf in Hin2; by apply elem_of_nil in Hin2].
    by apply (inv_unique h G HI p1 p2 n1 n2 c).
  - intros a na Ha. destruct (Hold a na Ha) as [Ha' | [-> ->]].
    + eapply class_shape_keeps; [apply keeps_types_app|]. by apply (inv_shape h G HI a).
    + right. unfold plain. rewrite Helems. constructor.
Qed.

Lemma detached_alloc (h : list Node.t) (G : gset nat) (n : Node.t) (x : addr) :
  children n = [] → detached h G x → detached (h ++ [n]) G x.
Proof.
  intros Hleaf Hd p np Hp HG.
  apply lookup_snoc_Some in Hp as [[_ Hp] | [-> <-]].
  - by apply (Hd p np).
  - rewrite Hleaf. apply not_elem_of_nil.
Qed.

(** Dropping an object that nothing holds. *)
Lemma Inv_drop (h : list Node.t) (G : gset nat) (x : addr) :
  Inv h G → x < length h → detached h G x → Inv h (G ∪ {[x]}).
Proof.
  intros HI Hx Hd. split.
  - intros y Hy. apply elem_of_union in Hy as [Hy | Hy].
    + by apply (inv_garbage h G HI).
    + apply elem_of_singleton in Hy as ->. done.
  - intros p np c Hp HG Hin.
    assert (HG' : p ∉ G) by set_solver.
    destruct (inv_valid h G HI p np c Hp HG' Hin) as [Hlt Hc]. split; [done|].
    intros Hc'. apply elem_of_union in Hc' as [Hc' | Hc']; [done|].
    apply elem_of_singleton in Hc' as ->. by apply (Hd p np Hp HG').
  - intros p np c Hp HG Hin. apply (inv_parent h G HI p np c Hp); [set_solver | done].
  - intros p np Hp HG. apply (inv_nodup h G HI p np Hp). set_solver.
  - intros p1 p2 n1 n2 c Hp1 Hp2 HG1 HG2.
    apply (inv_unique h G HI p1 p2 n1 n2 c Hp1 Hp2); set_solver.
  - apply (inv_shape h G HI).
Qed.

Lemma detached_drop (h : list Node.t) (G : gset nat) (x c : addr) :
  Inv h G → (∀ p np, h !! p = Some np → p ∉ G → c ∈ children np → p = x) →
  detached h (G ∪ {[x]}) c.
Proof.
  intros HI Honly p np Hp HG Hin.
  assert (p = x) as -> by (apply (Honly p np Hp); [set_solver | done]).
  set_solver.
Qed.

(** Changing the object at [a] in place: it may lose children, gain
    children that nothing held, and change its [parent] only if nothing
    holds it. *)
Lemma Inv_alter (h : list Node.t) (G : gset nat) (a : addr) (n : Node.t)
    (f : Node.t → Node.t) :
  Inv h G → h !! a = Some n → a ∉ G →
  (∀ m, Node.type (f m) = Node.type m) →
  (Node.parent (f n) = Node.parent n ∨ detached h G a) →
  NoDup (children (f n)) →
  (∀ c, c ∈ children (f n) →
        c ∈ children n ∨
        (c ≠ a ∧ (c ∉ G) ∧ detached h G c ∧
         ∃ nc, h !! c = Some nc ∧
           (Node.parent nc = Some a ∨
            (Node.type nc = AstTypes.Alternative ∧
             Node.type n = AstTypes.CharacterClass ∧ c ∈ Node.elements (f n) ∧
             under_intersection h nc)))) →
  (∀ c, c ∈ children (f n) → c ∈ Node.elements n → c ∈ Node.elements (f n)) →
  class_shape h (f n) →
  Inv (alter f a h) G.
Proof.
  intros HI Ha HaG Hty Hpar Hnd Hkids Helems Hshape.
  pose proof (keeps_types_alter h a f Hty) as Hk.
  assert (Hlen : length (alter f a h) = length h) by apply length_alter.
  (* a held node keeps its back-link *)
  assert (Hheld : ∀ p np c nc, h !! p = Some np → p ∉ G → c ∈ children np →
            h !! c = Some nc →
            ∃ nc', alter f a h !! c = Some nc' ∧ Node.parent nc' = Node.parent nc
                   ∧ Node.type nc' = Node.type nc).
  { intros p np c nc Hp HpG Hin Hc. destruct (decide (a = c)) as [-> | Hne].
    - rewrite list_lookup_alter_eq, Hc. simpl. exists (f nc). split; [done|].
      assert (n = nc) as -> by congruence. split; [|apply Hty].
      destruct Hpar as [Hpar | Hdet]; [done|]. by destruct (Hdet p np Hp HpG).
    - rewrite list_lookup_alter_ne by done. by exists nc. }
  split.
  - intros x Hx. rewrite Hlen. by apply (inv_garbage h G HI).
  - intros p np c Hp HpG Hin. rewrite Hlen.
    apply lookup_alter_Some in Hp as [[-> (n0 & Hn0 & ->)] | [Hne Hp]].
    + assert (n0 = n) as -> by congruence.
      destruct (Hkids c Hin) as [Hold | (_ & HcG & _ & nc & Hc & _)].
      * by apply (inv_valid h G HI a n c).
      * split; [by eapply lookup_lt_Some | done].
    + by apply (inv_valid h G HI p np c).
  - intros p np c Hp HpG Hin.
    apply lookup_alter_Some in Hp as [[-> (n0 & Hn0 & ->)] | [Hne Hp]].
    + assert (n0 = n) as -> by congruence.
      destruct (Hkids c Hin) as [Hold | (Hca & HcG & Hdet & nc & Hc & Hok)].
      * destruct (inv_parent h G HI a n c Ha HaG Hold) as (nc & Hc & Hok).
        destruct (Hheld a n c nc Ha HaG Hold Hc) as (nc' & Hc' & Hp' & Hty').
        exists nc'. split; [done|]. rewrite Hp', Hty', Hty.
        destruct Hok as [Hok | (H1 & H2 & H3 & H4)]; [by left | right].
        split; [done|]. split; [done|]. split; [by apply Helems|].
        by eapply under_intersection_keeps.
      * exists nc. rewrite list_lookup_alter_ne by done. split; [done|].
        rewrite Hty. destruct Hok as [Hok | (H1 & H2 & H3 & H4)]; [by left | right].
        split; [done|]. split; [done|]. split; [done|].
        by eapply under_intersection_keeps.
    + destruct (inv_parent h G HI p np c Hp HpG Hin) as (nc & Hc & Hok).
      destruct (Hheld p np c nc Hp HpG Hin Hc) as (nc' & Hc' & Hp' & Hty').
      exists nc'. split; [done|]. rewrite Hp', Hty'.
      destruct Hok as [Hok | (H1 & H2 & H3 & H4)]; [by left | right].
      split; [done|]. split; [done|]. split; [done|].
      by eapply under_intersection_keeps.
  - intros p np Hp HpG.
    apply lookup_alter_Some in Hp as [[-> (n0 & Hn0 & ->)] | [Hne Hp]].
    + by assert (n0 = n) as -> by congruence.
    + by apply (inv_nodup h G HI p).
  - intros p1 p2 n1 n2 c Hp1 Hp2 HG1 HG2 Hin1 Hin2.
    apply lookup_alter_Some in Hp1 as [[-> (m1 & Hm1 & ->)] | [Hne1 Hp1]];
      apply lookup_alter_Some in Hp2 as [[-> (m2 & Hm2 & ->)] | [Hne2 Hp2]]; try done.
    + assert (m1 = n) as -> by congruence.
      destruct (Hkids c Hin1) as [Hold | (_ & _ & Hdet & _)].
      * by apply (inv_unique h G HI a p2 n n2 c).
      * by destruct (Hdet p2 n2 Hp2 HG2).
    + assert (m2 = n) as -> by congruence.
      destruct (Hkids c Hin2) as [Hold | (_ & _ & Hdet & _)].
      * by apply (inv_unique h G HI p1 a n1 n c).
      * by destruct (Hdet p1 n1 Hp1 HG1).
    + by apply (inv_unique h G HI p1 p2 n1 n2 c).
  - intros b nb Hb. apply lookup_alter_Some in Hb as [[-> (n0 & Hn0 & ->)] | [Hne Hb]].
    + assert (n0 = n) as -> by congruence. by eapply class_shape_keeps.
    + eapply class_shape_keeps; [done|]. by apply (inv_shape h G HI b).
Qed.

Lemma detached_alter (h : list Node.t) (G : gset nat) (a x : addr) (n : Node.t)
    (f : Node.t → Node.t) :
  h !! a = Some n → detached h G x → (a ∉ G → x ∉ children (f n)) →
  detached (alter f a h) G x.
Proof.
  intros Ha Hd Hx p np Hp HpG.
  apply lookup_alter_Some in Hp as [[-> (n0 & Hn0 & ->)] | [Hne Hp]].
  - assert (n0 = n) as -> by congruence. by apply Hx.
  - by apply (Hd p np).
Qed.

(** A child removed from its holder is held by nothing. *)
Lemma detached_removed (h : list Node.t) (G : gset nat) (a x : addr) (n : Node.t)
    (f : Node.t → Node.t) :
  Inv h G → h !! a = Some n → a ∉ G → x ∈ children n → x ∉ children (f n) →
  detached (alter f a h) G x.
Proof.
  intros HI Ha HaG Hin Hout p np Hp HpG.
  apply lookup_alter_Some in Hp as [[-> (n0 & Hn0 & ->)] | [Hne Hp]].
  - by assert (n0 = n) as -> by congruence.
  - intros Hin'. apply Hne. by apply (inv_unique h G HI p a np n x).
Qed.

Lemma children_split (n : Node.t) : children n = Node.elements n ++ other_children n.
Proof. reflexivity. Qed.

(** An in-place change that touches neither the children nor, unless the
    object is held by nothing, its [parent]. *)
Lemma Inv_alter_fields (h : list Node.t) (G : gset nat) (a : addr) (n : Node.t)
    (f : Node.t → Node.t) :
  Inv h G → h !! a = Some n → a ∉ G →
  (∀ m, Node.type (f m) = Node.type m) →
  (Node.parent (f n) = Node.parent n ∨ detached h G a) →
  children (f n) = children n → Node.elements (f n) = Node.elements n →
  Inv (alter f a h) G.
Proof.
  intros HI Ha HaG Hty Hpar Hkids Helems.
  eapply Inv_alter; try done.
  - rewrite Hkids. by apply (inv_nodup h G HI a).
  - intros c Hc. left. by rewrite <- Hkids.
  - intros c _ Hc. by rewrite Helems.
  - eapply class_shape_elements; [exact Helems|]. by apply (inv_shape h G HI a).
Qed.

Lemma detached_alter_fields (h : list Node.t) (G : gset nat) (a x : addr)
    (f : Node.t → Node.t) :
  (∀ m, children (f m) = children m) → detached h G x → detached (alter f a h) G x.
Proof.
  intros Hkids Hd p np Hp HpG.
  apply lookup_alter_Some in Hp as [[-> (n0 & Hn0 & ->)] | [Hne Hp]].
  - rewrite Hkids. by apply (Hd a n0).
  - by apply (Hd p np).
Qed.

(** Attaching a node that nothing holds: the object at [p] gains the child
    [r], whose [parent] is [p] (or which is an alternative put among the
    elements of a class). *)
Lemma Inv_attach (h : list Node.t) (G : gset nat) (p r : addr) (np nr : Node.t)
    (f : Node.t → Node.t) :
  Inv h G → h !! p = Some np → p ∉ G →
  h !! r = Some nr → r ≠ p → r ∉ G → detached h G r →
  (∀ m, Node.type (f m) = Node.type m) →
  Node.parent (f np) = Node.parent np →
  children (f np) ≡ₚ r :: children np →
  (∀ c, c ∈ Node.elements np → c ∈ Node.elements (f np)) →
  (Node.parent nr = Some p ∨
   (Node.type nr = AstTypes.Alternative ∧ Node.type np = AstTypes.CharacterClass ∧
    r ∈ Node.elements (f np) ∧ under_intersection h nr)) →
  class_shape h (f np) →
  Inv (alter f p h) G.
Proof.
  intros HI Hp HpG Hr Hrp HrG Hdet Hty Hpar Hperm Helems Hok Hshape.
  eapply Inv_alter; try done.
  - by left.
  - rewrite Hperm. apply NoDup_cons. split; [by apply (Hdet p np) | by apply (inv_nodup h G HI p)].
  - intros c Hc. rewrite Hperm in Hc. apply elem_of_cons in Hc as [-> | Hc]; [|by left].
    right. split; [done|]. split; [done|]. split; [done|]. by exists nr.
  - intros c _ Hc. by apply Helems.
Qed.

Lemma detached_attach (h : list Node.t) (G : gset nat) (p r x : addr) (np : Node.t)
    (f : Node.t → Node.t) :
  h !! p = Some np → children (f np) ≡ₚ r :: children np → x ≠ r →
  detached h G x → detached (alter f p h) G x.
Proof.
  intros Hp Hperm Hne Hd. eapply detached_alter; [done | done |].
  intros HpG. rewrite Hperm. intros Hin.
  apply elem_of_cons in Hin as [-> | Hin]; [done|]. by apply (Hd p np Hp HpG).
Qed.

(** * The tokens that yield one new node *)

Lemma Post_alloc (tokens : list Token.t) (s : State) (G : gset nat) (p : addr)
    (np n : Node.t) (s' : State) :
  Pre s G p np → heap s' = heap s ++ [n] → current s < current s' →
  children n = [] →
  Node.type n ≠ AstTypes.CharacterClassIntersection →
  ((Node.type n ≠ AstTypes.Alternative ∧ Node.parent n = Some p) ∨
   (Node.type n = AstTypes.Alternative ∧ Node.parent n = Node.parent np ∧
    next_is_alternator tokens s)) →
  Post tokens s G p np (length (heap s)) s' G.
Proof.
  intros HP Hheap Hcur Hleaf Hty Hres.
  pose proof (pre_inv _ _ _ _ HP) as HI.
  pose proof (pre_node _ _ _ _ HP) as Hp.
  assert (Hlp : p < length (heap s)) by (by eapply lookup_lt_Some).
  split; rewrite ?Hheap.
  - by apply Inv_alloc.
  - apply keeps_types_app.
  - split; [done | auto].
  - done.
  - intros Hin. pose proof (inv_garbage _ _ HI _ Hin). lia.
  - apply detached_alloc; [done|]. by apply detached_fresh.
  - exists n. split; [|done]. by rewrite lookup_app_r, Nat.sub_diag.
  - intros a Ha _ _. by rewrite lookup_app_l.
  - left. split; [by apply lookup_app_l_Some|].
    intros e He. rewrite lookup_app_l; [done|].
    pose proof (pre_inv _ _ _ _ HP) as HI'.
    apply last_Some_elem_of in He.
    destruct (inv_valid _ _ HI' p np e Hp (pre_live _ _ _ _ HP)) as [Hlt _]; [|done].
    unfold children. apply elem_of_app. by left.
  - intros x _ Hd. by apply detached_alloc.
  - done.
Qed.

Lemma Post_leaf (tokens : list Token.t) (s s1 : State) (G : gset nat) (p : addr)
    (np : Node.t) (r : addr) (s' : State) :
  Pre s G p np → heap s1 = heap s → current s < current s1 →
  allocs_leaf s1 p r s' → Post tokens s G p np r s' G.
Proof.
  intros HP Hheap Hcur (n & -> & Hh & Hc & Hleaf & Hpar & Hty1 & Hty2).
  rewrite Hheap in *. eapply Post_alloc; try done; [lia | by left].
Qed.

Ltac leaf_alloc :=
  eexists; split; [reflexivity|]; split; [reflexivity|]; split; [reflexivity|];
  split; [reflexivity|]; split; [reflexivity|]; split; discriminate.

Lemma createCharacter_leaf (p : addr) (v : Z) (s : State) :
  allocs_leaf s p (createCharacter (Some p) v s).1 (createCharacter (Some p) v s).2.
Proof. leaf_alloc. Qed.

Lemma parseBackreference_leaf (p : addr) (token : Token.t) (s s' : State) (r : addr) :
  parseBackreference p token s = Ok (r, s') → allocs_leaf s p r s'.
Proof.
  unfold parseBackreference.
  assert (Hnum : ∀ num rel,
    match num with
    | Some n =>
        if (Z.of_nat (length (capturingGroups s)) <? n)%Z then Throw InsufficientGroups
        else Ok (createBackreference (Some p)
                   (RNum (if rel : bool
                          then (Z.of_nat (length (capturingGroups s)) + 1 - n)%Z else n))
                   (set_hasNumberedGroupRef true s))
    | None => Ok (createBackreference (Some p) RNaN (set_hasNumberedGroupRef true s))
    end = Ok (r, s') → allocs_leaf s p r s').
  { intros [n|] rel.
    - destruct (_ <? _)%Z; [done|]. intros [= <- <-]. leaf_alloc.
    - intros [= <- <-]. leaf_alloc. }
  destruct (hasKWrapper (Token.raw token)); [|apply (Hnum _ false)].
  destruct (exec_numberedRef false _) as [[sign num]|];
    [apply (Hnum _ (negb (sign =? EmptyString)%string))|].
  destruct (has_sign_char _); [done|].
  destruct (bool_decide _); [|done]. intros [= <- <-]. leaf_alloc.
Qed.

Lemma createAssertionFromToken_leaf (p : addr) (token : Token.t) (s s' : State) (r : addr) :
  Token.type token ≠ TokenTypes.GroupOpen →
  createAssertionFromToken (Some p) token s = Ok (r, s') → allocs_leaf s p r s'.
Proof.
  intros Hty. unfold createAssertionFromToken.
  destruct (decide (Token.type token = TokenTypes.GroupOpen)); [done|].
  destruct (assertionKind (Token.kind token)) as [kind|]; [|done].
  destruct (kind =? AstAssertionKinds.word_boundary)%string; intros [= <- <-]; leaf_alloc.
Qed.

Lemma createCharacterSetFromToken_leaf normalize PosixProperties_has
    JsUnicodePropertiesMap_get reformatScriptName
    (p : addr) (token : Token.t) (s s' : State) (r : addr) :
  createCharacterSetFromToken normalize PosixProperties_has JsUnicodePropertiesMap_get
    reformatScriptName (Some p) token s = Ok (r, s') →
  allocs_leaf s p r s'.
Proof.
  unfold createCharacterSetFromToken. cbv zeta.
  destruct (in_table _ TokenCharacterSetKinds.all); [|done].
  destruct (in_table _ _);
    [destruct (_ =? TokenCharacterSetKinds.posix)%string;
       [|destruct (_ =? TokenCharacterSetKinds.property)%string]|];
    intros [= <- <-]; leaf_alloc.
Qed.

Lemma createDirectiveFromToken_leaf (p : addr) (token : Token.t) (s s' : State) (r : addr) :
  createDirectiveFromToken (Some p) token s = Ok (r, s') → allocs_leaf s p r s'.
Proof.
  unfold createDirectiveFromToken. cbv zeta.
  destruct (in_table _ _); [|done].
  destruct (_ =? _)%string; intros [= <- <-]; leaf_alloc.
Qed.

Lemma createVariableLengthCharacterSet_leaf (p : addr) (kind : string) (s s' : State)
    (r : addr) :
  createVariableLengthCharacterSet (Some p) kind s = Ok (r, s') → allocs_leaf s p r s'.
Proof.
  unfold createVariableLengthCharacterSet. cbv zeta.
  destruct (kind =? "\R")%string; [intros [= <- <-]; leaf_alloc|].
  destruct (kind =? "\X")%string; [intros [= <- <-]; leaf_alloc|done].
Qed.

Lemma parseSubroutine_leaf (p : addr) (token : Token.t) (s : State) :
  allocs_leaf s p (parseSubroutine p token s).1 (parseSubroutine p token s).2.
Proof.
  unfold parseSubroutine.
  destruct (exec_numberedRef true _) as [[sign num]|]; [|leaf_alloc].
  destruct (toNumber num); [|leaf_alloc].
  destruct (sign =? "+")%string; [leaf_alloc|].
  destruct (sign =? "-")%string; leaf_alloc.
Qed.

(** * The tokens that open a group or a class *)

Lemma alter_last {A} (f : A → A) (l : list A) (x : A) :
  alter f (length l) (l ++ [x]) = l ++ [f x].
Proof.
  rewrite <- (Nat.add_0_r (length l)) at 1. by rewrite alter_app_r.
Qed.

Lemma alter_last_but_one {A} (f : A → A) (l : list A) (x y : A) :
  alter f (length l) ((l ++ [x]) ++ [y]) = l ++ [f x; y].
Proof.
  rewrite <- app_assoc. simpl.
  rewrite <- (Nat.add_0_r (length l)) at 1. by rewrite alter_app_r.
Qed.

Lemma alter_app_first {A} (f : A → A) (l k : list A) (x : A) :
  alter f (length l) (l ++ x :: k) = l ++ f x :: k.
Proof. rewrite alter_app_r_alt by lia. by rewrite Nat.sub_diag. Qed.

Lemma alter_app_second {A} (f : A → A) (l k : list A) (x y : A) :
  alter f (S (length l)) (l ++ x :: y :: k) = l ++ x :: f y :: k.
Proof.
  rewrite alter_app_r_alt by lia.
  by replace (S (length l) - length l) with 1 by lia.
Qed.

Lemma withInitialAlternative_heap (s : State) (h : list Node.t) (n0 : Node.t) :
  heap s = h ++ [n0] →
  heap (withInitialAlternative (length h) s)
  = h ++ [Node.set_alternatives [S (length h)] n0; initial_alternative (length h)]
  ∧ current (withInitialAlternative (length h) s) = current s.
Proof.
  intros Hs. unfold withInitialAlternative, createAlternative, alloc, update.
  cbn [heap set_heap current]. rewrite Hs, length_app. simpl.
  rewrite Nat.add_1_r. split; [|done]. apply alter_last_but_one.
Qed.

Lemma alloc_group (s : State) (p : addr) (n0 : Node.t) :
  children n0 = [] → Node.parent n0 = Some p → is_group_type (Node.type n0) →
  allocs_group s p (length (heap s))
    (withInitialAlternative (length (heap s)) (set_heap (heap s ++ [n0]) s)).
Proof.
  intros Hleaf Hpar Hty. exists n0.
  destruct (withInitialAlternative_heap (set_heap (heap s ++ [n0]) s) (heap s) n0 eq_refl)
    as [Hh Hc].
  by rewrite Hh, Hc.
Qed.

Lemma createGroup_allocs (s : State) (p : addr) (atomic : option bool)
    (flags : option FlagMods) :
  allocs_group s p (createGroup (Some p) atomic flags s).1
    (createGroup (Some p) atomic flags s).2.
Proof.
  unfold createGroup, alloc. cbv zeta.
  destruct (truthy atomic); [|destruct (defined flags)];
    (apply alloc_group; [reflexivity | reflexivity | by left]).
Qed.

Lemma createByGroupKind_allocs isValidJsGroupName (p : addr) (token : Token.t)
    (s s' : State) (node : addr) :
  Token.type token = TokenTypes.GroupOpen →
  createByGroupKind isValidJsGroupName (Some p) token s = Ok (node, s') →
  allocs_group s p node s'.
Proof.
  intros Hopen. unfold createByGroupKind. cbv zeta.
  destruct (_ =? TokenGroupKinds.atomic)%string.
  { intros [= <- <-].
    exact (createGroup_allocs s p (Some true) None). }
  destruct (_ =? TokenGroupKinds.capturing)%string.
  { unfold createCapturingGroup, alloc.
    destruct (Token.name token) as [nm|].
    - destruct (isValidJsGroupName nm); [|done]. intros [= <- <-].
      apply alloc_group; [reflexivity | reflexivity | right; by left].
    - intros [= <- <-]. apply alloc_group; [reflexivity | reflexivity | right; by left]. }
  destruct (_ =? TokenGroupKinds.group)%string.
  { intros [= <- <-]. exact (createGroup_allocs s p None (Token.flags token)). }
  destruct (_ || _); [|done].
  unfold createAssertionFromToken, alloc.
  destruct (decide (Token.type token = TokenTypes.GroupOpen)); [|done].
  intros [= <- <-]. apply alloc_group; [reflexivity | reflexivity | right; by right].
Qed.

Lemma createCharacterClass_heap (s : State) (p : addr) (negate : option bool) :
  let node := length (heap s) in
  (createCharacterClass (Some p) negate s).1 = node ∧
  heap (createCharacterClass (Some p) negate s).2
  = heap s ++ [class_wrapper p negate node; class_intersection node; class_base (S node)] ∧
  current (createCharacterClass (Some p) negate s).2 = current s.
Proof.
  unfold createCharacterClass, withInitialIntersection, createCharacterClassIntersection,
    alloc, update. cbn [heap set_heap current fst snd].
  split; [done|]. split; [|done].
  rewrite !length_app. simpl. rewrite !Nat.add_1_r.
  set (h := heap s).
  rewrite <- !app_assoc. simpl. by rewrite alter_app_second, alter_app_first.
Qed.

Lemma children_nil_parts (n : Node.t) :
  children n = [] →
  Node.elements n = [] ∧ Node.alternatives n = [] ∧ Node.classes n = [] ∧
  Node.element n = None ∧ Node.rangeMin n = None ∧ Node.rangeMax n = None ∧
  Node.pattern n = None ∧ Node.flagsNode n = None.
Proof.
  unfold children. intros H.
  repeat (apply app_eq_nil in H as [? H]).
  destruct (Node.element n), (Node.rangeMin n), (Node.rangeMax n), (Node.pattern n),
    (Node.flagsNode n); try discriminate. done.
Qed.

Lemma children_set_alternatives (n : Node.t) (l : list addr) :
  children n = [] → children (Node.set_alternatives l n) = l.
Proof.
  intros H. destruct (children_nil_parts n H) as (H1 & H2 & H3 & H4 & H5 & H6 & H7 & H8).
  unfold children. simpl. rewrite H1, H3, H4, H5, H6, H7, H8. simpl. apply app_nil_r.
Qed.

Lemma children_set_classes (n : Node.t) (l : list addr) :
  children n = [] → children (Node.set_classes l n) = l.
Proof.
  intros H. destruct (children_nil_parts n H) as (H1 & H2 & H3 & H4 & H5 & H6 & H7 & H8).
  unfold children. simpl. rewrite H1, H2, H4, H5, H6, H7, H8. simpl. apply app_nil_r.
Qed.

Lemma children_set_elements (n : Node.t) (l : list addr) :
  children n = [] → children (Node.set_elements l n) = l.
Proof.
  intros H. destruct (children_nil_parts n H) as (H1 & H2 & H3 & H4 & H5 & H6 & H7 & H8).
  unfold children. simpl. rewrite H2, H3, H4, H5, H6, H7, H8. simpl. apply app_nil_r.
Qed.

Lemma detached_app (h l : list Node.t) (G : gset nat) (x : addr) :
  detached h G x → (∀ n, n ∈ l → x ∉ children n) → detached (h ++ l) G x.
Proof.
  intros Hd Hl p np Hp HG.
  apply lookup_app_Some in Hp as [Hp | [_ Hp]].
  - by apply (Hd p np).
  - apply Hl. by eapply list_elem_of_lookup_2.
Qed.

(** Creating a group with its first alternative. *)
Lemma Inv_alloc_group (h : list Node.t) (G : gset nat) (n0 : Node.t) :
  Inv h G → children n0 = [] →
  Inv (h ++ [Node.set_alternatives [S (length h)] n0; initial_alternative (length h)]) G.
Proof.
  intros HI Hleaf.
  pose proof (Inv_alloc h G n0 HI Hleaf) as HI1.
  pose proof (Inv_alloc (h ++ [n0]) G (initial_alternative (length h)) HI1 eq_refl) as HI2.
  rewrite <- (alter_last_but_one (Node.set_alternatives [S (length h)])).
  assert (HG : ∀ x, x ∈ G → x < length h) by apply (inv_garbage h G HI).
  eapply (Inv_attach _ G (length h) (S (length h)) n0 (initial_alternative (length h)));
    try done.
  - rewrite <- app_assoc. by rewrite lookup_app_r, Nat.sub_diag.
  - intros Hin. specialize (HG _ Hin). lia.
  - rewrite lookup_app_r; rewrite length_app; simpl; [|lia].
    by replace (S (length h) - (length h + 1)) with 0 by lia.
  - intros Hin. specialize (HG _ Hin). lia.
  - apply detached_alloc; [done|]. apply detached_fresh; [done|].
    rewrite length_app. simpl. lia.
  - by rewrite (children_set_alternatives n0 _ Hleaf), Hleaf.
  - by left.
  - right. unfold plain. simpl.
    destruct (children_nil_parts n0 Hleaf) as [-> _]. constructor.
Qed.

(** Creating a class with its intersection and first inner class. *)
Lemma Inv_alloc_class (h : list Node.t) (G : gset nat) (p : addr) (negate : option bool) :
  Inv h G →
  Inv (h ++ [class_wrapper p negate (length h); class_intersection (length h);
             class_base (S (length h))]) G.
Proof.
  intros HI. set (L := length h).
  set (o0 := createCharacterClassBase (Some p) negate).
  set (i0 := getNodeBase (Some L) AstTypes.CharacterClassIntersection).
  set (b0 := class_base (S L)).
  assert (HG : ∀ x, x ∈ G → x < L) by apply (inv_garbage h G HI).
  pose proof (Inv_alloc h G o0 HI eq_refl) as HI1.
  pose proof (Inv_alloc _ G i0 HI1 eq_refl) as HI2.
  pose proof (Inv_alloc _ G b0 HI2 eq_refl) as HI3.
  assert (Hh3 : ((h ++ [o0]) ++ [i0]) ++ [b0] = h ++ [o0; i0; b0])
    by (by rewrite <- !app_assoc).
  rewrite Hh3 in HI3.
  assert (Hlook : ∀ k x, [o0; i0; b0] !! k = Some x → (h ++ [o0; i0; b0]) !! (L + k) = Some x).
  { intros k x Hk. rewrite lookup_app_r by (unfold L; lia).
    by replace (L + k - length h) with k by (unfold L; lia). }
  (* the intersection takes the inner class *)
  assert (HI4 : Inv (alter (Node.set_classes [S (S L)]) (S L) (h ++ [o0; i0; b0])) G).
  { eapply (Inv_attach _ G (S L) (S (S L)) i0 b0); try done.
    - replace (S L) with (L + 1) by lia. by apply Hlook.
    - intros Hin. specialize (HG _ Hin). lia.
    - replace (S (S L)) with (L + 2) by lia. by apply Hlook.
    - intros Hin. specialize (HG _ Hin). lia.
    - apply detached_app; [apply detached_fresh; [done | unfold L; lia]|].
      intros n Hn. assert (children n = []) as ->; [|apply not_elem_of_nil].
      repeat (apply elem_of_cons in Hn as [-> | Hn]; [done|]). by apply elem_of_nil in Hn.
    - by left.
    - right. constructor. }
  unfold L in HI4. rewrite alter_app_second in HI4. fold L in HI4.
  (* the class takes the intersection *)
  assert (HI5 : Inv (alter (Node.set_elements [S L]) L
                       (h ++ [o0; Node.set_classes [S (S L)] i0; b0])) G).
  { eapply (Inv_attach _ G L (S L) o0 (Node.set_classes [S (S L)] i0)); try done.
    - by rewrite lookup_app_r, Nat.sub_diag.
    - intros Hin. specialize (HG _ Hin). lia.
    - rewrite lookup_app_r by (unfold L; lia).
      by replace (S L - length h) with 1 by (unfold L; lia).
    - intros Hin. specialize (HG _ Hin). lia.
    - apply detached_app; [apply detached_fresh; [done | unfold L; lia]|].
      intros n Hn. apply elem_of_cons in Hn as [-> | Hn]; [apply not_elem_of_nil|].
      apply elem_of_cons in Hn as [-> | Hn].
      + intros Hin. apply list_elem_of_singleton in Hin. lia.
      + apply list_elem_of_singleton in Hn as ->. apply not_elem_of_nil.
    - intros c Hc. by apply elem_of_nil in Hc.
    - by left.
    - left. exists (S L). split; [done|].
      exists (Node.set_classes [S (S L)] i0). split; [|done].
      rewrite lookup_app_r by (unfold L; lia).
      by replace (S L - length h) with 1 by (unfold L; lia). }
  unfold L in HI5. by rewrite alter_app_first in HI5.
Qed.

(** * Wrapping the last element: quantifiers and ranges *)


Lemma pop_snoc (l : list addr) (x : addr) : pop (l ++ [x]) = l.
Proof. apply removelast_last. Qed.

Lemma NoDup_snoc_app (l k : list addr) (x : addr) :
  NoDup ((l ++ [x]) ++ k) → NoDup (l ++ k) ∧ x ∉ l ++ k.
Proof.
  rewrite <- app_assoc. simpl. intros Hnd.
  apply NoDup_app in Hnd as (Hl & Hdis & Hk).
  apply NoDup_cons in Hk as [Hx Hk]. split.
  - apply NoDup_app. split; [done|]. split; [|done].
    intros y Hy Hyk. apply (Hdis y Hy). apply elem_of_cons. by right.
  - intros Hin. apply elem_of_app in Hin as [Hin | Hin]; [|done].
    apply (Hdis x Hin). apply elem_of_cons. by left.
Qed.

Lemma Inv_pop (h : list Node.t) (G : gset nat) (p e : addr) (np : Node.t)
    (rest : list addr) :
  Inv h G → h !! p = Some np → p ∉ G → Node.elements np = rest ++ [e] → plain h np →
  Inv (alter pop_elements p h) G ∧ detached (alter pop_elements p h) G e.
Proof.
  intros HI Hp HpG Hels Hplain.
  pose proof (inv_nodup h G HI p np Hp HpG) as Hnd.
  rewrite children_split, Hels in Hnd.
  destruct (NoDup_snoc_app _ _ _ Hnd) as [Hnd' He].
  assert (Hkids : children (pop_elements np) = rest ++ other_children np).
  { unfold pop_elements. rewrite children_split. simpl. by rewrite Hels, pop_snoc. }
  assert (Hsub : ∀ c, c ∈ children (pop_elements np) → c ∈ children np).
  { intros c. rewrite Hkids, children_split, Hels, !elem_of_app. tauto. }
  split.
  - eapply Inv_alter; try done.
    + by left.
    + by rewrite Hkids.
    + intros c Hc. left. by apply Hsub.
    + intros c Hc Hin. unfold pop_elements. simpl. rewrite Hels, pop_snoc.
      rewrite Hels in Hin. apply elem_of_app in Hin as [Hin | Hin]; [done|].
      apply list_elem_of_singleton in Hin as ->. by rewrite Hkids in Hc.
    + right. unfold plain, pop_elements. simpl. rewrite Hels, pop_snoc.
      unfold plain in Hplain. rewrite Hels in Hplain.
      by apply Forall_app in Hplain as [? _].
  - eapply detached_removed; try done.
    + rewrite children_split, Hels, !elem_of_app. left. right. by apply list_elem_of_singleton.
    + by rewrite Hkids.
Qed.

Lemma children_set_element (n : Node.t) (e : addr) :
  children n = [] → children (Node.set_element (Some e) n) = [e].
Proof.
  intros H. destruct (children_nil_parts n H) as (H1 & H2 & H3 & H4 & H5 & H6 & H7 & H8).
  unfold children. simpl. by rewrite H1, H2, H3, H5, H6, H7, H8.
Qed.

(** The quantifier's rewrite: a new node takes the last element of [p]. *)
Lemma Inv_wrap (h : list Node.t) (G : gset nat) (p e : addr) (np ne q0 : Node.t)
    (rest : list addr) :
  Inv h G → h !! p = Some np → p ∉ G → Node.elements np = rest ++ [e] → plain h np →
  h !! e = Some ne → e ≠ p → children q0 = [] →
  let q := length h in
  let h' := alter pop_elements p
              (alter (Node.set_parent (Some q)) e (h ++ [Node.set_element (Some e) q0])) in
  Inv h' G ∧ detached h' G q ∧
  (∀ x, x ≠ e → detached h G x → detached h' G x).
Proof.
  intros HI Hp HpG Hels Hplain He Hep Hleaf q h'.
  assert (Hlp : p < length h) by (by eapply lookup_lt_Some).
  assert (Hle : e < length h) by (by eapply lookup_lt_Some).
  assert (HeG : e ∉ G).
  { apply (inv_valid h G HI p np e Hp HpG).
    rewrite children_split, Hels, !elem_of_app. left. right. by apply list_elem_of_singleton. }
  destruct (Inv_pop h G p e np rest HI Hp HpG Hels Hplain) as [HI1 Hd1].
  set (h1 := alter pop_elements p h) in *.
  assert (He1 : h1 !! e = Some ne) by (unfold h1; by rewrite list_lookup_alter_ne).
  assert (HI2 : Inv (alter (Node.set_parent (Some q)) e h1) G).
  { eapply Inv_alter_fields; try done. by right. }
  set (h2 := alter (Node.set_parent (Some q)) e h1) in *.
  assert (Hd2 : detached h2 G e) by (by apply detached_alter_fields).
  assert (Hlen2 : length h2 = length h) by (unfold h2, h1; by rewrite !length_alter).
  pose proof (Inv_alloc h2 G q0 HI2 Hleaf) as HI3.
  assert (HI4 : Inv (alter (Node.set_element (Some e)) q (h2 ++ [q0])) G).
  { eapply (Inv_attach _ G q e q0 (Node.set_parent (Some q) ne)); try done.
    - unfold q. rewrite lookup_app_r by lia. by rewrite Hlen2, Nat.sub_diag.
    - intros Hin. pose proof (inv_garbage h G HI _ Hin). unfold q in *. lia.
    - apply lookup_app_l_Some. unfold h2. by rewrite list_lookup_alter_eq, He1.
    - unfold q. lia.
    - by apply detached_alloc.
    - by rewrite (children_set_element q0 e Hleaf), Hleaf.
    - by left.
    - right. unfold plain. simpl.
      destruct (children_nil_parts q0 Hleaf) as [-> _]. constructor. }
  assert (Hlast : ∀ f x, alter f q (h2 ++ [x]) = h2 ++ [f x]).
  { intros f x. unfold q. rewrite <- Hlen2. apply alter_last. }
  assert (Heq : h' = alter (Node.set_element (Some e)) q (h2 ++ [q0])).
  { rewrite Hlast. unfold h'.
    rewrite !alter_app_l by (rewrite ?length_alter; lia).
    unfold h2, h1. by rewrite list_alter_alter_ne. }
  rewrite Heq. split; [done|]. split.
  - rewrite Hlast.
    apply detached_app.
    + apply detached_fresh; [done | lia].
    + intros n Hn. apply list_elem_of_singleton in Hn as ->.
      rewrite (children_set_element q0 e Hleaf). intros Hin.
      apply list_elem_of_singleton in Hin. lia.
  - intros x Hxe Hd. rewrite Hlast.
    apply detached_app.
    + unfold h2. apply detached_alter_fields; [done|].
      unfold h1. eapply detached_alter; [done | done |].
      intros _ Hin. apply (Hd p np Hp HpG).
      unfold pop_elements in Hin. rewrite children_split in *. simpl in Hin.
      rewrite Hels, pop_snoc in Hin. rewrite Hels, !elem_of_app.
      apply elem_of_app in Hin. tauto.
    + intros n Hn. apply list_elem_of_singleton in Hn as ->.
      rewrite (children_set_element q0 e Hleaf). intros Hin.
      by apply list_elem_of_singleton in Hin.
Qed.

Lemma children_range (n : Node.t) (a b : addr) :
  children n = [] →
  children (Node.set_rangeMin (Some a) n) = [a] ∧
  children (Node.set_rangeMax (Some b) (Node.set_rangeMin (Some a) n)) = [a; b].
Proof.
  intros H. destruct (children_nil_parts n H) as (H1 & H2 & H3 & H4 & H5 & H6 & H7 & H8).
  unfold children. simpl. by rewrite H1, H2, H3, H4, H6, H7, H8.
Qed.

(** The range's rewrite: a new node takes the last element of [p] and the
    node [next] that nothing holds. *)
Lemma Inv_range (h : list Node.t) (G : gset nat) (p prev next : addr)
    (np nprev nnext r0 : Node.t) (rest : list addr) :
  Inv h G → h !! p = Some np → p ∉ G → Node.elements np = rest ++ [prev] → plain h np →
  h !! prev = Some nprev → prev ≠ p →
  h !! next = Some nnext → next ∉ G → detached h G next → next ≠ p → next ≠ prev →
  children r0 = [] →
  let r := length h in
  let h' := alter (Node.set_parent (Some r)) next
              (alter (Node.set_parent (Some r)) prev
                 (alter pop_elements p h
                  ++ [Node.set_rangeMax (Some next) (Node.set_rangeMin (Some prev) r0)])) in
  Inv h' G ∧ detached h' G r ∧
  (∀ x, x ≠ prev → x ≠ next → detached h G x → detached h' G x).
Proof.
  intros HI Hp HpG Hels Hplain Hprev Hprevp Hnext HnextG Hdnext Hnextp Hnp Hleaf r h'.
  assert (Hlp : p < length h) by (by eapply lookup_lt_Some).
  assert (Hlprev : prev < length h) by (by eapply lookup_lt_Some).
  assert (Hlnext : next < length h) by (by eapply lookup_lt_Some).
  assert (Hin_prev : prev ∈ children np).
  { rewrite children_split, Hels, !elem_of_app. left. right. by apply list_elem_of_singleton. }
  assert (HprevG : prev ∉ G) by (by apply (inv_valid h G HI p np prev Hp HpG)).
  destruct (Inv_pop h G p prev np rest HI Hp HpG Hels Hplain) as [HI1 Hd1].
  set (h1 := alter pop_elements p h) in *.
  assert (Hkids1 : ∀ c, c ∈ children (pop_elements np) → c ∈ children np).
  { intros c. unfold pop_elements. rewrite !children_split. simpl.
    rewrite Hels, pop_snoc, !elem_of_app. tauto. }
  assert (Hd1n : detached h1 G next).
  { unfold h1. eapply detached_alter; [done | done |].
    intros _ Hin. by apply (Hdnext p np Hp HpG), Hkids1. }
  assert (Hprev1 : h1 !! prev = Some nprev) by (unfold h1; by rewrite list_lookup_alter_ne).
  assert (Hnext1 : h1 !! next = Some nnext) by (unfold h1; by rewrite list_lookup_alter_ne).
  set (h2 := alter (Node.set_parent (Some r)) prev h1).
  assert (HI2 : Inv h2 G) by (eapply Inv_alter_fields; try done; by right).
  assert (Hd2p : detached h2 G prev) by (by apply detached_alter_fields).
  assert (Hd2n : detached h2 G next) by (by apply detached_alter_fields).
  assert (Hnext2 : h2 !! next = Some nnext) by (unfold h2; by rewrite list_lookup_alter_ne).
  set (h3 := alter (Node.set_parent (Some r)) next h2).
  assert (HI3 : Inv h3 G) by (eapply Inv_alter_fields; try done; by right).
  assert (Hd3p : detached h3 G prev) by (by apply detached_alter_fields).
  assert (Hd3n : detached h3 G next) by (by apply detached_alter_fields).
  assert (Hlen3 : length h3 = length h) by (unfold h3, h2, h1; by rewrite !length_alter).
  assert (Hprev3 : h3 !! prev = Some (Node.set_parent (Some r) nprev)).
  { unfold h3, h2. rewrite list_lookup_alter_ne by done.
    by rewrite list_lookup_alter_eq, Hprev1. }
  assert (Hnext3 : h3 !! next = Some (Node.set_parent (Some r) nnext)).
  { unfold h3. by rewrite list_lookup_alter_eq, Hnext2. }
  destruct (children_range r0 prev next Hleaf) as [Hk1 Hk2].
  assert (Hlast : ∀ f x, alter f r (h3 ++ [x]) = h3 ++ [f x]).
  { intros f x. unfold r. rewrite <- Hlen3. apply alter_last. }
  assert (HrG : r ∉ G).
  { intros Hin. pose proof (inv_garbage h G HI _ Hin). unfold r in *. lia. }
  pose proof (Inv_alloc h3 G r0 HI3 Hleaf) as HI4.
  assert (HI5 : Inv (alter (Node.set_rangeMin (Some prev)) r (h3 ++ [r0])) G).
  { eapply (Inv_attach _ G r prev r0 (Node.set_parent (Some r) nprev)); try done.
    - unfold r. rewrite lookup_app_r by lia. by rewrite Hlen3, Nat.sub_diag.
    - by apply lookup_app_l_Some.
    - unfold r. lia.
    - by apply detached_alloc.
    - by rewrite Hk1, Hleaf.
    - by left.
    - right. unfold plain. simpl.
      destruct (children_nil_parts r0 Hleaf) as [-> _]. constructor. }
  rewrite Hlast in HI5.
  assert (HI6 : Inv (alter (Node.set_rangeMax (Some next)) r
                       (h3 ++ [Node.set_rangeMin (Some prev) r0])) G).
  { eapply (Inv_attach _ G r next (Node.set_rangeMin (Some prev) r0)
              (Node.set_parent (Some r) nnext)); try done.
    - unfold r. rewrite lookup_app_r by lia. by rewrite Hlen3, Nat.sub_diag.
    - by apply lookup_app_l_Some.
    - unfold r. lia.
    - apply detached_app; [done|]. intros n Hn. apply list_elem_of_singleton in Hn as ->.
      rewrite Hk1. intros Hin. by apply list_elem_of_singleton in Hin.
    - rewrite Hk1, Hk2. apply Permutation_swap.
    - by left.
    - right. unfold plain. simpl.
      destruct (children_nil_parts r0 Hleaf) as [-> _]. constructor. }
  rewrite Hlast in HI6.
  assert (Heq : h' = h3 ++ [Node.set_rangeMax (Some next) (Node.set_rangeMin (Some prev) r0)]).
  { assert (Hlen1 : length h1 = length h) by (unfold h1; by rewrite length_alter).
    assert (Hlen2 : length h2 = length h) by (unfold h2; by rewrite length_alter).
    unfold h'. fold h1. rewrite (alter_app_l _ h1) by lia. fold h2.
    by rewrite (alter_app_l _ h2) by lia. }
  rewrite Heq. split; [done|]. split.
  - apply detached_app.
    + apply detached_fresh; [done | unfold r; lia].
    + intros n Hn. apply list_elem_of_singleton in Hn as ->.
      rewrite Hk2. intros Hin. apply elem_of_cons in Hin as [Hin | Hin].
      * unfold r in Hin. lia.
      * apply list_elem_of_singleton in Hin. unfold r in Hin. lia.
  - intros x Hx1 Hx2 Hd. apply detached_app.
    + unfold h3, h2. do 2 (apply detached_alter_fields; [done|]).
      unfold h1. eapply detached_alter; [done | done |].
      intros _ Hin. by apply (Hd p np Hp HpG), Hkids1.
    + intros n Hn. apply list_elem_of_singleton in Hn as ->.
      rewrite Hk2. intros Hin. apply elem_of_cons in Hin as [Hin | Hin]; [done|].
      by apply list_elem_of_singleton in Hin.
Qed.

Lemma parseQuantifier_Ok (p : addr) (token : Token.t) (s s' : State) (r : addr)
    (np : Node.t) :
  heap s !! p = Some np → parseQuantifier p token s = Ok (r, s') →
  ∃ rest e q0,
    Node.elements np = rest ++ [e] ∧ children q0 = [] ∧
    Node.parent q0 = Some p ∧ Node.type q0 = AstTypes.Quantifier ∧
    r = length (heap s) ∧ current s' = current s ∧
    heap s' = alter pop_elements p
                (alter (Node.set_parent (Some r)) e
                   (heap s ++ [Node.set_element (Some e) q0])).
Proof.
  intros Hp. unfold parseQuantifier, load. rewrite Hp. simpl.
  destruct (bool_decide (length (Node.elements np) = 0)); [done|].
  unfold createQuantifier. destruct (Num_ltb _ _); [done|]. unfold alloc. cbv zeta.
  set (q0 := Node.set_possessive _ _).
  assert (Hfin : ∀ res : Result (addr * State),
    (res = Ok (length (heap s), set_heap (heap s ++ [Node.set_element (at_last (Node.elements np)) q0]) s)
     ∨ (∃ e, res = Throw e) ∨ res = OutOfFuel) →
    res ≫= (λ '(node, s0),
       match heap s0 !! node with Some n => Ok n | None => Throw TypeError end
       ≫= λ nn, match Node.element nn with
                | Some el =>
                    Ok (node, update p pop_elements (update el (Node.set_parent (Some node)) s0))
                | None => Throw TypeError
                end) = Ok (r, s') →
    ∃ rest e q1,
      Node.elements np = rest ++ [e] ∧ children q1 = [] ∧
      Node.parent q1 = Some p ∧ Node.type q1 = AstTypes.Quantifier ∧
      r = length (heap s) ∧ current s' = current s ∧
      heap s' = alter pop_elements p
                  (alter (Node.set_parent (Some r)) e
                     (heap s ++ [Node.set_element (Some e) q1]))).
  { intros res [-> | [[e ->] | ->]]; [|done|done]. simpl.
    rewrite lookup_app_r, Nat.sub_diag by done. simpl.
    destruct (at_last (Node.elements np)) as [el|] eqn:Hlast; [|done].
    intros [= <- <-]. apply last_Some in Hlast as [rest Hrest].
    exists rest, el, q0. by repeat split. }
  destruct (decide (Token.min token = Token.max token)); [apply Hfin; by left|].
  destruct (isWithin _ _ _ _ _) as [[]| e |]; simpl; [done | | done | done].
  intros H. exact (Hfin (Ok (_, _)) (or_introl eq_refl) H).
Qed.

Lemma parseQuantifier_fuel (p : addr) (token : Token.t) (s : State) (np : Node.t)
    (l : list addr) :
  heap s !! p = Some np → parent_chain (heap s) p l →
  parseQuantifier p token s ≠ OutOfFuel.
Proof.
  intros Hp Hchain. unfold parseQuantifier, load. rewrite Hp. simpl.
  destruct (bool_decide (length (Node.elements np) = 0)); [done|].
  unfold createQuantifier. destruct (Num_ltb _ _); [done|]. unfold alloc. cbv zeta.
  set (nq := Node.set_element _ _).
  assert (Hfin : ∀ node s0,
    (match heap s0 !! node with Some n => Ok n | None => Throw TypeError end
     ≫= λ nn, match Node.element nn with
              | Some el =>
                  Ok (node, update p pop_elements (update el (Node.set_parent (Some node)) s0))
              | None => Throw TypeError
              end) ≠ (OutOfFuel : Result (addr * State))).
  { intros node s0. destruct (heap s0 !! node) as [nn|]; simpl; [|done].
    by destruct (Node.element nn). }
  destruct (decide (Token.min token = Token.max token)); [apply Hfin|].
  cbn [heap set_heap].
  destruct (isWithin_new_node (heap s) p nq l Hchain eq_refl) as (b & -> & _).
  simpl. destruct b; [done | apply Hfin].
Qed.

Lemma Post_quantifier (tokens : list Token.t) (s s1 : State) (G : gset nat) (p : addr)
    (np : Node.t) (token : Token.t) (r : addr) (s' : State) :
  Pre s G p np → heap s1 = heap s → current s < current s1 →
  parseQuantifier p token s1 = Ok (r, s') →
  Post tokens s G p np r s' G.
Proof.
  intros HP Hheap Hcur Hres.
  pose proof (pre_inv _ _ _ _ HP) as HI.
  pose proof (pre_node _ _ _ _ HP) as Hp.
  pose proof (pre_live _ _ _ _ HP) as HpG.
  rewrite <- Hheap in Hp.
  destruct (parseQuantifier_Ok p token s1 s' r np Hp Hres)
    as (rest & e & q0 & Hels & Hleaf & Hpar & Hty & -> & Hc & Hh).
  rewrite Hheap in *. clear Hheap.
  assert (Hin : e ∈ children np).
  { rewrite children_split, Hels, !elem_of_app. left. right. by apply list_elem_of_singleton. }
  destruct (inv_valid _ _ HI p np e Hp HpG Hin) as [Hle HeG].
  destruct (lookup_lt_is_Some_2 _ _ Hle) as [ne He].
  assert (Hpe : p < e).
  { pose proof (pre_above _ _ _ _ HP) as Habove. rewrite Hels in Habove.
    apply Forall_app in Habove as [_ Habove]. by rewrite Forall_singleton in Habove. }
  assert (Hlp : p < length (heap s)) by (by eapply lookup_lt_Some).
  assert (Hlast : at_last (Node.elements np) = Some e) by (rewrite Hels; apply last_snoc).
  destruct (Inv_wrap (heap s) G p e np ne q0 rest HI Hp HpG Hels (pre_plain _ _ _ _ HP) He
              ltac:(lia) Hleaf) as (HI' & Hdq & Hkept).
  split; rewrite ?Hh.
  - exact HI'.
  - eapply keeps_types_trans; [apply keeps_types_app|].
    eapply keeps_types_trans; apply keeps_types_alter; done.
  - split; [done | auto].
  - done.
  - intros Hin'. pose proof (inv_garbage _ _ HI _ Hin'). lia.
  - exact Hdq.
  - exists (Node.set_element (Some e) q0).
    rewrite !list_lookup_alter_ne by lia. rewrite lookup_app_r, Nat.sub_diag by done.
    split; [done|]. simpl. rewrite Hty. split; [done|]. left. by split.
  - intros a Ha Hap Hae. rewrite Hlast in Hae.
    rewrite !list_lookup_alter_ne by congruence. by rewrite lookup_app_l.
  - right. exists e, ne, (Node.set_element (Some e) q0).
    split; [done|]. split; [done|]. split; [|split; [|split]].
    + rewrite list_lookup_alter_ne by lia.
      by rewrite list_lookup_alter_eq, lookup_app_l, He.
    + rewrite list_lookup_alter_eq, list_lookup_alter_ne by lia.
      by rewrite lookup_app_l, Hp.
    + rewrite !list_lookup_alter_ne by lia. by rewrite lookup_app_r, Nat.sub_diag.
    + left. by simpl.
  - intros x Hx Hd. apply Hkept; [|done]. intros ->. by apply (Hd p np Hp HpG).
  - lia.
Qed.

(** * The hyphen token *)

Lemma outcome_bind {A B} (m : Result A) (f : A → Result B) (Q : A → Prop) (P : B → Prop) :
  outcome m Q → (∀ a, Q a → outcome (f a) P) → outcome (m ≫= f) P.
Proof. destruct m as [a| e |]; simpl; auto. Qed.

Lemma outcome_impl {A} (m : Result A) (Q P : A → Prop) :
  outcome m Q → (∀ a, Q a → P a) → outcome m P.
Proof. destruct m as [a| e |]; simpl; auto. Qed.

Lemma outcome_load (a : addr) (s : State) :
  outcome (load a s) (λ n, heap s !! a = Some n).
Proof. unfold load. by destruct (heap s !! a). Qed.

Lemma outcome_Ok_inv {A} (m : Result A) (P : A → Prop) :
  outcome m P → ∀ a, m = Ok a → P a.
Proof. intros H a ->. exact H. Qed.

Lemma Pre_same_heap (s s1 : State) (G : gset nat) (p : addr) (np : Node.t) :
  heap s1 = heap s → Pre s G p np → Pre s1 G p np.
Proof. intros Hh [H1 H2 H3 H4 H5 H6]. split; by rewrite ?Hh. Qed.

Lemma Post_same_heap (tokens : list Token.t) (s s1 : State) (G : gset nat) (p : addr)
    (np : Node.t) (r : addr) (s' : State) (G' : gset nat) :
  heap s1 = heap s → current s ≤ current s1 →
  (next_is_alternator tokens s1 → next_is_alternator tokens s) →
  Post tokens s1 G p np r s' G' → Post tokens s G p np r s' G'.
Proof.
  intros Hh Hc Halt [H1 H2 H3 H4 H5 H6 H7 H8 H9 H10 H11].
  split; rewrite <- ?Hh; try done.
  - destruct H7 as (nr & Hr & Hty & Hres). exists nr. split; [done|]. split; [done|].
    destruct Hres as [Hres | (Ha & Hb & Hc')]; [by left | right]. auto.
  - lia.
Qed.

Lemma createCharacterClassRange_Ok (p prev next : addr) (s s' : State) (r : addr) :
  createCharacterClassRange (Some p) prev next s = Ok (r, s') →
  r = length (heap s) ∧ current s' = current s ∧
  heap s' = heap s ++ [Node.set_rangeMax (Some next)
                         (Node.set_rangeMin (Some prev)
                            (getNodeBase (Some p) AstTypes.CharacterClassRange))].
Proof.
  unfold createCharacterClassRange, load.
  destruct (heap s !! prev) as [nprev|]; [|done]. simpl.
  destruct (heap s !! next) as [nnext|]; [|done]. simpl.
  destruct (value_ltb _ _); [done|]. by intros [= <- <-].
Qed.

Lemma createCharacterClassRange_fuel (p prev next : addr) (s : State) :
  createCharacterClassRange (Some p) prev next s ≠ OutOfFuel.
Proof.
  unfold createCharacterClassRange, load.
  destruct (heap s !! prev) as [nprev|]; [|done]. simpl.
  destruct (heap s !! next) as [nnext|]; [|done]. simpl.
  by destruct (value_ltb _ _).
Qed.

(** The hyphen token, given a walker that keeps the contract. *)
Lemma hyphen_spec (tokens : list Token.t) (w : Walk) (fuel : nat) (s s1 : State)
    (G : gset nat) (p : addr) (np : Node.t) (next : option Token.t) :
  walk_spec tokens w fuel →
  Pre s G p np → heap s1 = heap s → current s < current s1 →
  length tokens - current s1 < fuel →
  outcome (parseCharacterClassHyphen w p next s1)
    (λ '(r, s'), ∃ G', Post tokens s G p np r s' G').
Proof.
  intros Hw HP Hheap Hcur Hfuel.
  pose proof (Pre_same_heap s s1 G p np Hheap HP) as HP1.
  pose proof (pre_node _ _ _ _ HP1) as Hp.
  assert (Hliteral : outcome (Ok (createCharacter (Some p) 45 s1) : Result (addr * State))
                       (λ '(r, s'), ∃ G', Post tokens s G p np r s' G')).
  { simpl. exists G. eapply Post_leaf; [done | done | done |].
    apply createCharacter_leaf. }
  unfold parseCharacterClassHyphen, load. rewrite Hp. simpl.
  destruct (at_last (Node.elements np)) as [prev|] eqn:Hlast; [|exact Hliteral].
  destruct next as [nextTok|]; [|exact Hliteral].
  destruct (heap s1 !! prev) as [nprev|] eqn:Hprev; [|done]. simpl.
  destruct (negb _ && negb _); [|exact Hliteral].
  eapply outcome_bind; [exact (Hw s1 G p np HP1 Hfuel)|].
  intros [nextNode s2] [G2 HPI]. unfold load.
  destruct (heap s2 !! prev) as [nprev2|] eqn:Hprev2; [|done]. simpl.
  destruct (heap s2 !! nextNode) as [nnext|] eqn:Hnext; [|done]. simpl.
  destruct (bool_decide (Node.type nprev2 = AstTypes.Character)
            && bool_decide (Node.type nnext = AstTypes.Character)) eqn:Hboth; [|done].
  apply andb_true_iff in Hboth as [Hty1 Hty2].
  apply bool_decide_eq_true in Hty1, Hty2.
  destruct (createCharacterClassRange (Some p) prev nextNode (update p pop_elements s2))
    as [[r s3]| e |] eqn:Hrange;
    [|done|by destruct (createCharacterClassRange_fuel _ _ _ _ Hrange)].
  apply createCharacterClassRange_Ok in Hrange as (-> & Hc3 & Hh3).
  cbn [heap update set_heap] in Hh3. simpl. exists G2.
  (* what the inner call left *)
  destruct HPI as [HI2 Hk2 [HG2 HG2'] Hfresh2 Hlive2 Hdet2 Hres2 Hframe2 Hpar2 Hkept2 Hcur2].
  rewrite Hheap in *.
  pose proof (pre_inv _ _ _ _ HP) as HI.
  pose proof (pre_live _ _ _ _ HP) as HpG.
  assert (Hlp : p < length (heap s)) by (by eapply lookup_lt_Some).
  assert (Hlprev : prev < length (heap s)) by (by eapply lookup_lt_Some).
  apply last_Some in Hlast as [rest Hels].
  assert (Hpprev : p < prev).
  { pose proof (pre_above _ _ _ _ HP) as Habove. rewrite Hels in Habove.
    apply Forall_app in Habove as [_ Habove]. by rewrite Forall_singleton in Habove. }
  assert (Hlast : at_last (Node.elements np) = Some prev) by (rewrite Hels; apply last_snoc).
  destruct Hpar2 as [[Hp2 Hsame] | (e & ne & nr & He & _ & _ & _ & Hr & Htyr)]; cycle 1.
  { (* the inner call cannot have taken the last element: it returned a character *)
    rewrite Hnext in Hr. injection Hr as <-. destruct Htyr; congruence. }
  specialize (Hsame prev Hlast). rewrite Hprev2, Hprev in Hsame. injection Hsame as ->.
  assert (HpG2 : p ∉ G2).
  { intros Hin. destruct (HG2' p Hin); [done | lia]. }
  assert (Hlen2 : length (heap s) ≤ length (heap s2)) by (by apply keeps_types_length).
  assert (Hnext_p : nextNode ≠ p) by lia.
  assert (Hnext_prev : nextNode ≠ prev) by lia.
  destruct (Inv_range (heap s2) G2 p prev nextNode np nprev nnext
              (getNodeBase (Some p) AstTypes.CharacterClassRange) rest
              HI2 Hp2 HpG2 Hels (plain_keeps _ _ _ Hk2 (pre_plain _ _ _ _ HP))
              Hprev2 ltac:(lia) Hnext Hlive2 Hdet2 Hnext_p Hnext_prev eq_refl)
    as (HI' & Hdr & Hkept').
  assert (Hlprev2 : prev < length (heap s2)) by (by eapply lookup_lt_Some).
  assert (Hlnext2 : nextNode < length (heap s2)) by (by eapply lookup_lt_Some).
  assert (Hlen3 : length (alter pop_elements p (heap s2)) = length (heap s2))
    by apply length_alter.
  split; cbn [heap update set_heap current]; rewrite ?Hh3, ?Hlen3.
  - exact HI'.
  - eapply keeps_types_trans; [exact Hk2|].
    eapply keeps_types_trans; [apply (keeps_types_alter _ p pop_elements); done|].
    eapply keeps_types_trans; [apply keeps_types_app|].
    eapply keeps_types_trans; apply keeps_types_alter; done.
  - by split.
  - lia.
  - intros Hin. pose proof (inv_garbage _ _ HI2 _ Hin). lia.
  - exact Hdr.
  - eexists. split.
    + rewrite !list_lookup_alter_ne by lia.
      rewrite lookup_app_r by (rewrite Hlen3; lia). by rewrite Hlen3, Nat.sub_diag.
    + split; [done|]. left. by split.
  - intros a Ha Hap Hae. rewrite Hlast in Hae.
    rewrite !list_lookup_alter_ne by (try congruence; lia).
    rewrite lookup_app_l by (rewrite Hlen3; lia).
    rewrite list_lookup_alter_ne by done. apply Hframe2; [done | done |].
    by rewrite Hlast.
  - right. exists prev, nprev. eexists. split; [done|]. split; [done|].
    split; [|split; [|split]].
    + rewrite list_lookup_alter_ne by lia. rewrite list_lookup_alter_eq.
      rewrite lookup_app_l by (rewrite Hlen3; lia).
      by rewrite list_lookup_alter_ne, Hprev2 by lia.
    + rewrite !list_lookup_alter_ne by lia.
      rewrite lookup_app_l by (rewrite Hlen3; lia).
      by rewrite list_lookup_alter_eq, Hp2.
    + rewrite !list_lookup_alter_ne by lia.
      rewrite lookup_app_r by (rewrite Hlen3; lia). by rewrite Hlen3, Nat.sub_diag.
    + by right.
  - intros x Hx Hd. apply Hkept'; [| lia | by apply Hkept2].
    intros ->. apply (Hd p np (pre_node _ _ _ _ HP) HpG).
    rewrite children_split, Hels, !elem_of_app. left. right. by apply list_elem_of_singleton.
  - rewrite Hc3. simpl. lia.
Qed.

(** * Attaching what the walker returns *)

Lemma children_push_element (r : addr) (n : Node.t) :
  children (push_element r n) ≡ₚ r :: children n.
Proof.
  unfold children, push_element, push. destruct n; simpl.
  rewrite <- (assoc_L (++)). simpl.
  by rewrite <- Permutation_middle.
Qed.

Lemma children_push_alternative (r : addr) (n : Node.t) :
  children (push_alternative r n) ≡ₚ r :: children n.
Proof.
  unfold children, push_alternative, push. destruct n; simpl.
  rewrite <- (assoc_L (++) alternatives). simpl.
  rewrite <- !Permutation_middle. done.
Qed.

Lemma children_push_class (r : addr) (n : Node.t) :
  children (push_class r n) ≡ₚ r :: children n.
Proof.
  unfold children, push_class, push. destruct n; simpl.
  rewrite <- (assoc_L (++) classes). simpl.
  rewrite <- !Permutation_middle. done.
Qed.

Lemma parent_chain_agree (h h' : list Node.t) (a : addr) (l : list addr) :
  (∀ x n, x ∈ a :: l → h !! x = Some n →
          ∃ n', h' !! x = Some n' ∧ Node.parent n' = Node.parent n) →
  parent_chain h a l → parent_chain h' a l.
Proof.
  intros Hag Hc. induction Hc as [a n Ha Hp | a p n l Ha Hp Hc IH].
  - destruct (Hag a n) as (n' & Ha' & Hp'); [set_solver | done |].
    eapply parent_chain_top; [exact Ha' | congruence].
  - destruct (Hag a n) as (n' & Ha' & Hp'); [set_solver | done |].
    eapply parent_chain_up; [exact Ha' | congruence |].
    apply IH. intros x m Hx. apply Hag. set_solver.
Qed.

(** The object at the parent after a call of the walker. *)
Lemma Post_parent_node (tokens : list Token.t) (s : State) (G : gset nat) (p : addr)
    (np : Node.t) (r : addr) (s' : State) (G' : gset nat) :
  Post tokens s G p np r s' G' →
  ∃ nb, heap s' !! p = Some nb ∧ Node.type nb = Node.type np ∧
        Node.parent nb = Node.parent np ∧
        (∀ c, c ∈ Node.elements nb → c ∈ Node.elements np) ∧
        other_children nb = other_children np.
Proof.
  intros HQ. destruct (post_parent _ _ _ _ _ _ _ _ HQ) as [[Hp _] | Hwrap].
  - exists np. done.
  - destruct Hwrap as (e & ne & nr & Hlast & He & He' & Hp & _).
    eexists. split; [exact Hp|]. split; [done|]. split; [done|]. split; [|done].
    intros c. simpl. unfold pop.
    destruct (Node.elements np) as [|x l] using rev_ind; [done|].
    rewrite removelast_last. set_solver.
Qed.

(** The walker's result pushed onto the elements of the parent it was
    called on: the loops of the top level, of groups and of classes. *)
Lemma walk_push (tokens : list Token.t) (s : State) (G : gset nat) (a : addr)
    (na : Node.t) (r : addr) (s' : State) (G' : gset nat) :
  Pre s G a na → Post tokens s G a na r s' G' →
  (∀ nr, heap s' !! r = Some nr → Node.type nr = AstTypes.Alternative →
         Node.type na = AstTypes.CharacterClass ∧ under_intersection (heap s) na) →
  let h := alter (push_element r) a (heap s') in
  Inv h G' ∧
  keeps_types (heap s) h ∧
  (∀ x, x < length (heap s) → x ≠ a → at_last (Node.elements na) ≠ Some x →
        h !! x = heap s !! x) ∧
  (∀ x, x < length (heap s) → detached (heap s) G x → detached h G' x) ∧
  (∃ na', h !! a = Some na' ∧ Node.type na' = Node.type na ∧
          Node.parent na' = Node.parent na ∧ plain h na' ∧
          Forall (λ e, a < e) (Node.elements na') ∧
          other_children na' = other_children na).
Proof.
  intros HP HQ Halt h.
  destruct (Post_parent_node _ _ _ _ _ _ _ _ HQ) as (nb & Hb & Hty & Hpar & Hsub & Hoth).
  destruct (post_result _ _ _ _ _ _ _ _ HQ) as (nr & Hr & Hnotint & Hres).
  pose proof (post_fresh _ _ _ _ _ _ _ _ HQ) as Hfresh.
  pose proof (pre_node _ _ _ _ HP) as Ha.
  assert (Halen : a < length (heap s)) by (by eapply lookup_lt_Some).
  assert (HaG : a ∉ G').
  { intros Hin. destruct (post_garbage _ _ _ _ _ _ _ _ HQ) as [_ Hnew].
    destruct (Hnew a Hin) as [HinG | Hge]; [|lia].
    by apply (pre_live _ _ _ _ HP). }
  pose proof (post_types _ _ _ _ _ _ _ _ HQ) as Hk.
  assert (Hk' : keeps_types (heap s') h).
  { apply keeps_types_alter. by intros []. }
  assert (Hplain : plain (heap s') (push_element r nb)).
  { unfold plain, push_element, push. simpl. apply Forall_app. split.
    - apply Forall_forall. intros c Hc.
      eapply not_intersection_keeps; [exact Hk|].
      pose proof (pre_plain _ _ _ _ HP) as Hpl. unfold plain in Hpl.
      rewrite Forall_forall in Hpl. apply Hpl. by apply Hsub.
    - constructor; [|constructor]. by exists nr. }
  assert (Hperm := children_push_element r nb).
  split.
  { eapply (Inv_attach (heap s') G' a r nb nr (push_element r)).
    - apply (post_inv _ _ _ _ _ _ _ _ HQ).
    - exact Hb.
    - exact HaG.
    - exact Hr.
    - lia.
    - apply (post_live _ _ _ _ _ _ _ _ HQ).
    - apply (post_detached _ _ _ _ _ _ _ _ HQ).
    - by intros [].
    - done.
    - exact Hperm.
    - intros c Hc. unfold push_element, push. simpl. set_solver.
    - destruct Hres as [[_ Hp] | (Halty & Hparr & Hnext)]; [by left|].
      destruct (Halt nr Hr Halty) as [Hcls Hunder].
      right. split; [done|]. split; [by rewrite Hty|]. split.
      + unfold push_element, push. simpl. set_solver.
      + by eapply under_intersection_keeps.
    - by right. }
  split; [by eapply keeps_types_trans|].
  split.
  { intros x Hx Hxa Hlast. unfold h. rewrite list_lookup_alter_ne by done.
    by apply (post_frame _ _ _ _ _ _ _ _ HQ). }
  split.
  { intros x Hx Hdet. eapply detached_attach; [exact Hb | exact Hperm | lia |].
    by apply (post_kept _ _ _ _ _ _ _ _ HQ). }
  exists (push_element r nb). split.
  { unfold h. rewrite list_lookup_alter_eq, Hb. done. }
  split; [done|]. split; [done|]. split.
  { eapply plain_keeps; [exact Hk' | exact Hplain]. }
  split; [|done].
  unfold push_element, push. simpl. apply Forall_app. split.
  - apply Forall_forall. intros c Hc.
    pose proof (pre_above _ _ _ _ HP) as Hab. rewrite Forall_forall in Hab.
    apply Hab. by apply Hsub.
  - constructor; [lia | constructor].
Qed.

(** * The loops of the top level, of groups and of classes *)

Section Loops.

Variable t : AstTypes.t.
Variable parts : Node.t → list addr.
Variable pushp : addr → Node.t → Node.t.
Hypothesis parts_children : ∀ n c, c ∈ parts n → c ∈ children n.
Hypothesis pushp_parts : ∀ x n, parts (pushp x n) = parts n ++ [x].
Hypothesis pushp_type : ∀ x n, Node.type (pushp x n) = Node.type n.
Hypothesis pushp_parent : ∀ x n, Node.parent (pushp x n) = Node.parent n.
Hypothesis pushp_elements : ∀ x n, Node.elements (pushp x n) = Node.elements n.
Hypothesis pushp_children : ∀ x n, children (pushp x n) ≡ₚ x :: children n.

Lemma open_part_keeps (h h' : list Node.t) (node part : addr) :
  keeps_types h h' → h' !! part = h !! part →
  open_part t h node part → open_part t h' node part.
Proof using Type.
  clear parts_children pushp_parts pushp_type pushp_parent pushp_elements pushp_children pushp.
  intros Hk Heq (Hlt & n & Hn & Hty & Hpar & Hpl & Hab).
  split; [done|]. exists n. rewrite Heq. repeat split; try done.
  by eapply plain_keeps.
Qed.

(** The walker may be called on the last part. *)
Lemma Open_Pre (s0 : State) (G0 : gset nat) (node : addr) (s : State) (G : gset nat)
    (nn : Node.t) (part : addr) (l : list addr) :
  Open (open_part t) parts s0 G0 node s G →
  parent_chain (heap s0) node l → Forall (λ a, a < node) l →
  heap s !! node = Some nn → at_last (parts nn) = Some part →
  ∃ npart, Pre s G part npart ∧ node < part ∧ Node.type npart = t.
Proof using parts_children.
  clear pushp_parts pushp_type pushp_parent pushp_elements pushp_children pushp.
  intros HO Hchain Hbelow Hnode Hlast.
  destruct (open_node _ _ _ _ _ _ _ HO) as (n0 & nn' & Hn0 & Hnn & Hty & Hpar & _ & Hparts).
  assert (nn' = nn) as -> by congruence.
  assert (Hin : part ∈ parts nn).
  { apply last_Some in Hlast as [l' ->]. set_solver. }
  rewrite Forall_forall in Hparts.
  destruct (Hparts part Hin) as (Hlt & npart & Hpart & Htyp & Hparp & Hpl & Hab).
  exists npart. split; [|done]. split; try done.
  - apply (open_inv _ _ _ _ _ _ _ HO).
  - eapply (inv_valid _ _ (open_inv _ _ _ _ _ _ _ HO) node nn part); try done.
    + apply (open_live _ _ _ _ _ _ _ HO).
    + by apply parts_children.
  - exists (node :: l). split.
    + eapply parent_chain_up; [exact Hpart | exact Hparp |].
      eapply parent_chain_agree; [|exact Hchain].
      intros x m Hx Hm. apply elem_of_cons in Hx as [-> | Hx].
      * exists nn. split; [done|]. congruence.
      * exists m. split; [|done].
        rewrite (open_frame _ _ _ _ _ _ _ HO); [done|].
        rewrite Forall_forall in Hbelow. by apply Hbelow.
    + constructor; [done|]. eapply Forall_impl; [exact Hbelow|]. simpl. lia.
Qed.

(** One turn of a loop that calls the walker on the last part and pushes
    the result onto its elements. *)
Lemma Open_walk_push (tokens : list Token.t) (s0 : State) (G0 : gset nat) (node : addr)
    (s : State) (G : gset nat) (nn : Node.t) (part : addr) (npart : Node.t) (r : addr)
    (s' : State) (G' : gset nat) (s'' : State) :
  Open (open_part t) parts s0 G0 node s G →
  heap s !! node = Some nn → at_last (parts nn) = Some part →
  Pre s G part npart → node < part → Node.type npart = t →
  Post tokens s G part npart r s' G' →
  (∀ nr, heap s' !! r = Some nr → Node.type nr = AstTypes.Alternative →
         t = AstTypes.CharacterClass ∧
         Node.type nn = AstTypes.CharacterClassIntersection) →
  heap s'' = alter (push_element r) part (heap s') → current s' ≤ current s'' →
  Open (open_part t) parts s0 G0 node s'' G'.
Proof using parts_children.
  clear pushp_parts pushp_type pushp_parent pushp_elements pushp_children pushp.
  intros HO Hnode Hlast HP Hlt Htyp HQ Halt Hheap Hcur.
  destruct (walk_push tokens s G part npart r s' G' HP HQ) as
    (HI & Hk & Hframe & Hkept & na' & Hna' & Hty' & Hpar' & Hpl' & Hab' & _).
  { intros nr Hr Hnr. rewrite Htyp. destruct (Halt nr Hr Hnr) as [Hcls Hint].
    split; [done|]. exists node, nn. split; [|done].
    destruct (open_node _ _ _ _ _ _ _ HO) as (n0 & nn' & _ & Hnn & _ & _ & _ & Hparts).
    assert (nn' = nn) as -> by congruence.
    rewrite Forall_forall in Hparts.
    destruct (Hparts part) as (_ & m & Hm & _ & Hparm & _).
    { apply parts_children in Hlast || (apply last_Some in Hlast as [l' ->]; set_solver). }
    pose proof (pre_node _ _ _ _ HP). congruence. }
  rewrite <- Hheap in HI, Hk, Hframe, Hkept, Hna', Hpl'.
  destruct (open_node _ _ _ _ _ _ _ HO) as (n0 & nn' & Hn0 & Hnn & Hty & Hpar & Hel & Hparts).
  assert (nn' = nn) as -> by congruence.
  pose proof (open_inv _ _ _ _ _ _ _ HO) as HI0.
  pose proof (open_live _ _ _ _ _ _ _ HO) as Hlive.
  pose proof (pre_node _ _ _ _ HP) as Hpart.
  pose proof (pre_above _ _ _ _ HP) as Habove. rewrite Forall_forall in Habove.
  assert (Hnlen : node < length (heap s)) by (by eapply lookup_lt_Some).
  assert (Hlast_ne : ∀ x, x ≤ part → at_last (Node.elements npart) ≠ Some x).
  { intros x Hx Hl. apply last_Some in Hl as [l' Hl].
    assert (part < x); [|lia]. apply Habove. rewrite Hl. set_solver. }
  assert (Hin : part ∈ parts nn).
  { apply last_Some in Hlast as [l' ->]. set_solver. }
  assert (HpartG : part ∉ G).
  { eapply (inv_valid _ _ HI0 node nn part); try done. by apply parts_children. }
  destruct (post_garbage _ _ _ _ _ _ _ _ HQ) as [Hsub Hnew].
  destruct (open_garbage _ _ _ _ _ _ _ HO) as [Hsub0 Hnew0].
  split.
  - done.
  - eapply keeps_types_trans; [apply (open_types _ _ _ _ _ _ _ HO) | done].
  - split; [set_solver|]. intros x Hx.
    destruct (Hnew x Hx) as [HxG | Hge]; [by apply Hnew0 | right; lia].
  - intros a Ha. rewrite Hframe; [by apply (open_frame _ _ _ _ _ _ _ HO) | lia | lia |].
    apply Hlast_ne. lia.
  - intros x Hx Hdet. apply Hkept; [lia|]. by apply (open_kept _ _ _ _ _ _ _ HO).
  - intros Hin'. destruct (Hnew node Hin') as [? | ?]; [done | lia].
  - exists n0, nn. split; [done|]. split.
    { rewrite Hframe; [done | lia | lia |]. apply Hlast_ne. lia. }
    split; [done|]. split; [done|]. split; [done|].
    rewrite Forall_forall in Hparts. apply Forall_forall. intros c Hc.
    destruct (decide (c = part)) as [-> | Hne].
    + split; [done|]. exists na'. split; [done|]. split; [congruence|].
      split; [|done]. rewrite Hpar'.
      destruct (Hparts part Hc) as (_ & m & Hm & _ & Hparm & _). congruence.
    + eapply open_part_keeps; [exact Hk | | by apply Hparts].
      destruct (Hparts c Hc) as (Hltc & m & Hm & _).
      apply Hframe; [by eapply lookup_lt_Some | done |].
      intros Hl. apply last_Some in Hl as [l' Hl].
      assert (node = part); [|lia].
      eapply (inv_unique _ _ HI0 node part nn npart c); try done.
      * by apply parts_children.
      * rewrite children_split, Hl. set_solver.
  - pose proof (open_current _ _ _ _ _ _ _ HO).
    pose proof (post_current _ _ _ _ _ _ _ _ HQ). lia.
Qed.

(** One turn of a loop that creates a part and pushes it onto the parts. *)
Lemma Open_new_part (s0 : State) (G0 : gset nat) (node : addr) (s : State) (G : gset nat)
    (n : Node.t) (s' : State) :
  Open (open_part t) parts s0 G0 node s G →
  children n = [] → Node.type n = t → Node.parent n = Some node →
  heap s' = alter (pushp (length (heap s))) node (heap s ++ [n]) →
  current s ≤ current s' →
  Open (open_part t) parts s0 G0 node s' G.
Proof.
  intros HO Hch Hty Hpar Hheap Hcur.
  destruct (open_node _ _ _ _ _ _ _ HO) as (n0 & nn & Hn0 & Hnn & Htyn & Hparn & Hel & Hparts).
  pose proof (open_inv _ _ _ _ _ _ _ HO) as HI0.
  pose proof (open_live _ _ _ _ _ _ _ HO) as Hlive.
  assert (Hnlen : node < length (heap s)) by (by eapply lookup_lt_Some).
  assert (Hnn1 : (heap s ++ [n]) !! node = Some nn) by (by rewrite lookup_app_l).
  assert (Hnew : (heap s ++ [n]) !! length (heap s) = Some n).
  { rewrite lookup_app_r by lia. by rewrite Nat.sub_diag. }
  assert (Hk1 : keeps_types (heap s) (heap s ++ [n])) by apply keeps_types_app.
  assert (Hk2 : keeps_types (heap s ++ [n]) (heap s')).
  { rewrite Hheap. apply keeps_types_alter. intros m. apply pushp_type. }
  assert (Hk : keeps_types (heap s) (heap s')) by (by eapply keeps_types_trans).
  destruct (children_nil_parts n Hch) as (Heln & _).
  split.
  - rewrite Hheap.
    eapply (Inv_attach (heap s ++ [n]) G node (length (heap s)) nn n).
    + by apply Inv_alloc.
    + done.
    + done.
    + done.
    + lia.
    + intros Hin. apply (inv_garbage _ _ HI0) in Hin. lia.
    + apply detached_alloc; [done|]. by apply detached_fresh.
    + intros m. apply pushp_type.
    + apply pushp_parent.
    + apply pushp_children.
    + intros c. by rewrite pushp_elements.
    + by left.
    + eapply class_shape_elements; [apply pushp_elements|].
      eapply (inv_shape _ _ (Inv_alloc _ _ _ HI0 Hch)); done.
  - eapply keeps_types_trans; [apply (open_types _ _ _ _ _ _ _ HO) | done].
  - apply (open_garbage _ _ _ _ _ _ _ HO).
  - intros a Ha. rewrite Hheap, list_lookup_alter_ne by lia.
    rewrite lookup_app_l by lia. by apply (open_frame _ _ _ _ _ _ _ HO).
  - intros x Hx Hdet. rewrite Hheap.
    eapply detached_attach; [exact Hnn1 | apply pushp_children | lia |].
    apply detached_alloc; [done|]. by apply (open_kept _ _ _ _ _ _ _ HO).
  - done.
  - exists n0, (pushp (length (heap s)) nn). split; [done|]. split.
    { by rewrite Hheap, list_lookup_alter_eq, Hnn1. }
    rewrite pushp_type, pushp_parent, pushp_elements, pushp_parts.
    split; [done|]. split; [done|]. split; [done|].
    apply Forall_app. split.
    + rewrite Forall_forall in Hparts. apply Forall_forall. intros c Hc.
      eapply open_part_keeps; [exact Hk | | by apply Hparts].
      destruct (Hparts c Hc) as (Hltc & m & Hm & _).
      rewrite Hheap, list_lookup_alter_ne by lia.
      apply lookup_app_l. by eapply lookup_lt_Some.
    + constructor; [|constructor]. split; [done|]. exists n.
      split. { rewrite Hheap, list_lookup_alter_ne by lia. done. }
      split; [done|]. split; [done|]. unfold plain. rewrite Heln. split; constructor.
  - pose proof (open_current _ _ _ _ _ _ _ HO). lia.
Qed.

End Loops.
(** * Groups *)

Lemma alternatives_children (n : Node.t) (c : addr) :
  c ∈ Node.alternatives n → c ∈ children n.
Proof. unfold children. set_solver. Qed.

Lemma classes_children (n : Node.t) (c : addr) :
  c ∈ Node.classes n → c ∈ children n.
Proof. unfold children. set_solver. Qed.

Lemma elements_children (n : Node.t) (c : addr) :
  c ∈ Node.elements n → c ∈ children n.
Proof. unfold children. set_solver. Qed.

(** A loop starts. *)
Lemma Open_start (ok : list Node.t → addr → addr → Prop) (parts : Node.t → list addr)
    (s : State) (G : gset nat) (node : addr) (n : Node.t) :
  Inv (heap s) G → node ∉ G → heap s !! node = Some n →
  Forall (ok (heap s) node) (parts n) →
  Open ok parts s G node s G.
Proof.
  intros HI Hlive Hn Hparts. split; try done.
  - apply keeps_types_refl.
  - split; [done|]. intros x Hx. by left.
  - by exists n, n.
Qed.

(** The loop of a group keeps its invariant and ends. *)
Lemma groupLoop_spec (tokens : list Token.t) (w : Walk) (fuel : nat) (s0 : State)
    (G0 : gset nat) (node : addr) (l : list addr) :
  walk_spec tokens w fuel →
  parent_chain (heap s0) node l → Forall (λ a, a < node) l →
  ∀ n s G,
    Open (open_part AstTypes.Alternative) Node.alternatives s0 G0 node s G →
    length tokens - current s < n → length tokens - current s < fuel →
    outcome (groupLoop tokens w n node s)
      (λ s', ∃ G', Open (open_part AstTypes.Alternative) Node.alternatives s0 G0 node s' G').
Proof.
  intros Hw Hchain Hbelow. induction n as [|n IH]; intros s G HO Hn Hfuel; [lia|].
  simpl. destruct (tokens !! current s) as [tk|] eqn:Htk; [|done].
  pose proof (lookup_lt_Some _ _ _ Htk) as Hlt.
  case_bool_decide as Hclose. { simpl. by exists G. }
  case_bool_decide as Halt.
  - apply (IH _ G); simpl; [|lia|lia].
    eapply (Open_new_part AstTypes.Alternative Node.alternatives push_alternative)
      with (s := s) (n := Node.set_elements [] (getNodeBase (Some node) AstTypes.Alternative));
      try done.
    + apply children_push_alternative.
    + simpl. lia.
  - destruct (open_node _ _ _ _ _ _ _ HO) as (n0 & nn & Hn0 & Hnn & _).
    unfold load. rewrite Hnn. simpl.
    destruct (at_last (Node.alternatives nn)) as [alt|] eqn:Hlast; [|done].
    destruct (Open_Pre AstTypes.Alternative Node.alternatives alternatives_children
                s0 G0 node s G nn alt l HO Hchain Hbelow Hnn Hlast)
      as (nalt & HP & Hlta & Htya).
    eapply outcome_bind; [exact (Hw s G alt nalt HP Hfuel)|].
    intros [r s'] [G' HQ]. simpl.
    pose proof (post_current _ _ _ _ _ _ _ _ HQ) as Hcur.
    apply (IH _ G'); simpl; [|lia|lia].
    eapply (Open_walk_push AstTypes.Alternative Node.alternatives alternatives_children
              tokens s0 G0 node s G nn alt nalt r s' G'); try done.
    intros nr Hr Hnr.
    destruct (post_result _ _ _ _ _ _ _ _ HQ) as (nr' & Hr' & _ & Hres).
    assert (nr' = nr) as -> by congruence.
    destruct Hres as [[Hne _] | (_ & _ & tk' & Htk' & Hty')]; [done|].
    assert (tk' = tk) as -> by congruence. done.
Qed.

(** * Returning from a group or a class *)

Lemma outcome_intro {A} (m : Result A) (P : A → Prop) :
  m ≠ OutOfFuel → (∀ a, m = Ok a → P a) → outcome m P.
Proof. destruct m; simpl; [by auto | done | done]. Qed.

(** The node made before a loop is returned after it: [k] are the objects
    created with it, [node] the object the loop filled. *)
Lemma Open_Post (tokens : list Token.t) (ok : list Node.t → addr → addr → Prop)
    (parts : Node.t → list addr) (s : State) (G : gset nat) (p : addr) (np : Node.t)
    (k : list Node.t) (s2 : State) (node : addr) (s3 : State) (G3 : gset nat)
    (r : addr) (nr : Node.t) (s4 : State) :
  Pre s G p np →
  heap s2 = heap s ++ k →
  (∀ n x, n ∈ k → x ∈ children n → length (heap s) < x) →
  Open ok parts s2 G node s3 G3 →
  r = length (heap s) → r ≤ node →
  heap s3 !! r = Some nr →
  Node.type nr ≠ AstTypes.Alternative →
  Node.type nr ≠ AstTypes.CharacterClassIntersection →
  Node.parent nr = Some p →
  heap s4 = heap s3 → current s < current s4 →
  Post tokens s G p np r s4 G3 ∧ (∀ a, a < length (heap s) → heap s4 !! a = heap s !! a).
Proof.
  intros HP Hs2 Hk HO Hfresh Hle Hr Hnalt Hnint Hpar Hs4 Hcur.
  pose proof (pre_inv _ _ _ _ HP) as HI.
  pose proof (pre_node _ _ _ _ HP) as Hp.
  pose proof (lookup_lt_Some _ _ _ Hp) as Hplt.
  destruct (open_garbage _ _ _ _ _ _ _ HO) as [Hsub Hnew].
  assert (Hframe : ∀ a, a < length (heap s) → heap s4 !! a = heap s !! a).
  { intros a Ha. rewrite Hs4, (open_frame _ _ _ _ _ _ _ HO) by lia.
    rewrite Hs2. by apply lookup_app_l. }
  assert (Hdet : ∀ x, x ≤ length (heap s) → detached (heap s) G x →
                      detached (heap s2) G x).
  { intros x Hx Hd. rewrite Hs2. apply detached_app; [done|].
    intros n Hn Hin. specialize (Hk n x Hn Hin). lia. }
  split; [|done]. split.
  - rewrite Hs4. apply (open_inv _ _ _ _ _ _ _ HO).
  - rewrite Hs4. eapply keeps_types_trans; [|apply (open_types _ _ _ _ _ _ _ HO)].
    rewrite Hs2. apply keeps_types_app.
  - split; [done|]. intros x Hx. destruct (Hnew x Hx); [by left | right; lia].
  - lia.
  - intros Hin. destruct (Hnew r Hin) as [HinG | ?]; [|lia].
    apply (inv_garbage _ _ HI) in HinG. lia.
  - rewrite Hs4. apply (open_kept _ _ _ _ _ _ _ HO); [done|].
    rewrite Hs2. apply detached_app.
    + apply detached_fresh; [done | lia].
    + intros n Hn Hin. specialize (Hk n r Hn Hin). lia.
  - exists nr. rewrite Hs4. split; [done|]. split; [done|]. left. done.
  - intros a Ha _ _. by apply Hframe.
  - left. split; [by rewrite Hframe|].
    intros e He. apply last_Some in He as [l' He].
    rewrite Hframe; [done|].
    eapply (inv_valid _ _ HI p np e); [done | apply (pre_live _ _ _ _ HP) |].
    rewrite children_split, He. set_solver.
  - intros x Hx Hd. rewrite Hs4. apply (open_kept _ _ _ _ _ _ _ HO); [lia|].
    apply Hdet; [lia | done].
  - done.
Qed.

(** A node [r] that holds only [mid], which holds only [el], is replaced by
    [el]: the group a group is nested in, the wrapper and the intersection
    of a class with one inner class.  [el] is put under [p]; [r] and [mid]
    are dropped. *)
Lemma Post_collapse (tokens : list Token.t) (s : State) (G : gset nat) (p : addr)
    (np : Node.t) (r : addr) (s3 : State) (G3 : gset nat) (mid el : addr)
    (nr nmid nel : Node.t) (g : Node.t → Node.t) (s4 : State) :
  Pre s G p np →
  Post tokens s G p np r s3 G3 →
  (∀ a, a < length (heap s) → heap s3 !! a = heap s !! a) →
  heap s3 !! r = Some nr → mid ∈ children nr →
  heap s3 !! mid = Some nmid → el ∈ children nmid →
  heap s3 !! el = Some nel →
  r < mid → mid < el →
  Node.type nel ≠ AstTypes.Alternative →
  Node.type nel ≠ AstTypes.CharacterClassIntersection →
  (∀ m, children (g m) = children m ∧ Node.type (g m) = Node.type m ∧
        Node.parent (g m) = Node.parent m ∧ Node.elements (g m) = Node.elements m) →
  heap s4 = alter g el (alter (Node.set_parent (Some p)) el (heap s3)) →
  current s3 ≤ current s4 →
  Post tokens s G p np el s4 (G3 ∪ {[r]} ∪ {[mid]}).
Proof.
  intros HP HQ Hfull Hr Hmidin Hmid Helin Hel Hrm Hme Hnalt Hnint Hg Hs4 Hcur.
  pose proof (post_inv _ _ _ _ _ _ _ _ HQ) as HI3.
  pose proof (post_live _ _ _ _ _ _ _ _ HQ) as HrG.
  pose proof (post_detached _ _ _ _ _ _ _ _ HQ) as Hrdet.
  pose proof (post_fresh _ _ _ _ _ _ _ _ HQ) as Hfresh.
  destruct (post_garbage _ _ _ _ _ _ _ _ HQ) as [Hsub Hnew].
  pose proof (pre_inv _ _ _ _ HP) as HI.
  pose proof (pre_node _ _ _ _ HP) as Hp.
  pose proof (lookup_lt_Some _ _ _ Hp) as Hplt.
  pose proof (lookup_lt_Some _ _ _ Hr) as Hrlt.
  pose proof (lookup_lt_Some _ _ _ Hmid) as Hmidlt.
  assert (I1 : Inv (heap s3) (G3 ∪ {[r]})) by (by apply Inv_drop).
  destruct (inv_valid _ _ HI3 r nr mid Hr HrG Hmidin) as [_ HmidG].
  destruct (inv_valid _ _ HI3 mid nmid el Hmid HmidG Helin) as [_ HelG].
  assert (Hmiddet : detached (heap s3) (G3 ∪ {[r]}) mid).
  { apply detached_drop; [done|]. intros p' np' Hp' Hp'G Hin.
    by eapply (inv_unique _ _ HI3 p' r np' nr mid). }
  assert (I2 : Inv (heap s3) (G3 ∪ {[r]} ∪ {[mid]})) by (by apply Inv_drop).
  assert (Heldet : detached (heap s3) (G3 ∪ {[r]} ∪ {[mid]}) el).
  { apply detached_drop; [done|]. intros p' np' Hp' Hp'G Hin.
    eapply (inv_unique _ _ HI3 p' mid np' nmid el); try done. set_solver. }
  assert (HelG4 : el ∉ G3 ∪ {[r]} ∪ {[mid]}).
  { assert (el ≠ r) by lia. assert (el ≠ mid) by lia. set_solver. }
  set (h3 := alter (Node.set_parent (Some p)) el (heap s3)) in *.
  assert (Hel3 : h3 !! el = Some (Node.set_parent (Some p) nel)).
  { unfold h3. by rewrite list_lookup_alter_eq, Hel. }
  assert (I3 : Inv h3 (G3 ∪ {[r]} ∪ {[mid]})).
  { apply (Inv_alter_fields (heap s3) _ el nel (Node.set_parent (Some p)) I2 Hel HelG4);
      [done | by right | done | done]. }
  assert (I4 : Inv (heap s4) (G3 ∪ {[r]} ∪ {[mid]})).
  { rewrite Hs4.
    apply (Inv_alter_fields h3 _ el _ g I3 Hel3 HelG4).
    - intros m. apply Hg.
    - left. apply Hg.
    - apply Hg.
    - apply Hg. }
  assert (Hdet4 : ∀ x, detached (heap s3) (G3 ∪ {[r]} ∪ {[mid]}) x →
                       detached (heap s4) (G3 ∪ {[r]} ∪ {[mid]}) x).
  { intros x Hx. rewrite Hs4. apply detached_alter_fields; [intros m; apply Hg|].
    apply detached_alter_fields; [by intros []|]. done. }
  assert (Hframe : ∀ a, a < length (heap s) → heap s4 !! a = heap s !! a).
  { intros a Ha. rewrite Hs4, list_lookup_alter_ne by lia.
    unfold h3. rewrite list_lookup_alter_ne by lia. by apply Hfull. }
  split.
  - done.
  - eapply keeps_types_trans; [apply (post_types _ _ _ _ _ _ _ _ HQ)|].
    rewrite Hs4. eapply keeps_types_trans; apply keeps_types_alter.
    + by intros [].
    + intros m. apply Hg.
  - split; [set_solver|]. intros x Hx.
    apply elem_of_union in Hx as [Hx | Hx]; [apply elem_of_union in Hx as [Hx | Hx]|].
    + by apply Hnew.
    + apply elem_of_singleton in Hx. right. lia.
    + apply elem_of_singleton in Hx. right. lia.
  - lia.
  - done.
  - by apply Hdet4.
  - exists (g (Node.set_parent (Some p) nel)). split.
    { by rewrite Hs4, list_lookup_alter_eq, Hel3. }
    destruct (Hg (Node.set_parent (Some p) nel)) as (_ & Hty & Hpar & _).
    rewrite Hty, Hpar. split; [done|]. left. done.
  - intros a Ha _ _. by apply Hframe.
  - left. split; [by rewrite Hframe|].
    intros e He. apply last_Some in He as [l' He].
    rewrite Hframe; [done|].
    eapply (inv_valid _ _ HI p np e); [done | apply (pre_live _ _ _ _ HP) |].
    rewrite children_split, He. set_solver.
  - intros x Hx Hd. apply Hdet4.
    eapply detached_weaken; [|by apply (post_kept _ _ _ _ _ _ _ _ HQ)]. set_solver.
  - pose proof (post_current _ _ _ _ _ _ _ _ HQ). lia.
Qed.

Lemma Post_advance (tokens : list Token.t) (s : State) (G : gset nat) (p : addr)
    (np : Node.t) (r : addr) (s' : State) (G' : gset nat) (s'' : State) :
  Post tokens s G p np r s' G' → heap s'' = heap s' → current s' ≤ current s'' →
  Post tokens s G p np r s'' G'.
Proof.
  intros [] Hheap Hcur. split; rewrite ?Hheap; try done. lia.
Qed.

(** * Groups *)

Lemma createByGroupKind_fuel isValidJsGroupName (p : addr) (token : Token.t) (s : State) :
  createByGroupKind isValidJsGroupName (Some p) token s ≠ OutOfFuel.
Proof.
  unfold createByGroupKind. cbv zeta.
  destruct (_ =? TokenGroupKinds.atomic)%string; [done|].
  destruct (_ =? TokenGroupKinds.capturing)%string.
  { unfold createCapturingGroup, alloc.
    destruct (Token.name token) as [nm|]; [|done].
    by destruct (isValidJsGroupName nm). }
  destruct (_ =? TokenGroupKinds.group)%string; [done|].
  destruct (_ || _); [|done].
  unfold createAssertionFromToken, alloc.
  destruct (decide (Token.type token = TokenTypes.GroupOpen)); [done|].
  by destruct (assertionKind _).
Qed.

Lemma registerGroup_heap (node : addr) (nn : Node.t) (s : State) :
  heap (registerGroup node nn s) = heap s ∧
  current (registerGroup node nn s) = current s.
Proof.
  unfold registerGroup. case_bool_decide; [|done].
  destruct (Node.name nn) as [nm|]; [|done].
  by destruct (nm =? EmptyString)%string.
Qed.

(** What [getOptimizedGroup] returns: the group itself, or the group
    nested in it, moved up. *)
Lemma getOptimizedGroup_outcome (node : addr) (s : State) :
  outcome (getOptimizedGroup node s)
    (λ '(r, s'),
       (r = node ∧ s' = s) ∨
       ∃ n alt nalt el nel g,
         heap s !! node = Some n ∧ Node.alternatives n = [alt] ∧
         heap s !! alt = Some nalt ∧ Node.elements nalt = [el] ∧
         heap s !! el = Some nel ∧ Node.type nel = AstTypes.Group ∧
         r = el ∧ current s' = current s ∧
         heap s' = alter g el (alter (Node.set_parent (Node.parent n)) el (heap s)) ∧
         (∀ m, children (g m) = children m ∧ Node.type (g m) = Node.type m ∧
               Node.parent (g m) = Node.parent m ∧
               Node.elements (g m) = Node.elements m)).
Proof.
  unfold getOptimizedGroup, load.
  destruct (heap s !! node) as [n|] eqn:Hn; [|done]. simpl.
  destruct (Node.alternatives n) as [|alt rest] eqn:Halts; [done|]. simpl.
  destruct (heap s !! alt) as [nalt|] eqn:Halt; [|done]. simpl.
  destruct (Node.elements nalt) as [|el rest'] eqn:Hels; simpl. { by left. }
  destruct (heap s !! el) as [nel|] eqn:Hel; [|done]. simpl.
  destruct (_ && _) eqn:Hcond; simpl; [|by left].
  repeat (apply andb_prop in Hcond as [Hcond ?]).
  repeat match goal with H : bool_decide _ = true |- _ => apply bool_decide_eq_true in H end.
  destruct rest; [|done]. destruct rest'; [|done].
  right. exists n, alt, nalt, el, nel.
  destruct (truthy (Node.atomic n)).
  - exists (Node.set_atomic (Some true)). by repeat split.
  - destruct (defined (Node.flags n)).
    + exists (Node.set_flags (Node.flags n)). by repeat split.
    + exists id. repeat split; try done.
      by rewrite list_alter_id.
Qed.

(** The group token keeps the walker's contract. *)
Lemma parseGroupOpen_spec isValidJsGroupName (tokens : list Token.t) (optimize : bool)
    (w : Walk) (fuel : nat) (s s1 : State) (G : gset nat) (p : addr) (np : Node.t)
    (token : Token.t) :
  walk_spec tokens w fuel →
  Pre s G p np → heap s1 = heap s → current s < current s1 →
  Token.type token = TokenTypes.GroupOpen →
  length tokens - current s1 < fuel →
  outcome (parseGroupOpen isValidJsGroupName tokens optimize w fuel p token s1)
    (λ '(r, s'), ∃ G', Post tokens s G p np r s' G').
Proof.
  intros Hw HP Hheap Hcur Htok Hfuel.
  pose proof (pre_inv _ _ _ _ HP) as HI.
  pose proof (pre_node _ _ _ _ HP) as Hp.
  pose proof (lookup_lt_Some _ _ _ Hp) as Hplt.
  destruct (pre_chain _ _ _ _ HP) as (lp & Hchain & Hbelow).
  unfold parseGroupOpen.
  eapply outcome_bind with (Q := λ '(node, s2), allocs_group s1 p node s2).
  { apply outcome_intro; [apply createByGroupKind_fuel|].
    intros [node s2]. by apply createByGroupKind_allocs. }
  intros [node s2] (n0 & Hnode & Hheap2 & Hcur2 & Hch0 & Hpar0 & Hty0).
  rewrite Hheap in Hnode, Hheap2.
  set (na := Node.set_alternatives [S node] n0) in *.
  assert (Hna : heap s2 !! node = Some na).
  { rewrite Hheap2, Hnode. rewrite lookup_app_r by lia. by rewrite Nat.sub_diag. }
  assert (Hnalt : heap s2 !! S node = Some (initial_alternative node)).
  { rewrite Hheap2, Hnode. rewrite lookup_app_r by lia.
    by replace (S (length (heap s)) - length (heap s)) with 1 by lia. }
  unfold load. rewrite Hna. simpl.
  destruct (registerGroup_heap node na s2) as [Hrh Hrc].
  set (s2' := registerGroup node na s2) in *.
  assert (HI2 : Inv (heap s2') G).
  { rewrite Hrh, Hheap2. unfold na. rewrite Hnode. by apply Inv_alloc_group. }
  assert (HnodeG : node ∉ G).
  { intros Hin. apply (inv_garbage _ _ HI) in Hin. lia. }
  assert (HO : Open (open_part AstTypes.Alternative) Node.alternatives s2' G node s2' G).
  { eapply Open_start; [done | done | by rewrite Hrh |].
    constructor; [|constructor]. split; [lia|].
    exists (initial_alternative node). rewrite Hrh.
    split; [done|]. split; [done|]. split; [done|]. split; constructor. }
  assert (Hchain2 : parent_chain (heap s2') node (p :: lp)).
  { eapply parent_chain_up; [by rewrite Hrh | exact Hpar0 |].
    eapply parent_chain_agree; [|exact Hchain].
    intros x m Hx Hm. exists m. split; [|done].
    rewrite Hrh, Hheap2. by apply lookup_app_l_Some. }
  assert (Hbelow2 : Forall (λ a, a < node) (p :: lp)).
  { constructor; [lia|]. eapply Forall_impl; [exact Hbelow|]. simpl. lia. }
  eapply outcome_bind.
  { eapply (groupLoop_spec tokens w fuel s2' G node (p :: lp) Hw Hchain2 Hbelow2
              fuel s2' G HO); rewrite Hrc, Hcur2; lia. }
  intros s3 [G3 HO3]. simpl.
  destruct (open_node _ _ _ _ _ _ _ HO3) as (n0' & nn & Hn0' & Hnn & Htyn & Hparn & _ & Hparts).
  rewrite Hrh, Hna in Hn0'. injection Hn0' as <-.
  pose proof (open_current _ _ _ _ _ _ _ HO3) as Hcur3. rewrite Hrc, Hcur2 in Hcur3.
  assert (Htynn : Node.type nn ≠ AstTypes.Alternative ∧
                  Node.type nn ≠ AstTypes.CharacterClassIntersection).
  { rewrite Htyn. simpl. destruct Hty0 as [-> | [-> | ->]]; done. }
  destruct (Open_Post tokens (open_part AstTypes.Alternative) Node.alternatives s G p np [na; initial_alternative node] s2' node s3 G3
              node nn s3) as [HQ Hfull]; try done.
  { by rewrite Hrh. }
  { intros n x Hn Hx. apply elem_of_cons in Hn as [-> | Hn].
    - simpl in Hx. unfold na in Hx. rewrite children_set_alternatives in Hx by done.
      assert (x = S node) by set_solver. lia.
    - assert (n = initial_alternative node) as -> by set_solver.
      by apply elem_of_nil in Hx. }
  { apply Htynn. }
  { apply Htynn. }
  { by rewrite Hparn. }
  { lia. }
  destruct optimize; simpl.
  - eapply outcome_bind; [apply getOptimizedGroup_outcome|].
    intros [r s4] [[-> ->] | Hmerge]; simpl.
    + exists G3. eapply Post_advance; [exact HQ | done | simpl; lia].
    + destruct Hmerge as (n & alt & nalt & el & nel & g & Hn & Halts & Halt & Hels & Hel
                          & Htyel & -> & Hcur4 & Hheap4 & Hg).
      assert (n = nn) as -> by congruence.
      rewrite Halts, Forall_singleton in Hparts.
      destruct Hparts as (Hlt & nalt' & Halt' & _ & _ & _ & Hab).
      assert (nalt' = nalt) as -> by congruence.
      rewrite Hels, Forall_singleton in Hab.
      exists (G3 ∪ {[node]} ∪ {[alt]}).
      eapply (Post_collapse tokens s G p np node s3 G3 alt el nn nalt nel g); try done.
      * apply alternatives_children. rewrite Halts. set_solver.
      * apply elements_children. rewrite Hels. set_solver.
      * by rewrite Htyel.
      * by rewrite Htyel.
      * simpl. rewrite Hheap4, Hparn. unfold na. simpl. by rewrite Hpar0.
      * simpl. lia.
  - exists G3. eapply Post_advance; [exact HQ | done | simpl; lia].
Qed.
(** * Classes *)

(** The loop of a class keeps its invariant and ends. *)
Lemma classLoop_spec (tokens : list Token.t) (w : Walk) (fuel : nat) (s0 : State)
    (G0 : gset nat) (node : addr) (l : list addr) :
  walk_spec tokens w fuel →
  parent_chain (heap s0) node l → Forall (λ a, a < node) l →
  is_intersection (heap s0) node →
  ∀ n s G,
    Open (open_part AstTypes.CharacterClass) Node.classes s0 G0 node s G →
    length tokens - current s < n → length tokens - current s < fuel →
    outcome (classLoop tokens w n node s)
      (λ s', ∃ G', Open (open_part AstTypes.CharacterClass) Node.classes s0 G0 node s' G').
Proof.
  intros Hw Hchain Hbelow Hinter. induction n as [|n IH]; intros s G HO Hn Hfuel; [lia|].
  simpl. destruct (tokens !! current s) as [tk|] eqn:Htk; [|done].
  pose proof (lookup_lt_Some _ _ _ Htk) as Hlt.
  case_bool_decide as Hclose. { simpl. by exists G. }
  case_bool_decide as Hint.
  - apply (IH _ G); simpl; [|lia|lia].
    eapply (Open_new_part AstTypes.CharacterClass Node.classes push_class)
      with (s := s) (n := createCharacterClassBase (Some node) None);
      try done.
    + apply children_push_class.
    + simpl. lia.
  - destruct (open_node _ _ _ _ _ _ _ HO) as (n0 & nn & Hn0 & Hnn & Htyn & _).
    unfold load. rewrite Hnn. simpl.
    destruct (at_last (Node.classes nn)) as [cc|] eqn:Hlast; [|done].
    destruct (Open_Pre AstTypes.CharacterClass Node.classes classes_children
                s0 G0 node s G nn cc l HO Hchain Hbelow Hnn Hlast)
      as (ncc & HP & Hlta & Htya).
    eapply outcome_bind; [exact (Hw s G cc ncc HP Hfuel)|].
    intros [r s'] [G' HQ]. simpl.
    pose proof (post_current _ _ _ _ _ _ _ _ HQ) as Hcur.
    apply (IH _ G'); simpl; [|lia|lia].
    eapply (Open_walk_push AstTypes.CharacterClass Node.classes classes_children
              tokens s0 G0 node s G nn cc ncc r s' G'); try done.
    intros nr Hr Hnr. split; [done|].
    destruct Hinter as (n0' & Hn0' & Hty0). congruence.
Qed.

(** A weaker condition on the parts. *)
Lemma Open_weaken (ok ok' : list Node.t → addr → addr → Prop)
    (parts : Node.t → list addr) (s0 : State) (G0 : gset nat) (node : addr)
    (s : State) (G : gset nat) :
  (∀ h a c, ok h a c → ok' h a c) →
  Open ok parts s0 G0 node s G → Open ok' parts s0 G0 node s G.
Proof.
  intros Hok []. split; try done.
  destruct open_node0 as (n0 & nn & ? & ? & ? & ? & ? & Hparts).
  exists n0, nn. repeat (split; [done|]).
  eapply Forall_impl; [exact Hparts|]. intros c. apply Hok.
Qed.

Lemma open_part_closed (t : AstTypes.t) (h : list Node.t) (node part : addr) :
  open_part t h node part → closed_part t h node part.
Proof.
  intros (Hlt & n & Hn & Hty & Hpar & _). split; [done|]. by exists n.
Qed.

(** ** Unwrapping an inner class that holds one class *)

Lemma children_set_classes_perm (n : Node.t) (l1 l2 : list addr) (c : addr) :
  children (Node.set_classes (l1 ++ c :: l2) n)
  ≡ₚ c :: children (Node.set_classes (l1 ++ l2) n).
Proof.
  unfold children. destruct n; simpl.
  rewrite <- !(assoc_L (++) l1). simpl.
  rewrite !(assoc_L (++) elements), !(assoc_L (++) _ l1).
  by rewrite <- Permutation_middle.
Qed.

Lemma children_classes_perm (n : Node.t) (l1 l2 : list addr) (c : addr) :
  Node.classes n = l1 ++ c :: l2 →
  children n ≡ₚ c :: children (Node.set_classes (l1 ++ l2) n).
Proof.
  intros Hc. rewrite <- children_set_classes_perm, <- Hc. by destruct n.
Qed.

(** The intersection at [i] holds the class [cc], which holds the class
    [fc]: [fc] takes the place of [cc], which is dropped. *)
Lemma Inv_replace (h : list Node.t) (G : gset nat) (i : addr) (ni : Node.t)
    (l1 l2 : list addr) (cc : addr) (ncc : Node.t) (fc : addr) (nfc : Node.t)
    (g : Node.t → Node.t) :
  Inv h G → h !! i = Some ni → i ∉ G → Node.classes ni = l1 ++ cc :: l2 →
  h !! cc = Some ncc → fc ∈ children ncc → h !! fc = Some nfc →
  i < cc → cc < fc →
  (∀ m, children (g m) = children m ∧ Node.type (g m) = Node.type m ∧
        Node.parent (g m) = Node.parent m ∧ Node.elements (g m) = Node.elements m) →
  let h' := alter g fc (alter (Node.set_parent (Some i)) fc
              (alter (λ n, Node.set_classes (<[length l1 := fc]> (Node.classes n)) n) i h)) in
  Inv h' (G ∪ {[cc]}) ∧
  (∀ x, x ≠ fc → detached h G x → detached h' (G ∪ {[cc]}) x).
Proof.
  intros HI Hi HiG Hcls Hcc Hfcin Hfc Hlt1 Hlt2 Hg h'.
  set (fA := Node.set_classes (l1 ++ l2)).
  set (fD := Node.set_classes (l1 ++ fc :: l2)).
  set (fI := λ n, Node.set_classes (<[length l1 := fc]> (Node.classes n)) n).
  pose proof (children_classes_perm ni l1 l2 cc Hcls) as Hperm1.
  pose proof (children_set_classes_perm ni l1 l2 fc) as Hperm2.
  fold (fA ni) in Hperm1, Hperm2. fold (fD ni) in Hperm2.
  assert (HfI : fI ni = fD ni).
  { unfold fI, fD. rewrite Hcls.
    rewrite insert_app_r_alt by lia. by rewrite Nat.sub_diag. }
  assert (HfDA : fD (fA ni) = fD ni) by (by destruct ni).
  assert (Hccin : cc ∈ children ni) by (rewrite Hperm1; apply elem_of_cons; by left).
  destruct (inv_valid _ _ HI i ni cc Hi HiG Hccin) as [Hcclt HccG].
  destruct (inv_valid _ _ HI cc ncc fc Hcc HccG Hfcin) as [Hfclt HfcG].
  assert (Hfcnot : fc ∉ children ni).
  { intros Hin. assert (i = cc); [|lia].
    by eapply (inv_unique _ _ HI i cc ni ncc fc). }
  pose proof (inv_nodup _ _ HI i ni Hi HiG) as Hnd.
  rewrite Hperm1 in Hnd. apply NoDup_cons in Hnd as [HccX HndX].
  assert (HfcX : fc ∉ children (fA ni)).
  { intros Hin. apply Hfcnot. rewrite Hperm1. apply elem_of_cons. by right. }
  assert (HiG' : i ∉ G ∪ {[cc]}).
  { assert (i ≠ cc) by lia. set_solver. }
  assert (HfcG' : fc ∉ G ∪ {[cc]}).
  { assert (fc ≠ cc) by lia. set_solver. }
  (* the intersection lets go of [cc] *)
  set (hA := alter fA i h).
  assert (IA : Inv hA G).
  { apply (Inv_alter h G i ni fA HI Hi HiG).
    - by intros [].
    - by left.
    - done.
    - intros c Hc. left. rewrite Hperm1. apply elem_of_cons. by right.
    - intros c _ Hc. by destruct ni.
    - eapply class_shape_elements with (n := ni); [by destruct ni|].
      by eapply (inv_shape _ _ HI). }
  assert (HAcc : hA !! cc = Some ncc).
  { unfold hA. by rewrite list_lookup_alter_ne by lia. }
  assert (HAfc : hA !! fc = Some nfc).
  { unfold hA. by rewrite list_lookup_alter_ne by lia. }
  assert (HAi : hA !! i = Some (fA ni)).
  { unfold hA. by rewrite list_lookup_alter_eq, Hi. }
  assert (Hccdet : detached hA G cc) by (by eapply detached_removed).
  assert (IB : Inv hA (G ∪ {[cc]})).
  { apply Inv_drop; [done | by eapply lookup_lt_Some | done]. }
  assert (Hfcdet : detached hA (G ∪ {[cc]}) fc).
  { apply detached_drop; [done|]. intros p' np' Hp' Hp'G Hin.
    by eapply (inv_unique _ _ IA p' cc np' ncc fc). }
  (* [fc] is put under the intersection *)
  set (hC := alter (Node.set_parent (Some i)) fc hA).
  assert (IC : Inv hC (G ∪ {[cc]})).
  { apply (Inv_alter_fields hA _ fc nfc (Node.set_parent (Some i)) IB HAfc HfcG');
      [done | by right | done | done]. }
  assert (HCi : hC !! i = Some (fA ni)).
  { unfold hC. by rewrite list_lookup_alter_ne by lia. }
  assert (HCfc : hC !! fc = Some (Node.set_parent (Some i) nfc)).
  { unfold hC. by rewrite list_lookup_alter_eq, HAfc. }
  set (hD := alter fD i hC).
  assert (ID : Inv hD (G ∪ {[cc]})).
  { apply (Inv_alter hC _ i (fA ni) fD IC HCi HiG').
    - by intros [].
    - by left.
    - rewrite HfDA, Hperm2. by apply NoDup_cons.
    - intros c Hc. rewrite HfDA, Hperm2 in Hc.
      apply elem_of_cons in Hc as [-> | Hc]; [|by left].
      right. split; [lia|]. split; [done|]. split.
      + by apply detached_alter_fields.
      + eexists. split; [exact HCfc|]. by left.
    - intros c _ Hc. by destruct ni.
    - eapply class_shape_elements with (n := ni); [by destruct ni|].
      eapply class_shape_keeps; [|by eapply (inv_shape _ _ HI)].
      eapply keeps_types_trans; apply keeps_types_alter; by intros []. }
  assert (HDfc : hD !! fc = Some (Node.set_parent (Some i) nfc)).
  { unfold hD. by rewrite list_lookup_alter_ne by lia. }
  assert (IE : Inv (alter g fc hD) (G ∪ {[cc]})).
  { apply (Inv_alter_fields hD _ fc _ g ID HDfc HfcG').
    - intros m. apply Hg.
    - left. apply Hg.
    - apply Hg.
    - apply Hg. }
  assert (Heq : hD = alter (Node.set_parent (Some i)) fc (alter fI i h)).
  { unfold hD, hC, hA.
    rewrite list_alter_alter_ne by lia. f_equal.
    rewrite list_alter_alter_eq. apply list_alter_ext; [|done].
    intros x Hx. assert (x = ni) as -> by congruence.
    simpl. by rewrite HfDA, HfI. }
  rewrite Heq in IE. split; [exact IE|].
  intros x Hx Hdet. unfold h'.
  apply detached_alter_fields; [intros m; apply Hg|].
  apply detached_alter_fields; [by intros []|].
  eapply (detached_alter h _ i x ni); [done | by eapply detached_weaken; [|exact Hdet]; set_solver |].
  intros _. fold (fI ni). rewrite HfI, Hperm2.
  intros Hin. apply elem_of_cons in Hin as [-> | Hin]; [done|].
  apply (Hdet i ni Hi HiG). rewrite Hperm1. apply elem_of_cons. by right.
Qed.

Lemma classes_open_from_le (h : list Node.t) (i : addr) (k k' : nat) :
  k ≤ k' → classes_open_from h i k → classes_open_from h i k'.
Proof. intros Hle Hopen n j c Hn Hj. apply (Hopen n j c Hn). lia. Qed.

(** One step of the optimization of an intersection. *)
Lemma optimizeClassAt_spec (s0 : State) (G0 : gset nat) (i : addr) (k : nat)
    (s : State) (G : gset nat) :
  Open (closed_part AstTypes.CharacterClass) Node.classes s0 G0 i s G →
  classes_open_from (heap s) i k →
  ∃ G', Open (closed_part AstTypes.CharacterClass) Node.classes s0 G0 i
          (optimizeClassAt i k s) G' ∧
        classes_open_from (heap (optimizeClassAt i k s)) i (S k).
Proof.
  intros HO Hopen.
  assert (Hsame : ∃ G', Open (closed_part AstTypes.CharacterClass) Node.classes s0 G0 i s G' ∧
                        classes_open_from (heap s) i (S k)).
  { exists G. split; [done|]. eapply classes_open_from_le; [|done]. lia. }
  unfold optimizeClassAt.
  destruct (open_node _ _ _ _ _ _ _ HO) as (n0 & ni & Hn0 & Hi & Hty & Hpar & Hel & Hparts).
  rewrite Hi. simpl.
  destruct (Node.classes ni !! k) as [cc|] eqn:Hk; [|done].
  destruct (heap s !! cc) as [ncc|] eqn:Hcc; [|done].
  destruct (Node.elements ncc) as [|fc [|]] eqn:Hels; [done| |done].
  destruct (heap s !! fc) as [nfc|] eqn:Hfc; [|done].
  case_bool_decide as Htyfc; [|done]. clear Hsame.
  set (g := Node.set_negate
              (Some (negb (strict_eqb (Node.negate ncc) (Node.negate nfc))))).
  destruct (list_elem_of_split_length _ _ _ Hk) as (l1 & l2 & Hcls & ->).
  destruct (Hopen ni (length l1) cc Hi (le_n _) Hk)
    as (Hlt1 & ncc' & Hcc' & _ & _ & _ & Hab).
  assert (ncc' = ncc) as -> by congruence.
  rewrite Hels, Forall_singleton in Hab.
  pose proof (open_inv _ _ _ _ _ _ _ HO) as HI.
  pose proof (open_live _ _ _ _ _ _ _ HO) as HiG.
  assert (Hfcin : fc ∈ children ncc).
  { apply elements_children. rewrite Hels. set_solver. }
  assert (Hg : ∀ m, children (g m) = children m ∧ Node.type (g m) = Node.type m ∧
                    Node.parent (g m) = Node.parent m ∧
                    Node.elements (g m) = Node.elements m) by (by intros []).
  destruct (Inv_replace (heap s) G i ni l1 l2 cc ncc fc nfc g HI Hi HiG Hcls Hcc Hfcin Hfc
              Hlt1 Hab Hg) as [HI' Hdet'].
  set (fI := λ n, Node.set_classes (<[length l1 := fc]> (Node.classes n)) n) in *.
  set (h' := alter g fc (alter (Node.set_parent (Some i)) fc (alter fI i (heap s)))) in *.
  assert (Hccin : cc ∈ children ni).
  { apply classes_children. rewrite Hcls. set_solver. }
  destruct (inv_valid _ _ HI i ni cc Hi HiG Hccin) as [_ HccG].
  assert (Hfcnot : fc ∉ children ni).
  { intros Hin. assert (i = cc); [|lia].
    by eapply (inv_unique _ _ HI i cc ni ncc fc). }
  assert (Hk' : keeps_types (heap s) h').
  { unfold h'. eapply keeps_types_trans; [|apply keeps_types_alter; by intros []].
    eapply keeps_types_trans; apply keeps_types_alter; by intros []. }
  assert (Hother : ∀ c, c ∈ Node.classes ni → h' !! c = heap s !! c).
  { intros c Hc. rewrite Forall_forall in Hparts. destruct (Hparts c Hc) as (Hltc & _).
    assert (c ≠ fc).
    { intros ->. apply Hfcnot. by apply classes_children. }
    unfold h'. by rewrite !list_lookup_alter_ne by lia. }
  assert (Hi' : h' !! i = Some (fI ni)).
  { unfold h'. rewrite !list_lookup_alter_ne by lia.
    by rewrite list_lookup_alter_eq, Hi. }
  assert (Hfc' : h' !! fc = Some (g (Node.set_parent (Some i) nfc))).
  { unfold h'. rewrite list_lookup_alter_eq, list_lookup_alter_eq.
    rewrite list_lookup_alter_ne by lia. by rewrite Hfc. }
  assert (HfI : Node.classes (fI ni) = l1 ++ fc :: l2).
  { unfold fI. simpl. rewrite Hcls, insert_app_r_alt by lia. by rewrite Nat.sub_diag. }
  destruct (open_garbage _ _ _ _ _ _ _ HO) as [Hsub Hnew].
  exists (G ∪ {[cc]}). split.
  - split.
    + exact HI'.
    + eapply keeps_types_trans; [apply (open_types _ _ _ _ _ _ _ HO) | exact Hk'].
    + split; [set_solver|]. intros x Hx. apply elem_of_union in Hx as [Hx | Hx].
      * by apply Hnew.
      * apply elem_of_singleton in Hx. right. lia.
    + intros a Ha. change (h' !! a = heap s0 !! a). unfold h'.
      rewrite !list_lookup_alter_ne by lia. by apply (open_frame _ _ _ _ _ _ _ HO).
    + intros x Hx Hd. apply Hdet'; [lia|]. by apply (open_kept _ _ _ _ _ _ _ HO).
    + assert (i ≠ cc) by lia. set_solver.
    + exists n0, (fI ni). split; [done|]. split; [exact Hi'|].
      split; [done|]. split; [done|]. split; [done|].
      rewrite HfI. rewrite Hcls in Hparts, Hother.
      apply Forall_app in Hparts as [Hp1 Hp2]. apply Forall_cons in Hp2 as [_ Hp2].
      assert (Hclosed : ∀ c, c ∈ l1 ++ cc :: l2 →
                closed_part AstTypes.CharacterClass (heap s) i c →
                closed_part AstTypes.CharacterClass h' i c).
      { intros c Hc (Hltc & m & Hm & Hrest). split; [done|]. exists m.
        split; [|done]. change (h' !! c = Some m). by rewrite Hother. }
      apply Forall_app. split; [|constructor].
      * apply Forall_forall. intros c Hc. rewrite Forall_forall in Hp1.
        apply Hclosed; [set_solver | by apply Hp1].
      * split; [lia|]. eexists. split; [exact Hfc'|]. split; [|done]. exact Htyfc.
      * apply Forall_forall. intros c Hc. rewrite Forall_forall in Hp2.
        apply Hclosed; [set_solver | by apply Hp2].
    + apply (open_current _ _ _ _ _ _ _ HO).
  - intros n j c Hn Hj Hc. change (h' !! i = Some n) in Hn.
    assert (n = fI ni) as -> by congruence.
    unfold fI in Hc. simpl in Hc. rewrite list_lookup_insert_ne in Hc by lia.
    change (open_part AstTypes.CharacterClass h' i c).
    eapply open_part_keeps; [exact Hk' | | apply (Hopen ni j c Hi); [lia | done]].
    apply Hother. by eapply list_elem_of_lookup_2.
Qed.

(** The optimization of an intersection keeps the invariant. *)
Lemma optimizeCharacterClassIntersection_spec (s0 : State) (G0 : gset nat) (i : addr)
    (s : State) (G : gset nat) :
  Open (open_part AstTypes.CharacterClass) Node.classes s0 G0 i s G →
  ∃ G', Open (closed_part AstTypes.CharacterClass) Node.classes s0 G0 i
          (optimizeCharacterClassIntersection i s) G'.
Proof.
  intros HO. unfold optimizeCharacterClassIntersection.
  generalize (default 0 (length ∘ Node.classes <$> heap s !! i)). intros m.
  assert (Hopen : classes_open_from (heap s) i 0).
  { intros n j c Hn _ Hc.
    destruct (open_node _ _ _ _ _ _ _ HO) as (n0 & ni & _ & Hi & _ & _ & _ & Hparts).
    assert (n = ni) as -> by congruence.
    rewrite Forall_forall in Hparts. apply Hparts. by eapply list_elem_of_lookup_2. }
  apply (Open_weaken _ (closed_part AstTypes.CharacterClass)) in HO;
    [|intros h a c; apply open_part_closed].
  revert s G HO Hopen. generalize 0 as k.
  induction m as [|m IH]; intros k s G HO Hopen; simpl.
  - by exists G.
  - destruct (optimizeClassAt_spec s0 G0 i k s G HO Hopen) as (G' & HO' & Hopen').
    by apply (IH (S k) _ G').
Qed.

(** The class token keeps the walker's contract. *)
Lemma parseCharacterClassOpen_spec (tokens : list Token.t) (optimize : bool)
    (w : Walk) (fuel : nat) (s s1 : State) (G : gset nat) (p : addr) (np : Node.t)
    (negate : option bool) :
  walk_spec tokens w fuel →
  Pre s G p np → heap s1 = heap s → current s < current s1 →
  length tokens - current s1 < fuel →
  outcome (parseCharacterClassOpen tokens optimize w fuel p negate s1)
    (λ '(r, s'), ∃ G', Post tokens s G p np r s' G').
Proof.
  intros Hw HP Hheap Hcur Hfuel.
  pose proof (pre_inv _ _ _ _ HP) as HI.
  pose proof (pre_node _ _ _ _ HP) as Hp.
  pose proof (lookup_lt_Some _ _ _ Hp) as Hplt.
  destruct (pre_chain _ _ _ _ HP) as (lp & Hchain & Hbelow).
  unfold parseCharacterClassOpen.
  destruct (createCharacterClass_heap s1 p negate) as (Hnode & Hheap2 & Hcur2).
  destruct (createCharacterClass (Some p) negate s1) as [node s2]. simpl in Hnode, Hheap2, Hcur2.
  rewrite Hheap in Hnode, Hheap2.
  set (k := [class_wrapper p negate node; class_intersection node; class_base (S node)]).
  rewrite <- Hnode in Hheap2. fold k in Hheap2.
  assert (Hlook : ∀ j x, k !! j = Some x → heap s2 !! (node + j) = Some x).
  { intros j x Hj. rewrite Hheap2, lookup_app_r by lia.
    by replace (node + j - length (heap s)) with j by lia. }
  assert (Ho : heap s2 !! node = Some (class_wrapper p negate node)).
  { replace node with (node + 0) at 1 by lia. by apply Hlook. }
  assert (Hi : heap s2 !! S node = Some (class_intersection node)).
  { replace (S node) with (node + 1) by lia. by apply Hlook. }
  assert (Hb : heap s2 !! S (S node) = Some (class_base (S node))).
  { replace (S (S node)) with (node + 2) by lia. by apply Hlook. }
  unfold load. rewrite Ho. simpl.
  assert (HI2 : Inv (heap s2) G).
  { rewrite Hheap2. unfold k. rewrite Hnode. by apply Inv_alloc_class. }
  assert (HiG : S node ∉ G).
  { intros Hin. apply (inv_garbage _ _ HI) in Hin. lia. }
  assert (HO : Open (open_part AstTypes.CharacterClass) Node.classes s2 G (S node) s2 G).
  { eapply Open_start; [done | done | done |].
    constructor; [|constructor]. split; [lia|].
    exists (class_base (S node)).
    split; [done|]. split; [done|]. split; [done|]. split; constructor. }
  assert (Hchain2 : parent_chain (heap s2) (S node) (node :: p :: lp)).
  { eapply parent_chain_up; [exact Hi | done |].
    eapply parent_chain_up; [exact Ho | done |].
    eapply parent_chain_agree; [|exact Hchain].
    intros x m Hx Hm. exists m. split; [|done].
    rewrite Hheap2. by apply lookup_app_l_Some. }
  assert (Hbelow2 : Forall (λ a, a < S node) (node :: p :: lp)).
  { constructor; [lia|]. constructor; [lia|].
    eapply Forall_impl; [exact Hbelow|]. simpl. lia. }
  eapply outcome_bind.
  assert (Hinter : is_intersection (heap s2) (S node)).
  { by exists (class_intersection node). }
  { eapply (classLoop_spec tokens w fuel s2 G (S node) (node :: p :: lp) Hw Hchain2 Hbelow2
              Hinter fuel s2 G HO); rewrite Hcur2; lia. }
  intros s3 [G3 HO3]. simpl.
  assert (Hopt : ∃ G5, Open (closed_part AstTypes.CharacterClass) Node.classes s2 G (S node)
                         (if optimize then optimizeCharacterClassIntersection (S node) s3
                          else s3) G5).
  { destruct optimize.
    - by eapply optimizeCharacterClassIntersection_spec.
    - exists G3. eapply Open_weaken; [|exact HO3]. intros h a c. apply open_part_closed. }
  destruct Hopt as [G5 HO5].
  set (s5 := if optimize then optimizeCharacterClassIntersection (S node) s3 else s3) in *.
  destruct (open_node _ _ _ _ _ _ _ HO5) as (n0' & ni & _ & Hni & _ & _ & _ & Hparts).
  pose proof (open_current _ _ _ _ _ _ _ HO5) as Hcur5. rewrite Hcur2 in Hcur5.
  assert (Ho5 : heap s5 !! node = Some (class_wrapper p negate node)).
  { rewrite (open_frame _ _ _ _ _ _ _ HO5) by lia. done. }
  destruct (Open_Post tokens (closed_part AstTypes.CharacterClass) Node.classes s G p np
              k s2 (S node) s5 G5 node (class_wrapper p negate node) s5)
    as [HQ Hfull]; try done.
  { intros n x Hn Hx. unfold k in Hn.
    repeat (apply elem_of_cons in Hn as [-> | Hn]).
    - simpl in Hx. apply list_elem_of_singleton in Hx. lia.
    - simpl in Hx. apply list_elem_of_singleton in Hx. lia.
    - by apply elem_of_nil in Hx.
    - by apply elem_of_nil in Hn. }
  { lia. }
  { lia. }
  rewrite Hni. simpl.
  destruct (Node.classes ni) as [|cc [|cc' rest]] eqn:Hcls; simpl.
  - exists G5. eapply Post_advance; [exact HQ | done | simpl; lia].
  - rewrite Forall_singleton in Hparts.
    destruct Hparts as (Hltc & ncc & Hcc & Htycc & _).
    rewrite Hcc. simpl. rewrite Ho5. simpl.
    exists (G5 ∪ {[node]} ∪ {[S node]}).
    eapply (Post_collapse tokens s G p np node s5 G5 (S node) cc
              (class_wrapper p negate node) ni ncc
              (Node.set_negate
                 (Some (negb (strict_eqb (Node.negate (class_wrapper p negate node))
                                (Node.negate ncc)))))); try done.
    + simpl. set_solver.
    + apply classes_children. rewrite Hcls. set_solver.
    + lia.
    + by rewrite Htycc.
    + by rewrite Htycc.
    + simpl. lia.
  - exists G5. eapply Post_advance; [exact HQ | done | simpl; lia].
Qed.
(** * The walker keeps its contract *)

Lemma createAssertionFromToken_fuel (p : addr) (token : Token.t) (s : State) :
  createAssertionFromToken (Some p) token s ≠ OutOfFuel.
Proof.
  unfold createAssertionFromToken, alloc.
  destruct (decide _); [done|]. by destruct (assertionKind _).
Qed.

Lemma parseBackreference_fuel (p : addr) (token : Token.t) (s : State) :
  parseBackreference p token s ≠ OutOfFuel.
Proof.
  unfold parseBackreference. cbv zeta.
  destruct (hasKWrapper _).
  - destruct (exec_numberedRef _ _) as [[sign num]|].
    + destruct (toNumber num); [by destruct (_ <? _)%Z | done].
    + destruct (has_sign_char _); [done|]. by case_bool_decide.
  - destruct (toNumber _); [by destruct (_ <? _)%Z | done].
Qed.

Lemma createCharacterSetFromToken_fuel normalize PosixProperties_has
    JsUnicodePropertiesMap_get reformatScriptName (p : addr) (token : Token.t) (s : State) :
  createCharacterSetFromToken normalize PosixProperties_has JsUnicodePropertiesMap_get
    reformatScriptName (Some p) token s ≠ OutOfFuel.
Proof.
  unfold createCharacterSetFromToken. cbv zeta. by destruct (in_table _ _).
Qed.

Lemma createDirectiveFromToken_fuel (p : addr) (token : Token.t) (s : State) :
  createDirectiveFromToken (Some p) token s ≠ OutOfFuel.
Proof.
  unfold createDirectiveFromToken. cbv zeta. by destruct (in_table _ _).
Qed.

Lemma createVariableLengthCharacterSet_fuel (p : addr) (kind : string) (s : State) :
  createVariableLengthCharacterSet (Some p) kind s ≠ OutOfFuel.
Proof.
  unfold createVariableLengthCharacterSet. cbv zeta.
  destruct (_ =? _)%string; [done|]. by destruct (_ =? _)%string.
Qed.

Section WalkCorrect.

Variable isValidJsGroupName : string → bool.
Variable normalize : string → string.
Variable PosixProperties_has : string → bool.
Variable JsUnicodePropertiesMap_get : string → option string.
Variable reformatScriptName : string → string.
Variable tokens : list Token.t.
Variable optimize : bool.

Local Abbreviation walk' :=
  (walk isValidJsGroupName normalize PosixProperties_has JsUnicodePropertiesMap_get
     reformatScriptName tokens optimize).

(** Every call of the walker, on a parent as [Pre] describes, fails or
    returns as [Post] describes; it never exhausts a fuel larger than the
    number of tokens left. *)
Lemma walk_correct (fuel : nat) : walk_spec tokens (walk' fuel) fuel.
Proof.
  induction fuel as [|fuel IH]; intros s G p np HP Hrem; [lia|].
  simpl. destruct (tokens !! current s) as [token|] eqn:Htok; [|done].
  pose proof (lookup_lt_Some _ _ _ Htok) as Hlt.
  pose proof (pre_node _ _ _ _ HP) as Hp.
  assert (Hheap : heap (advance s) = heap s) by done.
  assert (Hcur : current s < current (advance s)) by (simpl; lia).
  assert (Hrem' : length tokens - current (advance s) < fuel) by (simpl; lia).
  assert (Hleaf : ∀ (m : Result (addr * State)),
            m ≠ OutOfFuel →
            (∀ r s', m = Ok (r, s') → allocs_leaf (advance s) p r s') →
            outcome m (λ '(r, s'), ∃ G', Post tokens s G p np r s' G')).
  { intros m Hm Hok. apply outcome_intro; [done|]. intros [r s'] Heq.
    exists G. eapply Post_leaf; [done | exact Hheap | exact Hcur | by apply Hok]. }
  destruct (Token.type token) eqn:Hty; try done.
  - (* Alternator *)
    unfold load. rewrite Hheap, Hp. simpl. exists G.
    eapply Post_alloc; [done | done | exact Hcur | done | done |].
    right. split; [done|]. split; [done|]. by exists token.
  - apply Hleaf; [apply createAssertionFromToken_fuel|].
    intros r s' Heq. eapply createAssertionFromToken_leaf; [|exact Heq]. by rewrite Hty.
  - apply Hleaf; [apply parseBackreference_fuel|].
    intros r s' Heq. by eapply parseBackreference_leaf.
  - apply (Hleaf (Ok _)); [done|]. intros r s' Heq.
    assert (Heq' : createCharacter (Some p) (Token.value token) (advance s) = (r, s'))
      by congruence.
    pose proof (createCharacter_leaf p (Token.value token) (advance s)) as Hl.
    by rewrite Heq' in Hl.
  - by eapply hyphen_spec.
  - by eapply parseCharacterClassOpen_spec.
  - apply Hleaf; [apply createCharacterSetFromToken_fuel|].
    intros r s' Heq. by eapply createCharacterSetFromToken_leaf.
  - apply Hleaf; [apply createDirectiveFromToken_fuel|].
    intros r s' Heq. by eapply createDirectiveFromToken_leaf.
  - by eapply parseGroupOpen_spec.
  - apply outcome_intro.
    + destruct (pre_chain _ _ _ _ HP) as (l & Hchain & _).
      by eapply (parseQuantifier_fuel p token (advance s) np l).
    + intros [r s'] Heq. exists G. by eapply Post_quantifier.
  - apply (Hleaf (Ok _)); [done|]. intros r s' Heq.
    assert (Heq' : parseSubroutine p token (advance s) = (r, s')) by congruence.
    pose proof (parseSubroutine_leaf p token (advance s)) as Hl.
    by rewrite Heq' in Hl.
  - apply Hleaf; [apply createVariableLengthCharacterSet_fuel|].
    intros r s' Heq. by eapply createVariableLengthCharacterSet_leaf.
Qed.

End WalkCorrect.
(** * The top level *)

Lemma createRegExp_initial (flags : FlagValues) :
  createRegExp None flags initialState = (0, initial_state flags).
Proof. reflexivity. Qed.

Lemma Inv_initial (flags : FlagValues) : Inv (initial_heap flags) ∅.
Proof.
  assert (Hch : ∀ p np, initial_heap flags !! p = Some np →
            (p = 0 ∧ children np = [1; 3]) ∨ (p = 1 ∧ children np = [2]) ∨
            (p = 2 ∧ children np = []) ∨ (p = 3 ∧ children np = [])).
  { intros p np Hp. destruct p as [|[|[|[|p]]]]; simpl in Hp; simplify_eq; auto. }
  split.
  - intros x Hx. by apply not_elem_of_empty in Hx.
  - intros p np c Hp _ Hc.
    split; [|apply not_elem_of_empty].
    destruct (Hch p np Hp) as [[_ Hl] | [[_ Hl] | [[_ Hl] | [_ Hl]]]];
      rewrite Hl in Hc; simpl;
      repeat (apply elem_of_cons in Hc as [-> | Hc]; [lia|]); by apply elem_of_nil in Hc.
  - intros p np c Hp _ Hc.
    destruct (Hch p np Hp) as [[-> Hl] | [[-> Hl] | [[-> Hl] | [-> Hl]]]];
      rewrite Hl in Hc;
      repeat (apply elem_of_cons in Hc as [-> | Hc]; [eexists; split; [reflexivity | by left]|]);
      by apply elem_of_nil in Hc.
  - intros p np Hp _.
    destruct (Hch p np Hp) as [[_ Hl] | [[_ Hl] | [[_ Hl] | [_ Hl]]]]; rewrite Hl.
    + apply NoDup_cons. split; [|apply NoDup_singleton].
      intros Hin. apply list_elem_of_singleton in Hin. lia.
    + apply NoDup_singleton.
    + apply NoDup_nil_2.
    + apply NoDup_nil_2.
  - intros p1 p2 n1 n2 c Hp1 Hp2 _ _ Hc1 Hc2.
    destruct (Hch p1 n1 Hp1) as [[-> Hl1] | [[-> Hl1] | [[-> Hl1] | [-> Hl1]]]];
      destruct (Hch p2 n2 Hp2) as [[-> Hl2] | [[-> Hl2] | [[-> Hl2] | [-> Hl2]]]];
      try done; rewrite Hl1 in Hc1; rewrite Hl2 in Hc2;
      repeat (apply elem_of_cons in Hc1 as [-> | Hc1]);
      repeat (apply elem_of_cons in Hc2 as [Hc2 | Hc2]);
      try lia; try (by apply elem_of_nil in Hc1); by apply elem_of_nil in Hc2.
  - intros a n Ha. right.
    assert (Node.elements n = []) as Hel.
    { destruct a as [|[|[|[|a]]]]; simpl in Ha; by simplify_eq. }
    unfold plain. rewrite Hel. constructor.
Qed.

Lemma outcome_eq {A} (m : Result A) (P : A → Prop) :
  outcome m P → outcome m (λ a, m = Ok a ∧ P a).
Proof. by destruct m. Qed.

Lemma top_level_start (flags : FlagValues) :
  top_level flags (initial_state flags) ∅ 2.
Proof.
  split; [|split].
  - eapply (Open_start _ _ _ _ 1 pattern_node).
    + apply Inv_initial.
    + apply not_elem_of_empty.
    + done.
    + constructor; [|constructor]. split; [lia|].
      exists (initial_alternative 1).
      split; [done|]. split; [done|]. split; [done|]. split; constructor.
  - by exists pattern_node.
  - done.
Qed.

Section TopLevel.

Variable isValidJsGroupName : string → bool.
Variable normalize : string → string.
Variable PosixProperties_has : string → bool.
Variable JsUnicodePropertiesMap_get : string → option string.
Variable reformatScriptName : string → string.
Variable tokens : list Token.t.
Variable optimize : bool.
Variable flags : FlagValues.

Local Abbreviation walk' :=
  (walk isValidJsGroupName normalize PosixProperties_has JsUnicodePropertiesMap_get
     reformatScriptName tokens optimize).

(** The main loop keeps its invariant and ends. *)
Lemma parseLoop_spec (n : nat) (s : State) (G : gset nat) (top : addr) :
  top_level flags s G top →
  length tokens - current s < n →
  outcome (parseLoop tokens (walk' (parse_fuel tokens)) n 0 top s)
    (λ s', ∃ G' top', top_level flags s' G' top').
Proof.
  revert s G top. induction n as [|n IH]; intros s G top (HO & Hlast & Hflags) Hn; [lia|].
  simpl. destruct (current s <? length tokens) eqn:Hlt; [|by exists G, top].
  apply Nat.ltb_lt in Hlt.
  destruct Hlast as (npat & Hpat & Hlast).
  pose proof (open_inv _ _ _ _ _ _ _ HO) as HI.
  pose proof (open_live _ _ _ _ _ _ _ HO) as H1G.
  assert (Hroot : heap s !! 0 = Some root_node).
  { by rewrite (open_frame _ _ _ _ _ _ _ HO) by lia. }
  assert (H0G : 0 ∉ G).
  { intros Hin. destruct (open_garbage _ _ _ _ _ _ _ HO) as [_ Hnew].
    destruct (Hnew 0 Hin) as [Hin' | ?]; [by apply not_elem_of_empty in Hin' | lia]. }
  destruct (Open_Pre AstTypes.Alternative Node.alternatives alternatives_children
              (initial_state flags) ∅ 1 s G npat top [0] HO)
    as (ntop & HP & Hlttop & Htytop); try done.
  { eapply parent_chain_up; [done | done |]. by eapply parent_chain_top. }
  { constructor; [lia | constructor]. }
  pose proof (pre_node _ _ _ _ HP) as Htop.
  assert (Htopin : top ∈ Node.alternatives npat).
  { apply last_Some in Hlast as [l' ->]. apply elem_of_app. right. by left. }
  assert (Hpartop : Node.parent ntop = Some 1).
  { destruct (open_node _ _ _ _ _ _ _ HO) as (_ & npat' & _ & Hpat' & _ & _ & _ & Hparts).
    assert (npat' = npat) as -> by congruence.
    rewrite Forall_forall in Hparts.
    destruct (Hparts top Htopin) as (_ & m & Hm & _ & Hparm & _). congruence. }
  eapply outcome_bind.
  { apply outcome_eq. apply (walk_correct isValidJsGroupName normalize PosixProperties_has
      JsUnicodePropertiesMap_get reformatScriptName tokens optimize (parse_fuel tokens)
      s G top ntop HP). unfold parse_fuel. lia. }
  intros [r s'] [Hwalk [G' HQ]]. simpl.
  destruct (post_result _ _ _ _ _ _ _ _ HQ) as (nr & Hr & Hnint & Hres).
  pose proof (post_current _ _ _ _ _ _ _ _ HQ) as Hcur.
  unfold load. rewrite Hr. simpl.
  case_bool_decide as Halt.
  - destruct Hres as [[Hne _] | (_ & _ & tok & Htok & Htokty)]; [done|].
    assert (Hw : walk' (parse_fuel tokens) top s
                 = Ok (length (heap s),
                       set_heap (heap s ++ [Node.set_elements []
                                   (getNodeBase (Some 1) AstTypes.Alternative)])
                         (advance s))).
    { unfold parse_fuel. simpl. rewrite Htok, Htokty. unfold load. simpl.
      rewrite Htop. simpl. by rewrite Hpartop. }
    pose proof (eq_trans (eq_sym Hwalk) Hw) as Heq. injection Heq as -> ->. simpl.
    rewrite lookup_app_l by (by eapply lookup_lt_Some).
    rewrite Hroot. simpl.
    apply (IH _ G (length (heap s))); [|simpl; lia].
    assert (H1lt : 1 < length (heap s)) by (by eapply lookup_lt_Some).
    assert (H3lt : 3 < length (heap s)) by (by eapply lookup_lt_Some).
    split; [|split].
    + eapply (Open_new_part AstTypes.Alternative Node.alternatives push_alternative)
        with (s := s) (n := Node.set_elements [] (getNodeBase (Some 1) AstTypes.Alternative));
        try done.
      * apply children_push_alternative.
      * simpl. lia.
    + exists (push_alternative (length (heap s)) npat). split.
      * simpl. rewrite list_lookup_alter_eq, lookup_app_l by done. by rewrite Hpat.
      * simpl. unfold at_last, push. by rewrite last_snoc.
    + simpl. rewrite list_lookup_alter_ne by lia. by rewrite lookup_app_l.
  - destruct (walk_push tokens s G top ntop r s' G' HP HQ) as (_ & _ & Hframe & _).
    { intros nr' Hr' Hnr'. assert (nr' = nr) by congruence. by subst. }
    assert (H1lt : 1 < length (heap s)) by (by eapply lookup_lt_Some).
    assert (H3lt : 3 < length (heap s)) by (by eapply lookup_lt_Some).
    assert (Hnotlast : ∀ x y nx, heap s !! x = Some nx → x ∉ G → y ∈ children nx →
              x ≠ top → at_last (Node.elements ntop) ≠ Some y).
    { intros x y nx Hx HxG Hy Hne Hl. apply last_Some in Hl as [l' Hl]. apply Hne.
      eapply (inv_unique _ _ HI x top nx ntop y); try done.
      - apply (pre_live _ _ _ _ HP).
      - apply elements_children. rewrite Hl. apply elem_of_app. right. by left. }
    apply (IH _ G' top); [|simpl; lia].
    split; [|split].
    + eapply (Open_walk_push AstTypes.Alternative Node.alternatives alternatives_children
                tokens (initial_state flags) ∅ 1 s G npat top ntop r s' G'); try done.
      intros nr' Hr' Hnr'. assert (nr' = nr) by congruence. by subst.
    + exists npat. split; [|done]. simpl. rewrite Hframe; [done | lia | lia |].
      eapply (Hnotlast 0 1 root_node); [done | done | | lia].
      apply elem_of_cons. by left.
    + simpl. rewrite Hframe; [done | lia | |].
      * intros <-. assert (0 = 1); [|lia].
        eapply (inv_unique _ _ HI 0 1 root_node npat 3); try done.
        -- apply elem_of_cons. right. apply elem_of_cons. by left.
        -- by apply alternatives_children.
      * eapply (Hnotlast 0 3 root_node); [done | done | | lia].
        apply elem_of_cons. right. apply elem_of_cons. by left.
Qed.

(** The walk over the tokens fails or ends at the top level. *)
Lemma walkTokens_spec :
  outcome (walkTokens isValidJsGroupName normalize PosixProperties_has
             JsUnicodePropertiesMap_get reformatScriptName tokens optimize flags)
    (λ '(ast, s), ast = 0 ∧ ∃ G top, top_level flags s G top).
Proof.
  unfold walkTokens. rewrite createRegExp_initial. simpl.
  eapply outcome_bind.
  { apply (parseLoop_spec (parse_fuel tokens) (initial_state flags) ∅ 2).
    - apply top_level_start.
    - unfold parse_fuel. simpl. lia. }
  intros s (G & top & Htop). simpl. split; [done|]. by exists G, top.
Qed.

End TopLevel.
(** * The tree [parse] returns *)

Lemma reachable_live (h : list Node.t) (G : gset nat) (root a : addr) :
  Inv h G → root ∉ G → reachable h root a → a ∉ G.
Proof.
  intros HI Hroot Hreach. induction Hreach as [|p c Hreach IH (np & Hp & Hc)]; [done|].
  by eapply (inv_valid _ _ HI p np c).
Qed.

Lemma checkSubroutines_fuel (s : State) (subs : list addr) :
  checkSubroutines s subs ≠ OutOfFuel.
Proof.
  induction subs as [|sub subs IH]; simpl; [done|].
  assert (Hone : checkSubroutine s sub ≠ OutOfFuel).
  { unfold checkSubroutine, load. destruct (heap s !! sub) as [n|]; [|done]. simpl.
    destruct (Node.ref n) as [[r|nm|]|]; try done.
    - by destruct (_ || _).
    - destruct (namedGroups s !! nm) as [groups|]; [|done]. by destruct (_ <? _). }
  destruct (checkSubroutine s sub) as [[]| |]; done.
Qed.

Lemma parse_capture_Ok :
  parse_plain Tokens.capture_then_relative_subroutine false noFlags
  = Ok (0, state_after_parse_capture).
Proof. vm_compute. reflexivity. Defined.

Lemma parse_single_class_Ok :
  parse_plain Tokens.single_class true noFlags = Ok (0, state_after_single_class).
Proof. vm_compute. reflexivity. Defined.

Lemma capture_reachable_2 : reachable (heap state_after_parse_capture) 0 2.
Proof.
  eapply reachable_child; [eapply reachable_child; [apply reachable_root|]|].
  - eexists. split; [reflexivity|]. apply elem_of_cons. by left.
  - eexists. split; [reflexivity|]. apply elem_of_cons. by left.
Defined.

Section Tree.

Variable isValidJsGroupName : string → bool.
Variable normalize : string → string.
Variable PosixProperties_has : string → bool.
Variable JsUnicodePropertiesMap_get : string → option string.
Variable reformatScriptName : string → string.
Variable tokens : list Token.t.
Variable optimize : bool.
Variable flags : FlagValues.

Lemma parse_Ok_top_level (root : addr) (s : State) :
  parse isValidJsGroupName normalize PosixProperties_has JsUnicodePropertiesMap_get
    reformatScriptName tokens optimize flags = Ok (root, s) → root = 0 ∧ ∃ G top, top_level flags s G top.
Proof.
  unfold parse.
  pose proof (walkTokens_spec isValidJsGroupName normalize PosixProperties_has
                JsUnicodePropertiesMap_get reformatScriptName tokens optimize flags) as Hw.
  destruct (walkTokens _ _ _ _ _ _ _ _) as [[ast s']| |]; simpl in *; [|done|done].
  destruct (postPass s') as [[]| |]; simpl; [|done|done].
  intros [= <- <-]. exact Hw.
Qed.

Lemma top_level_root (s : State) (G : gset nat) (top : addr) :
  top_level flags s G top →
  Inv (heap s) G ∧ (0 ∉ G) ∧ heap s !! 0 = Some root_node.
Proof.
  intros (HO & _ & _). split; [apply (open_inv _ _ _ _ _ _ _ HO)|]. split.
  - intros Hin. destruct (open_garbage _ _ _ _ _ _ _ HO) as [_ Hnew].
    destruct (Hnew 0 Hin) as [Hin' | ?]; [by apply not_elem_of_empty in Hin' | lia].
  - by rewrite (open_frame _ _ _ _ _ _ _ HO) by lia.
Qed.

(** X1.  In the tree [parse] returns, every node that a child container
    holds links back to its holder through [parent]; the one exception is
    an [Alternative] among the elements of a [CharacterClass] (made for an
    alternator token in a class body), whose [parent] is not the class but
    a [CharacterClassIntersection] node. *)
Theorem parse_parent_links (root : addr) (s : State) (p : addr) (np : Node.t) (c : addr) :
  parse isValidJsGroupName normalize PosixProperties_has JsUnicodePropertiesMap_get
    reformatScriptName tokens optimize flags = Ok (root, s) →
  reachable (heap s) root p → heap s !! p = Some np → c ∈ children np →
  parent_ok (heap s) p np c.
Proof.
  intros Hparse Hreach Hp Hc.
  destruct (parse_Ok_top_level root s Hparse) as (-> & G & top & Htop).
  destruct (top_level_root s G top Htop) as (HI & H0 & _).
  eapply (inv_parent _ _ HI p np c); try done.
  by eapply reachable_live.
Qed.

(** X2.  The result is a tree: no node is held by two nodes, and no node
    is held twice by one. *)
Theorem parse_no_sharing (root : addr) (s : State) (p1 p2 : addr) (n1 n2 : Node.t)
    (c : addr) :
  parse isValidJsGroupName normalize PosixProperties_has JsUnicodePropertiesMap_get
    reformatScriptName tokens optimize flags = Ok (root, s) →
  reachable (heap s) root p1 → reachable (heap s) root p2 →
  heap s !! p1 = Some n1 → heap s !! p2 = Some n2 →
  c ∈ children n1 → c ∈ children n2 →
  p1 = p2 ∧ NoDup (children n1).
Proof.
  intros Hparse Hr1 Hr2 Hp1 Hp2 Hc1 Hc2.
  destruct (parse_Ok_top_level root s Hparse) as (-> & G & top & Htop).
  destruct (top_level_root s G top Htop) as (HI & H0 & _).
  pose proof (reachable_live _ _ _ _ HI H0 Hr1) as Hl1.
  pose proof (reachable_live _ _ _ _ HI H0 Hr2) as Hl2.
  split.
  - by eapply (inv_unique _ _ HI p1 p2 n1 n2 c).
  - by eapply (inv_nodup _ _ HI p1 n1).
Qed.

(** X3.  Every object of the result, in particular every [CharacterClass],
    either holds exactly one element, a [CharacterClassIntersection], or
    holds no intersection among its elements. *)
Theorem parse_class_shape (root : addr) (s : State) (a : addr) (n : Node.t) :
  parse isValidJsGroupName normalize PosixProperties_has JsUnicodePropertiesMap_get
    reformatScriptName tokens optimize flags = Ok (root, s) → heap s !! a = Some n → class_shape (heap s) n.
Proof.
  intros Hparse Ha.
  destruct (parse_Ok_top_level root s Hparse) as (-> & G & top & Htop).
  destruct (top_level_root s G top Htop) as (HI & _).
  by eapply (inv_shape _ _ HI).
Qed.

(** X4.  [parse] ends on every token list: every call of the walker reads
    at least one token, so no loop of the parser outlasts the tokens; the
    fuel of the model is never exhausted. *)
Theorem parse_terminates :
  parse isValidJsGroupName normalize PosixProperties_has JsUnicodePropertiesMap_get
    reformatScriptName tokens optimize flags ≠ OutOfFuel.
Proof.
  unfold parse.
  pose proof (walkTokens_spec isValidJsGroupName normalize PosixProperties_has
                JsUnicodePropertiesMap_get reformatScriptName tokens optimize flags) as Hw.
  destruct (walkTokens _ _ _ _ _ _ _ _) as [[ast s']| |]; simpl in *; [|done|done].
  assert (Hpost : postPass s' ≠ OutOfFuel).
  { unfold postPass. destruct (_ && _); [done|]. apply checkSubroutines_fuel. }
  destruct (postPass s') as [[]| |]; simpl; done.
Qed.

(** X5.  The root of the result is the [RegExp] node, without parent; its
    [flags] node is a [Flags] node under the root that carries the flags
    given to [parse], whatever the tokens are. *)
Theorem parse_root_flags (root : addr) (s : State) :
  parse isValidJsGroupName normalize PosixProperties_has JsUnicodePropertiesMap_get
    reformatScriptName tokens optimize flags = Ok (root, s) →
  ∃ nroot fl nfl,
    heap s !! root = Some nroot ∧ Node.type nroot = AstTypes.RegExp ∧
    Node.parent nroot = None ∧ Node.flagsNode nroot = Some fl ∧
    heap s !! fl = Some nfl ∧ Node.type nfl = AstTypes.Flags ∧
    Node.parent nfl = Some root ∧
    Node.ignoreCase nfl = Some (ignoreCase flags) ∧
    Node.dotAll nfl = Some (dotAll flags) ∧
    Node.extended nfl = Some (extended flags).
Proof.
  intros Hparse.
  destruct (parse_Ok_top_level root s Hparse) as (-> & G & top & Htop).
  destruct (top_level_root s G top Htop) as (_ & _ & Hroot).
  destruct Htop as (_ & _ & Hflags).
  exists root_node, 3, (flags_node flags). by repeat split.
Qed.

(** X6.  The root's [pattern] is a [Pattern] node under the root with at
    least one alternative; each of its alternatives is an [Alternative]
    node whose [parent] is the pattern. *)
Theorem parse_pattern_alternatives (root : addr) (s : State) :
  parse isValidJsGroupName normalize PosixProperties_has JsUnicodePropertiesMap_get
    reformatScriptName tokens optimize flags = Ok (root, s) →
  ∃ nroot pat npat,
    heap s !! root = Some nroot ∧ Node.pattern nroot = Some pat ∧
    heap s !! pat = Some npat ∧ Node.type npat = AstTypes.Pattern ∧
    Node.parent npat = Some root ∧ Node.alternatives npat ≠ [] ∧
    Forall (λ alt, ∃ nalt, heap s !! alt = Some nalt ∧
                           Node.type nalt = AstTypes.Alternative ∧
                           Node.parent nalt = Some pat)
      (Node.alternatives npat).
Proof.
  intros Hparse.
  destruct (parse_Ok_top_level root s Hparse) as (-> & G & top & Htop).
  destruct (top_level_root s G top Htop) as (_ & _ & Hroot).
  destruct Htop as (HO & (npat' & Hpat' & Hlast) & _).
  destruct (open_node _ _ _ _ _ _ _ HO) as (n0 & npat & Hn0 & Hpat & Hty & Hpar & _ & Hparts).
  assert (npat' = npat) as -> by congruence.
  assert (n0 = pattern_node) as -> by (simpl in Hn0; congruence).
  exists root_node, 1, npat. repeat split; try done.
  - intros Hnil. by rewrite Hnil in Hlast.
  - eapply Forall_impl; [exact Hparts|]. intros alt (_ & nalt & Halt & Htya & Hpara & _).
    by exists nalt.
Qed.

End Tree.

(** X1, at a concrete input: in the tree of [(a)\g<-1>], the capturing
    group held by the top alternative links back to it. *)
Lemma parse_parent_links_witness :
  ∃ np, heap state_after_parse_capture !! 2 = Some np ∧
        parent_ok (heap state_after_parse_capture) 2 np 4.
Proof.
  eexists. split; [reflexivity|].
  eapply (parse_parent_links _ _ _ _ _ _ _ _ 0 state_after_parse_capture 2 _ 4).
  - exact parse_capture_Ok.
  - exact capture_reachable_2.
  - reflexivity.
  - apply elem_of_cons. by left.
Defined.

(** X2, at a concrete input: in the tree of [(a)\g<-1>], the capturing
    group is held by the top alternative only. *)
Lemma parse_no_sharing_witness :
  ∃ n, heap state_after_parse_capture !! 2 = Some n ∧ 2 = 2 ∧ NoDup (children n).
Proof.
  eexists. split; [reflexivity|].
  eapply (parse_no_sharing _ _ _ _ _ _ _ _ 0 state_after_parse_capture 2 2 _ _ 4).
  - exact parse_capture_Ok.
  - exact capture_reachable_2.
  - exact capture_reachable_2.
  - reflexivity.
  - reflexivity.
  - apply elem_of_cons. by left.
  - apply elem_of_cons. by left.
Defined.

(** X3, at a concrete input: the class of [[a]], which holds its character
    directly. *)
Lemma parse_class_shape_witness :
  ∃ n, heap state_after_single_class !! 6 = Some n ∧
       class_shape (heap state_after_single_class) n.
Proof.
  eexists. split; [reflexivity|].
  eapply (parse_class_shape _ _ _ _ _ _ _ _ 0 state_after_single_class 6).
  - exact parse_single_class_Ok.
  - reflexivity.
Defined.

(** X5, at a concrete input: the flags of the result for [[a]]. *)
Lemma parse_root_flags_witness :
  ∃ nroot fl nfl,
    heap state_after_single_class !! 0 = Some nroot ∧
    Node.type nroot = AstTypes.RegExp ∧
    Node.parent nroot = None ∧ Node.flagsNode nroot = Some fl ∧
    heap state_after_single_class !! fl = Some nfl ∧ Node.type nfl = AstTypes.Flags ∧
    Node.parent nfl = Some 0 ∧
    Node.ignoreCase nfl = Some (ignoreCase noFlags) ∧
    Node.dotAll nfl = Some (dotAll noFlags) ∧
    Node.extended nfl = Some (extended noFlags).
Proof.
  exact (parse_root_flags _ _ _ _ _ _ _ _ 0 state_after_single_class
           parse_single_class_Ok).
Defined.

(** X6, at a concrete input: the pattern of the result for [[a]]. *)
Lemma parse_pattern_alternatives_witness :
  ∃ nroot pat npat,
    heap state_after_single_class !! 0 = Some nroot ∧ Node.pattern nroot = Some pat ∧
    heap state_after_single_class !! pat = Some npat ∧
    Node.type npat = AstTypes.Pattern ∧
    Node.parent npat = Some 0 ∧ Node.alternatives npat ≠ [] ∧
    Forall (λ alt, ∃ nalt, heap state_after_single_class !! alt = Some nalt ∧
                           Node.type nalt = AstTypes.Alternative ∧
                           Node.parent nalt = Some pat)
      (Node.alternatives npat).
Proof.
  exact (parse_pattern_alternatives _ _ _ _ _ _ _ _ 0 state_after_single_class
           parse_single_class_Ok).
Defined.

(** The exception of X1 occurs: for a class whose body holds an alternator
    token, the class returned holds an [Alternative] whose [parent] is the
    intersection the class was taken out of. *)
Lemma alternator_in_class_link :
  ∃ s nclass nalt,
    parse_plain Tokens.alternator_in_class false noFlags = Ok (0, s) ∧
    heap s !! 6 = Some nclass ∧ Node.type nclass = AstTypes.CharacterClass ∧
    Node.elements nclass = [7] ∧
    heap s !! 7 = Some nalt ∧ Node.type nalt = AstTypes.Alternative ∧
    Node.parent nalt = Some 5.
Proof.
  eexists _, _, _. split; [vm_compute; reflexivity|]. by repeat split.
Qed.
(** * The cursor *)

Lemma allocs_leaf_current (s : State) (p r : addr) (s' : State) :
  allocs_leaf s p r s' → current s' = current s.
Proof. by intros (n & _ & _ & Hcur & _). Qed.

Lemma createByGroupKind_current isValidJsGroupName (parent : option addr)
    (token : Token.t) (s s' : State) (node : addr) :
  createByGroupKind isValidJsGroupName parent token s = Ok (node, s') →
  current s' = current s.
Proof.
  unfold createByGroupKind. cbv zeta.
  destruct (_ =? TokenGroupKinds.atomic)%string. { by intros [= <- <-]. }
  destruct (_ =? TokenGroupKinds.capturing)%string.
  { unfold createCapturingGroup, alloc.
    destruct (Token.name token) as [nm|].
    - destruct (isValidJsGroupName nm); [|done]. by intros [= <- <-].
    - by intros [= <- <-]. }
  destruct (_ =? TokenGroupKinds.group)%string. { by intros [= <- <-]. }
  destruct (_ || _); [|done].
  unfold createAssertionFromToken, alloc.
  destruct (decide _). { by intros [= <- <-]. }
  destruct (assertionKind _); [|done]. by intros [= <- <-].
Qed.

Lemma optimizeClassAt_current (i : addr) (k : nat) (s : State) :
  current (optimizeClassAt i k s) = current s.
Proof.
  unfold optimizeClassAt.
  destruct (heap s !! i ≫= _) as [cc|]; [|done].
  destruct (heap s !! cc) as [ncc|]; [|done].
  destruct (Node.elements ncc) as [|fc [|]]; [done| |done].
  destruct (heap s !! fc) as [nfc|]; [|done].
  by case_bool_decide.
Qed.

Lemma optimizeCharacterClassIntersection_current (i : addr) (s : State) :
  current (optimizeCharacterClassIntersection i s) = current s.
Proof.
  unfold optimizeCharacterClassIntersection.
  generalize (default 0 (length ∘ Node.classes <$> heap s !! i)). intros m.
  generalize 0 as k. revert s.
  induction m as [|m IH]; intros s k; simpl; [done|].
  by rewrite IH, optimizeClassAt_current.
Qed.

Section Cursor.

Variable tokens : list Token.t.
Variable w : Walk.
Hypothesis w_advances : walker_advances tokens w.

(** The loop of a group ends at a group-close token. *)
Lemma groupLoop_cursor (n : nat) (node : addr) (s s' : State) :
  groupLoop tokens w n node s = Ok s' →
  current s ≤ current s' ∧
  ∃ tok, tokens !! current s' = Some tok ∧ Token.type tok = TokenTypes.GroupClose.
Proof.
  revert s. induction n as [|n IH]; intros s; simpl; [done|].
  destruct (tokens !! current s) as [tk|] eqn:Htk; [|done].
  case_bool_decide as Hclose.
  { intros [= <-]. split; [done|]. by exists tk. }
  case_bool_decide as Halt.
  - intros Hloop. apply IH in Hloop as [Hle Hend]. simpl in Hle. split; [lia | done].
  - unfold load. destruct (heap s !! node) as [nn|]; [|done]. simpl.
    destruct (at_last _) as [alt|]; [|done].
    destruct (w alt s) as [[r s1]| |] eqn:Hw; [|done|done]. simpl.
    intros Hloop. apply IH in Hloop as [Hle Hend]. simpl in Hle.
    apply w_advances in Hw. split; [lia | done].
Qed.

(** The loop of a class ends at a class-close token. *)
Lemma classLoop_cursor (n : nat) (node : addr) (s s' : State) :
  classLoop tokens w n node s = Ok s' →
  current s ≤ current s' ∧
  ∃ tok, tokens !! current s' = Some tok ∧
         Token.type tok = TokenTypes.CharacterClassClose.
Proof.
  revert s. induction n as [|n IH]; intros s; simpl; [done|].
  destruct (tokens !! current s) as [tk|] eqn:Htk; [|done].
  case_bool_decide as Hclose.
  { intros [= <-]. split; [done|]. by exists tk. }
  case_bool_decide as Hint.
  - intros Hloop. apply IH in Hloop as [Hle Hend]. simpl in Hle. split; [lia | done].
  - unfold load. destruct (heap s !! node) as [nn|]; [|done]. simpl.
    destruct (at_last _) as [cc|]; [|done].
    destruct (w cc s) as [[r s1]| |] eqn:Hw; [|done|done]. simpl.
    intros Hloop. apply IH in Hloop as [Hle Hend]. simpl in Hle.
    apply w_advances in Hw. split; [lia | done].
Qed.

Lemma parseGroupOpen_cursor isValidJsGroupName (optimize : bool) (fuel : nat)
    (p : addr) (token : Token.t) (s : State) (r : addr) (s' : State) :
  parseGroupOpen isValidJsGroupName tokens optimize w fuel p token s = Ok (r, s') →
  current s < current s' ∧ current s' ≤ length tokens ∧
  just_read tokens TokenTypes.GroupClose s'.
Proof.
  unfold parseGroupOpen.
  destruct (createByGroupKind _ _ _ _) as [[node s1]| |] eqn:Hcreate; [|done|done].
  apply createByGroupKind_current in Hcreate. simpl.
  unfold load. destruct (heap s1 !! node) as [nn|]; [|done]. simpl.
  destruct (registerGroup_heap node nn s1) as [_ Hrc].
  destruct (groupLoop _ _ _ _ _) as [s2| |] eqn:Hloop; [|done|done]. simpl.
  apply groupLoop_cursor in Hloop as (Hle & tok & Htok & Hty).
  rewrite Hrc, Hcreate in Hle.
  pose proof (lookup_lt_Some _ _ _ Htok) as Hlt.
  assert (Hend : ∀ s3, current s3 = current s2 →
            current s < current (advance s3) ∧ current (advance s3) ≤ length tokens ∧
            just_read tokens TokenTypes.GroupClose (advance s3)).
  { intros s3 Hs3. simpl. rewrite Hs3. split; [lia|]. split; [lia|].
    exists tok. change (current (advance s3)) with (S (current s3)). rewrite Hs3.
    split; [lia|]. split; [|done]. rewrite <- Htok. f_equal. lia. }
  destruct optimize.
  - pose proof (getOptimizedGroup_outcome node s2) as Hopt.
    destruct (getOptimizedGroup node s2) as [[r' s3]| |]; [|done|done]. simpl in *.
    intros [= <- <-]. apply Hend.
    destruct Hopt as [[_ ->] | (n & alt & nalt & el & nel & g & _ & _ & _ & _ & _ & _ & _ & Hc & _)];
      done.
  - simpl. intros [= <- <-]. by apply Hend.
Qed.

Lemma parseCharacterClassOpen_cursor (optimize : bool) (fuel : nat)
    (p : addr) (negate : option bool) (s : State) (r : addr) (s' : State) :
  parseCharacterClassOpen tokens optimize w fuel p negate s = Ok (r, s') →
  current s < current s' ∧ current s' ≤ length tokens ∧
  just_read tokens TokenTypes.CharacterClassClose s'.
Proof.
  unfold parseCharacterClassOpen.
  destruct (createCharacterClass_heap s p negate) as (_ & _ & Hcur1).
  destruct (createCharacterClass (Some p) negate s) as [node s1]. simpl in Hcur1.
  unfold load. destruct (heap s1 !! node) as [nn|]; [|done]. simpl.
  destruct (head _) as [i|]; [|done].
  destruct (classLoop _ _ _ _ _) as [s2| |] eqn:Hloop; [|done|done]. simpl.
  apply classLoop_cursor in Hloop as (Hle & tok & Htok & Hty).
  rewrite Hcur1 in Hle.
  pose proof (lookup_lt_Some _ _ _ Htok) as Hlt.
  set (s3 := if optimize then optimizeCharacterClassIntersection i s2 else s2).
  assert (Hs3 : current s3 = current s2).
  { unfold s3. destruct optimize; [apply optimizeCharacterClassIntersection_current | done]. }
  assert (Hend : ∀ s4, current s4 = current s3 →
            current s < current (advance s4) ∧ current (advance s4) ≤ length tokens ∧
            just_read tokens TokenTypes.CharacterClassClose (advance s4)).
  { intros s4 Hs4. simpl. rewrite Hs4, Hs3. split; [lia|]. split; [lia|].
    exists tok. change (current (advance s4)) with (S (current s4)). rewrite Hs4, Hs3.
    split; [lia|]. split; [|done]. rewrite <- Htok. f_equal. lia. }
  destruct (heap s3 !! i) as [ni|]; [|done]. simpl.
  destruct (Node.classes ni) as [|cc [|]].
  - intros [= <- <-]. by apply Hend.
  - destruct (heap s3 !! cc) as [ncc|]; [|done]. simpl.
    destruct (heap s3 !! node) as [nn'|]; [|done]. simpl.
    intros [= <- <-]. by apply Hend.
  - intros [= <- <-]. by apply Hend.
Qed.

Lemma parseCharacterClassHyphen_cursor (p : addr) (next : option Token.t)
    (s : State) (r : addr) (s' : State) :
  parseCharacterClassHyphen w p next s = Ok (r, s') →
  current s ≤ length tokens →
  current s ≤ current s' ∧ current s' ≤ length tokens.
Proof.
  intros Hres Hle.
  assert (Hcases : current s' = current s ∨
                   ∃ q s1 r1, w q s = Ok (r1, s1) ∧ current s' = current s1).
  { revert Hres. unfold parseCharacterClassHyphen, load.
    destruct (heap s !! p) as [np|]; [|done]. simpl.
    destruct (at_last _) as [prev|]; simpl.
    2:{ intros [= <- <-]. by left. }
    destruct next as [next|].
    2:{ intros [= <- <-]. by left. }
    destruct (heap s !! prev) as [nprev|]; [|done]. simpl.
    destruct (_ && _).
    2:{ intros [= <- <-]. by left. }
    destruct (w p s) as [[r1 s1]| |] eqn:Hw; [|done|done]. simpl.
    destruct (heap s1 !! prev) as [nprev'|]; [|done]. simpl.
    destruct (heap s1 !! r1) as [n1|]; [|done]. simpl.
    destruct (_ && _); [|done].
    destruct (createCharacterClassRange _ _ _ _) as [[r2 s2]| |] eqn:Hr; [|done|done].
    simpl. apply createCharacterClassRange_Ok in Hr as (_ & Hc2 & _).
    intros [= <- <-]. right. exists p, s1, r1. split; [done|]. simpl in *. lia. }
  destruct Hcases as [-> | (q & s1 & r1 & Hw & ->)]; [lia|].
  apply w_advances in Hw. lia.
Qed.

End Cursor.

Section WalkCursor.

Variable isValidJsGroupName : string → bool.
Variable normalize : string → string.
Variable PosixProperties_has : string → bool.
Variable JsUnicodePropertiesMap_get : string → option string.
Variable reformatScriptName : string → string.
Variable tokens : list Token.t.
Variable optimize : bool.

Local Abbreviation walk' :=
  (walk isValidJsGroupName normalize PosixProperties_has JsUnicodePropertiesMap_get
     reformatScriptName tokens optimize).

(** Every call of the walker that returns has read at least one token and
    has not read past the end. *)
Lemma walk_advances (fuel : nat) : walker_advances tokens (walk' fuel).
Proof.
  induction fuel as [|fuel IH]; intros p s r s'; simpl; [done|].
  destruct (tokens !! current s) as [token|] eqn:Htok; [|done].
  pose proof (lookup_lt_Some _ _ _ Htok) as Hlt.
  assert (Hleaf : ∀ r s', allocs_leaf (advance s) p r s' →
            current s < current s' ∧ current s' ≤ length tokens).
  { intros r0 s0 Hl. apply allocs_leaf_current in Hl. simpl in Hl. lia. }
  destruct (Token.type token) eqn:Hty; try done.
  - unfold load. destruct (heap (advance s) !! p) as [np|]; [|done]. simpl.
    intros [= <- <-]. simpl. lia.
  - intros Hres. eapply Hleaf, createAssertionFromToken_leaf; [|exact Hres].
    by rewrite Hty.
  - intros Hres. by eapply Hleaf, parseBackreference_leaf.
  - intros [= <- <-]. simpl. lia.
  - intros Hres.
    apply (parseCharacterClassHyphen_cursor tokens (walk' fuel) IH) in Hres; simpl in *; lia.
  - intros Hres.
    apply (parseCharacterClassOpen_cursor tokens (walk' fuel) IH) in Hres. simpl in Hres. lia.
  - intros Hres. by eapply Hleaf, createCharacterSetFromToken_leaf.
  - intros Hres. by eapply Hleaf, createDirectiveFromToken_leaf.
  - intros Hres.
    apply (parseGroupOpen_cursor tokens (walk' fuel) IH) in Hres. simpl in Hres. lia.
  - intros Hres.
    destruct (heap (advance s) !! p) as [np|] eqn:Hp.
    + destruct (parseQuantifier_Ok p token (advance s) s' r np Hp Hres)
        as (rest & e & q0 & _ & _ & _ & _ & _ & Hcur & _).
      rewrite Hcur. simpl. lia.
    + unfold parseQuantifier, load in Hres. by rewrite Hp in Hres.
  - intros Hres.
    assert (Heq : parseSubroutine p token (advance s) = (r, s')) by congruence.
    pose proof (parseSubroutine_leaf p token (advance s)) as Hl.
    rewrite Heq in Hl. by apply Hleaf in Hl.
  - intros Hres. by eapply Hleaf, createVariableLengthCharacterSet_leaf.
Qed.

(** X7.  When the walker returns from a group-open token, the token it
    read last is a group-close token, after the opening one: a group whose
    closing token is missing is never returned. *)
Theorem walk_group_closed (fuel : nat) (p : addr) (s : State) (token : Token.t)
    (r : addr) (s' : State) :
  tokens !! current s = Some token → Token.type token = TokenTypes.GroupOpen →
  walk' fuel p s = Ok (r, s') →
  just_read tokens TokenTypes.GroupClose s' ∧
  current s + 2 ≤ current s' ∧ current s' ≤ length tokens.
Proof.
  intros Htok Hty. destruct fuel as [|fuel]; [done|]. simpl. rewrite Htok, Hty.
  intros Hres.
  apply (parseGroupOpen_cursor tokens (walk' fuel) (walk_advances fuel)) in Hres.
  simpl in Hres. split; [apply Hres|]. lia.
Qed.

(** X8.  When the walker returns from a class-open token, the token it
    read last is a class-close token, after the opening one. *)
Theorem walk_class_closed (fuel : nat) (p : addr) (s : State) (token : Token.t)
    (r : addr) (s' : State) :
  tokens !! current s = Some token →
  Token.type token = TokenTypes.CharacterClassOpen →
  walk' fuel p s = Ok (r, s') →
  just_read tokens TokenTypes.CharacterClassClose s' ∧
  current s + 2 ≤ current s' ∧ current s' ≤ length tokens.
Proof.
  intros Htok Hty. destruct fuel as [|fuel]; [done|]. simpl. rewrite Htok, Hty.
  intros Hres.
  apply (parseCharacterClassOpen_cursor tokens (walk' fuel) (walk_advances fuel)) in Hres.
  simpl in Hres. split; [apply Hres|]. lia.
Qed.

Lemma parseLoop_cursor (w : Walk) (n : nat) (ast top : addr) (s s' : State) :
  walker_advances tokens w →
  parseLoop tokens w n ast top s = Ok s' →
  current s ≤ length tokens → current s' = length tokens.
Proof.
  intros Hw. revert top s. induction n as [|n IH]; intros top s; simpl; [done|].
  destruct (current s <? length tokens) eqn:Hlt.
  - destruct (w top s) as [[node s1]| |] eqn:Hwalk; [|done|done]. simpl.
    apply Hw in Hwalk.
    unfold load. destruct (heap s1 !! node) as [nn|]; [|done]. simpl.
    case_bool_decide.
    + destruct (heap s1 !! ast) as [nast|]; [|done]. simpl.
      destruct (Node.pattern nast) as [pat|]; [|done].
      intros Hloop _. apply IH in Hloop; [done | simpl; lia].
    + intros Hloop _. apply IH in Hloop; [done | simpl; lia].
  - apply Nat.ltb_ge in Hlt. intros [= <-] Hle. lia.
Qed.

(** X10.  [parse] returns only when it has read every token: no token is
    left over and the cursor is not moved past the end. *)
Theorem parse_reads_all (flags : FlagValues) (root : addr) (s : State) :
  parse isValidJsGroupName normalize PosixProperties_has JsUnicodePropertiesMap_get
    reformatScriptName tokens optimize flags = Ok (root, s) →
  current s = length tokens.
Proof.
  unfold parse.
  destruct (walkTokens _ _ _ _ _ _ _ _) as [[ast s1]| |] eqn:Hwalk; [|done|done]. simpl.
  destruct (postPass s1) as [[]| |]; [|done|done]. simpl.
  intros [= <- <-].
  unfold walkTokens in Hwalk. rewrite createRegExp_initial in Hwalk.
  cbn -[parseLoop walk parse_fuel] in Hwalk.
  destruct (parseLoop _ _ _ _ _ _) as [s2| |] eqn:Hloop; [|done|done].
  injection Hwalk as <- <-.
  eapply parseLoop_cursor; [|exact Hloop|simpl; lia].
  apply walk_advances.
Qed.

End WalkCursor.

(** X7, at a concrete input: the walker on the group of [(a)\g<-1>]. *)
Lemma walk_group_closed_witness :
  just_read Tokens.capture_then_relative_subroutine TokenTypes.GroupClose
    (match walk (λ _, true) (λ p, p) (λ _, false) (λ _, None) (λ p, p)
             Tokens.capture_then_relative_subroutine false 5 2 (initial_state noFlags)
     with Ok (_, s') => s' | _ => initialState end).
Proof.
  eapply (walk_group_closed (λ _, true) (λ p, p) (λ _, false) (λ _, None) (λ p, p)
            Tokens.capture_then_relative_subroutine false 5 2 (initial_state noFlags)).
  - reflexivity.
  - reflexivity.
  - vm_compute. reflexivity.
Defined.

(** X8, at a concrete input: the walker on the class [[a]]. *)
Lemma walk_class_closed_witness :
  just_read Tokens.single_class TokenTypes.CharacterClassClose
    (match walk (λ _, true) (λ p, p) (λ _, false) (λ _, None) (λ p, p)
             Tokens.single_class true 4 2 (initial_state noFlags)
     with Ok (_, s') => s' | _ => initialState end).
Proof.
  eapply (walk_class_closed (λ _, true) (λ p, p) (λ _, false) (λ _, None) (λ p, p)
            Tokens.single_class true 4 2 (initial_state noFlags)).
  - reflexivity.
  - reflexivity.
  - vm_compute. reflexivity.
Defined.

(** X10, at a concrete input: [parse] on [(a)\g<-1>] ends after the four
    tokens. *)
Lemma parse_reads_all_witness : current state_after_parse_capture = 4.
Proof.
  exact (parse_reads_all _ _ _ _ _ _ _ _ 0 state_after_parse_capture parse_capture_Ok).
Defined.
(** * Error and edge behaviour of the token parsers *)

(** X11.  A backreference written as a backslash and digits is absolute:
    it fails with [InsufficientGroups] exactly when the number exceeds the
    count of capturing groups opened so far (a forward reference), and
    otherwise emits a [Backreference] to that number and sets the
    numbered-reference flag; the capturing groups are left as they are. *)
Theorem parseBackreference_plain_number (parent : addr) (token : Token.t) (s : State)
    (digits : string) :
  Token.raw token = String "\" digits → all_digits digits = true →
  let count := Z.of_nat (length (capturingGroups s)) in
  let parsed := decimal_value digits in
  let res := parseBackreference parent token s in
  (res = Throw InsufficientGroups ↔ (count < parsed)%Z) ∧
  ((parsed ≤ count)%Z →
     ∃ n s', res = Ok (length (heap s), s') ∧ heap s' = heap s ++ [n] ∧
       Node.type n = AstTypes.Backreference ∧ Node.parent n = Some parent ∧
       Node.ref n = Some (RNum parsed) ∧
       hasNumberedGroupRef s' = true ∧
       capturingGroups s' = capturingGroups s ∧ current s' = current s).
Proof.
  intros Hraw Hdigits count parsed res. subst res. unfold parseBackreference.
  rewrite Hraw.
  assert (Hk : hasKWrapper (String "\" digits) = false).
  { destruct digits as [|c r]; [done|]. simpl in Hdigits.
    apply andb_true_iff in Hdigits as [Hc _].
    destruct c as [[|] [|] [|] [|] [|] [|] [|] [|]]; try discriminate Hc; reflexivity. }
  rewrite Hk. cbn [slice_1]. rewrite (toNumber_digits digits Hdigits).
  fold count parsed. split; [split|].
  - destruct (count <? parsed)%Z eqn:Hlt; [|discriminate]. intros _. by apply Z.ltb_lt.
  - intros Hlt. by rewrite (proj2 (Z.ltb_lt _ _) Hlt).
  - intros Hle. rewrite (proj2 (Z.ltb_ge _ _) Hle).
    eexists _, _. split; [reflexivity|]. by repeat split.
Qed.

(** X11, at a concrete input: [\2] after two capturing groups. *)
Lemma parseBackreference_plain_number_witness :
  ∃ n s',
    parseBackreference 7 (Tokens.plain TokenTypes.Backreference "\2")
      (set_capturingGroups [3; 5] initialState) = Ok (0, s') ∧
    heap s' = [n] ∧ Node.ref n = Some (RNum 2).
Proof.
  destruct (parseBackreference_plain_number 7
              (Tokens.plain TokenTypes.Backreference "\2")
              (set_capturingGroups [3; 5] initialState) "2" eq_refl eq_refl)
    as [_ Hok].
  destruct Hok as (n & s' & Hres & Hheap & _ & _ & Href & _).
  - vm_compute. discriminate.
  - by exists n, s'.
Defined.

(** X12.  A backreference [\k<name>] whose name is not a numbered
    reference, holds no sign and is the name of a group opened so far emits
    a [Backreference] to that name; the numbered-reference flag is left as
    it is. *)
Theorem parseBackreference_named_defined (parent : addr) (token : Token.t) (s : State)
    (groups : list addr) :
  hasKWrapper (Token.raw token) = true →
  let ref := slice_3_m1 (Token.raw token) in
  (∀ sign num, ¬ NumberedRef false ref sign num) → ¬ contains_sign ref →
  namedGroups s !! ref = Some groups →
  ∃ n s', parseBackreference parent token s = Ok (length (heap s), s') ∧
    heap s' = heap s ++ [n] ∧
    Node.type n = AstTypes.Backreference ∧ Node.parent n = Some parent ∧
    Node.ref n = Some (RName ref) ∧
    hasNumberedGroupRef s' = hasNumberedGroupRef s ∧
    namedGroups s' = namedGroups s.
Proof.
  intros Hk ref Hno Hsign Hgroups. unfold parseBackreference. rewrite Hk. fold ref.
  rewrite (exec_numberedRef_None _ _ Hno).
  destruct (has_sign_char ref) eqn:Hs.
  { exfalso. by apply Hsign, has_sign_char_spec. }
  rewrite Hgroups. rewrite bool_decide_eq_true_2 by (by eexists).
  eexists _, _. split; [reflexivity|]. by repeat split.
Qed.

(** X13.  A subroutine whose inner text is not a numbered reference refers
    to a group by that name: the [Subroutine] node carries the name, is
    recorded last among the subroutines to check, and the
    numbered-reference flag is left as it is. *)
Theorem parseSubroutine_named (parent : addr) (token : Token.t) (s : State) :
  let ref := slice_3_m1 (Token.raw token) in
  (∀ sign num, ¬ NumberedRef true ref sign num) →
  ∃ n s', parseSubroutine parent token s = (length (heap s), s') ∧
    heap s' = heap s ++ [n] ∧
    Node.type n = AstTypes.Subroutine ∧ Node.parent n = Some parent ∧
    Node.ref n = Some (RName ref) ∧
    subroutines s' = subroutines s ++ [length (heap s)] ∧
    hasNumberedGroupRef s' = hasNumberedGroupRef s ∧
    capturingGroups s' = capturingGroups s.
Proof.
  intros ref Hno. unfold parseSubroutine. fold ref.
  rewrite (exec_numberedRef_None _ _ Hno).
  eexists _, _. split; [reflexivity|]. by repeat split.
Qed.

Lemma not_numbered_n (plus : bool) (sign num : string) : ¬ NumberedRef plus "n" sign num.
Proof.
  intros H. apply exec_numberedRef_complete in H. destruct plus; vm_compute in H; discriminate.
Qed.

Lemma no_sign_n : ¬ contains_sign "n".
Proof. intros H. apply has_sign_char_spec in H. discriminate. Qed.

(** X12, at a concrete input: [\k<n>] when a group named [n] is open. *)
Lemma parseBackreference_named_defined_witness :
  ∃ n s',
    parseBackreference 7 (Tokens.plain TokenTypes.Backreference "\k<n>")
      (set_namedGroups {["n"%string := [4]]} initialState) = Ok (0, s') ∧
    heap s' = [n] ∧ Node.ref n = Some (RName "n").
Proof.
  destruct (parseBackreference_named_defined 7
              (Tokens.plain TokenTypes.Backreference "\k<n>")
              (set_namedGroups {["n"%string := [4]]} initialState) [4] eq_refl
              (not_numbered_n false) no_sign_n)
    as (n & s' & Hres & Hheap & _ & _ & Href & _).
  - vm_compute. reflexivity.
  - by exists n, s'.
Defined.

(** X13, at a concrete input: [\g<n>]. *)
Lemma parseSubroutine_named_witness :
  ∃ n s',
    parseSubroutine 7 (Tokens.plain TokenTypes.Subroutine "\g<n>") initialState = (0, s') ∧
    heap s' = [n] ∧ Node.ref n = Some (RName "n") ∧ subroutines s' = [0].
Proof.
  destruct (parseSubroutine_named 7 (Tokens.plain TokenTypes.Subroutine "\g<n>")
              initialState (not_numbered_n true))
    as (n & s' & Hres & Hheap & _ & _ & Href & Hsubs & _).
  by exists n, s'.
Defined.

(** X14.  Opening a capturing group records it before its contents are
    parsed: the node is appended to the capturing groups, and, when it has
    a non-empty name, to the groups of that name, the other names being
    left as they are; a group of another type changes nothing. *)
Theorem registerGroup_records (node : addr) (nn : Node.t) (s : State) :
  let s' := registerGroup node nn s in
  heap s' = heap s ∧ current s' = current s ∧ subroutines s' = subroutines s ∧
  (Node.type nn ≠ AstTypes.CapturingGroup → s' = s) ∧
  (Node.type nn = AstTypes.CapturingGroup →
     capturingGroups s' = capturingGroups s ++ [node] ∧
     (∀ nm, Node.name nn = Some nm → nm ≠ EmptyString →
        namedGroups s' !! nm = Some (default [] (namedGroups s !! nm) ++ [node]) ∧
        ∀ other, other ≠ nm → namedGroups s' !! other = namedGroups s !! other) ∧
     (Node.name nn = None ∨ Node.name nn = Some EmptyString →
        namedGroups s' = namedGroups s)).
Proof.
  unfold registerGroup. cbv zeta. case_bool_decide as Hty.
  2:{ split; [done|]. split; [done|]. split; [done|]. split; done. }
  destruct (Node.name nn) as [nm|] eqn:Hname.
  2:{ split; [done|]. split; [done|]. split; [done|]. split; [done|].
      intros _. split; [done|]. split; [done|]. done. }
  destruct (String.eqb_spec nm EmptyString) as [-> | Hne].
  { split; [done|]. split; [done|]. split; [done|]. split; [done|].
    intros _. split; [done|]. split; [|done].
    intros nm' [= <-] Hne'. done. }
  split; [done|]. split; [done|]. split; [done|]. split; [done|].
  intros _. split; [done|]. split.
  - intros nm' [= <-] _. unfold push. simpl. split.
    + case_bool_decide as Hsome.
      * destruct Hsome as [g Hg]. rewrite Hg. simpl.
        by rewrite lookup_alter_eq, Hg.
      * assert (namedGroups s !! nm = None) as Hnone.
        { destruct (namedGroups s !! nm) eqn:Hg; [|done].
          exfalso. apply Hsome. by eexists. }
        rewrite Hnone. simpl. by rewrite lookup_alter_eq, lookup_insert_eq.
    + intros other Hother.
      rewrite lookup_alter_ne by done.
      case_bool_decide; [done|]. by rewrite lookup_insert_ne.
  - intros [Hn | Hn]; [done|]. by injection Hn as ->.
Qed.

(** X15.  A class range is made only between ordered bounds: with both
    ends holding a value, [createCharacterClassRange] fails with
    [ClassRangeOutOfOrder] exactly when the value of the upper end is
    below that of the lower end; equal ends are accepted, and the range node
    holds the two ends as given. *)
Theorem createCharacterClassRange_order (parent : option addr) (min max : addr)
    (s : State) (nmin nmax : Node.t) (a b : Z) :
  heap s !! min = Some nmin → heap s !! max = Some nmax →
  Node.value nmin = Some a → Node.value nmax = Some b →
  let res := createCharacterClassRange parent min max s in
  (res = Throw ClassRangeOutOfOrder ↔ (b < a)%Z) ∧
  ((a ≤ b)%Z →
     ∃ n s', res = Ok (length (heap s), s') ∧ heap s' = heap s ++ [n] ∧
       Node.type n = AstTypes.CharacterClassRange ∧ Node.parent n = parent ∧
       Node.rangeMin n = Some min ∧ Node.rangeMax n = Some max).
Proof.
  intros Hmin Hmax Ha Hb res. subst res.
  unfold createCharacterClassRange, load. rewrite Hmin, Hmax. simpl.
  rewrite Ha, Hb. simpl. split; [split|].
  - destruct (b <? a)%Z eqn:Hlt; [|discriminate]. intros _. by apply Z.ltb_lt.
  - intros Hlt. by rewrite (proj2 (Z.ltb_lt _ _) Hlt).
  - intros Hle. rewrite (proj2 (Z.ltb_ge _ _) Hle).
    eexists _, _. split; [reflexivity|]. by repeat split.
Qed.

(** X15, at a concrete input: the range from [a] to [a]. *)
Lemma createCharacterClassRange_order_witness :
  ∃ n s',
    createCharacterClassRange (Some 6) 7 7 state_after_single_class = Ok (8, s') ∧
    heap s' = heap state_after_single_class ++ [n] ∧
    Node.rangeMin n = Some 7 ∧ Node.rangeMax n = Some 7.
Proof.
  destruct (createCharacterClassRange_order (Some 6) 7 7 state_after_single_class
              _ _ 97 97 eq_refl eq_refl eq_refl eq_refl) as [_ Hok].
  destruct Hok as (n & s' & Hres & Hheap & _ & _ & Hmin & Hmax); [lia|].
  by exists n, s'.
Defined.

(** X14, at a concrete input: a second capturing group named [n]. *)
Lemma registerGroup_records_witness :
  let nn := Node.set_name (Some "n"%string) (getNodeBase (Some 2) AstTypes.CapturingGroup) in
  let s := set_capturingGroups [4] (set_namedGroups {["n"%string := [4]]} initialState) in
  capturingGroups (registerGroup 9 nn s) = [4; 9] ∧
  namedGroups (registerGroup 9 nn s) !! "n"%string = Some [4; 9].
Proof.
  intros nn s.
  destruct (registerGroup_records 9 nn s) as (_ & _ & _ & _ & Hcap).
  destruct (Hcap eq_refl) as (Hgroups & Hnamed & _).
  split; [exact Hgroups|].
  destruct (Hnamed "n"%string eq_refl) as [Hn _]; [discriminate|].
  exact Hn.
Defined.

Section StrayClose.

Variable isValidJsGroupName : string → bool.
Variable normalize : string → string.
Variable PosixProperties_has : string → bool.
Variable JsUnicodePropertiesMap_get : string → option string.
Variable reformatScriptName : string → string.

(** X9.  A token list that starts with a closing token (of a group or of a
    class) or with a class intersector is rejected with [UnexpectedToken],
    whatever follows. *)
Theorem parse_stray_close (token : Token.t) (rest : list Token.t) (optimize : bool)
    (flags : FlagValues) :
  Token.type token = TokenTypes.GroupClose ∨
  Token.type token = TokenTypes.CharacterClassClose ∨
  Token.type token = TokenTypes.CharacterClassIntersector →
  parse isValidJsGroupName normalize PosixProperties_has JsUnicodePropertiesMap_get
    reformatScriptName (token :: rest) optimize flags = Throw UnexpectedToken.
Proof.
  intros Hty. unfold parse, walkTokens. rewrite createRegExp_initial.
  unfold parse_fuel. cbn [length]. simpl.
  by destruct Hty as [-> | [-> | ->]].
Qed.

End StrayClose.

(** X9, at a concrete input: a lone closing parenthesis. *)
Lemma parse_stray_close_witness :
  parse_plain [Tokens.groupClose] true noFlags = Throw UnexpectedToken.
Proof.
  apply (parse_stray_close (λ _, true) (λ p, p) (λ _, false) (λ _, None) (λ p, p)
           Tokens.groupClose [] true noFlags).
  by left.
Defined.

Section CharacterSets.

Variable normalize : string → string.
Variable PosixProperties_has : string → bool.
Variable JsUnicodePropertiesMap_get : string → option string.
Variable reformatScriptName : string → string.

(** X17.  A character-set token of kind [property] never fails.  When the
    normalized property name is a POSIX class the set becomes a [posix]
    set that carries the normalized name; otherwise it stays a [property]
    set whose name is the JavaScript name found for the normalized name,
    or else (no name found, or an empty one) the reformatted script name.
    The token's [negate] is kept either way. *)
Theorem createCharacterSetFromToken_property (parent : option addr) (token : Token.t)
    (s : State) :
  Token.kind token = TokenCharacterSetKinds.property →
  let normalized := normalize (Token.property token) in
  ∃ n,
    createCharacterSetFromToken normalize PosixProperties_has JsUnicodePropertiesMap_get
      reformatScriptName parent token s
    = Ok (length (heap s), set_heap (heap s ++ [n]) s) ∧
    Node.type n = AstTypes.CharacterSet ∧ Node.parent n = parent ∧
    Node.negate n = Token.negate token ∧
    (PosixProperties_has normalized = true →
       Node.kind n = Some TokenCharacterSetKinds.posix ∧
       Node.property n = Some normalized) ∧
    (PosixProperties_has normalized = false →
       Node.kind n = Some TokenCharacterSetKinds.property ∧
       Node.property n =
         Some (match JsUnicodePropertiesMap_get normalized with
               | Some jsName =>
                   if (jsName =? EmptyString)%string
                   then reformatScriptName (Token.property token) else jsName
               | None => reformatScriptName (Token.property token)
               end)).
Proof.
  intros Hkind normalized. unfold createCharacterSetFromToken. cbv zeta.
  rewrite Hkind. fold normalized.
  destruct (PosixProperties_has normalized) eqn:Hposix.
  - eexists. split; [reflexivity|]. repeat split; try done.
  - eexists. split; [reflexivity|]. repeat split; try done.
Qed.

End CharacterSets.

(** X17, at a concrete input: a property that is a POSIX class. *)
Lemma createCharacterSetFromToken_property_witness :
  let token :=
    Token.mk TokenTypes.CharacterSet "\p{alpha}" 0%Z TokenCharacterSetKinds.property
      (Some true) (Fin 0) (Fin 0) false false 0%Z None "alpha" None in
  ∃ n s',
    createCharacterSetFromToken (λ p, p) (λ _, true) (λ _, None) (λ p, p)
      (Some 2) token initialState = Ok (0, s') ∧
    heap s' = [n] ∧ Node.kind n = Some TokenCharacterSetKinds.posix ∧
    Node.property n = Some "alpha"%string ∧ Node.negate n = Some true.
Proof.
  intros token.
  destruct (createCharacterSetFromToken_property (λ p, p) (λ _, true) (λ _, None) (λ p, p)
              (Some 2) token initialState eq_refl)
    as (n & Hres & _ & _ & Hneg & Hposix & _).
  destruct (Hposix eq_refl) as [Hk Hp].
  exists n, (set_heap (heap initialState ++ [n]) initialState).
  by repeat split.
Defined.
(** * The capturing groups the parser registers *)

Lemma count_captures_app (l k : list Token.t) :
  count_captures (l ++ k) = count_captures l + count_captures k.
Proof. induction l as [|t l IH]; simpl; [done|]. rewrite IH. lia. Qed.

Lemma captures_upto_S (tokens : list Token.t) (i : nat) (tok : Token.t) :
  tokens !! i = Some tok →
  captures_upto tokens (S i)
  = captures_upto tokens i + (if opens_capture tok then 1 else 0).
Proof.
  intros Htok. unfold captures_upto.
  rewrite (take_S_r _ _ _ Htok), count_captures_app. simpl. lia.
Qed.

Lemma captures_upto_other (tokens : list Token.t) (i : nat) (tok : Token.t) :
  tokens !! i = Some tok → Token.type tok ≠ TokenTypes.GroupOpen →
  captures_upto tokens (S i) = captures_upto tokens i.
Proof.
  intros Htok Hty. rewrite (captures_upto_S _ _ _ Htok). unfold opens_capture.
  rewrite bool_decide_eq_false_2 by done. simpl. lia.
Qed.

Lemma createGroup_shape (parent : option addr) (atomic : option bool)
    (flags : option FlagMods) (s : State) :
  ∃ n0, Node.type n0 = AstTypes.Group ∧
        createGroup parent atomic flags s
        = (length (heap s),
           withInitialAlternative (length (heap s)) (set_heap (heap s ++ [n0]) s)).
Proof.
  unfold createGroup, alloc. cbv zeta.
  destruct (truthy atomic); [|destruct (defined flags)];
    (eexists; split; [|reflexivity]; reflexivity).
Qed.

Lemma createByGroupKind_captures isValidJsGroupName (parent : option addr)
    (token : Token.t) (s s1 : State) (node : addr) :
  Token.type token = TokenTypes.GroupOpen →
  createByGroupKind isValidJsGroupName parent token s = Ok (node, s1) →
  capturingGroups s1 = capturingGroups s ∧
  ∃ nn, heap s1 !! node = Some nn ∧
        bool_decide (Node.type nn = AstTypes.CapturingGroup) = opens_capture token.
Proof.
  intros Hty. unfold opens_capture. rewrite bool_decide_eq_true_2 by done.
  cbn [andb].
  assert (Hinit : ∀ n0, 
            capturingGroups (withInitialAlternative (length (heap s))
                               (set_heap (heap s ++ [n0]) s)) = capturingGroups s ∧
            heap (withInitialAlternative (length (heap s)) (set_heap (heap s ++ [n0]) s))
              !! length (heap s)
            = Some (Node.set_alternatives [S (length (heap s))] n0)).
  { intros n0. split; [done|].
    destruct (withInitialAlternative_heap (set_heap (heap s ++ [n0]) s) (heap s) n0 eq_refl)
      as [-> _].
    rewrite lookup_app_r by lia. by rewrite Nat.sub_diag. }
  unfold createByGroupKind. cbv zeta.
  destruct (String.eqb_spec (Token.kind token) TokenGroupKinds.atomic) as [Hk | _].
  { rewrite Hk. destruct (createGroup_shape parent (Some true) None s) as (n0 & Hn0 & ->).
    intros [= <- <-]. destruct (Hinit n0) as [Hc Hl].
    split; [exact Hc|]. eexists. split; [exact Hl|].
    simpl. rewrite Hn0. done. }
  destruct (String.eqb_spec (Token.kind token) TokenGroupKinds.capturing) as [Hk | _].
  { unfold createCapturingGroup, alloc.
    destruct (Token.name token) as [nm|].
    - destruct (isValidJsGroupName nm); [|done]. intros [= <- <-].
      destruct (Hinit (Node.set_name (Some nm)
                         (Node.set_number (Some (Token.number token))
                            (getNodeBase parent AstTypes.CapturingGroup)))) as [Hc Hl].
      split; [exact Hc|]. eexists. split; [exact Hl|]. done.
    - intros [= <- <-].
      destruct (Hinit (Node.set_number (Some (Token.number token))
                         (getNodeBase parent AstTypes.CapturingGroup))) as [Hc Hl].
      split; [exact Hc|]. eexists. split; [exact Hl|]. done. }
  destruct (_ =? TokenGroupKinds.group)%string.
  { destruct (createGroup_shape parent None (Token.flags token) s) as (n0 & Hn0 & ->).
    intros [= <- <-]. destruct (Hinit n0) as [Hc Hl].
    split; [exact Hc|]. eexists. split; [exact Hl|].
    simpl. rewrite Hn0. done. }
  destruct (_ || _); [|done].
  unfold createAssertionFromToken, alloc.
  destruct (decide (Token.type token = TokenTypes.GroupOpen)); [|done].
  intros [= <- <-].
  match goal with |- context [set_heap (heap s ++ [?n0]) s] =>
    destruct (Hinit n0) as [Hc Hl] end.
  split; [exact Hc|]. eexists. split; [exact Hl|]. done.
Qed.

(** The parsers of single tokens leave the capturing groups as they are. *)
Lemma createAssertionFromToken_captures (parent : option addr) (token : Token.t)
    (s s' : State) (r : addr) :
  createAssertionFromToken parent token s = Ok (r, s') →
  capturingGroups s' = capturingGroups s.
Proof.
  unfold createAssertionFromToken, alloc.
  destruct (decide _). { by intros [= <- <-]. }
  destruct (assertionKind _); [|done]. by intros [= <- <-].
Qed.

Lemma parseBackreference_captures (p : addr) (token : Token.t) (s s' : State) (r : addr) :
  parseBackreference p token s = Ok (r, s') → capturingGroups s' = capturingGroups s.
Proof.
  unfold parseBackreference. cbv zeta.
  destruct (hasKWrapper _).
  - destruct (exec_numberedRef _ _) as [[sign num]|].
    + destruct (toNumber num); [destruct (_ <? _)%Z; [done|]|]; by intros [= <- <-].
    + destruct (has_sign_char _); [done|]. case_bool_decide; [|done]. by intros [= <- <-].
  - destruct (toNumber _); [destruct (_ <? _)%Z; [done|]|]; by intros [= <- <-].
Qed.

Lemma createCharacterSetFromToken_captures normalize PosixProperties_has
    JsUnicodePropertiesMap_get reformatScriptName
    (parent : option addr) (token : Token.t) (s s' : State) (r : addr) :
  createCharacterSetFromToken normalize PosixProperties_has JsUnicodePropertiesMap_get
    reformatScriptName parent token s = Ok (r, s') →
  capturingGroups s' = capturingGroups s.
Proof.
  unfold createCharacterSetFromToken. cbv zeta.
  destruct (in_table _ TokenCharacterSetKinds.all); [|done]. by intros [= <- <-].
Qed.

Lemma createDirectiveFromToken_captures (parent : option addr) (token : Token.t)
    (s s' : State) (r : addr) :
  createDirectiveFromToken parent token s = Ok (r, s') →
  capturingGroups s' = capturingGroups s.
Proof.
  unfold createDirectiveFromToken. cbv zeta.
  destruct (in_table _ _); [|done]. by intros [= <- <-].
Qed.

Lemma createVariableLengthCharacterSet_captures (parent : option addr) (kind : string)
    (s s' : State) (r : addr) :
  createVariableLengthCharacterSet parent kind s = Ok (r, s') →
  capturingGroups s' = capturingGroups s.
Proof.
  unfold createVariableLengthCharacterSet. cbv zeta.
  destruct (_ =? _)%string. { by intros [= <- <-]. }
  destruct (_ =? _)%string; [|done]. by intros [= <- <-].
Qed.

Lemma parseQuantifier_captures (p : addr) (token : Token.t) (s s' : State) (r : addr) :
  parseQuantifier p token s = Ok (r, s') → capturingGroups s' = capturingGroups s.
Proof.
  unfold parseQuantifier, load.
  destruct (heap s !! p) as [np|]; [|done]. simpl.
  destruct (bool_decide _); [done|].
  unfold createQuantifier. destruct (Num_ltb _ _); [done|]. unfold alloc. cbv zeta.
  assert (Hfin : ∀ (node : addr) (s0 : State), capturingGroups s0 = capturingGroups s →
    (Ok (node, s0) : Result (addr * State)) ≫= (λ '(node, s0),
       match heap s0 !! node with Some n => Ok n | None => Throw TypeError end
       ≫= λ nn, match Node.element nn with
                | Some el =>
                    Ok (node, update p pop_elements (update el (Node.set_parent (Some node)) s0))
                | None => Throw TypeError
                end) = Ok (r, s') →
    capturingGroups s' = capturingGroups s).
  { intros node s0 Hs0. simpl. destruct (heap s0 !! node) as [nn|]; [|done]. simpl.
    destruct (Node.element nn); [|done]. by intros [= <- <-]. }
  destruct (decide (Token.min token = Token.max token)); [by apply Hfin|].
  destruct (isWithin _ _ _ _ _) as [[]| e |]; simpl; [done | | done | done].
  intros H. exact (Hfin (length (heap s)) (set_heap (heap s ++ [_]) s) eq_refl H).
Qed.

Lemma getOptimizedGroup_captures (node : addr) (s s' : State) (r : addr) :
  getOptimizedGroup node s = Ok (r, s') → capturingGroups s' = capturingGroups s.
Proof.
  unfold getOptimizedGroup, load.
  destruct (heap s !! node) as [n|]; [|done]. simpl.
  destruct (head _) as [alt|]; [|done].
  destruct (heap s !! alt) as [nalt|]; [|done]. simpl.
  destruct (head _) as [el|]. 2:{ by intros [= <- <-]. }
  destruct (heap s !! el) as [nel|]; [|done]. simpl.
  destruct (_ && _). 2:{ by intros [= <- <-]. }
  destruct (truthy _); [|destruct (defined _)]; by intros [= <- <-].
Qed.

Lemma optimizeClassAt_captures (i : addr) (k : nat) (s : State) :
  capturingGroups (optimizeClassAt i k s) = capturingGroups s.
Proof.
  unfold optimizeClassAt.
  destruct (heap s !! i ≫= _) as [cc|]; [|done].
  destruct (heap s !! cc) as [ncc|]; [|done].
  destruct (Node.elements ncc) as [|fc [|]]; [done| |done].
  destruct (heap s !! fc) as [nfc|]; [|done].
  by case_bool_decide.
Qed.

Lemma optimizeCharacterClassIntersection_captures (i : addr) (s : State) :
  capturingGroups (optimizeCharacterClassIntersection i s) = capturingGroups s.
Proof.
  unfold optimizeCharacterClassIntersection.
  generalize (default 0 (length ∘ Node.classes <$> heap s !! i)). intros m.
  generalize 0 as k. revert s.
  induction m as [|m IH]; intros s k; simpl; [done|].
  by rewrite IH, optimizeClassAt_captures.
Qed.

Lemma registerGroup_captures (node : addr) (nn : Node.t) (s : State) :
  length (capturingGroups (registerGroup node nn s))
  = length (capturingGroups s)
    + (if bool_decide (Node.type nn = AstTypes.CapturingGroup) then 1 else 0).
Proof.
  unfold registerGroup. case_bool_decide; [|lia].
  assert (Hpush : length (push node (capturingGroups s)) = length (capturingGroups s) + 1).
  { unfold push. by rewrite length_app. }
  destruct (Node.name nn) as [nm|]; [|exact Hpush].
  destruct (nm =? EmptyString)%string; exact Hpush.
Qed.

Section Captures.

Variable tokens : list Token.t.
Variable w : Walk.
Hypothesis w_advances : walker_advances tokens w.
Hypothesis w_counts : walker_counts tokens w.

Local Abbreviation balance s s' :=
  (length (capturingGroups s') + captures_upto tokens (current s)
   = length (capturingGroups s) + captures_upto tokens (current s')).

Lemma groupLoop_captures (n : nat) (node : addr) (s s' : State) :
  groupLoop tokens w n node s = Ok s' → balance s s'.
Proof.
  revert s. induction n as [|n IH]; intros s; simpl; [done|].
  destruct (tokens !! current s) as [tk|] eqn:Htk; [|done].
  case_bool_decide as Hclose. { by intros [= <-]. }
  case_bool_decide as Halt.
  - intros Hloop. apply IH in Hloop. simpl in Hloop.
    rewrite (captures_upto_other _ _ _ Htk) in Hloop by (by rewrite Halt). exact Hloop.
  - unfold load. destruct (heap s !! node) as [nn|]; [|done]. simpl.
    destruct (at_last _) as [alt|]; [|done].
    destruct (w alt s) as [[r s1]| |] eqn:Hw; [|done|done]. simpl.
    intros Hloop. apply IH in Hloop. simpl in Hloop.
    apply w_counts in Hw. lia.
Qed.

Lemma classLoop_captures (n : nat) (node : addr) (s s' : State) :
  classLoop tokens w n node s = Ok s' → balance s s'.
Proof.
  revert s. induction n as [|n IH]; intros s; simpl; [done|].
  destruct (tokens !! current s) as [tk|] eqn:Htk; [|done].
  case_bool_decide as Hclose. { by intros [= <-]. }
  case_bool_decide as Hint.
  - intros Hloop. apply IH in Hloop. simpl in Hloop.
    rewrite (captures_upto_other _ _ _ Htk) in Hloop by (by rewrite Hint). exact Hloop.
  - unfold load. destruct (heap s !! node) as [nn|]; [|done]. simpl.
    destruct (at_last _) as [cc|]; [|done].
    destruct (w cc s) as [[r s1]| |] eqn:Hw; [|done|done]. simpl.
    intros Hloop. apply IH in Hloop. simpl in Hloop.
    apply w_counts in Hw. lia.
Qed.

(** A group: the token that opened it counts when it is a capturing one. *)
Lemma parseGroupOpen_captures isValidJsGroupName (optimize : bool) (fuel : nat)
    (p : addr) (token : Token.t) (s : State) (r : addr) (s' : State) :
  Token.type token = TokenTypes.GroupOpen →
  parseGroupOpen isValidJsGroupName tokens optimize w fuel p token s = Ok (r, s') →
  length (capturingGroups s') + captures_upto tokens (current s)
  = length (capturingGroups s) + (if opens_capture token then 1 else 0)
    + captures_upto tokens (current s').
Proof.
  intros Hty. unfold parseGroupOpen.
  destruct (createByGroupKind _ _ _ _) as [[node s1]| |] eqn:Hcreate; [|done|done].
  pose proof (createByGroupKind_current _ _ _ _ _ _ Hcreate) as Hcur1.
  apply (createByGroupKind_captures _ _ _ _ _ _ Hty) in Hcreate as (Hcap1 & nn & Hnn & Hopen).
  simpl. unfold load. rewrite Hnn. simpl.
  destruct (registerGroup_heap node nn s1) as [_ Hrc].
  pose proof (registerGroup_captures node nn s1) as Hreg. rewrite Hopen in Hreg.
  destruct (groupLoop _ _ _ _ _) as [s2| |] eqn:Hloop; [|done|done]. simpl.
  pose proof (groupLoop_cursor tokens w w_advances _ _ _ _ Hloop) as (_ & tok & Htok & Htokty).
  apply groupLoop_captures in Hloop. rewrite Hrc, Hcur1 in Hloop.
  assert (Hend : ∀ s3, current s3 = current s2 → capturingGroups s3 = capturingGroups s2 →
            length (capturingGroups (advance s3)) + captures_upto tokens (current s)
            = length (capturingGroups s) + (if opens_capture token then 1 else 0)
              + captures_upto tokens (current (advance s3))).
  { intros s3 Hc3 Hg3. simpl. rewrite Hc3, Hg3.
    rewrite (captures_upto_other _ _ _ Htok) by (by rewrite Htokty).
    rewrite Hcap1 in Hreg. lia. }
  destruct optimize.
  - destruct (getOptimizedGroup node s2) as [[r' s3]| |] eqn:Hopt; [|done|done]. simpl.
    intros [= <- <-]. apply Hend.
    + pose proof (getOptimizedGroup_outcome node s2) as Hout. rewrite Hopt in Hout.
      simpl in Hout.
      destruct Hout as [[_ ->] | (n & alt & nalt & el & nel & g & _ & _ & _ & _ & _ & _ & _ & Hc & _)];
        done.
    + by eapply getOptimizedGroup_captures.
  - simpl. intros [= <- <-]. by apply Hend.
Qed.

Lemma parseCharacterClassOpen_captures (optimize : bool) (fuel : nat)
    (p : addr) (negate : option bool) (s : State) (r : addr) (s' : State) :
  parseCharacterClassOpen tokens optimize w fuel p negate s = Ok (r, s') →
  balance s s'.
Proof.
  unfold parseCharacterClassOpen.
  destruct (createCharacterClass_heap s p negate) as (_ & _ & Hcur1).
  assert (Hcap1 : capturingGroups (createCharacterClass (Some p) negate s).2
                  = capturingGroups s) by done.
  destruct (createCharacterClass (Some p) negate s) as [node s1]. simpl in Hcur1, Hcap1.
  unfold load. destruct (heap s1 !! node) as [nn|]; [|done]. simpl.
  destruct (head _) as [i|]; [|done].
  destruct (classLoop _ _ _ _ _) as [s2| |] eqn:Hloop; [|done|done]. simpl.
  pose proof (classLoop_cursor tokens w w_advances _ _ _ _ Hloop) as (_ & tok & Htok & Htokty).
  apply classLoop_captures in Hloop. rewrite Hcur1, Hcap1 in Hloop.
  set (s3 := if optimize then optimizeCharacterClassIntersection i s2 else s2).
  assert (Hs3 : current s3 = current s2 ∧ capturingGroups s3 = capturingGroups s2).
  { unfold s3. destruct optimize; [|done]. split.
    - apply optimizeCharacterClassIntersection_current.
    - apply optimizeCharacterClassIntersection_captures. }
  destruct Hs3 as [Hc3 Hg3].
  assert (Hend : ∀ s4, current s4 = current s3 → capturingGroups s4 = capturingGroups s3 →
            balance s (advance s4)).
  { intros s4 Hc4 Hg4. simpl. rewrite Hc4, Hg4, Hc3, Hg3.
    rewrite (captures_upto_other _ _ _ Htok) by (by rewrite Htokty). lia. }
  destruct (heap s3 !! i) as [ni|]; [|done]. simpl.
  destruct (Node.classes ni) as [|cc [|]].
  - intros [= <- <-]. by apply Hend.
  - destruct (heap s3 !! cc) as [ncc|]; [|done]. simpl.
    destruct (heap s3 !! node) as [nn'|]; [|done]. simpl.
    intros [= <- <-]. by apply Hend.
  - intros [= <- <-]. by apply Hend.
Qed.

Lemma parseCharacterClassHyphen_captures (p : addr) (next : option Token.t)
    (s : State) (r : addr) (s' : State) :
  parseCharacterClassHyphen w p next s = Ok (r, s') → balance s s'.
Proof.
  unfold parseCharacterClassHyphen, load.
  destruct (heap s !! p) as [np|]; [|done]. simpl.
  destruct (at_last _) as [prev|]; simpl.
  2:{ by intros [= <- <-]. }
  destruct next as [next|].
  2:{ by intros [= <- <-]. }
  destruct (heap s !! prev) as [nprev|]; [|done]. simpl.
  destruct (_ && _).
  2:{ by intros [= <- <-]. }
  destruct (w p s) as [[r1 s1]| |] eqn:Hw; [|done|done]. simpl.
  destruct (heap s1 !! prev) as [nprev'|]; [|done]. simpl.
  destruct (heap s1 !! r1) as [n1|]; [|done]. simpl.
  destruct (_ && _); [|done].
  destruct (createCharacterClassRange _ _ _ _) as [[r2 s2]| |] eqn:Hr; [|done|done].
  simpl. intros [= <- <-]. simpl.
  apply w_counts in Hw.
  assert (capturingGroups s2 = capturingGroups s1 ∧ current s2 = current s1) as [Hg Hc].
  { revert Hr. unfold createCharacterClassRange, load. simpl.
    destruct (_ !! prev) as [a|]; [|done]. simpl.
    destruct (_ !! r1) as [b|]; [|done]. simpl.
    destruct (value_ltb _ _); [done|]. by intros [= <- <-]. }
  rewrite Hg, Hc. exact Hw.
Qed.

End Captures.

Section WalkCaptures.

Variable isValidJsGroupName : string → bool.
Variable normalize : string → string.
Variable PosixProperties_has : string → bool.
Variable JsUnicodePropertiesMap_get : string → option string.
Variable reformatScriptName : string → string.
Variable tokens : list Token.t.
Variable optimize : bool.

Local Abbreviation walk' :=
  (walk isValidJsGroupName normalize PosixProperties_has JsUnicodePropertiesMap_get
     reformatScriptName tokens optimize).

Lemma walk_counts (fuel : nat) : walker_counts tokens (walk' fuel).
Proof.
  induction fuel as [|fuel IH]; intros p s r s'; simpl; [done|].
  destruct (tokens !! current s) as [token|] eqn:Htok; [|done].
  pose proof (walk_advances isValidJsGroupName normalize PosixProperties_has
                JsUnicodePropertiesMap_get reformatScriptName tokens optimize fuel) as Hadv.
  assert (Hleaf : ∀ s', Token.type token ≠ TokenTypes.GroupOpen →
            current s' = current (advance s) →
            capturingGroups s' = capturingGroups (advance s) →
            length (capturingGroups s') + captures_upto tokens (current s)
            = length (capturingGroups s) + captures_upto tokens (current s')).
  { intros s0 Hne Hc Hg. rewrite Hc, Hg. simpl.
    by rewrite (captures_upto_other _ _ _ Htok). }
  assert (Hnest : ∀ s', Token.type token ≠ TokenTypes.GroupOpen →
            length (capturingGroups s') + captures_upto tokens (current (advance s))
            = length (capturingGroups (advance s)) + captures_upto tokens (current s') →
            length (capturingGroups s') + captures_upto tokens (current s)
            = length (capturingGroups s) + captures_upto tokens (current s')).
  { intros s0 Hne Hb. simpl in Hb.
    rewrite (captures_upto_other _ _ _ Htok) in Hb by done. exact Hb. }
  destruct (Token.type token) eqn:Hty; try done.
  - unfold load. destruct (heap (advance s) !! p) as [np|]; [|done]. simpl.
    intros [= <- <-]. by apply Hleaf.
  - intros Hres. apply Hleaf; [done | |].
    + eapply allocs_leaf_current, createAssertionFromToken_leaf; [|exact Hres].
      by rewrite Hty.
    + by eapply createAssertionFromToken_captures.
  - intros Hres. apply Hleaf; [done | |].
    + by eapply allocs_leaf_current, parseBackreference_leaf.
    + by eapply parseBackreference_captures.
  - intros [= <- <-]. by apply Hleaf.
  - intros Hres. apply Hnest; [done|].
    by eapply (parseCharacterClassHyphen_captures tokens (walk' fuel) IH).
  - intros Hres. apply Hnest; [done|].
    by eapply (parseCharacterClassOpen_captures tokens (walk' fuel) Hadv IH).
  - intros Hres. apply Hleaf; [done | |].
    + by eapply allocs_leaf_current, createCharacterSetFromToken_leaf.
    + by eapply createCharacterSetFromToken_captures.
  - intros Hres. apply Hleaf; [done | |].
    + by eapply allocs_leaf_current, createDirectiveFromToken_leaf.
    + by eapply createDirectiveFromToken_captures.
  - intros Hres.
    apply (parseGroupOpen_captures tokens (walk' fuel) Hadv IH) in Hres; [|done].
    simpl in Hres. rewrite (captures_upto_S _ _ _ Htok) in Hres. lia.
  - intros Hres. apply Hleaf; [done | |].
    + destruct (heap (advance s) !! p) as [np|] eqn:Hp.
      * by destruct (parseQuantifier_Ok p token (advance s) s' r np Hp Hres)
          as (rest & e & q0 & _ & _ & _ & _ & _ & Hcur & _).
      * unfold parseQuantifier, load in Hres. by rewrite Hp in Hres.
    + by eapply parseQuantifier_captures.
  - intros Hres.
    assert (s' = (parseSubroutine p token (advance s)).2) as ->.
    { injection Hres as Hres. by rewrite Hres. }
    apply Hleaf; [done | |].
    + apply (allocs_leaf_current _ p _ _ (parseSubroutine_leaf p token (advance s))).
    + unfold parseSubroutine. cbv zeta.
      destruct (exec_numberedRef _ _) as [[sign num]|]; [|done].
      by destruct (toNumber num).
  - intros Hres. apply Hleaf; [done | |].
    + by eapply allocs_leaf_current, createVariableLengthCharacterSet_leaf.
    + by eapply createVariableLengthCharacterSet_captures.
Qed.

Lemma parseLoop_captures (w : Walk) (n : nat) (ast top : addr) (s s' : State) :
  walker_counts tokens w →
  parseLoop tokens w n ast top s = Ok s' →
  length (capturingGroups s') + captures_upto tokens (current s)
  = length (capturingGroups s) + captures_upto tokens (current s').
Proof.
  intros Hw. revert top s. induction n as [|n IH]; intros top s; simpl; [done|].
  destruct (current s <? length tokens).
  - destruct (w top s) as [[node s1]| |] eqn:Hwalk; [|done|done]. simpl.
    apply Hw in Hwalk.
    unfold load. destruct (heap s1 !! node) as [nn|]; [|done]. simpl.
    case_bool_decide.
    + destruct (heap s1 !! ast) as [nast|]; [|done]. simpl.
      destruct (Node.pattern nast) as [pat|]; [|done].
      intros Hloop. apply IH in Hloop. simpl in Hloop. lia.
    + intros Hloop. apply IH in Hloop. simpl in Hloop. lia.
  - by intros [= <-].
Qed.

(** X16.  When [parse] returns, it has registered exactly one capturing
    group for every token that opens one, however the groups are nested
    and whatever the optimizer dropped: the count that numbered references
    are checked against is the number of capturing groups of the pattern. *)
Theorem parse_counts_captures (flags : FlagValues) (root : addr) (s : State) :
  parse isValidJsGroupName normalize PosixProperties_has JsUnicodePropertiesMap_get
    reformatScriptName tokens optimize flags = Ok (root, s) →
  length (capturingGroups s) = count_captures tokens.
Proof.
  unfold parse.
  destruct (walkTokens _ _ _ _ _ _ _ _) as [[ast s1]| |] eqn:Hwalk; [|done|done]. simpl.
  destruct (postPass s1) as [[]| |]; [|done|done]. simpl.
  intros [= <- <-].
  unfold walkTokens in Hwalk. rewrite createRegExp_initial in Hwalk.
  cbn -[parseLoop walk parse_fuel] in Hwalk.
  destruct (parseLoop _ _ _ _ _ _) as [s2| |] eqn:Hloop; [|done|done].
  injection Hwalk as <- <-.
  assert (Hcur : current s2 = length tokens).
  { eapply parseLoop_cursor; [|exact Hloop|simpl; lia]. apply walk_advances. }
  apply parseLoop_captures in Hloop; [|apply walk_counts].
  simpl in Hloop. rewrite Hcur in Hloop.
  unfold captures_upto in Hloop. rewrite take_0, firstn_all in Hloop. simpl in Hloop. lia.
Qed.

End WalkCaptures.

(** X16, at a concrete input: one capturing group in [(a)\g<-1>]. *)
Lemma parse_counts_captures_witness :
  length (capturingGroups state_after_parse_capture) = 1.
Proof.
  exact (parse_counts_captures _ _ _ _ _ _ _ _ 0 state_after_parse_capture
           parse_capture_Ok).
Defined.

(** * The references and names the walk has read *)

Lemma read_between_empty (tokens : list Token.t) (P : Token.t → Prop) (a b : nat) :
  b ≤ a → ¬ read_between tokens P a b.
Proof. intros Hle (i & tok & Hi & _). lia. Qed.

Lemma read_between_split (tokens : list Token.t) (P : Token.t → Prop) (a b c : nat) :
  a ≤ b → b ≤ c →
  read_between tokens P a c ↔ read_between tokens P a b ∨ read_between tokens P b c.
Proof.
  intros Hab Hbc. split.
  - intros (i & tok & Hi & Htok & HP). destruct (decide (i < b)).
    + left. exists i, tok. split; [lia | done].
    + right. exists i, tok. split; [lia | done].
  - intros [(i & tok & Hi & Htok & HP) | (i & tok & Hi & Htok & HP)];
      exists i, tok; (split; [lia | done]).
Qed.

Lemma read_between_one (tokens : list Token.t) (P : Token.t → Prop) (a : nat)
    (tok : Token.t) :
  tokens !! a = Some tok → read_between tokens P a (S a) ↔ P tok.
Proof.
  intros Htok. split.
  - intros (i & tok' & Hi & Htok' & HP). assert (i = a) as -> by lia. congruence.
  - intros HP. exists a, tok. split; [lia | done].
Qed.

Lemma read_between_all (tokens : list Token.t) (P : Token.t → Prop) :
  read_between tokens P 0 (length tokens) ↔ Exists P tokens.
Proof.
  rewrite Exists_exists. split.
  - intros (i & tok & _ & Htok & HP). exists tok. split; [|done].
    by eapply list_elem_of_lookup_2.
  - intros (tok & Hin & HP). apply list_elem_of_lookup in Hin as [i Hi].
    exists i, tok. split; [|done]. apply lookup_lt_Some in Hi. lia.
Qed.

Lemma same_refs_refl (s : State) : same_refs s s.
Proof. done. Qed.

Lemma same_refs_trans (s1 s2 s3 : State) :
  same_refs s1 s2 → same_refs s2 s3 → same_refs s1 s3.
Proof. intros [H1 H2] [H3 H4]. split; congruence. Qed.

Lemma census_same (tokens : list Token.t) (s s' : State) :
  current s' = current s → same_refs s s' → census tokens s s'.
Proof.
  intros Hc [Hf Hn]. split; [lia|]. rewrite Hc, Hf, Hn.
  pose proof (read_between_empty tokens numbered_reference (current s) (current s)
                (le_n _)).
  pose proof (read_between_empty tokens named_capture (current s) (current s) (le_n _)).
  split; tauto.
Qed.

Lemma census_trans (tokens : list Token.t) (s1 s2 s3 : State) :
  census tokens s1 s2 → census tokens s2 s3 → census tokens s1 s3.
Proof.
  intros (H12 & Hf12 & Hn12) (H23 & Hf23 & Hn23). split; [lia|].
  rewrite (read_between_split tokens numbered_reference _ _ _ H12 H23).
  rewrite (read_between_split tokens named_capture _ _ _ H12 H23).
  split; [clear Hn12 Hn23 | clear Hf12 Hf23]; tauto.
Qed.

(** Passing one token that is neither a reference nor a group. *)
Lemma census_step (tokens : list Token.t) (s s' : State) (tok : Token.t) :
  tokens !! current s = Some tok →
  Token.type tok ≠ TokenTypes.Backreference → Token.type tok ≠ TokenTypes.Subroutine →
  Token.type tok ≠ TokenTypes.GroupOpen →
  current s' = S (current s) → same_refs s s' → census tokens s s'.
Proof.
  intros Htok Hb Hs Hg Hc [Hf Hn]. split; [lia|]. rewrite Hc, Hf, Hn.
  rewrite !(read_between_one _ _ _ _ Htok).
  split; split; try tauto.
  - intros [? | [[? _] | [? _]]]; done.
  - intros [? | (? & _)]; done.
Qed.

(** ** The parsers of single tokens *)

Lemma createAssertionFromToken_refs (parent : option addr) (token : Token.t)
    (s s' : State) (r : addr) :
  createAssertionFromToken parent token s = Ok (r, s') → same_refs s s'.
Proof.
  unfold createAssertionFromToken, alloc.
  destruct (decide _). { by intros [= <- <-]. }
  destruct (assertionKind _); [|done]. by intros [= <- <-].
Qed.

Lemma createCharacterSetFromToken_refs normalize PosixProperties_has
    JsUnicodePropertiesMap_get reformatScriptName
    (parent : option addr) (token : Token.t) (s s' : State) (r : addr) :
  createCharacterSetFromToken normalize PosixProperties_has JsUnicodePropertiesMap_get
    reformatScriptName parent token s = Ok (r, s') →
  same_refs s s'.
Proof.
  unfold createCharacterSetFromToken. cbv zeta.
  destruct (in_table _ TokenCharacterSetKinds.all); [|done]. by intros [= <- <-].
Qed.

Lemma createDirectiveFromToken_refs (parent : option addr) (token : Token.t)
    (s s' : State) (r : addr) :
  createDirectiveFromToken parent token s = Ok (r, s') → same_refs s s'.
Proof.
  unfold createDirectiveFromToken. cbv zeta.
  destruct (in_table _ _); [|done]. by intros [= <- <-].
Qed.

Lemma createVariableLengthCharacterSet_refs (parent : option addr) (kind : string)
    (s s' : State) (r : addr) :
  createVariableLengthCharacterSet parent kind s = Ok (r, s') → same_refs s s'.
Proof.
  unfold createVariableLengthCharacterSet. cbv zeta.
  destruct (_ =? _)%string. { by intros [= <- <-]. }
  destruct (_ =? _)%string; [|done]. by intros [= <- <-].
Qed.

Lemma parseQuantifier_refs (p : addr) (token : Token.t) (s s' : State) (r : addr) :
  parseQuantifier p token s = Ok (r, s') → same_refs s s'.
Proof.
  unfold parseQuantifier, load.
  destruct (heap s !! p) as [np|]; [|done]. simpl.
  destruct (bool_decide _); [done|].
  unfold createQuantifier. destruct (Num_ltb _ _); [done|]. unfold alloc. cbv zeta.
  assert (Hfin : ∀ (node : addr) (s0 : State), same_refs s s0 →
    (Ok (node, s0) : Result (addr * State)) ≫= (λ '(node, s0),
       match heap s0 !! node with Some n => Ok n | None => Throw TypeError end
       ≫= λ nn, match Node.element nn with
                | Some el =>
                    Ok (node, update p pop_elements (update el (Node.set_parent (Some node)) s0))
                | None => Throw TypeError
                end) = Ok (r, s') →
    same_refs s s').
  { intros node s0 Hs0. simpl. destruct (heap s0 !! node) as [nn|]; [|done]. simpl.
    destruct (Node.element nn); [|done]. by intros [= <- <-]. }
  destruct (decide (Token.min token = Token.max token)); [by apply Hfin|].
  destruct (isWithin _ _ _ _ _) as [[]| e |]; simpl; [done | | done | done].
  intros H.
  exact (Hfin (length (heap s)) (set_heap (heap s ++ [_]) s) (same_refs_refl _) H).
Qed.

Lemma getOptimizedGroup_refs (node : addr) (s s' : State) (r : addr) :
  getOptimizedGroup node s = Ok (r, s') → same_refs s s'.
Proof.
  unfold getOptimizedGroup, load.
  destruct (heap s !! node) as [n|]; [|done]. simpl.
  destruct (head _) as [alt|]; [|done].
  destruct (heap s !! alt) as [nalt|]; [|done]. simpl.
  destruct (head _) as [el|]. 2:{ by intros [= <- <-]. }
  destruct (heap s !! el) as [nel|]; [|done]. simpl.
  destruct (_ && _). 2:{ by intros [= <- <-]. }
  destruct (truthy _); [|destruct (defined _)]; by intros [= <- <-].
Qed.

Lemma optimizeClassAt_refs (i : addr) (k : nat) (s : State) :
  same_refs s (optimizeClassAt i k s).
Proof.
  unfold optimizeClassAt.
  destruct (heap s !! i ≫= _) as [cc|]; [|done].
  destruct (heap s !! cc) as [ncc|]; [|done].
  destruct (Node.elements ncc) as [|fc [|]]; [done| |done].
  destruct (heap s !! fc) as [nfc|]; [|done].
  by case_bool_decide.
Qed.

Lemma optimizeCharacterClassIntersection_refs (i : addr) (s : State) :
  same_refs s (optimizeCharacterClassIntersection i s).
Proof.
  unfold optimizeCharacterClassIntersection.
  generalize (default 0 (length ∘ Node.classes <$> heap s !! i)). intros m.
  generalize 0 as k. revert s.
  induction m as [|m IH]; intros s k; simpl; [done|].
  eapply same_refs_trans; [apply (optimizeClassAt_refs i k s) | apply IH].
Qed.

(** ** References *)

(** A backreference sets the flag when it is a numbered one, and only then. *)
Lemma parseBackreference_refs (p : addr) (token : Token.t) (s s' : State) (r : addr) :
  parseBackreference p token s = Ok (r, s') →
  namedGroups s' = namedGroups s ∧
  (hasNumberedGroupRef s' = true ↔
     hasNumberedGroupRef s = true ∨
     hasKWrapper (Token.raw token) = false ∨
     ∃ sign num, NumberedRef false (slice_3_m1 (Token.raw token)) sign num).
Proof.
  unfold parseBackreference. cbv zeta.
  destruct (hasKWrapper _) eqn:Hk.
  - destruct (exec_numberedRef _ _) as [[sign num]|] eqn:He.
    + apply exec_numberedRef_sound in He.
      destruct (toNumber num); [destruct (_ <? _)%Z; [done|]|]; intros [= <- <-];
        (split; [done|]); simpl; split; eauto.
    + destruct (has_sign_char _); [done|]. case_bool_decide; [|done]. intros [= <- <-].
      split; [done|]. simpl. split; [by left|].
      intros [? | [? | (sign & num & HN)]]; [done | done |].
      apply exec_numberedRef_complete in HN. congruence.
  - destruct (toNumber _); [destruct (_ <? _)%Z; [done|]|]; intros [= <- <-];
      (split; [done|]); simpl; split; eauto.
Qed.

(** A subroutine sets the flag when it is a numbered one, and only then. *)
Lemma parseSubroutine_refs (p : addr) (token : Token.t) (s : State) :
  let s' := (parseSubroutine p token s).2 in
  namedGroups s' = namedGroups s ∧
  (hasNumberedGroupRef s' = true ↔
     hasNumberedGroupRef s = true ∨
     ∃ sign num, NumberedRef true (slice_3_m1 (Token.raw token)) sign num).
Proof.
  unfold parseSubroutine. cbv zeta.
  destruct (exec_numberedRef _ _) as [[sign num]|] eqn:He.
  - apply exec_numberedRef_sound in He.
    destruct (toNumber num); (split; [done|]); simpl; split; eauto.
  - split; [done|]. simpl. split; [by left|].
    intros [? | (sign & num & HN)]; [done|].
    apply exec_numberedRef_complete in HN. congruence.
Qed.

(** ** Groups *)

(** The node made for a group token is a capturing group with a name
    exactly when the token opens a named capturing group. *)
Lemma createByGroupKind_named isValidJsGroupName (parent : option addr)
    (token : Token.t) (s s1 : State) (node : addr) :
  Token.type token = TokenTypes.GroupOpen →
  createByGroupKind isValidJsGroupName parent token s = Ok (node, s1) →
  same_refs s s1 ∧
  ∃ nn, heap s1 !! node = Some nn ∧
        ((Node.type nn = AstTypes.CapturingGroup ∧
          ∃ nm, Node.name nn = Some nm ∧ nm ≠ EmptyString) ↔ named_capture token).
Proof.
  intros Hty. unfold named_capture.
  assert (Hinit : ∀ n0,
            same_refs s (withInitialAlternative (length (heap s))
                           (set_heap (heap s ++ [n0]) s)) ∧
            heap (withInitialAlternative (length (heap s)) (set_heap (heap s ++ [n0]) s))
              !! length (heap s)
            = Some (Node.set_alternatives [S (length (heap s))] n0)).
  { intros n0. split; [done|].
    destruct (withInitialAlternative_heap (set_heap (heap s ++ [n0]) s) (heap s) n0 eq_refl)
      as [-> _].
    rewrite lookup_app_r by lia. by rewrite Nat.sub_diag. }
  unfold createByGroupKind. cbv zeta.
  destruct (String.eqb_spec (Token.kind token) TokenGroupKinds.atomic) as [Hk | _].
  { destruct (createGroup_shape parent (Some true) None s) as (n0 & Hn0 & ->).
    intros [= <- <-]. destruct (Hinit n0) as [Hc Hl].
    split; [exact Hc|]. eexists. split; [exact Hl|].
    simpl. rewrite Hn0, Hk. split; [by intros [? _] | by intros (_ & ? & _)]. }
  destruct (String.eqb_spec (Token.kind token) TokenGroupKinds.capturing) as [Hk | Hnk].
  { unfold createCapturingGroup, alloc.
    destruct (Token.name token) as [nm|].
    - destruct (isValidJsGroupName nm); [|done]. intros [= <- <-].
      destruct (Hinit (Node.set_name (Some nm)
                         (Node.set_number (Some (Token.number token))
                            (getNodeBase parent AstTypes.CapturingGroup)))) as [Hc Hl].
      split; [exact Hc|]. eexists. split; [exact Hl|]. simpl. tauto.
    - intros [= <- <-].
      destruct (Hinit (Node.set_number (Some (Token.number token))
                         (getNodeBase parent AstTypes.CapturingGroup))) as [Hc Hl].
      split; [exact Hc|]. eexists. split; [exact Hl|]. simpl.
      split; [by intros (_ & ? & ? & _) | by intros (_ & _ & ? & ? & _)]. }
  destruct (_ =? TokenGroupKinds.group)%string.
  { destruct (createGroup_shape parent None (Token.flags token) s) as (n0 & Hn0 & ->).
    intros [= <- <-]. destruct (Hinit n0) as [Hc Hl].
    split; [exact Hc|]. eexists. split; [exact Hl|].
    simpl. rewrite Hn0. split; [by intros [? _] | by intros (_ & ? & _)]. }
  destruct (_ || _); [|done].
  unfold createAssertionFromToken, alloc.
  destruct (decide (Token.type token = TokenTypes.GroupOpen)); [|done].
  intros [= <- <-].
  match goal with |- context [set_heap (heap s ++ [?n0]) s] =>
    destruct (Hinit n0) as [Hc Hl] end.
  split; [exact Hc|]. eexists. split; [exact Hl|]. simpl.
  split; [by intros [? _] | by intros (_ & ? & _)].
Qed.

(** Registering a group leaves the flag, and names a group exactly when
    the node is a capturing group with a name. *)
Lemma registerGroup_refs (node : addr) (nn : Node.t) (s : State) :
  hasNumberedGroupRef (registerGroup node nn s) = hasNumberedGroupRef s ∧
  (namedGroups (registerGroup node nn s) ≠ ∅ ↔
     namedGroups s ≠ ∅ ∨
     (Node.type nn = AstTypes.CapturingGroup ∧
      ∃ nm, Node.name nn = Some nm ∧ nm ≠ EmptyString)).
Proof.
  unfold registerGroup. case_bool_decide as Hty.
  2:{ split; [done|]. split; [by left|]. by intros [? | [? _]]. }
  destruct (Node.name nn) as [nm|].
  2:{ split; [done|]. simpl. split; [by left|]. by intros [? | (_ & ? & ? & _)]. }
  destruct (String.eqb_spec nm EmptyString) as [-> | Hne].
  { split; [done|]. simpl. split; [by left|].
    intros [? | (_ & ? & [= <-] & ?)]; done. }
  split; [done|]. simpl. split.
  - intros _. right. split; [done|]. by exists nm.
  - intros _ Hempty.
    apply (f_equal (λ m : gmap string (list addr), m !! nm)) in Hempty.
    rewrite lookup_alter_eq, lookup_empty in Hempty.
    case_bool_decide as Hin.
    + destruct Hin as [g Hg]. by rewrite Hg in Hempty.
    + by rewrite lookup_insert_eq in Hempty.
Qed.

Section Census.

Variable tokens : list Token.t.
Variable w : Walk.
Hypothesis w_advances : walker_advances tokens w.
Hypothesis w_census : walker_census tokens w.

Lemma groupLoop_census (n : nat) (node : addr) (s s' : State) :
  groupLoop tokens w n node s = Ok s' → census tokens s s'.
Proof using w_census.
  clear w_advances.
  revert s. induction n as [|n IH]; intros s; simpl; [done|].
  destruct (tokens !! current s) as [tk|] eqn:Htk; [|done].
  case_bool_decide as Hclose. { intros [= <-]. by apply census_same. }
  case_bool_decide as Halt.
  - intros Hloop. apply IH in Hloop.
    eapply census_trans; [|exact Hloop].
    eapply census_step; [exact Htk | | | | done | done]; by rewrite Halt.
  - unfold load. destruct (heap s !! node) as [nn|]; [|done]. simpl.
    destruct (at_last _) as [alt|]; [|done].
    destruct (w alt s) as [[r s1]| |] eqn:Hw; [|done|done]. simpl.
    intros Hloop. apply IH in Hloop. apply w_census in Hw.
    eapply census_trans; [exact Hw|].
    eapply census_trans; [|exact Hloop]. by apply census_same.
Qed.

Lemma classLoop_census (n : nat) (node : addr) (s s' : State) :
  classLoop tokens w n node s = Ok s' → census tokens s s'.
Proof using w_census.
  clear w_advances.
  revert s. induction n as [|n IH]; intros s; simpl; [done|].
  destruct (tokens !! current s) as [tk|] eqn:Htk; [|done].
  case_bool_decide as Hclose. { intros [= <-]. by apply census_same. }
  case_bool_decide as Hint.
  - intros Hloop. apply IH in Hloop.
    eapply census_trans; [|exact Hloop].
    eapply census_step; [exact Htk | | | | done | done]; by rewrite Hint.
  - unfold load. destruct (heap s !! node) as [nn|]; [|done]. simpl.
    destruct (at_last _) as [cc|]; [|done].
    destruct (w cc s) as [[r s1]| |] eqn:Hw; [|done|done]. simpl.
    intros Hloop. apply IH in Hloop. apply w_census in Hw.
    eapply census_trans; [exact Hw|].
    eapply census_trans; [|exact Hloop]. by apply census_same.
Qed.

(** A group, from the state after its opening token: the tokens passed
    account for the flag; a group is named afterwards exactly when one was,
    or the opening token names one, or a token passed does. *)
Lemma parseGroupOpen_census isValidJsGroupName (optimize : bool) (fuel : nat)
    (p : addr) (token : Token.t) (s : State) (r : addr) (s' : State) :
  Token.type token = TokenTypes.GroupOpen →
  parseGroupOpen isValidJsGroupName tokens optimize w fuel p token s = Ok (r, s') →
  current s ≤ current s' ∧
  (hasNumberedGroupRef s' = true ↔
     hasNumberedGroupRef s = true ∨
     read_between tokens numbered_reference (current s) (current s')) ∧
  (namedGroups s' ≠ ∅ ↔
     (namedGroups s ≠ ∅ ∨ named_capture token) ∨
     read_between tokens named_capture (current s) (current s')).
Proof.
  intros Hty. unfold parseGroupOpen.
  destruct (createByGroupKind _ _ _ _) as [[node s1]| |] eqn:Hcreate; [|done|done].
  pose proof (createByGroupKind_current _ _ _ _ _ _ Hcreate) as Hcur1.
  apply (createByGroupKind_named _ _ _ _ _ _ Hty) in Hcreate
    as ([Hf1 Hn1] & nn & Hnn & Hnamed).
  simpl. unfold load. rewrite Hnn. simpl.
  destruct (registerGroup_heap node nn s1) as [_ Hrc].
  destruct (registerGroup_refs node nn s1) as [Hrf Hrn].
  destruct (groupLoop _ _ _ _ _) as [s2| |] eqn:Hloop; [|done|done]. simpl.
  pose proof (groupLoop_cursor tokens w w_advances _ _ _ _ Hloop) as (_ & tok & Htok & Htokty).
  apply groupLoop_census in Hloop as (Hle2 & Hf2 & Hn2).
  rewrite Hrc, Hcur1 in Hle2, Hf2, Hn2. rewrite Hrf, Hf1 in Hf2.
  rewrite Hrn, Hn1, Hnamed in Hn2.
  assert (Hend : ∀ s3, current s3 = current s2 → same_refs s2 s3 →
            current s ≤ current (advance s3) ∧
            (hasNumberedGroupRef (advance s3) = true ↔
               hasNumberedGroupRef s = true ∨
               read_between tokens numbered_reference (current s) (current (advance s3))) ∧
            (namedGroups (advance s3) ≠ ∅ ↔
               (namedGroups s ≠ ∅ ∨ named_capture token) ∨
               read_between tokens named_capture (current s) (current (advance s3)))).
  { intros s3 Hc3 [Hf3 Hn3].
    change (current (advance s3)) with (S (current s3)).
    change (hasNumberedGroupRef (advance s3)) with (hasNumberedGroupRef s3).
    change (namedGroups (advance s3)) with (namedGroups s3).
    rewrite Hc3, Hf3, Hn3. split; [lia|].
    rewrite (read_between_split tokens numbered_reference _ (current s2) (S (current s2)))
      by lia.
    rewrite (read_between_split tokens named_capture _ (current s2) (S (current s2)))
      by lia.
    rewrite !(read_between_one _ _ _ _ Htok).
    assert (¬ numbered_reference tok).
    { intros [[Hb _] | [Hs _]]; rewrite Htokty in *; done. }
    assert (¬ named_capture tok).
    { intros (Hg & _). rewrite Htokty in Hg. done. }
    split; [clear Hn2 Hnamed Hrn | clear Hf2]; tauto. }
  destruct optimize.
  - destruct (getOptimizedGroup node s2) as [[r' s3]| |] eqn:Hopt; [|done|done]. simpl.
    intros [= <- <-]. apply Hend.
    + pose proof (getOptimizedGroup_outcome node s2) as Hout. rewrite Hopt in Hout.
      simpl in Hout.
      destruct Hout as [[_ ->] | (n & alt & nalt & el & nel & g & _ & _ & _ & _ & _ & _ & _ & Hc & _)];
        done.
    + by eapply getOptimizedGroup_refs.
  - simpl. intros [= <- <-]. by apply Hend.
Qed.

Lemma parseCharacterClassOpen_census (optimize : bool) (fuel : nat)
    (p : addr) (negate : option bool) (s : State) (r : addr) (s' : State) :
  parseCharacterClassOpen tokens optimize w fuel p negate s = Ok (r, s') →
  census tokens s s'.
Proof.
  unfold parseCharacterClassOpen.
  destruct (createCharacterClass_heap s p negate) as (_ & _ & Hcur1).
  assert (Hrefs1 : same_refs s (createCharacterClass (Some p) negate s).2) by done.
  destruct (createCharacterClass (Some p) negate s) as [node s1]. simpl in Hcur1, Hrefs1.
  unfold load. destruct (heap s1 !! node) as [nn|]; [|done]. simpl.
  destruct (head _) as [i|]; [|done].
  destruct (classLoop _ _ _ _ _) as [s2| |] eqn:Hloop; [|done|done]. simpl.
  pose proof (classLoop_cursor tokens w w_advances _ _ _ _ Hloop) as (_ & tok & Htok & Htokty).
  apply classLoop_census in Hloop.
  set (s3 := if optimize then optimizeCharacterClassIntersection i s2 else s2).
  assert (Hs3 : current s3 = current s2 ∧ same_refs s2 s3).
  { unfold s3. destruct optimize; [|done]. split.
    - apply optimizeCharacterClassIntersection_current.
    - apply optimizeCharacterClassIntersection_refs. }
  destruct Hs3 as [Hc3 Hr3].
  assert (Hend : ∀ s4, current s4 = current s3 → same_refs s3 s4 →
            census tokens s (advance s4)).
  { intros s4 Hc4 Hr4.
    eapply census_trans; [apply (census_same tokens s s1); done|].
    eapply census_trans; [exact Hloop|].
    eapply census_step; [exact Htok | | | | |]; try (by rewrite Htokty).
    - simpl. congruence.
    - eapply same_refs_trans; [exact Hr3|]. exact Hr4. }
  destruct (heap s3 !! i) as [ni|]; [|done]. simpl.
  destruct (Node.classes ni) as [|cc [|]].
  - intros [= <- <-]. by apply Hend.
  - destruct (heap s3 !! cc) as [ncc|]; [|done]. simpl.
    destruct (heap s3 !! node) as [nn'|]; [|done]. simpl.
    intros [= <- <-]. by apply Hend.
  - intros [= <- <-]. by apply Hend.
Qed.

Lemma parseCharacterClassHyphen_census (p : addr) (next : option Token.t)
    (s : State) (r : addr) (s' : State) :
  parseCharacterClassHyphen w p next s = Ok (r, s') → census tokens s s'.
Proof using w_census.
  clear w_advances.
  unfold parseCharacterClassHyphen, load.
  destruct (heap s !! p) as [np|]; [|done]. simpl.
  destruct (at_last _) as [prev|]; simpl.
  2:{ intros [= <- <-]. by apply census_same. }
  destruct next as [next|].
  2:{ intros [= <- <-]. by apply census_same. }
  destruct (heap s !! prev) as [nprev|]; [|done]. simpl.
  destruct (_ && _).
  2:{ intros [= <- <-]. by apply census_same. }
  destruct (w p s) as [[r1 s1]| |] eqn:Hw; [|done|done]. simpl.
  destruct (heap s1 !! prev) as [nprev'|]; [|done]. simpl.
  destruct (heap s1 !! r1) as [n1|]; [|done]. simpl.
  destruct (_ && _); [|done].
  destruct (createCharacterClassRange _ _ _ _) as [[r2 s2]| |] eqn:Hr; [|done|done].
  simpl. intros [= <- <-].
  apply w_census in Hw. eapply census_trans; [exact Hw|].
  assert (same_refs s1 s2 ∧ current s2 = current s1) as [Hg Hc].
  { revert Hr. unfold createCharacterClassRange, load. simpl.
    destruct (_ !! prev) as [a|]; [|done]. simpl.
    destruct (_ !! r1) as [b|]; [|done]. simpl.
    destruct (value_ltb _ _); [done|]. by intros [= <- <-]. }
  by apply census_same.
Qed.

End Census.

Section WalkCensus.

Variable isValidJsGroupName : string → bool.
Variable normalize : string → string.
Variable PosixProperties_has : string → bool.
Variable JsUnicodePropertiesMap_get : string → option string.
Variable reformatScriptName : string → string.
Variable tokens : list Token.t.
Variable optimize : bool.

Local Abbreviation walk' :=
  (walk isValidJsGroupName normalize PosixProperties_has JsUnicodePropertiesMap_get
     reformatScriptName tokens optimize).

Lemma walk_census (fuel : nat) : walker_census tokens (walk' fuel).
Proof.
  induction fuel as [|fuel IH]; intros p s r s'; simpl; [done|].
  destruct (tokens !! current s) as [token|] eqn:Htok; [|done].
  pose proof (walk_advances isValidJsGroupName normalize PosixProperties_has
                JsUnicodePropertiesMap_get reformatScriptName tokens optimize fuel) as Hadv.
  assert (Hleaf : ∀ s', Token.type token ≠ TokenTypes.Backreference →
            Token.type token ≠ TokenTypes.Subroutine →
            Token.type token ≠ TokenTypes.GroupOpen →
            current s' = current (advance s) → same_refs (advance s) s' →
            census tokens s s').
  { intros s0 Hb Hs Hg Hc Hr. by eapply census_step. }
  assert (Hnest : ∀ s', Token.type token ≠ TokenTypes.Backreference →
            Token.type token ≠ TokenTypes.Subroutine →
            Token.type token ≠ TokenTypes.GroupOpen →
            census tokens (advance s) s' → census tokens s s').
  { intros s0 Hb Hs Hg Hcen. eapply census_trans; [|exact Hcen].
    by eapply census_step. }
  destruct (Token.type token) eqn:Hty; try done.
  - unfold load. destruct (heap (advance s) !! p) as [np|]; [|done]. simpl.
    intros [= <- <-]. by apply Hleaf.
  - intros Hres. apply Hleaf; try done.
    + eapply allocs_leaf_current, createAssertionFromToken_leaf; [|exact Hres].
      by rewrite Hty.
    + by eapply createAssertionFromToken_refs.
  - intros Hres.
    pose proof (allocs_leaf_current _ _ _ _ (parseBackreference_leaf _ _ _ _ _ Hres)) as Hc.
    apply parseBackreference_refs in Hres as [Hn Hf].
    split; [rewrite Hc; simpl; lia|]. rewrite Hc, Hn.
    change (current (advance s)) with (S (current s)).
    change (namedGroups (advance s)) with (namedGroups s).
    change (hasNumberedGroupRef (advance s)) with (hasNumberedGroupRef s) in Hf.
    rewrite !(read_between_one _ _ _ _ Htok), Hf. unfold numbered_reference, named_capture.
    rewrite Hty. split; split; try tauto.
    + intros [? | [[_ ?] | [? _]]]; [tauto | tauto | done].
    + intros [? | (? & _)]; done.
  - intros [= <- <-]. by apply Hleaf.
  - intros Hres. apply Hnest; try done.
    by eapply (parseCharacterClassHyphen_census tokens (walk' fuel) IH).
  - intros Hres. apply Hnest; try done.
    by eapply (parseCharacterClassOpen_census tokens (walk' fuel) Hadv IH).
  - intros Hres. apply Hleaf; try done.
    + by eapply allocs_leaf_current, createCharacterSetFromToken_leaf.
    + by eapply createCharacterSetFromToken_refs.
  - intros Hres. apply Hleaf; try done.
    + by eapply allocs_leaf_current, createDirectiveFromToken_leaf.
    + by eapply createDirectiveFromToken_refs.
  - intros Hres.
    apply (parseGroupOpen_census tokens (walk' fuel) Hadv IH) in Hres
      as (Hle & Hf & Hn); [|done].
    change (current (advance s)) with (S (current s)) in Hle, Hf, Hn.
    change (namedGroups (advance s)) with (namedGroups s) in Hn.
    change (hasNumberedGroupRef (advance s)) with (hasNumberedGroupRef s) in Hf.
    split; [lia|].
    rewrite (read_between_split tokens numbered_reference _ (S (current s)) (current s'))
      by lia.
    rewrite (read_between_split tokens named_capture _ (S (current s)) (current s'))
      by lia.
    rewrite !(read_between_one _ _ _ _ Htok).
    assert (¬ numbered_reference token).
    { intros [[Hb _] | [Hs _]]; rewrite Hty in *; done. }
    split; tauto.
  - intros Hres. apply Hleaf; try done.
    + destruct (heap (advance s) !! p) as [np|] eqn:Hp.
      * by destruct (parseQuantifier_Ok p token (advance s) s' r np Hp Hres)
          as (rest & e & q0 & _ & _ & _ & _ & _ & Hcur & _).
      * unfold parseQuantifier, load in Hres. by rewrite Hp in Hres.
    + by eapply parseQuantifier_refs.
  - intros Hres.
    assert (s' = (parseSubroutine p token (advance s)).2) as ->.
    { injection Hres as Hres. by rewrite Hres. }
    pose proof (allocs_leaf_current _ p _ _ (parseSubroutine_leaf p token (advance s))) as Hc.
    destruct (parseSubroutine_refs p token (advance s)) as [Hn Hf].
    split; [rewrite Hc; simpl; lia|]. rewrite Hc, Hn.
    change (current (advance s)) with (S (current s)).
    change (namedGroups (advance s)) with (namedGroups s).
    change (hasNumberedGroupRef (advance s)) with (hasNumberedGroupRef s) in Hf.
    rewrite !(read_between_one _ _ _ _ Htok), Hf. unfold numbered_reference, named_capture.
    rewrite Hty. split; split; try tauto.
    + intros [? | [[? _] | [_ ?]]]; [tauto | done | tauto].
    + intros [? | (? & _)]; done.
  - intros Hres. apply Hleaf; try done.
    + by eapply allocs_leaf_current, createVariableLengthCharacterSet_leaf.
    + by eapply createVariableLengthCharacterSet_refs.
Qed.

Lemma parseLoop_census (w : Walk) (n : nat) (ast top : addr) (s s' : State) :
  walker_census tokens w →
  parseLoop tokens w n ast top s = Ok s' → census tokens s s'.
Proof.
  intros Hw. revert top s. induction n as [|n IH]; intros top s; simpl; [done|].
  destruct (current s <? length tokens).
  - destruct (w top s) as [[node s1]| |] eqn:Hwalk; [|done|done]. simpl.
    apply Hw in Hwalk.
    unfold load. destruct (heap s1 !! node) as [nn|]; [|done]. simpl.
    case_bool_decide.
    + destruct (heap s1 !! ast) as [nast|]; [|done]. simpl.
      destruct (Node.pattern nast) as [pat|]; [|done].
      intros Hloop. apply IH in Hloop.
      eapply census_trans; [exact Hwalk|].
      eapply census_trans; [|exact Hloop]. by apply census_same.
    + intros Hloop. apply IH in Hloop.
      eapply census_trans; [exact Hwalk|].
      eapply census_trans; [|exact Hloop]. by apply census_same.
  - intros [= <-]. by apply census_same.
Qed.

(** When the walk is complete, the flag is set exactly when the pattern
    has a numbered reference, and a group is named exactly when the pattern
    has a named capturing group. *)
Lemma walkTokens_census (flags : FlagValues) (root : addr) (s : State) :
  walkTokens isValidJsGroupName normalize PosixProperties_has JsUnicodePropertiesMap_get
    reformatScriptName tokens optimize flags = Ok (root, s) →
  (hasNumberedGroupRef s = true ↔ Exists numbered_reference tokens) ∧
  (namedGroups s ≠ ∅ ↔ Exists named_capture tokens).
Proof.
  intros Hwalk.
  unfold walkTokens in Hwalk. rewrite createRegExp_initial in Hwalk.
  cbn -[parseLoop walk parse_fuel] in Hwalk.
  destruct (parseLoop _ _ _ _ _ _) as [s2| |] eqn:Hloop; [|done|done].
  injection Hwalk as <- <-.
  assert (Hcur : current s2 = length tokens).
  { eapply parseLoop_cursor; [|exact Hloop|simpl; lia]. apply walk_advances. }
  apply parseLoop_census in Hloop as (_ & Hf & Hn); [|apply walk_census].
  simpl in Hf, Hn. rewrite Hcur in Hf, Hn.
  rewrite read_between_all in Hf, Hn.
  split; [rewrite Hf | rewrite Hn]; split; try tauto; intros [? | ?]; done.
Qed.

End WalkCensus.

(** C6.  Once the walk is complete, with root [root] and state [s], the
    numbered-reference flag is set exactly when one of the tokens is a
    numbered backreference or subroutine, and the named-groups map is not
    empty exactly when one of the tokens opens a named capturing group.
    Parsing fails with [NumericRefWithNamedCapture] if and only if both
    occur among the tokens.  Otherwise the recorded subroutines are checked
    in order, and the first that fails decides the error: a numeric [ref]
    outside [1 .. number of capturing groups] gives
    [SubroutineGroupUndefined], a name absent from the named-groups map
    [SubroutineNameUndefined], a name registered for more than one group
    [SubroutineNameAmbiguous].  If every recorded subroutine passes, the
    [RegExp] root is returned. *)
Theorem postPass_verdict
    (isValidJsGroupName : string → bool) (normalize : string → string)
    (PosixProperties_has : string → bool)
    (JsUnicodePropertiesMap_get : string → option string)
    (reformatScriptName : string → string)
    (tokens : list Token.t) (optimize : bool) (flags : FlagValues)
    (root : addr) (s : State) :
  walkTokens isValidJsGroupName normalize PosixProperties_has JsUnicodePropertiesMap_get
    reformatScriptName tokens optimize flags = Ok (root, s) →
  let res :=
    parse isValidJsGroupName normalize PosixProperties_has JsUnicodePropertiesMap_get
      reformatScriptName tokens optimize flags in
  let clash := Exists numbered_reference tokens ∧ Exists named_capture tokens in
  (hasNumberedGroupRef s = true ↔ Exists numbered_reference tokens) ∧
  (namedGroups s ≠ ∅ ↔ Exists named_capture tokens) ∧
  (res = Throw NumericRefWithNamedCapture ↔ clash) ∧
  (¬ clash →
     (∀ pre sub post e,
        subroutines s = pre ++ sub :: post →
        Forall (subroutine_passes s) pre → subroutine_fails s sub e →
        res = Throw e) ∧
     (Forall (subroutine_passes s) (subroutines s) → res = Ok (root, s))).
Proof.
  intros Hwalk res clash.
  destruct (walkTokens_census _ _ _ _ _ _ _ _ _ _ Hwalk) as [Hflag Hnamed].
  split; [exact Hflag|]. split; [exact Hnamed|].
  subst res. unfold parse. rewrite Hwalk. simpl. unfold postPass.
  assert (Hclash : hasNumberedGroupRef s && negb (bool_decide (size (namedGroups s) = 0))
                   = true ↔ clash).
  { unfold clash. rewrite andb_true_iff, negb_true_iff, bool_decide_eq_false.
    by rewrite map_size_empty_iff, Hflag, Hnamed. }
  split.
  - split.
    + intros Hres. apply Hclash.
      destruct (hasNumberedGroupRef s && _); [done|].
      pose proof (checkSubroutines_not_numeric_clash s (subroutines s)) as Hno.
      destruct (checkSubroutines s (subroutines s)) as [[]| e |]; simpl in Hres; congruence.
    + intros Hc. by rewrite (proj2 Hclash Hc).
  - intros Hno.
    assert (hasNumberedGroupRef s && negb (bool_decide (size (namedGroups s) = 0)) = false)
      as -> by (apply not_true_iff_false; by rewrite Hclash).
    split.
    + intros pre sub post e Hsubs Hpre Hfail.
      by rewrite Hsubs, (checkSubroutines_first_failure s pre post sub e Hpre Hfail).
    + intros Hall. by rewrite (checkSubroutines_all_pass s _ Hall).
Qed.

Lemma numbered_then_named_walk :
  walkTokens_plain Tokens.numbered_then_named false noFlags
  = Ok (0, state_after_numbered_then_named).
Proof. vm_compute. reflexivity. Defined.

Lemma numbered_then_named_clash :
  Exists numbered_reference Tokens.numbered_then_named ∧
  Exists named_capture Tokens.numbered_then_named.
Proof.
  split.
  - apply Exists_cons_hd. right. split; [reflexivity|].
    exists EmptyString, "1"%string.
    exact (NumberedRef_intro true EmptyString 0 "1" EmptyString
             (or_introl eq_refl) eq_refl eq_refl).
  - apply Exists_cons_tl, Exists_cons_hd.
    split; [reflexivity|]. split; [reflexivity|].
    exists "a"%string. split; [reflexivity | discriminate].
Defined.

Lemma capture_subroutine_no_name :
  ¬ Exists named_capture Tokens.capture_then_relative_subroutine.
Proof.
  intros H. apply Exists_exists in H as (tok & Hin & _ & _ & nm & Hname & _).
  repeat (apply elem_of_cons in Hin as [-> | Hin]; [discriminate Hname|]).
  by apply elem_of_nil in Hin.
Defined.

(** C6, at two concrete inputs.  After the walk over [(a)\g<-1>] there is
    a numbered reference but no named group, the one recorded subroutine
    passes, and the root is returned.  After the walk over [\g<1>(?<a>)]
    there are both, and parsing fails. *)
Lemma postPass_verdict_witness :
  parse_plain Tokens.capture_then_relative_subroutine false noFlags
  = Ok (0, state_after_capture_subroutine) ∧
  parse_plain Tokens.numbered_then_named false noFlags = Throw NumericRefWithNamedCapture.
Proof.
  split.
  - destruct (postPass_verdict _ _ _ _ _ _ _ _ 0 state_after_capture_subroutine
                capture_subroutine_walk) as (_ & _ & _ & Hchecks).
    destruct Hchecks as [_ Hpass].
    + intros [_ Hnamed]. exact (capture_subroutine_no_name Hnamed).
    + apply Hpass. exact capture_subroutine_all_pass.
  - destruct (postPass_verdict _ _ _ _ _ _ _ _ 0 state_after_numbered_then_named
                numbered_then_named_walk) as (_ & _ & [_ Hthrow] & _).
    apply Hthrow. exact numbered_then_named_clash.
Defined.
